(** * zero-mapper: cross-catalog identity resolution

    A shallow embedding of the matching engine of the repository:
    - [src/providers/hianime.ts]   (module [HiAnime]),
    - the AnimeSama provider        (module [AnimeSama]),
    - [src/mappers/cross-mapper.ts] (modules [CrossMapper], [Mapper],
      [MapperCache] and [MapperFlow]),
    - the rounding of a quotient to a double (module [Double]),
    - [parseInt], the retry loop and the slugs of the providers (modules
      [JsNumber], [Retry] and [SamaSlug]).

    Conventions.
    - A JavaScript string is a Rocq [string] whose characters are the code
      units U+0000..U+00FF (Latin-1): [String.length] is the JS [length],
      the character 189 is the vulgar fraction one half and 215 the
      multiplication sign.
    - JavaScript numbers that hold counts are [Z] or [N]; confidence scores
      are exact rationals ([Q]), compared with [==].  The episode ratio of
      the split-cour test is the double that the division returns.
    - [null]/[undefined] are [None]; truthiness is written out.
    - A network collaborator is a function argument; a rejected promise is
      [None]. *)

From Stdlib Require Import ZArith NArith QArith List String Ascii Bool Lia Lqa.
From Stdlib Require Import Qminmax Qround Qpower DecimalString.
From Stdlib Require Floats.SpecFloat.
From stdpp Require Import gmap strings.

Import ListNotations.
Local Open Scope string_scope.
Local Open Scope list_scope.

(** ** JavaScript string primitives *)

Module Js.

Definition code (c : ascii) : N := N_of_ascii c.

Definition between (lo hi : N) (c : ascii) : bool :=
  ((lo <=? code c) && (code c <=? hi))%N.

(** [\d], [\w] and [\s] of a regular expression without the [u] flag. *)
Definition isDigit (c : ascii) : bool := between 48 57 c.
Definition isUpper (c : ascii) : bool := between 65 90 c.
Definition isLower (c : ascii) : bool := between 97 122 c.
Definition isWord (c : ascii) : bool :=
  isDigit c || isUpper c || isLower c || (code c =? 95)%N.
Definition isSpace (c : ascii) : bool :=
  between 9 13 c || (code c =? 32)%N || (code c =? 160)%N.

(** [String.prototype.toLowerCase] on Latin-1: A-Z and the accented capitals
    U+00C0..U+00DE (the multiplication sign U+00D7 apart) move by 32. *)
Definition lowerChar (c : ascii) : ascii :=
  if isUpper c || (between 192 222 c && negb (code c =? 215)%N)
  then ascii_of_N (code c + 32)
  else c.

Fixpoint toLowerCase (s : string) : string :=
  match s with
  | EmptyString => EmptyString
  | String c s' => String (lowerChar c) (toLowerCase s')
  end.

Definition upperChar (c : ascii) : ascii :=
  if isLower c then ascii_of_N (code c - 32) else c.

Fixpoint toUpperCaseAscii (s : string) : string :=
  match s with
  | EmptyString => EmptyString
  | String c s' => String (upperChar c) (toUpperCaseAscii s')
  end.

(** [s.replace(/[class]/g, r)]: every character of the class becomes [r]. *)
Fixpoint replaceAll (p : ascii -> bool) (r : string) (s : string) : string :=
  match s with
  | EmptyString => EmptyString
  | String c s' =>
      if p c then r ++ replaceAll p r s' else String c (replaceAll p r s')
  end.

(** [s.replace(/\s+/g, ' ')]: [inRun] tells that the previous character was
    white space, whose run has already produced its single blank. *)
Fixpoint collapseFrom (inRun : bool) (s : string) : string :=
  match s with
  | EmptyString => EmptyString
  | String c s' =>
      if isSpace c
      then (if inRun then collapseFrom true s'
            else String " " (collapseFrom true s'))
      else String c (collapseFrom false s')
  end.

Definition collapseSpaces (s : string) : string := collapseFrom false s.

Fixpoint trimStart (s : string) : string :=
  match s with
  | EmptyString => EmptyString
  | String c s' => if isSpace c then trimStart s' else s
  end.

Fixpoint trimEnd (s : string) : string :=
  match s with
  | EmptyString => EmptyString
  | String c s' =>
      match trimEnd s' with
      | EmptyString => if isSpace c then EmptyString else String c EmptyString
      | t => String c t
      end
  end.

Definition trim (s : string) : string := trimEnd (trimStart s).

(** [s.split(sep)] for a one-character separator: never the empty list. *)
Fixpoint split (sep : ascii) (s : string) : list string :=
  match s with
  | EmptyString => [EmptyString]
  | String c s' =>
      if Ascii.eqb c sep then EmptyString :: split sep s'
      else match split sep s' with
           | w :: ws => String c w :: ws
           | [] => [String c EmptyString]
           end
  end.

(** [s.includes(t)]. *)
Fixpoint includes (s t : string) : bool :=
  String.prefix t s ||
  match s with
  | EmptyString => false
  | String _ s' => includes s' t
  end.

(** [s.startsWith(t)] up to the case of ASCII letters, as under the [i]
    flag. *)
Definition prefixCI (t s : string) : bool :=
  String.prefix (toUpperCaseAscii t) (toUpperCaseAscii s).

Fixpoint takeWhile (p : ascii -> bool) (s : string) : string :=
  match s with
  | EmptyString => EmptyString
  | String c s' => if p c then String c (takeWhile p s') else EmptyString
  end.

Fixpoint dropWhile (p : ascii -> bool) (s : string) : string :=
  match s with
  | EmptyString => EmptyString
  | String c s' => if p c then dropWhile p s' else s
  end.

Fixpoint drop (n : nat) (s : string) : string :=
  match n, s with
  | O, _ => s
  | S n', String _ s' => drop n' s'
  | S _, EmptyString => EmptyString
  end.

(** [parseInt] of a non-empty run of decimal digits (the exact integer,
    which is the JavaScript number below 2^53). *)
Definition digitValue (c : ascii) : N := (code c - 48)%N.

Fixpoint parseDigitsFrom (acc : N) (s : string) : N :=
  match s with
  | EmptyString => acc
  | String c s' => parseDigitsFrom (10 * acc + digitValue c)%N s'
  end.

Definition parseInt (digits : string) : N := parseDigitsFrom 0%N digits.

(** [n.toString()] of a non-negative integer. *)
Definition toString (n : N) : string :=
  NilZero.string_of_uint (N.to_uint n).

(** [`${z}`] for an integer. *)
Definition showZ (z : Z) : string :=
  if (z <? 0)%Z then String "-"%char (toString (Z.to_N (- z)))
  else toString (Z.to_N z).

(** Truthiness of a string and of a number. *)
Definition nonEmpty (s : string) : bool :=
  match s with EmptyString => false | _ => true end.

Definition truthyZ (z : option Z) : bool :=
  match z with Some v => negb (v =? 0)%Z | None => false end.

Definition truthyN (n : option N) : bool :=
  match n with Some v => negb (v =? 0)%N | None => false end.

End Js.

(** ** Hand-written matchers for the regular expressions of the source

    Every pattern of the source is deterministic once its start position is
    fixed (a greedy run of digits or blanks is never followed by a character
    of the same class), so [search] over the start positions gives the
    leftmost match that [String.prototype.match] returns. *)

Module Re.
Import Js.

(** Leftmost start position at which [f] matches; [f] sees the suffix. *)
Fixpoint search {A : Type} (f : string -> option A) (s : string) : option A :=
  match f s with
  | Some r => Some r
  | None =>
      match s with
      | EmptyString => None
      | String _ s' => search f s'
      end
  end.

(** The same with the character before the position, for [\b]. *)
Fixpoint searchB {A : Type} (f : option ascii -> string -> option A)
    (prev : option ascii) (s : string) : option A :=
  match f prev s with
  | Some r => Some r
  | None =>
      match s with
      | EmptyString => None
      | String c s' => searchB f (Some c) s'
      end
  end.

Definition isWordOpt (c : option ascii) : bool :=
  match c with Some c => isWord c | None => false end.

Definition headOpt (s : string) : option ascii :=
  match s with EmptyString => None | String c _ => Some c end.

(** [(\d+)] at the head of [s]: the digits and what follows them. *)
Definition digitsThen (s : string) : option (string * string) :=
  let ds := takeWhile isDigit s in
  if nonEmpty ds then Some (ds, dropWhile isDigit s) else None.

(** [/kw\s*(\d+)/i] at the head of [s]. *)
Definition kwDigitsAt (kw : string) (s : string) : option string :=
  if prefixCI kw s
  then match digitsThen (dropWhile isSpace (drop (String.length kw) s)) with
       | Some (ds, _) => Some ds
       | None => None
       end
  else None.

(** [/\sX(\d+)(?:\s|$)/i] at the head of [s], for a letter [X]. *)
Definition spaceLetterDigitsAt (letter : string) (s : string) : option string :=
  match s with
  | String c s' =>
      if isSpace c && prefixCI letter s'
      then match digitsThen (drop (String.length letter) s') with
           | Some (ds, rest) =>
               match rest with
               | EmptyString => Some ds
               | String r _ => if isSpace r then Some ds else None
               end
           | None => None
           end
      else None
  | EmptyString => None
  end.

(** [/\((\d{4})\)/] at the head of [s]. *)
Definition parenYearAt (s : string) : option string :=
  match s with
  | String p (String a (String b (String c (String d (String q _))))) =>
      if Ascii.eqb p "("%char && isDigit a && isDigit b && isDigit c
         && isDigit d && Ascii.eqb q ")"%char
      then Some (String a (String b (String c (String d EmptyString))))
      else None
  | _ => None
  end.

(** [/(\d+)m/] at the head of [s]. *)
Definition digitsMAt (s : string) : option string :=
  match digitsThen s with
  | Some (ds, String m _) => if Ascii.eqb m "m"%char then Some ds else None
  | _ => None
  end.

End Re.

(** ** The word-variation expander, shared by the two providers

    The body of [getWordVariations] is the same in both files; only the two
    tables and [normalizeText] differ. *)

Module WordVariations.
Import Js.

Section Tables.
Variable normalizeText : string -> string.
Variable TITLE_REPLACEMENTS : list (string * list string).
Variable SEQUEL_PATTERNS : list (string * list string).

(** [Set.prototype.add] on a set kept in insertion order. *)
Definition setAdd (x : string) (set : list string) : list string :=
  if existsb (String.eqb x) set then set else set ++ [x].

Definition addAll (values : list string) (set : list string) : list string :=
  fold_left (fun acc v => setAdd v acc) values set.

(** One turn of [for (const [key, values] of Object.entries(table))]. *)
Definition tableStep (normalized : string) (key : string)
    (values : list string) (set : list string) : list string :=
  if String.eqb normalized key then addAll values set
  else if existsb (String.eqb normalized) values
       then addAll values (setAdd key set)
       else set.

(** What [getWordVariations] computes on a cache miss. *)
Definition computeVariations (word : string) : list string :=
  let variations := [word] in
  let normalized := normalizeText word in
  let variations := setAdd normalized variations in
  let withoutNumbers := trim (replaceAll isDigit EmptyString word) in
  let variations :=
    if String.eqb withoutNumbers word then variations
    else setAdd withoutNumbers variations in
  let variations :=
    fold_left (fun acc kv => tableStep normalized (fst kv) (snd kv) acc)
      TITLE_REPLACEMENTS variations in
  fold_left
    (fun acc kv => tableStep normalized (normalizeText (fst kv)) (snd kv) acc)
    SEQUEL_PATTERNS variations.

(** [getWordVariations], with [wordVariationsCache] passed explicitly. *)
Definition getWordVariations (word : string)
    (cache : gmap string (list string))
    : list string * gmap string (list string) :=
  let cacheKey := toLowerCase word in
  match cache !! cacheKey with
  | Some cached => (cached, cache)
  | None =>
      let result := computeVariations word in
      (result, <[cacheKey := result]> cache)
  end.

(** [words.map(w => getWordVariations(w))]. *)
Fixpoint mapVariations (words : list string)
    (cache : gmap string (list string))
    : list (list string) * gmap string (list string) :=
  match words with
  | [] => ([], cache)
  | w :: ws =>
      let '(v, cache) := getWordVariations w cache in
      let '(vs, cache) := mapVariations ws cache in
      (v :: vs, cache)
  end.

(** The innermost loop: one search variation against the variations of one
    target word, from the running [bestWordMatch]. *)
Fixpoint matchTitleVars (searchVar : string) (titleVars : list string)
    (bestWordMatch : Q) : Q :=
  match titleVars with
  | [] => bestWordMatch
  | titleVar :: rest =>
      if String.eqb searchVar titleVar then 1%Q
      else if includes searchVar titleVar || includes titleVar searchVar
      then
        let matchLength :=
          Nat.min (String.length searchVar) (String.length titleVar) in
        let maxLength :=
          Nat.max (String.length searchVar) (String.length titleVar) in
        matchTitleVars searchVar rest
          (Qmax bestWordMatch
             (inject_Z (Z.of_nat matchLength)
              / inject_Z (Z.of_nat maxLength))%Q)
      else matchTitleVars searchVar rest bestWordMatch
  end.

(** The loop over the search variations, left when the match is 1. *)
Fixpoint matchSearchVars (searchVars titleVars : list string)
    (bestWordMatch : Q) : Q :=
  match searchVars with
  | [] => bestWordMatch
  | searchVar :: rest =>
      let best := matchTitleVars searchVar titleVars bestWordMatch in
      if Qeq_bool best 1 then best
      else matchSearchVars rest titleVars best
  end.

(** The loop over the target words, left when the match is 1. *)
Fixpoint matchTitleWords (searchVars : list string)
    (titleVariations : list (list string)) (bestWordMatch : Q) : Q :=
  match titleVariations with
  | [] => bestWordMatch
  | titleVars :: rest =>
      let best := matchSearchVars searchVars titleVars bestWordMatch in
      if Qeq_bool best 1 then best
      else matchTitleWords searchVars rest best
  end.

(** The loop over the search words: [(matches, partialMatches)]. *)
Fixpoint countMatches (searchVariations titleVariations : list (list string))
    (matches partialMatches : Q) : Q * Q :=
  match searchVariations with
  | [] => (matches, partialMatches)
  | searchVars :: rest =>
      let bestWordMatch := matchTitleWords searchVars titleVariations 0%Q in
      if Qeq_bool bestWordMatch 1
      then countMatches rest titleVariations (matches + 1)%Q partialMatches
      else if Qlt_le_dec 0 bestWordMatch
           then countMatches rest titleVariations matches
                  (partialMatches + bestWordMatch)%Q
           else countMatches rest titleVariations matches partialMatches
  end.

Definition wordMatchScore (searchVariations titleVariations : list (list string))
    : Q :=
  let '(matches, partialMatches) :=
    countMatches searchVariations titleVariations 0%Q 0%Q in
  ((matches + partialMatches * (5 # 10))
    / inject_Z (Z.of_nat (List.length searchVariations)))%Q.

End Tables.
End WordVariations.

(** ** Global replacement of a pattern by the empty string *)

Module Replace.
Import Js.

(** [s.replace(/re/g, '')]: [matchLen prev s] is the length of the match of
    [re] at the head of [s] ([prev] is the character before it), [skip] the
    number of characters of the current match still to be dropped. *)
Fixpoint removeMatches (matchLen : option ascii -> string -> option nat)
    (skip : nat) (prev : option ascii) (s : string) : string :=
  match s with
  | EmptyString => EmptyString
  | String c s' =>
      match skip with
      | S k => removeMatches matchLen k (Some c) s'
      | O =>
          match matchLen prev s with
          | Some (S k) => removeMatches matchLen k (Some c) s'
          | _ => String c (removeMatches matchLen 0 (Some c) s')
          end
      end
  end.

(** Length of the prefix of [s] up to and including the first [c]. *)
Fixpoint lengthThrough (c : ascii) (s : string) : option nat :=
  match s with
  | EmptyString => None
  | String d s' =>
      if Ascii.eqb d c then Some 1%nat
      else match lengthThrough c s' with
           | Some n => Some (S n)
           | None => None
           end
  end.

(** [/\([^)]*\)/]. *)
Definition parenGroupLen (_ : option ascii) (s : string) : option nat :=
  match s with
  | String p s' =>
      if Ascii.eqb p "("%char
      then match lengthThrough ")"%char s' with
           | Some n => Some (S n)
           | None => None
           end
      else None
  | EmptyString => None
  end.

(** [/kw \d+/i], the keyword followed by exactly one blank. *)
Definition kwBlankDigitsLen (kw : string) (_ : option ascii) (s : string)
    : option nat :=
  if prefixCI (kw ++ " ") s
  then match takeWhile isDigit (drop (S (String.length kw)) s) with
       | EmptyString => None
       | ds => Some (S (String.length kw) + String.length ds)%nat
       end
  else None.

(** [/\b(19|20)\d{2}\b/]. *)
Definition yearLen (prev : option ascii) (s : string) : option nat :=
  match s with
  | String a (String b (String c (String d rest))) =>
      if negb (Re.isWordOpt prev)
         && ((Ascii.eqb a "1"%char && Ascii.eqb b "9"%char)
             || (Ascii.eqb a "2"%char && Ascii.eqb b "0"%char))
         && isDigit c && isDigit d
         && negb (Re.isWordOpt (Re.headOpt rest))
      then Some 4%nat
      else None
  | _ => None
  end.

End Replace.

(** ** Whole-string similarity

    Modelled from the spec: the whole-string bigram (Dice) similarity of
    section 4.3; the package [string-similarity-js] that the providers import
    is not part of the repository.  The engine below takes the similarity as
    a parameter; [dice] is the instance used to run it. *)

Module Similarity.
Import Js.

Fixpoint bigrams (s : string) : list (ascii * ascii) :=
  match s with
  | String a s' =>
      match s' with
      | String b _ => (a, b) :: bigrams s'
      | EmptyString => []
      end
  | EmptyString => []
  end.

Definition bigramEqb (x y : ascii * ascii) : bool :=
  Ascii.eqb (fst x) (fst y) && Ascii.eqb (snd x) (snd y).

(** Take one occurrence of [x] out of the multiset [pool]. *)
Fixpoint takeOne (x : ascii * ascii) (pool : list (ascii * ascii))
    : option (list (ascii * ascii)) :=
  match pool with
  | [] => None
  | y :: pool' =>
      if bigramEqb x y then Some pool'
      else match takeOne x pool' with
           | Some rest => Some (y :: rest)
           | None => None
           end
  end.

Fixpoint countShared (xs pool : list (ascii * ascii)) : nat :=
  match xs with
  | [] => O
  | x :: xs' =>
      match takeOne x pool with
      | Some pool' => S (countShared xs' pool')
      | None => countShared xs' pool
      end
  end.

(** Modelled from the spec: [stringSimilarity.stringSimilarity] of the
    package [string-similarity-js], which is not in the repository, as the
    bigram (Dice) coefficient of the lowercased strings: twice the number of
    shared bigrams over the number of bigrams of both, and 0 when a string
    has fewer than two characters. *)
Definition dice (str1 str2 : string) : Q :=
  let str1 := toLowerCase str1 in
  let str2 := toLowerCase str2 in
  if (String.length str1 <? 2)%nat || (String.length str2 <? 2)%nat then 0%Q
  else
    (inject_Z (Z.of_nat (countShared (bigrams str2) (bigrams str1)) * 2)
     / inject_Z (Z.of_nat (String.length str1 + String.length str2 - 2)))%Q.

End Similarity.

(** ** The HiAnime provider ([src/providers/hianime.ts]) *)

Module HiAnime.
Import Js.

Definition TITLE_REPLACEMENTS : list (string * list string) :=
  [ ("season", ["s"; "sz"]);
    ("s", ["season"; "sz"]);
    ("sz", ["season"; "s"]);
    ("two", ["2"; "ii"]);
    ("three", ["3"; "iii"]);
    ("four", ["4"; "iv"]);
    ("five", ["5"; "v"]);
    ("six", ["6"; "vi"]);
    ("part", ["pt"; "p"]);
    ("episode", ["ep"]);
    ("chapters", ["ch"]);
    ("chapter", ["ch"]);
    ("first", ["1"; "i"]);
    ("second", ["2"; "ii"]);
    ("third", ["3"; "iii"]);
    ("fourth", ["4"; "iv"]);
    ("fifth", ["5"; "v"]);
    ("sixth", ["6"; "vi"]) ].

Definition SEQUEL_PATTERNS : list (string * list string) :=
  [ ("2nd season", ["second season"; "s2"; "season 2"; "season two"; "ii"]);
    ("3rd season", ["third season"; "s3"; "season 3"; "season three"; "iii"]);
    ("4th season", ["fourth season"; "s4"; "season 4"; "season four"; "iv"]);
    ("part 2", ["part two"; "p2"; "pt 2"; "cour 2"]);
    ("part 3", ["part three"; "p3"; "pt 3"; "cour 3"]);
    ("final season", ["last season"; "end"; "finale"; "final"]);
    ("2nd cour", ["second cour"; "cour 2"]);
    ("3rd cour", ["third cour"; "cour 3"]) ].

Definition normalizeText (text : string) : string :=
  let s := toLowerCase text in
  let s := replaceAll (fun c => Ascii.eqb c "&"%char) "and" s in
  let s := replaceAll (fun c => (code c =? 189)%N) "0.5" s in
  let s := replaceAll (fun c => (code c =? 215)%N) "x" s in
  let s := replaceAll (fun c => Ascii.eqb c "'"%char) EmptyString s in
  let s := replaceAll (fun c => negb (isWord c || isSpace c)) EmptyString s in
  let s := collapseSpaces s in
  trim s.

Definition extractYears (title : string) (jname : option string) : list string :=
  let years : list string := [] in
  let years :=
    match Re.search Re.parenYearAt title with
    | Some titleYear => WordVariations.setAdd titleYear years
    | None => years
    end in
  match jname with
  | Some jname =>
      match Re.search Re.parenYearAt jname with
      | Some jnameYear => WordVariations.setAdd jnameYear years
      | None => years
      end
  | None => years
  end.

(** [for (const pattern of patterns)]: the first pattern that matches the
    title gives the number; a pattern is its [title.match], which returns
    the digits of the group. *)
Fixpoint firstPattern (patterns : list (string -> option string))
    (title : string) : option N :=
  match patterns with
  | [] => None
  | pattern :: rest =>
      match pattern title with
      | Some digits => Some (parseInt digits)
      | None => firstPattern rest title
      end
  end.

Definition extractSeasonNumber (title : string) : option N :=
  firstPattern
    [ Re.search (Re.kwDigitsAt "season");
      Re.search (Re.spaceLetterDigitsAt "s");
      Re.search (Re.kwDigitsAt "part");
      Re.search (Re.kwDigitsAt "cour");
      Re.search (Re.spaceLetterDigitsAt "p") ]
    title.

Definition parseDuration (durationText : string) : option Z :=
  match Re.search Re.digitsMAt durationText with
  | Some digits => Some (Z.of_N (parseInt digits))
  | None => None
  end.

(** One row of the matrix: [diag] is [matrix[j-1][i-1]], [left] is
    [matrix[j][i-1]] and [prev] holds [matrix[j-1][i..]]. *)
Fixpoint levRow (bj : ascii) (a : string) (prev : list nat) (diag left : nat)
    : list nat :=
  match a, prev with
  | String ai a', up :: prev' =>
      let indicator := if Ascii.eqb ai bj then 0%nat else 1%nat in
      let v := Nat.min (Nat.min (left + 1) (up + 1)) (diag + indicator) in
      v :: levRow bj a' prev' up v
  | _, _ => []
  end.

(** The rows [j], [j+1], ... of the matrix from row [j-1]. *)
Fixpoint levRows (b a : string) (row : list nat) (j : nat) : list nat :=
  match b with
  | EmptyString => row
  | String bj b' =>
      match row with
      | d :: prev => levRows b' a (j :: levRow bj a prev d j) (S j)
      | [] => []
      end
  end.

Definition levenshteinDistance (a b : string) : nat :=
  List.last (levRows b a (List.seq 0 (S (String.length a))) 1) 0%nat.

Definition computeVariations : string -> list string :=
  WordVariations.computeVariations normalizeText TITLE_REPLACEMENTS
    SEQUEL_PATTERNS.

Definition getWordVariations :=
  WordVariations.getWordVariations normalizeText TITLE_REPLACEMENTS
    SEQUEL_PATTERNS.

Definition mapVariations :=
  WordVariations.mapVariations normalizeText TITLE_REPLACEMENTS
    SEQUEL_PATTERNS.

Inductive Method : Type :=
| none | title_match | exact_title_match | exact_match | year_match
| season_match | format_priority | highest_score | alternative | error.

Definition Method_eqb (a b : Method) : bool :=
  match a, b with
  | none, none | title_match, title_match
  | exact_title_match, exact_title_match | exact_match, exact_match
  | year_match, year_match | season_match, season_match
  | format_priority, format_priority | highest_score, highest_score
  | alternative, alternative | error, error => true
  | _, _ => false
  end.

Record MatchResult : Type := mkResult {
  score : Q;
  id : option string;
  method : Method
}.

(** What [getAnimeInfo] returns for an AniList id. *)
Record AnimeInfo : Type := mkAnimeInfo {
  info_id : N;
  english : option string;
  romaji : option string;
  episodes : option Z;
  synonyms : list string;
  format : string;
  seasonYear : option N;
  duration : option Z
}.

(** One [.flw-item] of a search page, as the selectors read it. *)
Record Item : Type := mkItem {
  hianimeTitle : string;
  hianimeId : option string;
  jname : option string;
  formatText : string;
  episodesCount : Z;
  durationText : string
}.

Record SeriesMatch : Type := mkSeriesMatch {
  m_title : string;
  m_id : string;
  m_score : Q;
  isMovie : bool;
  isTV : bool;
  isOVA : bool;
  isSpecial : bool;
  m_episodes : Z;
  m_duration : option Z;
  m_jname : option string;
  years : list string;
  seasonNum : option N
}.

Record Caches : Type := mkCaches {
  wordVariationsCache : gmap string (list string);
  searchCache : gmap string MatchResult
}.

Definition Qltb (x y : Q) : bool := negb (Qle_bool y x).

Definition inList (x : string) (l : list string) : bool :=
  existsb (String.eqb x) l.

Definition optNeqb (x y : option N) : bool :=
  match x, y with
  | Some a, Some b => (a =? b)%N
  | None, None => true
  | _, _ => false
  end.

Definition episodesIs (info : AnimeInfo) (n : Z) : bool :=
  match episodes info with Some e => (n =? e)%Z | None => false end.

Definition episodesAbove (info : AnimeInfo) (n : Z) : bool :=
  match episodes info with Some e => (n <? e)%Z | None => false end.

Section Engine.
(** [stringSimilarity.stringSimilarity] of the imported package. *)
Variable stringSimilarity : string -> string -> Q.

Definition calculateTitleScore (searchTitle hianimeTitle : string)
    (cache : gmap string (list string))
    : Q * gmap string (list string) :=
  let normalizedSearch := normalizeText searchTitle in
  let normalizedTitle := normalizeText hianimeTitle in
  if String.eqb normalizedSearch normalizedTitle then (1%Q, cache)
  else
    let distance := levenshteinDistance normalizedSearch normalizedTitle in
    if (distance <=? 2)%nat && (5 <? String.length normalizedSearch)%nat
    then (95 # 100, cache)
    else
      let searchWords := split " " normalizedSearch in
      let titleWords := split " " normalizedTitle in
      let '(searchVariations, cache) := mapVariations searchWords cache in
      let '(titleVariations, cache) := mapVariations titleWords cache in
      let wordMatchScore :=
        WordVariations.wordMatchScore searchVariations titleVariations in
      let similarity := stringSimilarity normalizedSearch normalizedTitle in
      ((wordMatchScore * (7 # 10)) + (similarity * (3 # 10)), cache)%Q.

(** The guard of lines 363-373: a single search word against a longer
    title that has it only inside another word, or that has more than
    three words. *)
Definition isFalsePositive (searchTitle hianimeTitle : string) : bool :=
  let normalizedHianime := normalizeText hianimeTitle in
  let normalizedSearch := normalizeText searchTitle in
  let searchWords := split " " normalizedSearch in
  let hianimeWords := split " " normalizedHianime in
  if (List.length searchWords =? 1)%nat && (1 <? List.length hianimeWords)%nat
  then
    let searchWord := List.hd EmptyString searchWords in
    let hasExactWordMatch := existsb (fun word => String.eqb word searchWord) hianimeWords in
    let isOnlySubstring :=
      negb hasExactWordMatch && includes normalizedHianime searchWord in
    isOnlySubstring
    || (hasExactWordMatch
        && (List.length searchWords + 2 <? List.length hianimeWords)%nat)
  else false.

Definition significantWords : list string :=
  ["strike"; "wars"; "hunters"; "slayer"; "quest"].

(** Lines 392-406: the compound-title penalty on the title score. *)
Definition compoundPenalty (searchTitle hianimeTitle : string) (score : Q) : Q :=
  let searchWordCount := List.length (split " " (normalizeText searchTitle)) in
  let resultWordCount := List.length (split " " (normalizeText hianimeTitle)) in
  if (searchWordCount =? 1)%nat && (1 <? resultWordCount)%nat
  then
    let hasSignificantExtras :=
      existsb (fun word => includes (normalizeText hianimeTitle) word)
        significantWords in
    if hasSignificantExtras then (score * (5 # 10))%Q else score
  else score.

(** Lines 408-464: the contextual bonuses and penalties. *)
Definition adjustScore (animeInfo : AnimeInfo) (titleYears : list string)
    (searchSeasonNum : option N) (item : Item) (resultYears : list string)
    (resultSeasonNum : option N) (score : Q) : Q :=
  let isTV := String.eqb (formatText item) "TV" in
  let isMovie := String.eqb (formatText item) "Movie" in
  let isOVA := String.eqb (formatText item) "OVA" in
  let isSpecial := String.eqb (formatText item) "Special" in
  let fmt := format animeInfo in
  let score := if String.eqb fmt "TV" && isTV then (score + (15 # 100))%Q else score in
  let score := if String.eqb fmt "MOVIE" && isMovie then (score + (15 # 100))%Q else score in
  let score := if String.eqb fmt "OVA" && isOVA then (score + (1 # 10))%Q else score in
  let score := if String.eqb fmt "SPECIAL" && isSpecial then (score + (1 # 10))%Q else score in
  let score :=
    match episodes animeInfo with
    | Some e =>
        if negb (e =? 0)%Z && (episodesCount item =? e)%Z
        then (score + (2 # 10))%Q
        else if negb (e =? 0)%Z && (Z.abs (episodesCount item - e) <=? 2)%Z
             then (score + (1 # 10))%Q
             else score
    | None => score
    end in
  let score :=
    match titleYears, resultYears with
    | _ :: _, _ :: _ =>
        if existsb (fun y => inList y resultYears) titleYears
        then (score + (25 # 100))%Q
        else (score - (3 # 10))%Q
    | _, _ => score
    end in
  let score :=
    if truthyN searchSeasonNum && truthyN resultSeasonNum
    then if optNeqb searchSeasonNum resultSeasonNum
         then (score + (2 # 10))%Q
         else (score - (4 # 10))%Q
    else score in
  let score :=
    match duration animeInfo, parseDuration (durationText item) with
    | Some d, Some dur =>
        if String.eqb fmt "MOVIE" && negb (d =? 0)%Z && negb (dur =? 0)%Z
        then
          let durationDiff := Z.abs (d - dur) in
          if (durationDiff <? 10)%Z then (score + (2 # 10))%Q
          else if (30 <? durationDiff)%Z then (score - (15 # 100))%Q
               else score
        else score
    | _, _ => score
    end in
  let score :=
    if isMovie && String.eqb fmt "TV" && episodesAbove animeInfo 1
    then (score - (3 # 10))%Q else score in
  let score :=
    if isTV && String.eqb fmt "MOVIE" then (score - (3 # 10))%Q else score in
  if isTV && episodesAbove animeInfo 24 && (24 <? episodesCount item)%Z
  then (score + (1 # 10))%Q else score.

(** The variables the search loop assigns. *)
Record LoopState : Type := mkLoop {
  bestMatch : MatchResult;
  seriesMatches : list SeriesMatch;
  wcache : gmap string (list string)
}.

(** The callback of [.each] for one item of the page. *)
Definition visitItem (searchTitle : string) (animeInfo : AnimeInfo)
    (titleYears : list string) (searchSeasonNum : option N)
    (st : LoopState) (item : Item) : LoopState :=
  match hianimeId item with
  | None => st
  | Some EmptyString => st
  | Some hid =>
      if isFalsePositive searchTitle (hianimeTitle item) then st
      else
        let resultYears := extractYears (hianimeTitle item) (jname item) in
        let resultSeasonNum := extractSeasonNumber (hianimeTitle item) in
        let '(titleScore, cache) :=
          calculateTitleScore searchTitle (hianimeTitle item) (wcache st) in
        let penalized :=
          compoundPenalty searchTitle (hianimeTitle item) titleScore in
        let finalScore :=
          adjustScore animeInfo titleYears searchSeasonNum item resultYears
            resultSeasonNum penalized in
        let seriesMatches :=
          if Qltb (5 # 10) finalScore
          then seriesMatches st ++
               [ {| m_title := hianimeTitle item;
                    m_id := hid;
                    m_score := finalScore;
                    isMovie := String.eqb (formatText item) "Movie";
                    isTV := String.eqb (formatText item) "TV";
                    isOVA := String.eqb (formatText item) "OVA";
                    isSpecial := String.eqb (formatText item) "Special";
                    m_episodes := episodesCount item;
                    m_duration := parseDuration (durationText item);
                    m_jname := jname item;
                    years := resultYears;
                    seasonNum := resultSeasonNum |} ]
          else seriesMatches st in
        let bestMatch :=
          if Qltb (score (bestMatch st)) finalScore
          then {| score := finalScore; id := Some hid;
                  method := title_match |}
          else bestMatch st in
        {| bestMatch := bestMatch; seriesMatches := seriesMatches;
           wcache := cache |}
  end.

(** The collaborator: the items of the search page for a keyword, or
    [None] when the request fails after its retries. *)
Variable catalog : string -> option (list Item).

(** [for (const searchTitle of titlesToTry)]: [inl] carries the cache when
    the request throws, which leaves the function through its [catch]. *)
Fixpoint tryTitles (animeInfo : AnimeInfo) (titleYears : list string)
    (searchSeasonNum : option N) (titlesToTry : list string)
    (st : LoopState) : gmap string (list string) + LoopState :=
  match titlesToTry with
  | [] => inr st
  | searchTitle :: rest =>
      let duplicatedQuery := (searchTitle ++ " " ++ searchTitle)%string in
      match catalog duplicatedQuery with
      | None => inl (wcache st)
      | Some items =>
          let st :=
            fold_left
              (visitItem searchTitle animeInfo titleYears searchSeasonNum)
              items st in
          if Qltb (9 # 10) (score (bestMatch st)) then inr st
          else tryTitles animeInfo titleYears searchSeasonNum rest st
      end
  end.

(** [seriesMatches.sort((a, b) => b.score - a.score)]: the sort is stable,
    so a match goes before the first one that does not score more. *)
Fixpoint insertByScore (m : SeriesMatch) (sorted : list SeriesMatch)
    : list SeriesMatch :=
  match sorted with
  | [] => [m]
  | x :: rest =>
      if Qltb (m_score m) (m_score x) then x :: insertByScore m rest
      else m :: sorted
  end.

Definition sortByScore (l : list SeriesMatch) : list SeriesMatch :=
  fold_right insertByScore [] l.

Definition pick (best : SeriesMatch) (how : Method) : MatchResult :=
  {| score := m_score best; id := Some (m_id best); method := how |}.

Definition isExactTitle (title : string) (titlesToTry : list string)
    (m : SeriesMatch) : bool :=
  let normalizedMatch := normalizeText (m_title m) in
  let normalizedSearch := normalizeText title in
  String.eqb normalizedMatch normalizedSearch
  || existsb (fun t => String.eqb (normalizeText t) normalizedMatch) titlesToTry.

Definition isExactMatch (animeInfo : AnimeInfo) (m : SeriesMatch) : bool :=
  episodesIs animeInfo (m_episodes m)
  && ((String.eqb (format animeInfo) "TV" && isTV m)
      || (String.eqb (format animeInfo) "MOVIE" && isMovie m)
      || (String.eqb (format animeInfo) "OVA" && isOVA m)).

Definition isYearMatch (titleYears : list string) (m : SeriesMatch) : bool :=
  existsb (fun y => inList y titleYears) (years m).

Definition isSeasonMatch (searchSeasonNum : option N) (m : SeriesMatch) : bool :=
  optNeqb (seasonNum m) searchSeasonNum.

(** Lines 530-563: the [else if] chain below the episode+format rule,
    on the sorted matches. *)
Definition contextRules (animeInfo : AnimeInfo) (titleYears : list string)
    (searchSeasonNum : option N) (sorted : list SeriesMatch)
    (bestMatch : MatchResult) : MatchResult :=
  match titleYears with
  | _ :: _ =>
      match List.filter (isYearMatch titleYears) sorted with
      | best :: _ => pick best year_match
      | [] => bestMatch
      end
  | [] =>
      if truthyN searchSeasonNum
      then match List.filter (isSeasonMatch searchSeasonNum) sorted with
           | best :: _ => pick best season_match
           | [] => bestMatch
           end
      else if String.eqb (format animeInfo) "TV"
      then match sorted, List.filter isTV sorted with
           | top :: _, best :: _ =>
               if Qltb (m_score top - m_score best) (2 # 10)
               then pick best format_priority
               else bestMatch
           | _, _ => bestMatch
           end
      else bestMatch
  end.

(** Lines 500-571: the override rules over the collected matches. *)
Definition applyOverrides (title : string) (titlesToTry : list string)
    (animeInfo : AnimeInfo) (titleYears : list string)
    (searchSeasonNum : option N) (seriesMatches : list SeriesMatch)
    (bestMatch : MatchResult) : MatchResult :=
  match sortByScore seriesMatches with
  | [] => bestMatch
  | (top :: _) as sorted =>
      match List.filter (isExactTitle title titlesToTry) sorted with
      | best :: _ => pick best exact_title_match
      | [] =>
          let bestMatch :=
            match List.filter (isExactMatch animeInfo) sorted with
            | best :: _ => pick best exact_match
            | [] =>
                contextRules animeInfo titleYears searchSeasonNum sorted
                  bestMatch
            end in
          if Method_eqb (method bestMatch) none
             || Qltb (score bestMatch) (m_score top)
          then pick top highest_score
          else bestMatch
      end
  end.

(** [searchAnimeAlternative]: one more query with the stripped title. *)
Definition visitAlternative (baseTitle : string) (animeInfo : AnimeInfo)
    (originalYears : list string) (originalSeasonNum : option N)
    (st : MatchResult * gmap string (list string)) (item : Item)
    : MatchResult * gmap string (list string) :=
  match hianimeId item with
  | None => st
  | Some EmptyString => st
  | Some hid =>
      let resultYears := extractYears (hianimeTitle item) (jname item) in
      let resultSeasonNum := extractSeasonNumber (hianimeTitle item) in
      let '(altScore, cache) :=
        calculateTitleScore baseTitle (hianimeTitle item) (snd st) in
      let altScore :=
        if String.eqb (format animeInfo) "TV"
           && String.eqb (formatText item) "TV"
        then (altScore + (15 # 100))%Q else altScore in
      let altScore :=
        if truthyZ (episodes animeInfo)
           && episodesIs animeInfo (episodesCount item)
        then (altScore + (2 # 10))%Q else altScore in
      let altScore :=
        match originalYears with
        | _ :: _ =>
            if existsb (fun y => inList y originalYears) resultYears
            then (altScore + (25 # 100))%Q else altScore
        | [] => altScore
        end in
      let altScore :=
        if truthyN originalSeasonNum
           && optNeqb resultSeasonNum originalSeasonNum
        then (altScore + (2 # 10))%Q else altScore in
      if Qltb (score (fst st)) altScore
      then ({| score := altScore; id := Some hid; method := alternative |},
            cache)
      else (fst st, cache)
  end.

Definition searchAnimeAlternative (baseTitle : string) (animeInfo : AnimeInfo)
    (originalYears : list string) (originalSeasonNum : option N)
    (cache : gmap string (list string))
    : option MatchResult * gmap string (list string) :=
  let duplicatedQuery := (baseTitle ++ " " ++ baseTitle)%string in
  match catalog duplicatedQuery with
  | None => (None, cache)
  | Some items =>
      let '(bestMatch, cache) :=
        fold_left
          (visitAlternative baseTitle animeInfo originalYears
             originalSeasonNum)
          items
          ({| score := 0; id := None; method := alternative |}, cache) in
      (if Qltb (5 # 10) (score bestMatch) then Some bestMatch else None,
       cache)
  end.

(** [[...].filter(Boolean)] on titles. *)
Definition definedTitles (l : list (option string)) : list string :=
  flat_map
    (fun t => match t with
              | Some s => if nonEmpty s then [s] else []
              | None => []
              end) l.

(** [.filter((t, i, arr) => arr.indexOf(t) === i)]. *)
Definition dedupe (l : list string) : list string :=
  fold_left (fun acc t => WordVariations.setAdd t acc) l [].

Definition titlesToTryOf (animeInfo : AnimeInfo) : list string :=
  dedupe
    (definedTitles
       (english animeInfo :: romaji animeInfo
        :: map Some (synonyms animeInfo))).

Definition titleYearsOf (title : string) (animeInfo : AnimeInfo) : list string :=
  extractYears title None
  ++ (if truthyN (seasonYear animeInfo)
      then match seasonYear animeInfo with
           | Some y => [toString y]
           | None => []
           end
      else []).

(** Lines 575-578: the title without parentheses, season and part. *)
Definition baseTitleOf (title : string) : string :=
  trim
    (Replace.removeMatches (Replace.kwBlankDigitsLen "part") 0 None
       (Replace.removeMatches (Replace.kwBlankDigitsLen "season") 0 None
          (Replace.removeMatches Replace.parenGroupLen 0 None title))).

Definition searchKey (title : string) (animeInfo : AnimeInfo) : string :=
  (title ++ "_" ++ toString (info_id animeInfo))%string.

Definition notFound : MatchResult :=
  {| score := 0; id := None; method := none |}.

Definition searchAnime (title : string) (animeInfo : AnimeInfo)
    (caches : Caches) : MatchResult * Caches :=
  let cacheKey := searchKey title animeInfo in
  match searchCache caches !! cacheKey with
  | Some cached => (cached, caches)
  | None =>
      let titleYears := titleYearsOf title animeInfo in
      let searchSeasonNum := extractSeasonNumber title in
      let titlesToTry := titlesToTryOf animeInfo in
      match
        tryTitles animeInfo titleYears searchSeasonNum titlesToTry
          {| bestMatch := notFound; seriesMatches := [];
             wcache := wordVariationsCache caches |}
      with
      | inl cache =>
          ({| score := 0; id := None; method := error |},
           {| wordVariationsCache := cache;
              searchCache := searchCache caches |})
      | inr st =>
          let best :=
            applyOverrides title titlesToTry animeInfo titleYears
              searchSeasonNum (seriesMatches st) (bestMatch st) in
          let '(best, cache) :=
            if Qltb (score best) (6 # 10)
            then
              let baseTitle := baseTitleOf title in
              if negb (String.eqb baseTitle title)
                 && (3 <? String.length baseTitle)%nat
              then
                match
                  searchAnimeAlternative baseTitle animeInfo titleYears
                    searchSeasonNum (wcache st)
                with
                | (Some altResult, cache) =>
                    (if Qltb (score best) (score altResult)
                     then altResult else best, cache)
                | (None, cache) => (best, cache)
                end
              else (best, wcache st)
            else (best, wcache st) in
          let result := if Qltb (4 # 10) (score best) then best else notFound in
          (result,
           {| wordVariationsCache := cache;
              searchCache := <[cacheKey := result]> (searchCache caches) |})
      end
  end.

(** The answer of [getEpisodeIds]. *)
Record Episodes : Type := mkEpisodes {
  totalEpisodes : N;
  episodeList : list string
}.

Record Mapping : Type := mkMapping {
  anilistId : Z;
  mappedId : string;
  mappedTitle : string;
  matchConfidence : Q;
  matchMethod : Method;
  mappedEpisodes : Episodes
}.

Variable getAnimeInfo : Z -> option AnimeInfo.
Variable getEpisodeIds : string -> Z -> Episodes.

Definition orElse (a b : option string) : option string :=
  match a with
  | Some s => if nonEmpty s then a else b
  | None => b
  end.

(** The exported entry point: [inl] is the message of the [Error] that
    leaves the function. *)
Definition getEpisodesForAnime (anilistId : Z) (caches : Caches)
    : (string + Mapping) * Caches :=
  if (anilistId <=? 0)%Z
  then (inl ("Invalid anilistId: received " ++ showZ anilistId
             ++ ", must be a positive number")%string, caches)
  else
    match getAnimeInfo anilistId with
    | None => (inl "Could not fetch anime info from Anilist", caches)
    | Some animeInfo =>
        match orElse (english animeInfo) (romaji animeInfo) with
        | None => (inl "No English or romaji title found", caches)
        | Some EmptyString => (inl "No English or romaji title found", caches)
        | Some title =>
            let '(searchResult, caches) := searchAnime title animeInfo caches in
            match id searchResult with
            | None => (inl "Could not find anime on Hianime", caches)
            | Some EmptyString =>
                (inl "Could not find anime on Hianime", caches)
            | Some hid =>
                let episodes := getEpisodeIds hid anilistId in
                if (totalEpisodes episodes =? 0)%N
                then (inl "Could not fetch episodes", caches)
                else
                  (inr {| anilistId := anilistId;
                          mappedId := hid;
                          mappedTitle := title;
                          matchConfidence := score searchResult;
                          matchMethod := method searchResult;
                          mappedEpisodes := episodes |},
                   caches)
            end
        end
    end.

End Engine.
End HiAnime.

(** ** The AnimeSama provider *)

Module AnimeSama.
Import Js.

(** The letter e with grave accent of the French ordinals. *)
Definition egrave : string := String (ascii_of_N 232) EmptyString.

Definition TITLE_REPLACEMENTS : list (string * list string) :=
  [ ("saison", ["season"; "s"; "sz"]);
    ("season", ["saison"; "s"; "sz"]);
    ("s", ["season"; "saison"; "sz"]);
    ("sz", ["season"; "saison"; "s"]);
    ("film", ["movie"]);
    ("movie", ["film"]);
    ("two", ["2"; "ii"; "deux"]);
    ("three", ["3"; "iii"; "trois"]);
    ("four", ["4"; "iv"; "quatre"]);
    ("five", ["5"; "v"; "cinq"]);
    ("six", ["6"; "vi"; "six"]);
    ("part", ["partie"; "pt"; "p"]);
    ("partie", ["part"; "pt"; "p"]) ].

Definition SEQUEL_PATTERNS : list (string * list string) :=
  [ (("2" ++ egrave ++ "me saison")%string,
     ["2nd season"; "second season"; "s2"; "season 2"; "saison 2"; "ii"]);
    (("3" ++ egrave ++ "me saison")%string,
     ["3rd season"; "third season"; "s3"; "season 3"; "saison 3"; "iii"]);
    (("4" ++ egrave ++ "me saison")%string,
     ["4th season"; "fourth season"; "s4"; "season 4"; "saison 4"; "iv"]);
    ("partie 2", ["part 2"; "part two"; "p2"; "pt 2"]);
    ("partie 3", ["part 3"; "part three"; "p3"; "pt 3"]) ].

Definition normalizeText (text : string) (removeYear : bool) : string :=
  let normalized := HiAnime.normalizeText text in
  if removeYear
  then trim (Replace.removeMatches Replace.yearLen 0 None normalized)
  else normalized.

Record SeasonInfo : Type := mkSeasonInfo {
  season : option N;
  part : option N
}.

(** [/\bs(\d+)\b/i] at the head of [s]. *)
Definition sDigitsAt (prev : option ascii) (s : string) : option string :=
  if negb (Re.isWordOpt prev) && prefixCI "s" s
  then match Re.digitsThen (drop 1 s) with
       | Some (ds, rest) =>
           if Re.isWordOpt (Re.headOpt rest) then None else Some ds
       | None => None
       end
  else None.

(** [/part(?:ie)?\s*(\d+)/i] at the head of [s]. *)
Definition partDigitsAt (s : string) : option string :=
  if prefixCI "part" s
  then
    let rest := drop 4 s in
    let rest := if prefixCI "ie" rest then drop 2 rest else rest in
    match Re.digitsThen (dropWhile isSpace rest) with
    | Some (ds, _) => Some ds
    | None => None
    end
  else None.

(** [/\bp(?:t)?\s*(\d+)\b/i] at the head of [s]. *)
Definition ptDigitsAt (prev : option ascii) (s : string) : option string :=
  if negb (Re.isWordOpt prev) && prefixCI "p" s
  then
    let rest := drop 1 s in
    let rest := if prefixCI "t" rest then drop 1 rest else rest in
    match Re.digitsThen (dropWhile isSpace rest) with
    | Some (ds, after) =>
        if Re.isWordOpt (Re.headOpt after) then None else Some ds
    | None => None
    end
  else None.

Definition extractSeasonInfo (title : string) : SeasonInfo :=
  {| season :=
       HiAnime.firstPattern
         [ Re.search (Re.kwDigitsAt "saison");
           Re.search (Re.kwDigitsAt "season");
           Re.searchB sDigitsAt None ]
         title;
     part :=
       HiAnime.firstPattern
         [ Re.search partDigitsAt;
           Re.searchB ptDigitsAt None;
           Re.search (Re.kwDigitsAt "cour") ]
         title |}.

Definition computeVariations : string -> list string :=
  WordVariations.computeVariations (fun w => normalizeText w false)
    TITLE_REPLACEMENTS SEQUEL_PATTERNS.

Definition getWordVariations :=
  WordVariations.getWordVariations (fun w => normalizeText w false)
    TITLE_REPLACEMENTS SEQUEL_PATTERNS.

(** [for (const targetWord of targetWords)] of [calculateWordMatchScore]. *)
Fixpoint matchTargetWords (searchVariations : list string)
    (targetWords : list string) (bestMatch : Q)
    (cache : gmap string (list string)) : Q * gmap string (list string) :=
  match targetWords with
  | [] => (bestMatch, cache)
  | targetWord :: rest =>
      let '(targetVariations, cache) := getWordVariations targetWord cache in
      let best :=
        WordVariations.matchSearchVars searchVariations targetVariations
          bestMatch in
      if Qeq_bool best 1 then (best, cache)
      else matchTargetWords searchVariations rest best cache
  end.

(** [for (const searchWord of searchWords)]. *)
Fixpoint countWordMatches (searchWords targetWords : list string)
    (matches partialMatches : Q) (cache : gmap string (list string))
    : (Q * Q) * gmap string (list string) :=
  match searchWords with
  | [] => ((matches, partialMatches), cache)
  | searchWord :: rest =>
      let '(searchVariations, cache) := getWordVariations searchWord cache in
      let '(bestMatch, cache) :=
        matchTargetWords searchVariations targetWords 0%Q cache in
      if Qeq_bool bestMatch 1
      then countWordMatches rest targetWords (matches + 1)%Q partialMatches cache
      else if Qlt_le_dec 0 bestMatch
           then countWordMatches rest targetWords matches
                  (partialMatches + bestMatch)%Q cache
           else countWordMatches rest targetWords matches partialMatches cache
  end.

Definition calculateWordMatchScore (searchWords targetWords : list string)
    (cache : gmap string (list string)) : Q * gmap string (list string) :=
  let '((matches, partialMatches), cache) :=
    countWordMatches searchWords targetWords 0%Q 0%Q cache in
  (((matches + partialMatches * (5 # 10))
     / inject_Z (Z.of_nat (List.length searchWords)))%Q, cache).

Section Engine.
Variable stringSimilarity : string -> string -> Q.

Definition calculateTitleScore (searchTitle animesamaTitle : string)
    (animesamaSubtitle : option string)
    (cache : gmap string (list string)) : Q * gmap string (list string) :=
  let normalizedSearch := normalizeText searchTitle false in
  let normalizedTitle := normalizeText animesamaTitle false in
  if String.eqb normalizedSearch normalizedTitle then (1%Q, cache)
  else
    let subtitleTitles :=
      match animesamaSubtitle with
      | Some sub =>
          if nonEmpty sub
          then map (fun t => normalizeText (trim t) false) (split "," sub)
          else []
      | None => []
      end in
    if existsb (String.eqb normalizedSearch) subtitleTitles
    then (98 # 100, cache)
    else
      let baseSearch := normalizeText searchTitle true in
      let baseTitle := normalizeText animesamaTitle true in
      if String.eqb baseSearch baseTitle then (95 # 100, cache)
      else if existsb
                (fun subtitleTitle =>
                   String.eqb baseSearch (normalizeText subtitleTitle true))
                subtitleTitles
      then (92 # 100, cache)
      else
        let searchWords := split " " baseSearch in
        let titleWords := split " " baseTitle in
        let '(titleScore, cache) :=
          calculateWordMatchScore searchWords titleWords cache in
        let '(bestScore, cache) :=
          fold_left
            (fun acc subtitleTitle =>
               let '(subtitleScore, cache) :=
                 calculateWordMatchScore searchWords
                   (split " " subtitleTitle) (snd acc) in
               (Qmax (fst acc) subtitleScore, cache))
            subtitleTitles (Qmax 0 titleScore, cache) in
        let titleSimilarity := stringSimilarity baseSearch baseTitle in
        let maxSubtitleSimilarity :=
          fold_left
            (fun acc subtitleTitle =>
               Qmax acc (stringSimilarity baseSearch subtitleTitle))
            subtitleTitles 0%Q in
        let similarity := Qmax titleSimilarity maxSubtitleSimilarity in
        ((bestScore * (7 # 10)) + (similarity * (3 # 10)), cache)%Q.

Inductive Method : Type :=
| none | franchise_mapping | base_title_match | error | direct_slug_fallback.

Record SearchResult : Type := mkSearchResult {
  score : Q;
  slug : option string;
  method : Method
}.

Record AnimeInfo : Type := mkAnimeInfo {
  info_id : N;
  fullTitle : string;
  baseTitle : string;
  episodes : option Z;
  synonyms : list string;
  format : string
}.

(** One [asn-search-result] anchor of the answer that has a title. *)
Record Hit : Type := mkHit {
  hitSlug : string;
  animesamaTitle : string;
  animesamaSubtitle : option string
}.

Record Caches : Type := mkCaches {
  wordVariationsCache : gmap string (list string);
  searchCache : gmap string SearchResult
}.

(** Steps 1 to 5 of [searchAnime]: the set of titles to search, built
    with [extractBaseTitle] and [generateCompactVariations]. *)
Variable searchTitlesOf : string -> AnimeInfo -> list string.

(** The collaborator: the anchors of the answer to a query ([None]: the
    request fails after its retries). *)
Variable search : string -> option (list Hit).

(** [tryDirectSlugAccess]: the first generated slug whose catalogue page
    answers, if any; it catches its own failures. *)
Variable tryDirectSlugAccess : list string -> option string.

Definition visitHit (searchTitle : string)
    (st : SearchResult * gmap string (list string)) (hit : Hit)
    : SearchResult * gmap string (list string) :=
  let '(hitScore, cache) :=
    calculateTitleScore searchTitle (animesamaTitle hit)
      (animesamaSubtitle hit) (snd st) in
  if HiAnime.Qltb (score (fst st)) hitScore
  then ({| score := hitScore; slug := Some (hitSlug hit);
           method := base_title_match |}, cache)
  else (fst st, cache).

Fixpoint tryTitles (searchTitles : list string)
    (st : SearchResult * gmap string (list string))
    : gmap string (list string) + SearchResult * gmap string (list string) :=
  match searchTitles with
  | [] => inr st
  | searchTitle :: rest =>
      match search searchTitle with
      | None => inl (snd st)
      | Some [] => tryTitles rest st
      | Some hits =>
          let st := fold_left (visitHit searchTitle) hits st in
          if HiAnime.Qltb (85 # 100) (score (fst st)) then inr st
          else tryTitles rest st
      end
  end.

Definition searchKey (baseTitle : string) (animeInfo : AnimeInfo) : string :=
  (baseTitle ++ "_" ++ toString (info_id animeInfo))%string.

Definition notFound : SearchResult :=
  {| score := 0; slug := None; method := none |}.

Definition searchAnime (baseTitle : string) (animeInfo : AnimeInfo)
    (caches : Caches) : SearchResult * Caches :=
  let cacheKey := searchKey baseTitle animeInfo in
  match searchCache caches !! cacheKey with
  | Some cached => (cached, caches)
  | None =>
      let searchTitles :=
        List.filter nonEmpty (searchTitlesOf baseTitle animeInfo) in
      match tryTitles searchTitles (notFound, wordVariationsCache caches) with
      | inl cache =>
          ({| score := 0; slug := None; method := error |},
           {| wordVariationsCache := cache;
              searchCache := searchCache caches |})
      | inr (bestMatch, cache) =>
          let titlesToTry :=
            List.filter nonEmpty
              (fullTitle animeInfo :: baseTitle
               :: firstn 30 (synonyms animeInfo)) in
          let directSlug :=
            if Qeq_bool (score bestMatch) 0
               || match slug bestMatch with None => true | Some _ => false end
            then tryDirectSlugAccess titlesToTry
            else None in
          let result :=
            match directSlug with
            | Some (String c rest) =>
                {| score := 85 # 100; slug := Some (String c rest);
                   method := direct_slug_fallback |}
            | _ =>
                let threshold :=
                  if String.eqb (format animeInfo) "OVA"
                     || String.eqb (format animeInfo) "SPECIAL"
                  then 2 # 10 else 3 # 10 in
                if HiAnime.Qltb threshold (score bestMatch) then bestMatch
                else notFound
            end in
          (result,
           {| wordVariationsCache := cache;
              searchCache := <[cacheKey := result]> (searchCache caches) |})
      end
  end.

Record AnimeSamaSeason : Type := mkSeason {
  name : string;
  seasonSlug : string;
  language : string;
  episodeCount : Z
}.

(** [/saison(\d+)(?:-(\d+))?/] at the head of [s]: [slugSeason] and
    [slugPart]. *)
Definition saisonAt (s : string) : option (N * option N) :=
  if String.prefix "saison" s
  then match Re.digitsThen (drop 6 s) with
       | Some (ds, String d rest) =>
           if Ascii.eqb d "-"%char
           then match Re.digitsThen rest with
                | Some (ps, _) => Some (parseInt ds, Some (parseInt ps))
                | None => Some (parseInt ds, None)
                end
           else Some (parseInt ds, None)
       | Some (ds, EmptyString) => Some (parseInt ds, None)
       | None => None
       end
  else None.

(** [/saison(\d+)-(\d+)/] at the head of [s]. *)
Definition saisonPartAt (s : string) : option (N * N) :=
  if String.prefix "saison" s
  then match Re.digitsThen (drop 6 s) with
       | Some (ds, String d rest) =>
           if Ascii.eqb d "-"%char
           then match Re.digitsThen rest with
                | Some (ps, _) => Some (parseInt ds, parseInt ps)
                | None => None
                end
           else None
       | _ => None
       end
  else None.

Definition slugNumbers (s : AnimeSamaSeason) : option (N * option N) :=
  Re.search saisonAt (seasonSlug s).

Definition romanToNumber : list (string * N) :=
  [ ("II", 2); ("III", 3); ("IV", 4); ("V", 5); ("VI", 6);
    ("2", 2); ("3", 3); ("4", 4); ("5", 5); ("6", 6) ]%N.

(** One alternative of [/\b(II|III|IV|V|VI|2|3|4|5|6)\b/i] at the head of
    [s], the boundary before it already checked. *)
Fixpoint sequelAlternatives (alts : list (string * N)) (s : string)
    : option N :=
  match alts with
  | [] => None
  | (alt, number) :: rest =>
      if prefixCI alt s
         && negb (Re.isWordOpt (Re.headOpt (drop (String.length alt) s)))
      then Some number
      else sequelAlternatives rest s
  end.

Definition sequelCueAt (prev : option ascii) (s : string) : option N :=
  if Re.isWordOpt prev then None else sequelAlternatives romanToNumber s.

Definition isMainSeason (s : AnimeSamaSeason) : bool :=
  negb (includes (seasonSlug s) "film")
  && negb (includes (seasonSlug s) "oav")
  && negb (includes (seasonSlug s) "kai").

Definition seasonsToSearchOf (seasons : list AnimeSamaSeason)
    (targetEpisodes : Z) : list AnimeSamaSeason :=
  let mainSeasons :=
    if negb (targetEpisodes =? 0)%Z && (5 <? targetEpisodes)%Z
    then List.filter isMainSeason seasons
    else seasons in
  match mainSeasons with
  | [] => seasons
  | _ => mainSeasons
  end.

Definition isExactSeasonPart (sn pn : N) (s : AnimeSamaSeason) : bool :=
  match slugNumbers s with
  | Some (slugSeason, slugPart) =>
      (slugSeason =? sn)%N && HiAnime.optNeqb slugPart (Some pn)
  | None => false
  end.

Definition isSeasonWithoutPart (sn : N) (s : AnimeSamaSeason) : bool :=
  match slugNumbers s with
  | Some (slugSeason, slugPart) =>
      (slugSeason =? sn)%N && negb (truthyN slugPart)
  | None => false
  end.

Definition isPartOnly (pn : N) (s : AnimeSamaSeason) : bool :=
  match Re.search saisonPartAt (seasonSlug s) with
  | Some (_, slugPart) => (slugPart =? pn)%N
  | None => false
  end.

Definition isTitleSeason (expectedSeason : N) (s : AnimeSamaSeason) : bool :=
  match slugNumbers s with
  | Some (slugSeason, _) => (slugSeason =? expectedSeason)%N
  | None => false
  end.

(** The loop of priority 4 over [(closestMatch, smallestDiff)]. *)
Fixpoint closestLoop (targetEpisodes : Z) (l : list AnimeSamaSeason)
    (closestMatch : option AnimeSamaSeason) (smallestDiff : Z)
    : option AnimeSamaSeason :=
  match l with
  | [] => closestMatch
  | s :: rest =>
      let diff := Z.abs (episodeCount s - targetEpisodes) in
      if (diff <? smallestDiff)%Z
      then closestLoop targetEpisodes rest (Some s) diff
      else closestLoop targetEpisodes rest closestMatch smallestDiff
  end.

(** Priority 1 and 2: the season and part numbers of the title. *)
Definition numberMatch (seasonsToSearch : list AnimeSamaSeason)
    (seasonInfo : SeasonInfo) : option AnimeSamaSeason :=
  match season seasonInfo, part seasonInfo with
  | Some sn, Some pn =>
      match List.find (isExactSeasonPart sn pn) seasonsToSearch with
      | Some exactMatch => Some exactMatch
      | None => List.find (isSeasonWithoutPart sn) seasonsToSearch
      end
  | Some sn, None => List.find (isSeasonWithoutPart sn) seasonsToSearch
  | None, Some pn => List.find (isPartOnly pn) seasonsToSearch
  | None, None => None
  end.

(** Priority 3: a sequel numeral anywhere in the full title. *)
Definition titleSeasonMatch (seasonsToSearch : list AnimeSamaSeason)
    (fullTitle : string) : option AnimeSamaSeason :=
  match Re.searchB sequelCueAt None fullTitle with
  | Some expectedSeason =>
      List.find (isTitleSeason expectedSeason) seasonsToSearch
  | None => None
  end.

(** Priority 4: the episode count. *)
Definition episodeMatch (seasonsToSearch : list AnimeSamaSeason)
    (targetEpisodes : Z) : option AnimeSamaSeason :=
  if (targetEpisodes =? 0)%Z then None
  else
    match
      List.find (fun s => (episodeCount s =? targetEpisodes)%Z)
        seasonsToSearch
    with
    | Some exactEpisodeMatch => Some exactEpisodeMatch
    | None => closestLoop targetEpisodes seasonsToSearch None 3
    end.

Definition findBestSeason (seasons : list AnimeSamaSeason)
    (targetEpisodes : Z) (seasonInfo : SeasonInfo) (fullTitle : string)
    : option string :=
  match seasons with
  | [] => None
  | _ =>
      let seasonsToSearch := seasonsToSearchOf seasons targetEpisodes in
      match numberMatch seasonsToSearch seasonInfo with
      | Some found => Some (seasonSlug found)
      | None =>
          match titleSeasonMatch seasonsToSearch fullTitle with
          | Some found => Some (seasonSlug found)
          | None =>
              match episodeMatch seasonsToSearch targetEpisodes with
              | Some found => Some (seasonSlug found)
              | None => option_map seasonSlug (List.hd_error seasonsToSearch)
              end
          end
      end
  end.

(** One [panneauAnime("name", "url")] call of the catalogue page. *)
Record Panel : Type := mkPanel {
  panelName : string;
  relativeUrl : string
}.

(** [relativeUrl.match(/^([^/]+)\/([^/]+)\/?$/)]. *)
Definition parseRelativeUrl (url : string) : option (string * string) :=
  match split "/" url with
  | [a; b] => if nonEmpty a && nonEmpty b then Some (a, b) else None
  | [a; b; EmptyString] =>
      if nonEmpty a && nonEmpty b then Some (a, b) else None
  | _ => None
  end.

(** The collaborators: the panels of a catalogue page ([None]: the request
    fails) and [getEpisodeCount], which answers 0 when it fails. *)
Variable cataloguePage : string -> option (list Panel).
Variable getEpisodeCount : string -> string -> string -> Z.

Record SeasonMatchResult : Type := mkSeasonMatchResult {
  seasons : list AnimeSamaSeason;
  bestSeasonMatch : option string
}.

(** The [while] loop over the panels; language codes are ASCII. *)
Definition collectSeasons (slug : string) (panels : list Panel)
    : list AnimeSamaSeason :=
  flat_map
    (fun p =>
       match parseRelativeUrl (relativeUrl p) with
       | Some (seasonSlug, language) =>
           let episodeCount := getEpisodeCount slug seasonSlug language in
           if (0 <? episodeCount)%Z
           then [ {| name := panelName p; seasonSlug := seasonSlug;
                     language := toUpperCaseAscii language;
                     episodeCount := episodeCount |} ]
           else []
       | None => []
       end)
    panels.

Definition getAvailableSeasonsWithMatch (slug : string) (targetEpisodes : Z)
    (seasonInfo : SeasonInfo) (fullTitle : string) : SeasonMatchResult :=
  match cataloguePage slug with
  | None => {| seasons := []; bestSeasonMatch := None |}
  | Some panels =>
      let seasons := collectSeasons slug panels in
      {| seasons := seasons;
         bestSeasonMatch :=
           findBestSeason seasons targetEpisodes seasonInfo fullTitle |}
  end.

Record EpisodeResult : Type := mkEpisodeResult {
  anilistId : Z;
  animesamaSlug : string;
  resultSeasonSlug : option string;
  matchConfidence : Q;
  matchMethod : Method;
  resultSeasonInfo : SeasonInfo;
  resultSeasons : list AnimeSamaSeason
}.

Variable getAnimeInfo : Z -> option AnimeInfo.

(** The exported entry point: [inl] is the message of the [Error] that
    leaves the function. *)
Definition getEpisodesForAnime (id : Z) (caches : Caches)
    : (string + EpisodeResult) * Caches :=
  if (id <=? 0)%Z
  then (inl ("Invalid anilistId: received " ++ showZ id
             ++ ", must be a positive number")%string, caches)
  else
    match getAnimeInfo id with
    | None => (inl "Could not fetch anime info from Anilist", caches)
    | Some animeInfo =>
        let seasonInfo := extractSeasonInfo (fullTitle animeInfo) in
        let '(searchResult, caches) :=
          searchAnime (baseTitle animeInfo) animeInfo caches in
        match slug searchResult with
        | Some (String c rest) =>
            let found :=
              getAvailableSeasonsWithMatch (String c rest)
                (match episodes animeInfo with Some e => e | None => 0%Z end)
                seasonInfo (fullTitle animeInfo) in
            (inr {| anilistId := id;
                    animesamaSlug := String c rest;
                    resultSeasonSlug := bestSeasonMatch found;
                    matchConfidence := score searchResult;
                    matchMethod := method searchResult;
                    resultSeasonInfo := seasonInfo;
                    resultSeasons := seasons found |},
             caches)
        | _ => (inl "Could not find anime on AnimeSama", caches)
        end
    end.

End Engine.
End AnimeSama.

(** ** Doubles

    A JavaScript number is a double: a rational [m * 2^e] with a
    significand [m] of at most 53 bits.  An arithmetic operation returns the
    double nearest to its exact result, and of two equally near ones the one
    with the even significand.  The numbers rounded here are quotients of
    two non-zero integers below [2^53]: they lie between [2^-53] and [2^53],
    far from overflow and from the subnormal numbers. *)

Module Double.
Local Open Scope Q_scope.

(** The integer nearest to [y], the even one of the two when [y] is half
    way. *)
Definition nearestEven (y : Q) : Z :=
  let q := Qfloor y in
  match Qcompare (y - inject_Z q) (1 # 2) with
  | Lt => q
  | Eq => if Z.even q then q else (q + 1)%Z
  | Gt => (q + 1)%Z
  end.

(** The exponent [e] of the last place of a positive [x]:
    [2^52 <= x / 2^e < 2^53]. *)
Definition exponent (x : Q) : Z :=
  let k := (Z.log2 (Qnum x) - Z.log2 (Zpos (Qden x)))%Z in
  if Qle_bool (2 ^ k) x then (k - 52)%Z else (k - 53)%Z.

Definition roundPositive (x : Q) : Q :=
  let e := exponent x in
  inject_Z (nearestEven (x / 2 ^ e)) * 2 ^ e.

(** The double nearest to [x]; a literal such as [0.3] is [round (3 # 10)]. *)
Definition round (x : Q) : Q :=
  match Qnum x with
  | Z0 => 0
  | Zpos _ => roundPositive x
  | Zneg _ => - roundPositive (- x)
  end.

(** [x / y] on doubles, for a divisor that is not zero. *)
Definition div (x y : Q) : Q := round (x / y).

(** The same division in the binary64 format of the standard library's
    specification of IEEE 754 (precision 53, exponents up to 1024), for
    comparison. *)
Definition binary64 (z : Z) : SpecFloat.spec_float :=
  SpecFloat.binary_normalize 53 1024 z 0 false.

Definition rationalOf (f : SpecFloat.spec_float) : option Q :=
  match f with
  | SpecFloat.S754_zero _ => Some 0
  | SpecFloat.S754_finite s m e =>
      Some ((if s then - inject_Z (Zpos m) else inject_Z (Zpos m)) * 2 ^ e)
  | _ => None
  end.

Definition agreesWithBinary64 (a b : Z) : bool :=
  match rationalOf (SpecFloat.SFdiv 53 1024 (binary64 a) (binary64 b)) with
  | Some v => Qeq_bool v (div (inject_Z a) (inject_Z b))
  | None => false
  end.

End Double.

(** ** The cross mapper ([src/mappers/cross-mapper.ts]) *)

Module CrossMapper.
Local Open Scope Z_scope.

Record AniListDate : Type := mkDate {
  year : option Z;
  month : option Z
}.

Record AniListMedia : Type := mkMedia {
  description : string;
  episodes : option Z;
  startDate : option AniListDate
}.

(** A TMDB season.  Of the string [air_date] the code reads two things:
    [air_date] here is the [year] and [month] of [parseDate(air_date)]
    ([None]: no date, or one that does not parse), and [air_year] is
    [parseInt(air_date.substring(0, 4))] ([None]: no date, or not a
    number). *)
Record TMDBSeason : Type := mkTMDBSeason {
  name : string;
  overview : string;
  season_number : Z;
  episode_count : Z;
  air_date : option (Z * Z);
  air_year : option Z
}.

Record Detected : Type := mkDetected {
  seasonNumber : Z;
  seasonName : string;
  splitCourPart : option Z
}.

Definition monthsBetween (date1 date2 : Z * Z) : Z :=
  (fst date2 - fst date1) * 12 + (snd date2 - snd date1).

Definition truthy (z : option Z) : option Z :=
  match z with
  | Some v => if (v =? 0)%Z then None else Some v
  | None => None
  end.

Section Detect.
(** [getTMDBSeasons]: the seasons of a show, [None] when the request
    fails. *)
Variable getTMDBSeasons : Z -> option (list TMDBSeason).

(** The points of lines 519-526 for a season: [Math.floor(descSimilarity *
    20)] when the word overlap of the two descriptions exceeds 0.3, else 0
    (also when one of them is empty). *)
Variable descriptionPoints : AniListMedia -> TMDBSeason -> Z.

(** Lines 483-493: the points for the distance in months, [None] for
    [continue]. *)
Definition datePoints (monthsDiff : Z) : option Z :=
  if (monthsDiff =? 0)%Z then Some 200
  else if (Z.abs monthsDiff =? 1)%Z then Some 150
  else if (Z.abs monthsDiff <=? 3)%Z then Some 100
  else if (Z.abs monthsDiff <=? 6)%Z then Some 50
  else None.

Definition episodePoints (episodeDiff : Z) : Z :=
  if (episodeDiff =? 0)%Z then 50
  else if (episodeDiff <=? 2)%Z then 30
  else if (episodeDiff <=? 5)%Z then 10
  else 0.

(** Lines 508-515: [ratio >= 0.3 && ratio <= 0.7] for
    [ratio = episodes / episode_count], both truthy; the quotient and the
    two literals are doubles. *)
Definition splitCourDetected (monthsDiff animeEpisodes seasonEpisodes : Z)
    : bool :=
  let ratio :=
    Double.div (inject_Z animeEpisodes) (inject_Z seasonEpisodes) in
  (3 <=? Z.abs monthsDiff)%Z && (Z.abs monthsDiff <=? 6)%Z
  && Qle_bool (Double.round (3 # 10)) ratio
  && Qle_bool ratio (Double.round (7 # 10)).

(** The score of one season in the loop by date, with its split-cour
    mark; [None] for [continue]. *)
Definition scoreByDate (animeInfo : AniListMedia) (start : Z * Z)
    (season : TMDBSeason) : option (Z * bool) :=
  match air_date season with
  | None => None
  | Some seasonDate =>
      let monthsDiff := monthsBetween start seasonDate in
      match datePoints monthsDiff with
      | None => None
      | Some score =>
          let '(score, split) :=
            match truthy (episodes animeInfo), truthy (Some (episode_count season)) with
            | Some animeEpisodes, Some seasonEpisodes =>
                let episodeDiff := Z.abs (seasonEpisodes - animeEpisodes) in
                let score := (score + episodePoints episodeDiff)%Z in
                if splitCourDetected monthsDiff animeEpisodes seasonEpisodes
                then ((score + 20)%Z, true)
                else (score, false)
            | _, _ => (score, false)
            end in
          Some ((score + descriptionPoints animeInfo season)%Z, split)
      end
  end.

(** The loop by date over [(bestMatch, bestScore, isSplitCourPart2)]. *)
Fixpoint dateLoop (animeInfo : AniListMedia) (start : Z * Z)
    (seasons : list TMDBSeason) (bestMatch : option TMDBSeason)
    (bestScore : Z) (isSplitCourPart2 : bool)
    : option TMDBSeason * Z * bool :=
  match seasons with
  | [] => (bestMatch, bestScore, isSplitCourPart2)
  | season :: rest =>
      match scoreByDate animeInfo start season with
      | Some (score, splitCour) =>
          if (bestScore <? score)%Z
          then dateLoop animeInfo start rest (Some season) score splitCour
          else dateLoop animeInfo start rest bestMatch bestScore
                 isSplitCourPart2
      | None =>
          dateLoop animeInfo start rest bestMatch bestScore isSplitCourPart2
      end
  end.

(** [seasonYear], when it is truthy. *)
Definition seasonYearOf (season : TMDBSeason) : option Z :=
  truthy (air_year season).

Definition scoreByYear (animeInfo : AniListMedia) (animeYear animeEpisodes : Z)
    (season : TMDBSeason) : option Z :=
  match seasonYearOf season with
  | None => None
  | Some seasonYear =>
      let yearDiff := Z.abs (seasonYear - animeYear) in
      let base :=
        if (yearDiff =? 0)%Z then Some 100%Z
        else if (yearDiff =? 1)%Z then Some 50%Z
        else None in
      match base with
      | None => None
      | Some score =>
          let score :=
            if (episode_count season =? 0)%Z then score
            else (score
                  + episodePoints (Z.abs (episode_count season - animeEpisodes)))%Z in
          Some (score + descriptionPoints animeInfo season)%Z
      end
  end.

Fixpoint yearLoop (animeInfo : AniListMedia) (animeYear animeEpisodes : Z)
    (seasons : list TMDBSeason) (bestMatch : option TMDBSeason)
    (bestScore : Z) : option TMDBSeason * Z :=
  match seasons with
  | [] => (bestMatch, bestScore)
  | season :: rest =>
      match scoreByYear animeInfo animeYear animeEpisodes season with
      | Some score =>
          if (bestScore <? score)%Z
          then yearLoop animeInfo animeYear animeEpisodes rest (Some season) score
          else yearLoop animeInfo animeYear animeEpisodes rest bestMatch bestScore
      | None =>
          yearLoop animeInfo animeYear animeEpisodes rest bestMatch bestScore
      end
  end.

(** The outcome of the block by date: [Some] when it returns. *)
Definition detectByDate (animeInfo : AniListMedia)
    (seasons : list TMDBSeason) : option Detected :=
  match startDate animeInfo with
  | Some d =>
      match truthy (year d), truthy (month d) with
      | Some y, Some m =>
          match dateLoop animeInfo (y, m) seasons None 0 false with
          | (Some bestMatch, bestScore, isSplitCourPart2) =>
              if (50 <=? bestScore)%Z
              then Some {| seasonNumber := season_number bestMatch;
                           seasonName := name bestMatch;
                           splitCourPart :=
                             Some (if isSplitCourPart2 then 2 else 1)%Z |}
              else None
          | (None, _, _) => None
          end
      | _, _ => None
      end
  | None => None
  end.

Definition detectByYear (animeInfo : AniListMedia) (animeYear : option Z)
    (seasons : list TMDBSeason) : option Detected :=
  match truthy animeYear, truthy (episodes animeInfo) with
  | Some animeYear, Some animeEpisodes =>
      match yearLoop animeInfo animeYear animeEpisodes seasons None 0 with
      | (Some bestMatch, bestScore) =>
          if (50 <=? bestScore)%Z
          then Some {| seasonNumber := season_number bestMatch;
                       seasonName := name bestMatch;
                       splitCourPart := None |}
          else None
      | (None, _) => None
      end
  | Some animeYear, None =>
      match
        List.find
          (fun season =>
             match seasonYearOf season with
             | Some seasonYear => (seasonYear =? animeYear)%Z
             | None => false
             end)
          seasons
      with
      | Some season =>
          Some {| seasonNumber := season_number season;
                  seasonName := name season;
                  splitCourPart := None |}
      | None => None
      end
  | None, _ => None
  end.

Definition detectTMDBSeason (tmdbId : Z) (animeInfo : AniListMedia)
    (animeYear : option Z) : option Detected :=
  match getTMDBSeasons tmdbId with
  | None => None
  | Some [] => None
  | Some seasons =>
      match detectByDate animeInfo seasons with
      | Some detected => Some detected
      | None => detectByYear animeInfo animeYear seasons
      end
  end.

End Detect.
End CrossMapper.

(** ** [parseInt] on any string *)

Module JsNumber.
Import Js.

Definition isHexDigit (c : ascii) : bool :=
  isDigit c || between 65 70 c || between 97 102 c.

Definition hexValue (c : ascii) : N :=
  if isDigit c then (code c - 48)%N
  else if between 65 70 c then (code c - 55)%N
  else (code c - 87)%N.

Fixpoint parseHexFrom (acc : N) (s : string) : N :=
  match s with
  | EmptyString => acc
  | String c s' => parseHexFrom (16 * acc + hexValue c)%N s'
  end.

(** The digits of [parseInt] once the sign is read: of radix 16 after
    [0x] or [0X], of radix 10 otherwise; [None] is [NaN]. *)
Definition magnitude (s : string) : option N :=
  if prefixCI "0x" s
  then match takeWhile isHexDigit (drop 2 s) with
       | EmptyString => None
       | ds => Some (parseHexFrom 0%N ds)
       end
  else match takeWhile isDigit s with
       | EmptyString => None
       | ds => Some (Js.parseInt ds)
       end.

(** [parseInt(s)] with no radix: leading white space, a sign, the digits;
    what follows the digits is ignored.  The value is the exact integer
    that the digits write, which is the JavaScript number as long as it is
    below 2^53; from there on the number of the code is a double near it. *)
Definition parseInt (s : string) : option Z :=
  match trimStart s with
  | String "-" rest => option_map (fun n => (- Z.of_N n)%Z) (magnitude rest)
  | String "+" rest => option_map Z.of_N (magnitude rest)
  | rest => option_map Z.of_N (magnitude rest)
  end.

End JsNumber.

(** ** Retrying a request ([fetchWithRetry] of both providers) *)

Module Retry.

(** What a call of [fetchWithRetry] does: its outcome ([None]: the function
    returns [undefined]; [inl]: the error it throws), the number of calls
    of [fetchFn] and the time slept between them, in milliseconds. *)
Record Run (E A : Type) : Type := mkRun {
  outcome : option (E + A);
  calls : nat;
  slept : Z
}.
Arguments mkRun {E A}.
Arguments outcome {E A}.
Arguments calls {E A}.
Arguments slept {E A}.

Section Loop.
Context {E A : Type}.

(** [fetchFn k] is how the call number [k] of [fetchWithTimeout(fetchFn())]
    settles: [inr] a value, [inl] an error (the timeout is one). *)
Variable fetchFn : nat -> E + A.
Variable maxRetries : nat.

(** What happens when the loop ends without a return. *)
Variable afterLoop : option (E + A).

(** [for (let i = ...; i < maxRetries; i++)] from [i], with [remaining]
    turns to go. *)
Fixpoint attempts (remaining i : nat) (slept : Z) : Run E A :=
  match remaining with
  | O => {| outcome := afterLoop; calls := i; slept := slept |}
  | S remaining' =>
      match fetchFn i with
      | inr value =>
          {| outcome := Some (inr value); calls := S i; slept := slept |}
      | inl error =>
          if (i =? maxRetries - 1)%nat
          then {| outcome := Some (inl error); calls := S i; slept := slept |}
          else attempts remaining' (S i) (slept + 2 ^ Z.of_nat i * 1000)%Z
      end
  end.

End Loop.

(** [src/providers/hianime.ts]: the loop falls through to the end of the
    function. *)
Definition fetchWithRetry {E A : Type} (fetchFn : nat -> E + A)
    (maxRetries : nat) : Run E A :=
  attempts fetchFn maxRetries None maxRetries 0 0.

(** The AnimeSama provider: [throw new Error('Max retries exceeded')]
    after the loop. *)
Definition fetchWithRetrySama {A : Type} (fetchFn : nat -> string + A)
    (maxRetries : nat) : Run string A :=
  attempts fetchFn maxRetries (Some (inl "Max retries exceeded")) maxRetries 0 0.

Definition MAX_RETRIES : nat := 3.

End Retry.

(** ** Slugs of the AnimeSama catalogue *)

Module SamaSlug.
Import Js.

(** [s.replace(/[class]+/g, r)] for a one-character [r]: [inRun] tells
    that the previous character was of the class. *)
Fixpoint squeeze (p : ascii -> bool) (r : ascii) (inRun : bool) (s : string)
    : string :=
  match s with
  | EmptyString => EmptyString
  | String c s' =>
      if p c
      then (if inRun then squeeze p r true s'
            else String r (squeeze p r true s'))
      else String c (squeeze p r false s')
  end.

Definition isDash (c : ascii) : bool := Ascii.eqb c "-"%char.

(** The string without the characters of the class at its end. *)
Fixpoint dropEndWhile (p : ascii -> bool) (s : string) : string :=
  match s with
  | EmptyString => EmptyString
  | String c s' =>
      match dropEndWhile p s' with
      | EmptyString => if p c then EmptyString else String c EmptyString
      | t => String c t
      end
  end.

(** The last five steps of both slug chains: [/[^\w\s-]/g], [/\s+/g],
    [/-+/g], [/^-+|-+$/g] and [trim]. *)
Definition hyphenate (s : string) : string :=
  let s := replaceAll (fun c => negb (isWord c || isSpace c || isDash c))
             EmptyString s in
  let s := squeeze isSpace "-" false s in
  let s := squeeze isDash "-" false s in
  let s := dropEndWhile isDash (dropWhile isDash s) in
  trim s.

(** The first class, of six signs beyond U+00FF, holds no character of a
    string of this development. *)
Definition generateAnimeSamaSlug (title : string) : string :=
  let s := toLowerCase title in
  let s := replaceAll (fun c => Ascii.eqb c "&"%char) "and" s in
  let s := replaceAll (fun c => Ascii.eqb c "'"%char) EmptyString s in
  let s := replaceAll (fun c => Ascii.eqb c "/"%char || Ascii.eqb c ":"%char)
             "-" s in
  hyphenate s.

Definition isSlashOrColon (c : ascii) : bool :=
  Ascii.eqb c "/"%char || Ascii.eqb c ":"%char.

Definition generateSlugVariations (title : string) : list string :=
  let slugs := WordVariations.setAdd (generateAnimeSamaSlug title) [] in
  if includes title "/" || includes title ":"
  then
    let compact :=
      hyphenate (replaceAll isSlashOrColon EmptyString (toLowerCase title)) in
    let slugs :=
      if nonEmpty compact then WordVariations.setAdd compact slugs
      else slugs in
    let beforeSpecialChar :=
      trim (takeWhile (fun c => negb (isSlashOrColon c)) title) in
    if nonEmpty beforeSpecialChar && (1 <? String.length beforeSpecialChar)%nat
    then
      let baseSlug := generateAnimeSamaSlug beforeSpecialChar in
      if nonEmpty baseSlug then WordVariations.setAdd baseSlug slugs
      else slugs
    else slugs
  else slugs.

Section Direct.
(** The collaborator: the status and the body of the catalogue page of a
    slug, [None] when the request throws after its retries. *)
Variable cataloguePageOf : string -> option (Z * string).

Definition pageFound (slug : string) : bool :=
  match cataloguePageOf slug with
  | Some (status, data) => (status =? 200)%Z && includes data "panneauAnime"
  | None => false
  end.

Definition tryDirectSlugAccess (titles : list string) : option string :=
  List.find pageFound (flat_map generateSlugVariations titles).

End Direct.
End SamaSlug.

(** ** The cross mapper: titles, scores and the choice of a candidate *)

Module Mapper.
Import Js.

(** The records of the three databases; a field that the code never reads
    is left out. *)
Module AniList.
Record Title : Type := mkTitle {
  romaji : option string;
  english : option string;
  native : option string;
  userPreferred : option string
}.

(** [core] holds the fields [description], [episodes] and [startDate] that
    [detectTMDBSeason] reads. *)
Record Media : Type := mkMedia {
  id : Z;
  title : Title;
  core : CrossMapper.AniListMedia;
  status : string;
  seasonYear : option Z;
  format : string;
  synonyms : list string;
  averageScore : option Q
}.
End AniList.

Module MAL.
Record Title : Type := mkTitle {
  english : option string;
  japanese : option string;
  synonyms : option (list string)
}.

Record Media : Type := mkMedia {
  id : Z;
  title : string;
  alternative_titles : option Title;
  start_date : option string;
  mean : option Q;
  num_episodes : option Z;
  status : option string;
  media_type : option string
}.
End MAL.

Module TMDB.
Record Media : Type := mkMedia {
  id : Z;
  title : option string;
  name : option string;
  original_title : option string;
  release_date : option string;
  first_air_date : option string;
  overview : string;
  adult : bool;
  vote_average : option Q;
  popularity : option Q;
  media_type : option string
}.
End TMDB.

(** The three parts of a [MappingResult]. *)
Module AniListMatch.
Record t : Type := mk {
  id : Z;
  title : AniList.Title;
  format : string;
  episodes : option Z;
  status : string;
  year : option Z;
  score : option Q
}.
End AniListMatch.

Module MALMatch.
Record t : Type := mk {
  id : Z;
  title : string;
  alternativeTitles : option MAL.Title;
  mediaType : option string;
  episodes : option Z;
  status : option string;
  year : option Z;
  score : option Q
}.
End MALMatch.

Module TMDBMatch.
Record t : Type := mk {
  id : Z;
  title : string;
  mediaType : string;
  seasonNumber : option Z;
  seasonName : option string;
  splitCourPart : option Z;
  releaseDate : option string;
  overview : string;
  year : option Z;
  score : option Q
}.
End TMDBMatch.

(** [a || b] on numbers and on strings. *)
Definition orElseZ (a b : option Z) : option Z :=
  match CrossMapper.truthy a with
  | Some v => Some v
  | None => b
  end.

Definition orEmpty (a : option string) : string :=
  match a with Some s => s | None => EmptyString end.

(** [startDate?.year || seasonYear]. *)
Definition yearOf (m : AniList.Media) : option Z :=
  orElseZ
    (match CrossMapper.startDate (AniList.core m) with
     | Some d => CrossMapper.year d
     | None => None
     end)
    (AniList.seasonYear m).

Definition parseDate (dateString : string) : option (Z * Z * Z) :=
  if nonEmpty dateString
  then match split "-" dateString with
       | [y; m; d] =>
           match JsNumber.parseInt y, JsNumber.parseInt m, JsNumber.parseInt d with
           | Some year, Some month, Some day => Some (year, month, day)
           | _, _, _ => None
           end
       | _ => None
       end
  else None.

Definition extractYear (dateString : option string) : option Z :=
  match dateString with
  | Some s =>
      if nonEmpty s then JsNumber.parseInt (String.substring 0 4 s) else None
  | None => None
  end.

(** [/<[^>]*>/]. *)
Definition tagLen (_ : option ascii) (s : string) : option nat :=
  match s with
  | String c s' =>
      if Ascii.eqb c "<"%char
      then match Replace.lengthThrough ">"%char s' with
           | Some n => Some (S n)
           | None => None
           end
      else None
  | EmptyString => None
  end.

Definition normalizeDescription (desc : string) : string :=
  if nonEmpty desc
  then trim (toLowerCase (collapseSpaces (Replace.removeMatches tagLen 0 None desc)))
  else EmptyString.

(** [desc.split(' ').filter(w => w.length > 4)]. *)
Definition significantWordsOf (desc : string) : list string :=
  List.filter (fun w => (4 <? String.length w)%nat) (split " " desc).

Definition calculateDescriptionSimilarity (desc1 desc2 : string) : Q :=
  if negb (nonEmpty desc1) || negb (nonEmpty desc2) then 0%Q
  else
    let words1 := significantWordsOf desc1 in
    let words2 := significantWordsOf desc2 in
    match words1, words2 with
    | [], _ | _, [] => 0%Q
    | _, _ =>
        let set1 := HiAnime.dedupe words1 in
        let set2 := HiAnime.dedupe words2 in
        let matches :=
          List.length (List.filter (fun word => HiAnime.inList word set2) set1) in
        let union := List.length (HiAnime.dedupe (set1 ++ set2)) in
        (inject_Z (Z.of_nat matches) / inject_Z (Z.of_nat union))%Q
    end.

(** Lines 519-526 and 579-586: the points of the description of a season,
    [Math.floor(descSimilarity * 20)] above 0.3. *)
Definition descriptionPoints (animeInfo : CrossMapper.AniListMedia)
    (season : CrossMapper.TMDBSeason) : Z :=
  let normalizedAnimeDesc :=
    normalizeDescription (CrossMapper.description animeInfo) in
  if nonEmpty normalizedAnimeDesc && nonEmpty (CrossMapper.overview season)
  then
    let normalizedSeasonDesc :=
      normalizeDescription (CrossMapper.overview season) in
    let descSimilarity :=
      calculateDescriptionSimilarity normalizedAnimeDesc normalizedSeasonDesc in
    if HiAnime.Qltb (3 # 10) descSimilarity
    then Qfloor (descSimilarity * 20)
    else 0%Z
  else 0%Z.

Definition normalizeTitle (title : string) : string :=
  trim
    (collapseSpaces
       (replaceAll (fun c => negb (isWord c || isSpace c)) " "
          (toLowerCase title))).

(** The matrix is the one of [levenshteinDistance] of the HiAnime
    provider, filled by the same loops; [None] is the [NaN] of two empty
    strings. *)
Definition getLevenshteinSimilarity (str1 str2 : string) : option Q :=
  let distance := HiAnime.levenshteinDistance str1 str2 in
  let longest := Nat.max (String.length str1) (String.length str2) in
  if (longest =? 0)%nat then None
  else Some (1 - inject_Z (Z.of_nat distance) / inject_Z (Z.of_nat longest))%Q.

(** [title.split(' ').filter(w => w.length > 2)]. *)
Definition wordsOf (title : string) : list string :=
  List.filter (fun w => (2 <? String.length w)%nat) (split " " title).

(** What one pair of words adds to [partialMatches]. *)
Definition partialMatch (w1 w2 : string) : Q :=
  if (3 <? String.length w1)%nat && (3 <? String.length w2)%nat
  then match getLevenshteinSimilarity w1 w2 with
       | Some sim =>
           if HiAnime.Qltb (7 # 10) sim then (sim * (5 # 10))%Q else 0%Q
       | None => 0%Q
       end
  else 0%Q.

Definition calculateTitleSimilarity (title1 title2 : string) : Q :=
  if negb (nonEmpty title1) || negb (nonEmpty title2) then 0%Q
  else if String.eqb title1 title2 then 1%Q
  else
    let words1 := wordsOf title1 in
    let words2 := wordsOf title2 in
    match words1, words2 with
    | [], _ | _, [] => 0%Q
    | _, _ =>
        let exactMatches :=
          List.length (List.filter (fun w => HiAnime.inList w words2) words1) in
        let partialMatches :=
          fold_left
            (fun acc w1 =>
               fold_left (fun acc w2 => (acc + partialMatch w1 w2)%Q) words2 acc)
            words1 0%Q in
        Qmin
          ((inject_Z (Z.of_nat exactMatches) + partialMatches)
           / inject_Z
               (Z.of_nat (Nat.max (List.length words1) (List.length words2))))
          1
    end.

(** [if (t) titles.push(t)]. *)
Definition pushTitle (t : option string) (titles : list string) : list string :=
  match t with
  | Some s => if nonEmpty s then titles ++ [s] else titles
  | None => titles
  end.

(** [[...new Set(titles)].filter(t => t?.trim())]. *)
Definition distinctTitles (titles : list string) : list string :=
  List.filter (fun t => nonEmpty (trim t)) (HiAnime.dedupe titles).

Definition extractTitles (animeInfo : AniList.Media) : list string :=
  let t := AniList.title animeInfo in
  let titles := pushTitle (AniList.english t) [] in
  let titles := pushTitle (AniList.romaji t) titles in
  let titles := pushTitle (AniList.userPreferred t) titles in
  let titles := pushTitle (AniList.native t) titles in
  distinctTitles (titles ++ AniList.synonyms animeInfo).

Definition extractMALTitles (malInfo : MAL.Media) : list string :=
  let titles := [MAL.title malInfo] in
  let titles :=
    match MAL.alternative_titles malInfo with
    | Some alt =>
        let titles := pushTitle (MAL.english alt) titles in
        let titles := pushTitle (MAL.japanese alt) titles in
        match MAL.synonyms alt with
        | Some synonyms => titles ++ synonyms
        | None => titles
        end
    | None => titles
    end in
  distinctTitles titles.

(** The two nested loops over the titles of both sides, on
    [titleScore = Math.max(titleScore, similarity)]. *)
Definition bestTitleSimilarity (titles1 titles2 : list string) : Q :=
  fold_left
    (fun acc t1 =>
       fold_left
         (fun acc t2 =>
            Qmax acc
              (calculateTitleSimilarity (normalizeTitle t1) (normalizeTitle t2)))
         titles2 acc)
    titles1 0%Q.

(** [a === b ? 0.2 : Math.abs(a - b) === 1 ? 0.1 : 0] when both years are
    truthy. *)
Definition yearPoints (a b : option Z) : Q :=
  match CrossMapper.truthy a, CrossMapper.truthy b with
  | Some x, Some y =>
      if (x =? y)%Z then 2 # 10
      else if (Z.abs (x - y) =? 1)%Z then 1 # 10 else 0
  | _, _ => 0
  end.

(** [a === b ? 0.1 : Math.abs(a - b) <= 2 ? 0.05 : 0] when both counts are
    truthy. *)
Definition episodesPoints (a b : option Z) : Q :=
  match CrossMapper.truthy a, CrossMapper.truthy b with
  | Some x, Some y =>
      if (x =? y)%Z then 1 # 10
      else if (Z.abs (x - y) <=? 2)%Z then 5 # 100 else 0
  | _, _ => 0
  end.

(** [v && v > limit ? points : 0]. *)
Definition above (limit : Q) (v : option Q) (points : Q) : Q :=
  match v with
  | Some x => if HiAnime.Qltb limit x then points else 0
  | None => 0
  end.

(** The five scores that follow are sums of a title score times 0.6 and
    of points for the year, the episodes or the format, and the rating.
    They are summed here as exact rationals; the sums of the code are
    doubles, which may differ from these in the last place and so fall on
    the other side of a tie or of a threshold. *)
Definition calculateMALMatchScore (animeInfo : AniList.Media)
    (malResult : MAL.Media) (animeTitles : list string) (animeYear : option Z)
    : Q :=
  let malTitles := extractMALTitles malResult in
  let titleScore := bestTitleSimilarity animeTitles malTitles in
  let score := (0 + titleScore * (6 # 10))%Q in
  let malYear := extractYear (MAL.start_date malResult) in
  let score :=
    match CrossMapper.truthy animeYear, CrossMapper.truthy malYear with
    | Some _, Some _ => (score + yearPoints animeYear malYear)%Q
    | Some _, None => (score + (5 # 100))%Q
    | None, _ => score
    end in
  let score :=
    (score + episodesPoints (CrossMapper.episodes (AniList.core animeInfo))
               (MAL.num_episodes malResult))%Q in
  (score + above 7 (MAL.mean malResult) (5 # 100))%Q.

Definition calculateAniListMatchScoreFromMAL (malInfo : MAL.Media)
    (anilistResult : AniList.Media) (malTitles : list string)
    (malYear : option Z) : Q :=
  let anilistTitles := extractTitles anilistResult in
  let titleScore := bestTitleSimilarity malTitles anilistTitles in
  let score := (0 + titleScore * (6 # 10))%Q in
  let anilistYear := yearOf anilistResult in
  let score := (score + yearPoints malYear anilistYear)%Q in
  let score :=
    (score + episodesPoints (MAL.num_episodes malInfo)
               (CrossMapper.episodes (AniList.core anilistResult)))%Q in
  (score + above 70 (AniList.averageScore anilistResult) (5 # 100))%Q.

(** [result.title || result.name || '']. *)
Definition tmdbTitleOf (m : TMDB.Media) : string :=
  orEmpty (HiAnime.orElse (TMDB.title m) (TMDB.name m)).

(** [result.release_date || result.first_air_date]. *)
Definition tmdbDateOf (m : TMDB.Media) : option string :=
  HiAnime.orElse (TMDB.release_date m) (TMDB.first_air_date m).

(** [['tv', 'ona', 'ova', 'special'].includes(media_type.toLowerCase())]. *)
Definition malFormatPoints (media_type : option string) (mediaType : string) : Q :=
  match media_type with
  | Some t =>
      if nonEmpty t
         && ((String.eqb t "movie" && String.eqb mediaType "movie")
             || (HiAnime.inList (toLowerCase t) ["tv"; "ona"; "ova"; "special"]
                 && String.eqb mediaType "tv"))
      then 1 # 10 else 0
  | None => 0
  end.

Definition anilistFormatPoints (format : string) (mediaType : string) : Q :=
  if (String.eqb format "MOVIE" && String.eqb mediaType "movie")
     || (HiAnime.inList format ["TV"; "TV_SHORT"; "ONA"; "OVA"]
         && String.eqb mediaType "tv")
  then 1 # 10 else 0.

Definition calculateTMDBMatchScoreFromMAL (malInfo : MAL.Media)
    (tmdbResult : TMDB.Media) (malTitles : list string) (malYear : option Z)
    (mediaType : string) : Q :=
  let tmdbTitle := normalizeTitle (tmdbTitleOf tmdbResult) in
  let titleScore :=
    fold_left
      (fun acc malTitle =>
         Qmax acc (calculateTitleSimilarity (normalizeTitle malTitle) tmdbTitle))
      malTitles 0%Q in
  let score := (0 + titleScore * (6 # 10))%Q in
  let tmdbYear := extractYear (tmdbDateOf tmdbResult) in
  let score := (score + yearPoints malYear tmdbYear)%Q in
  let score := (score + malFormatPoints (MAL.media_type malInfo) mediaType)%Q in
  (score + above 7 (TMDB.vote_average tmdbResult) (5 # 100))%Q.

Definition calculateMALMatchScoreFromTMDB (tmdbInfo : TMDB.Media)
    (malResult : MAL.Media) (tmdbTitle : string) (tmdbYear : option Z)
    (mediaType : string) : Q :=
  let malTitles := extractMALTitles malResult in
  let normalizedTmdbTitle := normalizeTitle tmdbTitle in
  let titleScore :=
    fold_left
      (fun acc malTitle =>
         Qmax acc
           (calculateTitleSimilarity normalizedTmdbTitle (normalizeTitle malTitle)))
      malTitles 0%Q in
  let score := (0 + titleScore * (6 # 10))%Q in
  let malYear := extractYear (MAL.start_date malResult) in
  let score := (score + yearPoints tmdbYear malYear)%Q in
  let score := (score + malFormatPoints (MAL.media_type malResult) mediaType)%Q in
  (score + above 7 (MAL.mean malResult) (1 # 10))%Q.

Definition calculateAniListMatchScore (tmdbInfo : TMDB.Media)
    (anilistResult : AniList.Media) (tmdbTitle : string) (tmdbYear : option Z)
    (mediaType : string) : Q :=
  let anilistTitles := extractTitles anilistResult in
  let normalizedTmdbTitle := normalizeTitle tmdbTitle in
  let titleScore :=
    fold_left
      (fun acc title =>
         Qmax acc
           (calculateTitleSimilarity normalizedTmdbTitle (normalizeTitle title)))
      anilistTitles 0%Q in
  let score := (0 + titleScore * (6 # 10))%Q in
  let anilistYear := yearOf anilistResult in
  let score := (score + yearPoints tmdbYear anilistYear)%Q in
  let score :=
    (score + anilistFormatPoints (AniList.format anilistResult) mediaType)%Q in
  (score + above 70 (AniList.averageScore anilistResult) (1 # 10))%Q.

(** The loop that the result processors share: a result that is not
    skipped replaces the best match when its score exceeds both the best
    score so far and the threshold. *)
Section BestLoop.
Context {R M : Type}.
Variable skip : R -> bool.
Variable scoreOf : R -> Q.
Variable threshold : Q.
Variable build : R -> Q -> M.

Definition visitResult (st : option M * Q) (result : R) : option M * Q :=
  if skip result then st
  else
    let score := scoreOf result in
    if HiAnime.Qltb (snd st) score && HiAnime.Qltb threshold score
    then (Some (build result score), score)
    else st.

Definition bestOf (results : list R) : option M :=
  fst (fold_left visitResult results (None, 0%Q)).

End BestLoop.

Definition findBestMALMatchFromResults (animeInfo : AniList.Media)
    (results : list MAL.Media) : option MALMatch.t :=
  let animeYear := yearOf animeInfo in
  let animeTitles := extractTitles animeInfo in
  bestOf (fun _ => false)
    (fun result => calculateMALMatchScore animeInfo result animeTitles animeYear)
    (5 # 10)
    (fun result bestScore =>
       {| MALMatch.id := MAL.id result;
          MALMatch.title := MAL.title result;
          MALMatch.alternativeTitles := MAL.alternative_titles result;
          MALMatch.mediaType := MAL.media_type result;
          MALMatch.episodes := MAL.num_episodes result;
          MALMatch.status := MAL.status result;
          MALMatch.year := CrossMapper.truthy (extractYear (MAL.start_date result));
          MALMatch.score := Some bestScore |})
    results.

Definition anilistMatchOf (result : AniList.Media) (bestScore : Q)
    : AniListMatch.t :=
  {| AniListMatch.id := AniList.id result;
     AniListMatch.title := AniList.title result;
     AniListMatch.format := AniList.format result;
     AniListMatch.episodes := CrossMapper.episodes (AniList.core result);
     AniListMatch.status := AniList.status result;
     AniListMatch.year := yearOf result;
     AniListMatch.score := Some bestScore |}.

Definition findBestAniListMatchFromMALResults (malInfo : MAL.Media)
    (results : list AniList.Media) : option AniListMatch.t :=
  let malTitles := extractMALTitles malInfo in
  let malYear := extractYear (MAL.start_date malInfo) in
  bestOf (fun _ => false)
    (fun result =>
       calculateAniListMatchScoreFromMAL malInfo result malTitles malYear)
    (6 # 10) anilistMatchOf results.

Definition findBestTMDBMatchFromMALResults (malInfo : MAL.Media)
    (results : list TMDB.Media) (mediaType : string) : option TMDBMatch.t :=
  let malTitles := extractMALTitles malInfo in
  let malYear := extractYear (MAL.start_date malInfo) in
  bestOf TMDB.adult
    (fun result =>
       calculateTMDBMatchScoreFromMAL malInfo result malTitles malYear mediaType)
    (6 # 10)
    (fun result bestScore =>
       {| TMDBMatch.id := TMDB.id result;
          TMDBMatch.title := tmdbTitleOf result;
          TMDBMatch.mediaType := mediaType;
          TMDBMatch.seasonNumber := None;
          TMDBMatch.seasonName := None;
          TMDBMatch.splitCourPart := None;
          TMDBMatch.releaseDate := tmdbDateOf result;
          TMDBMatch.overview := TMDB.overview result;
          TMDBMatch.year := CrossMapper.truthy (extractYear (tmdbDateOf result));
          TMDBMatch.score := Some bestScore |})
    results.

Definition findBestMALMatchFromTMDBResults (tmdbInfo : TMDB.Media)
    (results : list MAL.Media) (mediaType : string) : option MALMatch.t :=
  let tmdbTitle := tmdbTitleOf tmdbInfo in
  let tmdbYear := extractYear (tmdbDateOf tmdbInfo) in
  bestOf (fun _ => false)
    (fun result =>
       calculateMALMatchScoreFromTMDB tmdbInfo result tmdbTitle tmdbYear mediaType)
    (6 # 10)
    (fun result bestScore =>
       {| MALMatch.id := MAL.id result;
          MALMatch.title := MAL.title result;
          MALMatch.alternativeTitles := MAL.alternative_titles result;
          MALMatch.mediaType := MAL.media_type result;
          MALMatch.episodes := MAL.num_episodes result;
          MALMatch.status := MAL.status result;
          MALMatch.year := CrossMapper.truthy (extractYear (MAL.start_date result));
          MALMatch.score := Some bestScore |})
    results.

Definition findBestAniListMatchFromResults (tmdbInfo : TMDB.Media)
    (results : list AniList.Media) (mediaType : string)
    : option AniListMatch.t :=
  let tmdbTitle := tmdbTitleOf tmdbInfo in
  let tmdbYear := extractYear (tmdbDateOf tmdbInfo) in
  bestOf (fun _ => false)
    (fun result =>
       calculateAniListMatchScore tmdbInfo result tmdbTitle tmdbYear mediaType)
    (6 # 10) anilistMatchOf results.

End Mapper.

(** ** The cross mapper: its cache and the seasons of TMDB *)

Module MapperCache.
Import Js.

Record CacheItem (T : Type) : Type := mkItem {
  data : T;
  expiry : Z
}.
Arguments mkItem {T}.
Arguments data {T}.
Arguments expiry {T}.

(** [30 * 60 * 1000] milliseconds. *)
Definition cacheExpiry : Z := 30 * 60 * 1000.

Section Cache.
Context {T : Type}.

(** [getFromCache], with [this.cache] passed explicitly and [now] for
    [Date.now()]. *)
Definition getFromCache (key : string) (now : Z)
    (cache : gmap string (CacheItem T))
    : option T * gmap string (CacheItem T) :=
  match cache !! key with
  | Some item =>
      if (expiry item <? now)%Z then (None, delete key cache)
      else (Some (data item), cache)
  | None => (None, delete key cache)
  end.

Definition setCache (key : string) (value : T) (now : Z)
    (cache : gmap string (CacheItem T)) : gmap string (CacheItem T) :=
  <[key := {| data := value; expiry := (now + cacheExpiry)%Z |}]> cache.

End Cache.

(** A season as TMDB sends it. *)
Record Season : Type := mkSeason {
  name : string;
  overview : string;
  season_number : Z;
  episode_count : Z;
  air_date : option string
}.

(** What [detectTMDBSeason] reads of a season. *)
Definition readSeason (s : Season) : CrossMapper.TMDBSeason :=
  {| CrossMapper.name := name s;
     CrossMapper.overview := overview s;
     CrossMapper.season_number := season_number s;
     CrossMapper.episode_count := episode_count s;
     CrossMapper.air_date :=
       match air_date s with
       | Some d =>
           match Mapper.parseDate d with
           | Some (year, month, _) => Some (year, month)
           | None => None
           end
       | None => None
       end;
     CrossMapper.air_year :=
       match air_date s with
       | Some d =>
           if nonEmpty d then JsNumber.parseInt (String.substring 0 4 d)
           else None
       | None => None
       end |}.

Section Seasons.
(** The collaborator: the [seasons] field of the answer for a show
    ([Some None]: the answer has none), [None] when the request throws. *)
Variable requestTV : Z -> option (option (list Season)).

(** [getTMDBSeasons]: the entries of the cache under the keys
    [tmdb_seasons_...] hold lists of seasons; [now] is the time of the
    lookup and [later] the time at which the answer is stored. *)
Definition getTMDBSeasons (tvId : Z) (now later : Z)
    (cache : gmap string (CacheItem (list Season)))
    : option (list Season) * gmap string (CacheItem (list Season)) :=
  let cacheKey := ("tmdb_seasons_" ++ showZ tvId)%string in
  match getFromCache cacheKey now cache with
  | (Some cached, cache) => (Some cached, cache)
  | (None, cache) =>
      match requestTV tvId with
      | Some response =>
          let seasons :=
            match response with
            | Some l => List.filter (fun s => (0 <? season_number s)%Z) l
            | None => []
            end in
          (Some seasons, setCache cacheKey seasons later cache)
      | None => (None, cache)
      end
  end.

(** [detectTMDBSeason] on the seasons that [getTMDBSeasons] answers. *)
Definition detectTMDBSeason (tmdbId : Z) (animeInfo : CrossMapper.AniListMedia)
    (animeYear : option Z) (now later : Z)
    (cache : gmap string (CacheItem (list Season)))
    : option CrossMapper.Detected * gmap string (CacheItem (list Season)) :=
  let '(seasons, cache) := getTMDBSeasons tmdbId now later cache in
  (CrossMapper.detectTMDBSeason
     (fun _ => option_map (map readSeason) seasons)
     Mapper.descriptionPoints tmdbId animeInfo animeYear,
   cache).

End Seasons.
End MapperCache.

(** ** The cross mapper: from one database to the others *)

Module MapperFlow.
Import Js Mapper.

(** [for (const x of l) { const match = f(x); if (match) return match; }
    return null]. *)
Fixpoint firstMatch {A B : Type} (f : A -> option B) (l : list A) : option B :=
  match l with
  | [] => None
  | x :: rest =>
      match f x with
      | Some found => Some found
      | None => firstMatch f rest
      end
  end.

Record MappingResult : Type := mkMapping {
  anilist : option AniListMatch.t;
  mal : option MALMatch.t;
  tmdb : option TMDBMatch.t
}.

Section Flows.
(** The configuration and the collaborators. A search stands for what the
    cache or the request answers for a query, the empty list when the
    request fails; a lookup answers [None] then. No flow below asks the
    same search the same query twice. *)
Variable malClientId : string.
Variable requestAniListSearch : string -> list AniList.Media.
Variable requestMALSearch : string -> list MAL.Media.
Variable requestTMDBSearch : string -> string -> list TMDB.Media.
Variable requestMALInfo : Z -> option MAL.Media.
Variable getTMDBInfo : Z -> string -> option TMDB.Media.

Definition searchAniList (query : string) : list AniList.Media :=
  requestAniListSearch query.

Definition searchMAL (query : string) : list MAL.Media :=
  if nonEmpty malClientId then requestMALSearch query else [].

Definition searchTMDB (query mediaType : string) : list TMDB.Media :=
  requestTMDBSearch query mediaType.

Definition getMALInfo (id : Z) : option MAL.Media :=
  if nonEmpty malClientId then requestMALInfo id else None.

Definition findMALMatch (animeInfo : AniList.Media) : option MALMatch.t :=
  if nonEmpty malClientId
  then firstMatch
         (fun title => findBestMALMatchFromResults animeInfo (searchMAL title))
         (extractTitles animeInfo)
  else None.

Definition findAniListMatchFromMAL (malInfo : MAL.Media)
    : option AniListMatch.t :=
  firstMatch
    (fun title =>
       findBestAniListMatchFromMALResults malInfo (searchAniList title))
    (extractMALTitles malInfo).

Definition findTMDBMatchFromMAL (malInfo : MAL.Media) : option TMDBMatch.t :=
  firstMatch
    (fun title =>
       firstMatch
         (fun type =>
            findBestTMDBMatchFromMALResults malInfo (searchTMDB title type) type)
         ["tv"; "movie"])
    (extractMALTitles malInfo).

Definition findMALMatchFromTMDB (tmdbInfo : TMDB.Media) (mediaType : string)
    : option MALMatch.t :=
  let title := tmdbTitleOf tmdbInfo in
  findBestMALMatchFromTMDBResults tmdbInfo (searchMAL title) mediaType.

Definition findAniListMatch (tmdbInfo : TMDB.Media) (mediaType : string)
    : option AniListMatch.t :=
  let title := tmdbTitleOf tmdbInfo in
  match
    findBestAniListMatchFromResults tmdbInfo (searchAniList title) mediaType
  with
  | Some found => Some found
  | None =>
      match TMDB.original_title tmdbInfo with
      | Some original_title =>
          if nonEmpty original_title && negb (String.eqb original_title title)
          then findBestAniListMatchFromResults tmdbInfo
                 (searchAniList original_title) mediaType
          else None
      | None => None
      end
  end.

(** [mapFromMAL]: [inl] is the message of the [Error] it throws. *)
Definition mapFromMAL (malId : Z) : string + MappingResult :=
  match getMALInfo malId with
  | None => inl ("MAL ID " ++ showZ malId ++ " not found")%string
  | Some animeInfo =>
      inr {| mal :=
               Some
                 {| MALMatch.id := MAL.id animeInfo;
                    MALMatch.title := MAL.title animeInfo;
                    MALMatch.alternativeTitles := MAL.alternative_titles animeInfo;
                    MALMatch.mediaType := MAL.media_type animeInfo;
                    MALMatch.episodes := MAL.num_episodes animeInfo;
                    MALMatch.status := MAL.status animeInfo;
                    MALMatch.year :=
                      CrossMapper.truthy (extractYear (MAL.start_date animeInfo));
                    MALMatch.score := MAL.mean animeInfo |};
             anilist := findAniListMatchFromMAL animeInfo;
             tmdb := findTMDBMatchFromMAL animeInfo |}
  end.

(** [mapFromTMDB]. *)
Definition mapFromTMDB (tmdbId : Z) (mediaType : string)
    : string + MappingResult :=
  match getTMDBInfo tmdbId mediaType with
  | None => inl ("TMDB ID " ++ showZ tmdbId ++ " not found")%string
  | Some tmdbInfo =>
      inr {| tmdb :=
               Some
                 {| TMDBMatch.id := TMDB.id tmdbInfo;
                    TMDBMatch.title := tmdbTitleOf tmdbInfo;
                    TMDBMatch.mediaType := mediaType;
                    TMDBMatch.seasonNumber := None;
                    TMDBMatch.seasonName := None;
                    TMDBMatch.splitCourPart := None;
                    TMDBMatch.releaseDate := tmdbDateOf tmdbInfo;
                    TMDBMatch.overview := TMDB.overview tmdbInfo;
                    TMDBMatch.year :=
                      CrossMapper.truthy (extractYear (tmdbDateOf tmdbInfo));
                    TMDBMatch.score := TMDB.vote_average tmdbInfo |};
             anilist := findAniListMatch tmdbInfo mediaType;
             mal := findMALMatchFromTMDB tmdbInfo mediaType |}
  end.

End Flows.
End MapperFlow.

(** * Vocabulary of the statements *)

(** ** Season lists *)

Section SeasonVocabulary.
Import AnimeSama.

Definition saison1 : AnimeSamaSeason :=
  {| name := "Saison 1"; seasonSlug := "saison1"; language := "VOSTFR";
     episodeCount := 12 |}.

Definition saison2part2 : AnimeSamaSeason :=
  {| name := "Saison 2 Partie 2"; seasonSlug := "saison2-2";
     language := "VOSTFR"; episodeCount := 11 |}.

Definition saison2part2kai : AnimeSamaSeason :=
  {| name := "Saison 2 Partie 2 Kai"; seasonSlug := "saison2-2-kai";
     language := "VOSTFR"; episodeCount := 11 |}.

End SeasonVocabulary.

(** ** Split-cour bounds *)

Section SplitCourVocabulary.
Import CrossMapper.
Local Open Scope Z_scope.







End SplitCourVocabulary.

(** ** Queries and sample sources *)

Section QueryVocabulary.
Import HiAnime.

Definition duplicated (t : string) : string := (t ++ " " ++ t)%string.

(** The queries [searchAnime] can send for a title: one for each title to
    try, and the one of the alternative search. *)
Definition triedQueries (title : string) (animeInfo : AnimeInfo) : list string :=
  map duplicated (titlesToTryOf animeInfo) ++ [duplicated (baseTitleOf title)].

End QueryVocabulary.

Section SamaQueryVocabulary.
Import AnimeSama.

(** The titles handed to [tryDirectSlugAccess]. *)
Definition directTitles (baseTitle : string) (animeInfo : AnimeInfo)
    : list string :=
  List.filter Js.nonEmpty
    (fullTitle animeInfo :: baseTitle :: firstn 30 (synonyms animeInfo)).

End SamaQueryVocabulary.

(** A source known to AniList and collaborators that find nothing. *)

Definition naruto : HiAnime.AnimeInfo :=
  {| HiAnime.info_id := 20;
     HiAnime.english := Some "Naruto";
     HiAnime.romaji := Some "NARUTO";
     HiAnime.episodes := Some 220%Z;
     HiAnime.synonyms := ["NARUTO"];
     HiAnime.format := "TV";
     HiAnime.seasonYear := Some 2002%N;
     HiAnime.duration := Some 23%Z |}.

Definition coldCaches : HiAnime.Caches :=
  {| HiAnime.wordVariationsCache := ∅; HiAnime.searchCache := ∅ |}.

Definition emptyCatalog (_ : string) : option (list HiAnime.Item) := Some [].

Definition noEpisodes (_ : string) (_ : Z) : HiAnime.Episodes :=
  {| HiAnime.totalEpisodes := 0; HiAnime.episodeList := [] |}.

Definition samaNaruto : AnimeSama.AnimeInfo :=
  {| AnimeSama.info_id := 20;
     AnimeSama.fullTitle := "Naruto";
     AnimeSama.baseTitle := "Naruto";
     AnimeSama.episodes := Some 220%Z;
     AnimeSama.synonyms := ["NARUTO"];
     AnimeSama.format := "TV" |}.

Definition samaColdCaches : AnimeSama.Caches :=
  {| AnimeSama.wordVariationsCache := ∅; AnimeSama.searchCache := ∅ |}.

Definition samaTitles (baseTitle : string) (animeInfo : AnimeSama.AnimeInfo)
    : list string :=
  baseTitle :: AnimeSama.fullTitle animeInfo :: AnimeSama.synonyms animeInfo.

Definition samaEmptySearch (_ : string) : option (list AnimeSama.Hit) :=
  Some [].

Definition samaNoPage (_ : list string) : option string := None.

Definition samaNarutoPage (_ : list string) : option string := Some "naruto".

(** ** Pools of scored candidates *)

Section PoolVocabulary.
Import HiAnime.

(** The head of a list scores at least as much as the rest. *)
Definition headIsTop (l : list SeriesMatch) : Prop :=
  match l with
  | [] => True
  | top :: rest => forall x, In x rest -> (m_score x <= m_score top)%Q
  end.

(** What line 565 makes of the candidate [chosen] of a rule: it stands
    unless the top of the pool scores more. *)
Definition chosenOrTop (top chosen : SeriesMatch) (how : Method) : MatchResult :=
  if Qltb (m_score chosen) (m_score top) then pick top highest_score
  else pick chosen how.

(** What the search loop keeps true of the running best match: it scores at
    least as much as every collected match, and it is a [title_match] as
    soon as anything has been collected. *)
Definition runningBest (st : LoopState) : Prop :=
  (forall m, In m (seriesMatches st) -> (m_score m <= score (bestMatch st))%Q)
  /\ (method (bestMatch st) = title_match
      \/ (bestMatch st = notFound /\ seriesMatches st = [])).



End PoolVocabulary.

(** A source whose sequel is listed next to the first season. *)

Definition attackOnTitan3 : HiAnime.AnimeInfo :=
  {| HiAnime.info_id := 99147;
     HiAnime.english := Some "Attack on Titan Season 3";
     HiAnime.romaji := None;
     HiAnime.episodes := Some 12%Z;
     HiAnime.synonyms := [];
     HiAnime.format := "TV";
     HiAnime.seasonYear := None;
     HiAnime.duration := Some 24%Z |}.

Definition firstSeasonMatch : HiAnime.SeriesMatch :=
  {| HiAnime.m_title := "Attack on Titan";
     HiAnime.m_id := "attack-on-titan-112";
     HiAnime.m_score := 102 # 100;
     HiAnime.isMovie := false; HiAnime.isTV := true;
     HiAnime.isOVA := false; HiAnime.isSpecial := false;
     HiAnime.m_episodes := 12;
     HiAnime.m_duration := Some 24%Z;
     HiAnime.m_jname := None;
     HiAnime.years := [];
     HiAnime.seasonNum := None |}.

Definition partTwoMatch : HiAnime.SeriesMatch :=
  {| HiAnime.m_title := "Attack on Titan Season 3 Part 2";
     HiAnime.m_id := "attack-on-titan-season-3-part-2-30";
     HiAnime.m_score := 141 # 100;
     HiAnime.isMovie := false; HiAnime.isTV := true;
     HiAnime.isOVA := false; HiAnime.isSpecial := false;
     HiAnime.m_episodes := 10;
     HiAnime.m_duration := Some 24%Z;
     HiAnime.m_jname := None;
     HiAnime.years := [];
     HiAnime.seasonNum := Some 3%N |}.

Definition attackOnTitanCatalog (_ : string) : option (list HiAnime.Item) :=
  Some
    [ {| HiAnime.hianimeTitle := "Attack on Titan";
         HiAnime.hianimeId := Some "attack-on-titan-112";
         HiAnime.jname := None;
         HiAnime.formatText := "TV";
         HiAnime.episodesCount := 12;
         HiAnime.durationText := "24m" |};
      {| HiAnime.hianimeTitle := "Attack on Titan Season 3 Part 2";
         HiAnime.hianimeId := Some "attack-on-titan-season-3-part-2-30";
         HiAnime.jname := None;
         HiAnime.formatText := "TV";
         HiAnime.episodesCount := 10;
         HiAnime.durationText := "24m" |} ].

(** The query "Overlord" against the title "Overlord Wars". *)

Definition overlord : HiAnime.AnimeInfo :=
  {| HiAnime.info_id := 19815;
     HiAnime.english := Some "Overlord";
     HiAnime.romaji := None;
     HiAnime.episodes := Some 13%Z;
     HiAnime.synonyms := [];
     HiAnime.format := "TV";
     HiAnime.seasonYear := None;
     HiAnime.duration := Some 24%Z |}.

Definition overlordWars : HiAnime.Item :=
  {| HiAnime.hianimeTitle := "Overlord Wars";
     HiAnime.hianimeId := Some "overlord-wars-1";
     HiAnime.jname := None;
     HiAnime.formatText := "ONA";
     HiAnime.episodesCount := 3;
     HiAnime.durationText := "24m" |}.




(** ** Characters and the cache *)

Section TextVocabulary.
Import Js.

Fixpoint AllChars (P : ascii -> Prop) (s : string) : Prop :=
  match s with
  | EmptyString => True
  | String c s' => P c /\ AllChars P s'
  end.

(** A word that [toLowerCase] leaves as it is. *)
Definition lowercase (w : string) : Prop := toLowerCase w = w.

Definition stableChar (c : ascii) : Prop := lowerChar c = c.

(** No two adjacent blanks, and no white space other than the blank;
    [afterBlank] tells that a blank precedes the string. *)
Fixpoint collapsed (afterBlank : bool) (s : string) : Prop :=
  match s with
  | EmptyString => True
  | String c s' =>
      if isSpace c
      then c = " "%char /\ afterBlank = false /\ collapsed true s'
      else collapsed false s'
  end.

(** The head of a string is not white space. *)
Definition headed (s : string) : Prop :=
  match s with
  | EmptyString => True
  | String c _ => isSpace c = false
  end.

Definition wordOrSpace (c : ascii) : Prop := isWord c || isSpace c = true.

End TextVocabulary.

Section CacheVocabulary.
Import WordVariations.

Variable normalizeText : string -> string.
Variable TITLE_REPLACEMENTS : list (string * list string).
Variable SEQUEL_PATTERNS : list (string * list string).

(** Every entry of the cache is what a miss on its key computes. *)
Definition cacheSound (cache : gmap string (list string)) : Prop :=
  forall (k : string) (v : list string),
    cache !! k = Some v ->
    v = computeVariations normalizeText TITLE_REPLACEMENTS SEQUEL_PATTERNS k.

(** The cache after the calls on [words], in order. *)
Definition afterCalls (words : list string)
    (cache : gmap string (list string)) : gmap string (list string) :=
  fold_left
    (fun c w =>
       snd (getWordVariations normalizeText TITLE_REPLACEMENTS SEQUEL_PATTERNS
              w c))
    words cache.

End CacheVocabulary.

(** The words that reach [getWordVariations].  The function is private to
    its module and is called by the title scorer alone, on the words of
    [normalizeText(...).split(' ')] (hianime.ts lines 260-264; in the
    AnimeSama provider lines 404-413 and 488-501, where the text is
    normalized with or without its years). *)
Definition hianimeWord (w : string) : Prop :=
  exists text : string, In w (Js.split " " (HiAnime.normalizeText text)).

Definition animesamaWord (w : string) : Prop :=
  exists (text : string) (removeYear : bool),
    In w (Js.split " " (AnimeSama.normalizeText text removeYear)).

(** ** The scorer in the words of its description *)

Section ScorerVocabulary.
Import Js WordVariations.

(** The score of one pair of variations, in the words of section 4.3: an
    equal pair counts 1, containment counts [min(len)/max(len)], anything
    else nothing. *)
Definition pairScore (searchVar titleVar : string) : Q :=
  if String.eqb searchVar titleVar then 1%Q
  else if includes searchVar titleVar || includes titleVar searchVar
  then (inject_Z
          (Z.of_nat (Nat.min (String.length searchVar) (String.length titleVar)))
        / inject_Z
            (Z.of_nat (Nat.max (String.length searchVar) (String.length titleVar))))%Q
  else 0%Q.

(** The largest number of a list of numbers that are not negative. *)
Definition maxOver (l : list Q) : Q := fold_left Qmax l 0%Q.

(** The pair scores of a search word against all the words of the title. *)
Definition pairScores (searchVars : list string)
    (titleVariations : list (list string)) : list Q :=
  flat_map
    (fun titleVars =>
       flat_map (fun searchVar => map (pairScore searchVar) titleVars)
         searchVars)
    titleVariations.

Definition bestWordMatchSpec (searchVars : list string)
    (titleVariations : list (list string)) : Q :=
  maxOver (pairScores searchVars titleVariations).

Definition sumQ (l : list Q) : Q := fold_right Qplus 0%Q l.

(** [wordScore = (matches + 0.5 * partialMatches) / sourceWordCount]:
    [matches] counts the words whose best match is 1 and [partialMatches]
    adds up the best matches of the others. *)
Definition wordScoreSpec (searchVariations titleVariations : list (list string))
    : Q :=
  let bests :=
    map (fun searchVars => bestWordMatchSpec searchVars titleVariations)
      searchVariations in
  let matches := List.length (List.filter (fun b => Qeq_bool b 1) bests) in
  let partialMatches :=
    sumQ (List.filter (fun b => negb (Qeq_bool b 1)) bests) in
  ((inject_Z (Z.of_nat matches) + (5 # 10) * partialMatches)
   / inject_Z (Z.of_nat (List.length searchVariations)))%Q.

(** The three cases of the claim. *)
Definition titleScoreSpec (stringSimilarity : string -> string -> Q)
    (searchTitle candidateTitle : string) : Q :=
  let normalizedSearch := HiAnime.normalizeText searchTitle in
  let normalizedTitle := HiAnime.normalizeText candidateTitle in
  if String.eqb normalizedSearch normalizedTitle then 1%Q
  else if (HiAnime.levenshteinDistance normalizedSearch normalizedTitle <=? 2)%nat
          && (5 <? String.length normalizedSearch)%nat
  then 95 # 100
  else
    ((7 # 10)
     * wordScoreSpec
         (map HiAnime.computeVariations (split " " normalizedSearch))
         (map HiAnime.computeVariations (split " " normalizedTitle))
     + (3 # 10) * stringSimilarity normalizedSearch normalizedTitle)%Q.

(** A best match is 1 itself or a number of [0,1). *)
Definition good (b : Q) : Prop := (0 <= b)%Q /\ (b = 1%Q \/ (b < 1)%Q).

End ScorerVocabulary.

(** ** The edit distance *)

Section EditVocabulary.

(** An alignment of two strings, read from their first characters, and its
    cost: a character of the first string is deleted, a character of the
    second is inserted, or a character of each are paired, at no cost when
    they are the same character and at cost 1 when one replaces the other. *)
Inductive Alignment : list ascii -> list ascii -> nat -> Prop :=
| align_end : Alignment [] [] 0
| align_delete (x : ascii) (a b : list ascii) (n : nat) :
    Alignment a b n -> Alignment (x :: a) b (S n)
| align_insert (y : ascii) (a b : list ascii) (n : nat) :
    Alignment a b n -> Alignment a (y :: b) (S n)
| align_keep (x : ascii) (a b : list ascii) (n : nat) :
    Alignment a b n -> Alignment (x :: a) (x :: b) n
| align_replace (x y : ascii) (a b : list ascii) (n : nat) :
    Alignment a b n -> Alignment (x :: a) (y :: b) (S n).

(** The entry of the matrix for two prefixes, each given by its characters
    from the last to the first. *)
Fixpoint cell (ra : list ascii) : list ascii -> nat :=
  match ra with
  | [] => fun rb => List.length rb
  | x :: ra' =>
      fix inner (rb : list ascii) : nat :=
        match rb with
        | [] => S (List.length ra')
        | y :: rb' =>
            Nat.min (Nat.min (cell ra' rb + 1) (inner rb' + 1))
              (cell ra' rb' + (if Ascii.eqb x y then 0 else 1))
        end
  end.

(** The entries of one row to the right of the prefix [pa], for the
    characters [a] that follow it. *)
Fixpoint rowFrom (pa : list ascii) (a : string) (rb : list ascii) : list nat :=
  match a with
  | EmptyString => []
  | String x a' => cell (x :: pa) rb :: rowFrom (x :: pa) a' rb
  end.

End EditVocabulary.

(** ** The range of the title scores *)

(** A number of the interval [0,1]. *)
Definition inUnit (q : Q) : Prop := (0 <= q)%Q /\ (q <= 1)%Q.

(** ** Retrying a request *)

Section RetryVocabulary.
Import Retry.
Context {E A : Type}.

(** The calls before call number [k] all fail. *)
Definition allFailBefore (fetchFn : nat -> E + A) (k : nat) : Prop :=
  forall j, (j < k)%nat -> exists error, fetchFn j = inl error.

(** The back-off before call number [k]: a second, then twice as long each
    time. *)
Definition backoffBefore (k : nat) : Z := ((2 ^ Z.of_nat k - 1) * 1000)%Z.

(** What a run of the loop over [maxRetries] calls amounts to. *)
Definition retried (fetchFn : nat -> E + A) (maxRetries : nat)
    (afterLoop : option (E + A)) (run : Run E A) : Prop :=
  match maxRetries with
  | O => run = {| outcome := afterLoop; calls := 0; slept := 0 |}
  | S last =>
      exists k,
        calls run = S k /\ (k <= last)%nat
        /\ allFailBefore fetchFn k
        /\ slept run = backoffBefore k
        /\ match fetchFn k with
           | inr value => outcome run = Some (inr value)
           | inl error => k = last /\ outcome run = Some (inl error)
           end
  end.

End RetryVocabulary.

(** ** Slugs of the AnimeSama catalogue *)

Section SlugVocabulary.
Import Js SamaSlug.

(** A lowercase letter, a digit, the underscore or the hyphen. *)
Definition slugChar (c : ascii) : Prop :=
  isLower c || isDigit c || (code c =? 95)%N || isDash c = true.

(** A slug: made of the characters above, with no hyphen at either end and
    no two hyphens in a row. *)
Definition slugShaped (s : string) : Prop :=
  AllChars slugChar s
  /\ (forall t, s <> String "-" t)
  /\ (forall t, s <> (t ++ "-")%string)
  /\ (forall u v, s <> (u ++ "--" ++ v)%string).

(** No two characters of the class [p] in a row; [prev] tells that one
    precedes the string. *)
Fixpoint apart (p : ascii -> bool) (prev : bool) (s : string) : Prop :=
  match s with
  | EmptyString => True
  | String c s' =>
      if p c then prev = false /\ apart p true s' else apart p false s'
  end.

(** The last character is not of the class [p]. *)
Fixpoint endsOutside (p : ascii -> bool) (s : string) : Prop :=
  match s with
  | EmptyString => True
  | String c EmptyString => p c = false
  | String _ s' => endsOutside p s'
  end.

End SlugVocabulary.

(** ** The search of the HiAnime provider *)

Section SearchVocabulary.
Import HiAnime.

(** The id is the one of an item that the site lists in its answer to one
    of the queries of the search. *)
Definition listed (catalog : string -> option (list Item)) (title : string)
    (animeInfo : AnimeInfo) (hid : string) : Prop :=
  exists query items item,
    In query (triedQueries title animeInfo)
    /\ catalog query = Some items
    /\ In item items
    /\ hianimeId item = Some hid.

(** What [searchAnime] answers when a request fails. *)
Definition errorResult : MatchResult :=
  {| score := 0; id := None; method := error |}.

(** A result names an id of the set [P], or it names none and scores 0. *)
Definition named (P : string -> Prop) (r : MatchResult) : Prop :=
  match id r with
  | Some hid => P hid
  | None => score r = 0%Q
  end.

(** What the loop over the items keeps: the best match and every match of
    the pool name an id of the set [P]. *)
Definition sourced (P : string -> Prop) (st : LoopState) : Prop :=
  named P (bestMatch st) /\ Forall (fun m => P (m_id m)) (seriesMatches st).

End SearchVocabulary.

(** ** The search of the AnimeSama provider *)

Section SamaSearchVocabulary.
Import AnimeSama.

Definition samaErrorResult : SearchResult :=
  {| score := 0; slug := None; method := error |}.

(** The slug is the one of an anchor of the answer to one of the queries
    of the search. *)
Definition foundBySearch (searchTitlesOf : string -> AnimeInfo -> list string)
    (search : string -> option (list Hit)) (baseTitle : string)
    (animeInfo : AnimeInfo) (s : string) : Prop :=
  exists query hits hit,
    In query (searchTitlesOf baseTitle animeInfo)
    /\ query <> EmptyString
    /\ search query = Some hits
    /\ In hit hits
    /\ hitSlug hit = s.

(** The acceptance threshold of a search. *)
Definition thresholdOf (animeInfo : AnimeInfo) : Q :=
  if String.eqb (format animeInfo) "OVA"
     || String.eqb (format animeInfo) "SPECIAL"
  then 2 # 10 else 3 # 10.

(** The running best match of the search loop: nothing yet, or an anchor
    of the set [P]. *)
Definition samaNamed (P : string -> Prop) (r : SearchResult) : Prop :=
  r = notFound
  \/ (method r = base_title_match /\ exists s, slug r = Some s /\ P s).

End SamaSearchVocabulary.

(** ** The similarity of two descriptions *)

Section DescriptionVocabulary.
Import Mapper.

(** The set of the significant words of a description. *)
Definition wordSet (desc : string) : gset string :=
  list_to_set (significantWordsOf desc).

(** The Jaccard index of two sets of words, 0 for two empty sets. *)
Definition jaccard (A B : gset string) : Q :=
  (inject_Z (Z.of_nat (size (A ∩ B))) / inject_Z (Z.of_nat (size (A ∪ B))))%Q.

End DescriptionVocabulary.

(** ** The season of a show *)

Section DetectVocabulary.
Import CrossMapper.
Local Open Scope Z_scope.

(** The season aired within six months of the start [(year, month)]. *)
Definition airedNear (start : Z * Z) (season : TMDBSeason) : Prop :=
  exists seasonDate,
    air_date season = Some seasonDate
    /\ Z.abs (monthsBetween start seasonDate) <= 6.

(** The season aired in the year [animeYear], or in the one before or
    after it. *)
Definition airedAround (animeYear : Z) (season : TMDBSeason) : Prop :=
  exists seasonYear,
    seasonYearOf season = Some seasonYear
    /\ Z.abs (seasonYear - animeYear) <= 1.

(** The start [(year, month)] that the block by date reads, when both are
    truthy. *)
Definition startOf (animeInfo : AniListMedia) : option (Z * Z) :=
  match startDate animeInfo with
  | Some d =>
      match truthy (year d), truthy (month d) with
      | Some y, Some m => Some (y, m)
      | _, _ => None
      end
  | None => None
  end.

(** [season] is the first of the greatest score among those of [seasons]
    that have one, by the scores [scoreOf]. *)
Definition firstBest {S : Type} (scoreOf : S -> option Z) (seasons : list S)
    (season : S) (score : Z) : Prop :=
  exists before after,
    seasons = before ++ season :: after
    /\ scoreOf season = Some score
    /\ (forall s sc, In s before -> scoreOf s = Some sc -> sc < score)
    /\ (forall s sc, In s after -> scoreOf s = Some sc -> sc <= score).

(** What the loop by date keeps: the best match so far is the first of
    the greatest score among the seasons already seen. *)
Definition dateBest (descriptionPoints : AniListMedia -> TMDBSeason -> Z)
    (animeInfo : AniListMedia) (start : Z * Z)
    (seen : list TMDBSeason) (bestMatch : option TMDBSeason) (bestScore : Z)
    (flag : bool) : Prop :=
  match bestMatch with
  | None =>
      bestScore = 0
      /\ forall s, In s seen ->
           scoreByDate descriptionPoints animeInfo start s = None
  | Some season =>
      firstBest
        (fun s => option_map fst (scoreByDate descriptionPoints animeInfo start s))
        seen season bestScore
      /\ scoreByDate descriptionPoints animeInfo start season
         = Some (bestScore, flag)
  end.

End DetectVocabulary.

Section DetectResultVocabulary.
Import CrossMapper.

(** The score of a season in the loop by date, with the points of the
    descriptions. *)
Definition dateScore (animeInfo : AniListMedia) (start : Z * Z)
    (season : TMDBSeason) : option Z :=
  option_map fst (scoreByDate Mapper.descriptionPoints animeInfo start season).

(** What [detectTMDBSeason] answers for a season. *)
Definition detectedAs (season : TMDBSeason) (part : option Z) : Detected :=
  {| seasonNumber := season_number season;
     seasonName := name season;
     splitCourPart := part |}.

(** Sample data: a show of two seasons and the second season of its
    source. *)
Definition sampleSeason1 : TMDBSeason :=
  {| name := "Season 1"; overview := ""; season_number := 1;
     episode_count := 12; air_date := Some (2019, 4)%Z;
     air_year := Some 2019%Z |}.

Definition sampleSeason2 : TMDBSeason :=
  {| name := "Season 2"; overview := ""; season_number := 2;
     episode_count := 12; air_date := Some (2021, 1)%Z;
     air_year := Some 2021%Z |}.

Definition sampleSeasons : list TMDBSeason := [sampleSeason1; sampleSeason2].

Definition sampleMedia : AniListMedia :=
  {| description := ""; episodes := Some 12%Z;
     startDate := Some {| year := Some 2021%Z; month := Some 1%Z |} |}.

End DetectResultVocabulary.

(** ** The cache of the cross mapper *)

Section SeasonsCacheVocabulary.
Import MapperCache.

(** Every list of seasons in the cache holds numbered seasons only, none
    of number 0 (the specials) or less. *)
Definition seasonsNumbered (cache : gmap string (CacheItem (list Season)))
    : Prop :=
  forall key item,
    cache !! key = Some item ->
    Forall (fun s => (0 < season_number s)%Z) (data item).

End SeasonsCacheVocabulary.

(** ** The result processors of the cross mapper *)

Section MapperVocabulary.
Import Js Mapper.
Local Open Scope Q_scope.

(** [result] is the first of the greatest score among the results that
    are not skipped, and its score is above the threshold. *)
Definition firstBestAbove {R : Type} (skip : R -> bool) (scoreOf : R -> Q)
    (threshold : Q) (results : list R) (result : R) : Prop :=
  exists before after,
    results = before ++ result :: after
    /\ skip result = false
    /\ threshold < scoreOf result
    /\ (forall r, In r before -> skip r = false -> scoreOf r < scoreOf result)
    /\ (forall r, In r after -> skip r = false -> scoreOf r <= scoreOf result).

(** What the loop of a result processor keeps. *)
Definition bestSoFar {R M : Type} (skip : R -> bool) (scoreOf : R -> Q)
    (threshold : Q) (build : R -> Q -> M) (seen : list R)
    (st : option M * Q) : Prop :=
  match fst st with
  | None =>
      snd st = 0
      /\ forall r, In r seen -> skip r = false -> scoreOf r <= threshold
  | Some m =>
      exists result,
        firstBestAbove skip scoreOf threshold seen result
        /\ m = build result (scoreOf result)
        /\ snd st = scoreOf result
  end.

(** Two words count for the similarity of two titles: they are equal, or
    both have more than three letters and a Levenshtein similarity above
    0.7. *)
Definition wordsAlike (w1 w2 : string) : Prop :=
  w1 = w2
  \/ ((3 < String.length w1)%nat /\ (3 < String.length w2)%nat
      /\ exists sim, getLevenshteinSimilarity w1 w2 = Some sim /\ 7 # 10 < sim).

(** Two normalised titles resemble each other: they are equal and not
    empty, or a word of more than two letters of the one is like one of
    the other. *)
Definition titlesResemble (title1 title2 : string) : Prop :=
  nonEmpty title1 = true /\ nonEmpty title2 = true
  /\ (title1 = title2
      \/ exists w1 w2,
           In w1 (wordsOf title1) /\ In w2 (wordsOf title2) /\ wordsAlike w1 w2).

(** The score of a result of MAL for an entry of AniList, as
    [findBestMALMatchFromResults] computes it. *)
Definition malScoreOf (animeInfo : AniList.Media) (result : MAL.Media) : Q :=
  calculateMALMatchScore animeInfo result (extractTitles animeInfo)
    (yearOf animeInfo).

Definition malMatchOf (result : MAL.Media) (bestScore : Q) : MALMatch.t :=
  {| MALMatch.id := MAL.id result;
     MALMatch.title := MAL.title result;
     MALMatch.alternativeTitles := MAL.alternative_titles result;
     MALMatch.mediaType := MAL.media_type result;
     MALMatch.episodes := MAL.num_episodes result;
     MALMatch.status := MAL.status result;
     MALMatch.year := CrossMapper.truthy (extractYear (MAL.start_date result));
     MALMatch.score := Some bestScore |}.

(** The score of a result of TMDB for an entry of MAL, as
    [findBestTMDBMatchFromMALResults] computes it. *)
Definition tmdbScoreOfMAL (malInfo : MAL.Media) (mediaType : string)
    (result : TMDB.Media) : Q :=
  calculateTMDBMatchScoreFromMAL malInfo result (extractMALTitles malInfo)
    (extractYear (MAL.start_date malInfo)) mediaType.

(** A title of the one list resembles a title of the other, both
    normalised. *)
Definition someTitlesResemble (titles1 titles2 : list string) : Prop :=
  exists t1 t2,
    In t1 titles1 /\ In t2 titles2
    /\ titlesResemble (normalizeTitle t1) (normalizeTitle t2).

(** The scores of the other result processors, as each computes them. *)
Definition anilistScoreOfMAL (malInfo : MAL.Media) (result : AniList.Media)
    : Q :=
  calculateAniListMatchScoreFromMAL malInfo result (extractMALTitles malInfo)
    (extractYear (MAL.start_date malInfo)).

Definition malScoreOfTMDB (tmdbInfo : TMDB.Media) (mediaType : string)
    (result : MAL.Media) : Q :=
  calculateMALMatchScoreFromTMDB tmdbInfo result (tmdbTitleOf tmdbInfo)
    (extractYear (tmdbDateOf tmdbInfo)) mediaType.

Definition anilistScoreOfTMDB (tmdbInfo : TMDB.Media) (mediaType : string)
    (result : AniList.Media) : Q :=
  calculateAniListMatchScore tmdbInfo result (tmdbTitleOf tmdbInfo)
    (extractYear (tmdbDateOf tmdbInfo)) mediaType.

(** The answer of a result processor, when there is one, is built from a
    listed result that [resembles] the source, with a score above the
    threshold. *)
Definition matchComesFrom {R M : Type} (build : R -> Q -> M) (threshold : Q)
    (resembles : R -> Prop) (results : list R) (answer : option M) : Prop :=
  forall found,
    answer = Some found ->
    exists result score,
      In result results /\ found = build result score
      /\ threshold < score /\ resembles result.

(** There is an answer whenever a listed result [agrees] with the
    source. *)
Definition matchFoundFor {R M : Type} (agrees : R -> Prop) (results : list R)
    (answer : option M) : Prop :=
  forall result, In result results -> agrees result -> answer <> None.

(** A title of the one list and a title of the other are equal once
    normalised, and not empty. *)
Definition sameTitle (titles1 titles2 : list string) : Prop :=
  exists t1 t2,
    In t1 titles1 /\ In t2 titles2
    /\ nonEmpty (normalizeTitle t1) = true
    /\ normalizeTitle t1 = normalizeTitle t2.

(** Both years are known and equal. *)
Definition sameYear (a b : option Z) : Prop :=
  exists y, CrossMapper.truthy a = Some y /\ CrossMapper.truthy b = Some y.

(** Sample data: one show in the three databases, and an adult result of
    the same title. *)
Definition bebopAniList : AniList.Media :=
  {| AniList.id := 1;
     AniList.title :=
       {| AniList.romaji := Some "Cowboy Bebop";
          AniList.english := Some "Cowboy Bebop";
          AniList.native := None;
          AniList.userPreferred := None |};
     AniList.core :=
       {| CrossMapper.description := "";
          CrossMapper.episodes := Some 26%Z;
          CrossMapper.startDate :=
            Some {| CrossMapper.year := Some 1998%Z;
                    CrossMapper.month := Some 4%Z |} |};
     AniList.status := "FINISHED";
     AniList.seasonYear := Some 1998%Z;
     AniList.format := "TV";
     AniList.synonyms := [];
     AniList.averageScore := Some 86 |}.

Definition bebopMAL : MAL.Media :=
  {| MAL.id := 1;
     MAL.title := "Cowboy Bebop";
     MAL.alternative_titles := None;
     MAL.start_date := Some "1998-04-03";
     MAL.mean := Some (875 # 100);
     MAL.num_episodes := Some 26%Z;
     MAL.status := Some "finished_airing";
     MAL.media_type := Some "tv" |}.

Definition bebopTMDB : TMDB.Media :=
  {| TMDB.id := 30991;
     TMDB.title := None;
     TMDB.name := Some "Cowboy Bebop";
     TMDB.original_title := None;
     TMDB.release_date := None;
     TMDB.first_air_date := Some "1998-04-03";
     TMDB.overview := "";
     TMDB.adult := false;
     TMDB.vote_average := Some (81 # 10);
     TMDB.popularity := None;
     TMDB.media_type := Some "tv" |}.

Definition bebopAdult : TMDB.Media :=
  {| TMDB.id := 666;
     TMDB.title := None;
     TMDB.name := Some "Cowboy Bebop";
     TMDB.original_title := None;
     TMDB.release_date := None;
     TMDB.first_air_date := Some "1998-04-03";
     TMDB.overview := "";
     TMDB.adult := true;
     TMDB.vote_average := Some (81 # 10);
     TMDB.popularity := None;
     TMDB.media_type := Some "tv" |}.

Definition tmdbMatchOfMAL (mediaType : string) (result : TMDB.Media)
    (bestScore : Q) : TMDBMatch.t :=
  {| TMDBMatch.id := TMDB.id result;
     TMDBMatch.title := tmdbTitleOf result;
     TMDBMatch.mediaType := mediaType;
     TMDBMatch.seasonNumber := None;
     TMDBMatch.seasonName := None;
     TMDBMatch.splitCourPart := None;
     TMDBMatch.releaseDate := tmdbDateOf result;
     TMDBMatch.overview := TMDB.overview result;
     TMDBMatch.year := CrossMapper.truthy (extractYear (tmdbDateOf result));
     TMDBMatch.score := Some bestScore |}.

End MapperVocabulary.

(** ** The seasons in the cache, and the flows of the cross mapper *)

Section FlowVocabulary.
Import MapperCache.

(** The key of the seasons of a show in the cache. *)
Definition seasonsKey (tvId : Z) : string := "tmdb_seasons_" ++ Js.showZ tvId.

(** [x] is the first element of [l] for which [f] answers, and [found] is
    its answer. *)
Definition firstAnswer {A B : Type} (f : A -> option B) (l : list A)
    (x : A) (found : B) : Prop :=
  exists before after,
    l = before ++ x :: after
    /\ f x = Some found
    /\ forall y, In y before -> f y = None.

(** The searches of TMDB for the titles of an entry of MAL, in the order
    of the two loops: title by title, [tv] before [movie]. *)
Definition searchOrder (titles : list string) : list (string * string) :=
  flat_map (fun title => map (pair title) ["tv"; "movie"]) titles.

(** Sample data: a show with its specials and two seasons. *)
Definition sampleSpecials : Season :=
  {| name := "Specials"; overview := ""; season_number := 0;
     episode_count := 3; air_date := Some "2019-01-01" |}.

Definition sampleFirst : Season :=
  {| name := "Season 1"; overview := ""; season_number := 1;
     episode_count := 12; air_date := Some "2019-04-06" |}.

Definition sampleSecond : Season :=
  {| name := "Season 2"; overview := ""; season_number := 2;
     episode_count := 12; air_date := Some "2021-01-09" |}.

Definition sampleShow (_ : Z) : option (option (list Season)) :=
  Some (Some [sampleSpecials; sampleFirst; sampleSecond]).

End FlowVocabulary.

(** ** Dates *)

Section NumberVocabulary.
Import Js.

(** A non-empty run of decimal digits. *)
Definition digitsOnly (s : string) : Prop :=
  s <> EmptyString /\ AllChars (fun c => isDigit c = true) s.

(** The number that a run of decimal digits writes. *)
Definition valueOf (digits : string) : Z := Z.of_N (Js.parseInt digits).

End NumberVocabulary.

(** ** The entry points of the providers *)

Section EntryVocabulary.

(** The message of the error for an id that is not a positive number. *)
Definition invalidId (anilistId : Z) : string :=
  "Invalid anilistId: received " ++ Js.showZ anilistId
  ++ ", must be a positive number".

(** The messages of the errors that leave [getEpisodesForAnime]. *)
Definition hianimeErrors (anilistId : Z) : list string :=
  [ invalidId anilistId;
    "Could not fetch anime info from Anilist";
    "No English or romaji title found";
    "Could not find anime on Hianime";
    "Could not fetch episodes" ].

Definition animesamaErrors (anilistId : Z) : list string :=
  [ invalidId anilistId;
    "Could not fetch anime info from Anilist";
    "Could not find anime on AnimeSama" ].

End EntryVocabulary.

(** * Properties *)

(** ** The season resolver of AnimeSama *)

Section SeasonResolver.
Import AnimeSama.

Lemma seasonsToSearchOf_incl (seasons : list AnimeSamaSeason) (te : Z)
    (s : AnimeSamaSeason) :
  In s (seasonsToSearchOf seasons te) -> In s seasons.
Proof.
  unfold seasonsToSearchOf.
  destruct (negb (te =? 0)%Z && (5 <? te)%Z).
  - destruct (List.filter isMainSeason seasons) eqn:E; auto.
    rewrite <- E. intros H. apply filter_In in H. tauto.
  - destruct seasons; auto.
Qed.

Lemma seasonsToSearchOf_nonempty (seasons : list AnimeSamaSeason) (te : Z) :
  seasons <> [] -> seasonsToSearchOf seasons te <> [].
Proof.
  unfold seasonsToSearchOf. intros H.
  destruct (negb (te =? 0)%Z && (5 <? te)%Z).
  - destruct (List.filter isMainSeason seasons); [exact H | discriminate].
  - destruct seasons; auto.
Qed.

Lemma seasonsToSearchOf_main (seasons : list AnimeSamaSeason) (te : Z)
    (s : AnimeSamaSeason) :
  In s seasons -> isMainSeason s = true -> In s (seasonsToSearchOf seasons te).
Proof.
  intros Hin Hmain. unfold seasonsToSearchOf.
  destruct (negb (te =? 0)%Z && (5 <? te)%Z).
  - assert (H : In s (List.filter isMainSeason seasons))
      by (apply filter_In; auto).
    destruct (List.filter isMainSeason seasons); [destruct H | exact H].
  - destruct seasons; auto.
Qed.

Lemma seasonsToSearchOf_few (seasons : list AnimeSamaSeason) (te : Z) :
  (te <= 5)%Z -> seasonsToSearchOf seasons te = seasons.
Proof.
  intros H. unfold seasonsToSearchOf.
  replace (5 <? te)%Z with false by (symmetry; apply Z.ltb_ge; exact H).
  rewrite andb_false_r. destruct seasons; reflexivity.
Qed.

Lemma closestLoop_in (te : Z) (l : list AnimeSamaSeason) :
  forall closest diff s,
    closestLoop te l closest diff = Some s -> In s l \/ closest = Some s.
Proof.
  induction l as [|x l IH]; simpl; intros closest diff s H.
  - right. exact H.
  - destruct (Z.abs (episodeCount x - te) <? diff)%Z.
    + apply IH in H. destruct H as [H|H]; [left; right; exact H|].
      left. left. congruence.
    + apply IH in H. tauto.
Qed.

Lemma numberMatch_in (l : list AnimeSamaSeason) (si : SeasonInfo)
    (s : AnimeSamaSeason) :
  numberMatch l si = Some s -> In s l.
Proof.
  unfold numberMatch.
  destruct (season si) as [sn|], (part si) as [pn|]; try discriminate.
  - destruct (find (isExactSeasonPart sn pn) l) eqn:E.
    + intros H. inversion H; subst. apply find_some in E. tauto.
    + intros H. apply find_some in H. tauto.
  - intros H. apply find_some in H. tauto.
  - intros H. apply find_some in H. tauto.
Qed.

Lemma titleSeasonMatch_in (l : list AnimeSamaSeason) (ft : string)
    (s : AnimeSamaSeason) :
  titleSeasonMatch l ft = Some s -> In s l.
Proof.
  unfold titleSeasonMatch.
  destruct (Re.searchB sequelCueAt None ft); [|discriminate].
  intros H. apply find_some in H. tauto.
Qed.

Lemma episodeMatch_in (l : list AnimeSamaSeason) (te : Z)
    (s : AnimeSamaSeason) :
  episodeMatch l te = Some s -> In s l.
Proof.
  unfold episodeMatch. destruct (te =? 0)%Z; [discriminate|].
  destruct (find _ l) eqn:E.
  - intros H. inversion H; subst. apply find_some in E. tauto.
  - intros H. apply closestLoop_in in H. destruct H; [auto|discriminate].
Qed.

(** The resolver answers the slug of a season of the list it searches. *)
Lemma findBestSeason_searched (seasons : list AnimeSamaSeason) (te : Z)
    (si : SeasonInfo) (ft : string) :
  seasons <> [] ->
  exists s, In s (seasonsToSearchOf seasons te)
            /\ findBestSeason seasons te si ft = Some (seasonSlug s).
Proof.
  intros Hne. unfold findBestSeason.
  destruct seasons as [|s0 rest]; [contradiction|].
  set (l := seasonsToSearchOf (s0 :: rest) te).
  destruct (numberMatch l si) as [s|] eqn:E1.
  { exists s. split; [eapply numberMatch_in; eauto|reflexivity]. }
  destruct (titleSeasonMatch l ft) as [s|] eqn:E2.
  { exists s. split; [eapply titleSeasonMatch_in; eauto|reflexivity]. }
  destruct (episodeMatch l te) as [s|] eqn:E3.
  { exists s. split; [eapply episodeMatch_in; eauto|reflexivity]. }
  pose proof (seasonsToSearchOf_nonempty (s0 :: rest) te Hne) as Hl.
  fold l in Hl. destruct l as [|s l']; [contradiction|].
  exists s. split; [left; reflexivity|reflexivity].
Qed.

(** C10. For a non-empty list of season candidates the resolver returns the
    [seasonSlug] of one of the listed candidates; it returns [null] exactly
    when the list is empty; and [getAvailableSeasonsWithMatch] reports no
    best season only together with an empty list of seasons. *)
Theorem findBestSeason_selects_listed_season :
  forall (seasons : list AnimeSamaSeason) (te : Z) (si : SeasonInfo)
         (ft : string),
    (seasons <> [] ->
     exists s, In s seasons
               /\ findBestSeason seasons te si ft = Some (seasonSlug s))
    /\ (findBestSeason seasons te si ft = None <-> seasons = [])
    /\ (forall (cataloguePage : string -> option (list Panel))
               (getEpisodeCount : string -> string -> string -> Z)
               (slug : string),
          let found :=
            getAvailableSeasonsWithMatch cataloguePage getEpisodeCount slug
              te si ft in
          bestSeasonMatch found = None -> AnimeSama.seasons found = []).
Proof.
  intros seasons te si ft.
  assert (Hsel : seasons <> [] ->
                 exists s, In s seasons
                           /\ findBestSeason seasons te si ft
                              = Some (seasonSlug s)).
  { intros Hne.
    destruct (findBestSeason_searched seasons te si ft Hne) as (s & Hin & Hr).
    exists s. split; [eapply seasonsToSearchOf_incl; eauto|exact Hr]. }
  assert (Hnone : forall l, findBestSeason l te si ft = None <-> l = []).
  { intros l. split.
    - intros H. destruct l as [|s0 rest]; [reflexivity|].
      destruct (findBestSeason_searched (s0 :: rest) te si ft) as (s & _ & Hr);
        [discriminate|congruence].
    - intros ->. reflexivity. }
  split; [exact Hsel|]. split; [apply Hnone|].
  intros cataloguePage getEpisodeCount slug found.
  unfold found, getAvailableSeasonsWithMatch.
  destruct (cataloguePage slug) as [panels|]; simpl; [|reflexivity].
  apply Hnone.
Qed.

(** The searched list decides the exact season and part rule. *)
Lemma findBestSeason_exact_searched (seasons : list AnimeSamaSeason)
    (te : Z) (sn pn : N) (ft : string) (s : AnimeSamaSeason) :
  In s (seasonsToSearchOf seasons te) ->
  isExactSeasonPart sn pn s = true ->
  exists s',
    find (isExactSeasonPart sn pn) (seasonsToSearchOf seasons te) = Some s'
    /\ findBestSeason seasons te
         {| season := Some sn; part := Some pn |} ft
       = Some (seasonSlug s').
Proof.
  intros Hin Hs.
  destruct (find (isExactSeasonPart sn pn) (seasonsToSearchOf seasons te))
    as [s'|] eqn:E.
  - exists s'. split; [reflexivity|].
    unfold findBestSeason.
    destruct seasons as [|s0 rest].
    + apply seasonsToSearchOf_incl in Hin. destruct Hin.
    + unfold numberMatch. cbn [season part]. rewrite E. reflexivity.
  - exfalso. pose proof (find_none _ _ E s Hin) as Hf. congruence.
Qed.

(** C4, amended. When an entry of the list whose slug encodes exactly the
    season and part numbers of the title is among the entries the resolver
    searches (it is not a film, OAV or kai entry, or the source has at most
    five episodes), the resolver returns the slug of the first searched
    entry that encodes these numbers, whatever the episode counts. *)
Theorem findBestSeason_exact_season_part :
  forall (seasons : list AnimeSamaSeason) (te : Z) (sn pn : N) (ft : string)
         (s : AnimeSamaSeason),
    In s seasons ->
    isExactSeasonPart sn pn s = true ->
    (isMainSeason s = true \/ (te <= 5)%Z) ->
    exists s',
      In s' seasons
      /\ isExactSeasonPart sn pn s' = true
      /\ find (isExactSeasonPart sn pn) (seasonsToSearchOf seasons te)
         = Some s'
      /\ findBestSeason seasons te {| season := Some sn; part := Some pn |} ft
         = Some (seasonSlug s').
Proof.
  intros seasons te sn pn ft s Hin Hs Hsearched.
  assert (Hin' : In s (seasonsToSearchOf seasons te)).
  { destruct Hsearched as [Hmain|Hfew].
    - apply seasonsToSearchOf_main; assumption.
    - rewrite seasonsToSearchOf_few; assumption. }
  destruct (findBestSeason_exact_searched seasons te sn pn ft s Hin' Hs)
    as (s' & Hfind & Hr).
  exists s'. pose proof (find_some _ _ Hfind) as [Hs'in Hs'].
  repeat split; auto. eapply seasonsToSearchOf_incl; eauto.
Qed.

Lemma findBestSeason_exact_season_part_witness :
  exists s',
    In s' [saison1; saison2part2]
    /\ isExactSeasonPart 2 2 s' = true
    /\ find (isExactSeasonPart 2 2)
         (seasonsToSearchOf [saison1; saison2part2] 12) = Some s'
    /\ findBestSeason [saison1; saison2part2] 12
         {| season := Some 2%N; part := Some 2%N |} "Foo Season 2 Part 2"
       = Some (seasonSlug s').
Proof.
  apply (findBestSeason_exact_season_part [saison1; saison2part2] 12 2 2
           "Foo Season 2 Part 2" saison2part2).
  - right. left. reflexivity.
  - reflexivity.
  - left. reflexivity.
Defined.

(** C4 as stated fails: the list holds an entry whose slug encodes season 2
    part 2, the numbers of the title, yet with a source of 12 episodes the
    kai entry is filtered out and the resolver returns the entry with the
    same episode count. *)
Lemma findBestSeason_exact_entry_filtered :
  In saison2part2kai [saison1; saison2part2kai]
  /\ extractSeasonInfo "Foo Season 2 Part 2"
     = {| season := Some 2%N; part := Some 2%N |}
  /\ isExactSeasonPart 2 2 saison2part2kai = true
  /\ findBestSeason [saison1; saison2part2kai] 12
       (extractSeasonInfo "Foo Season 2 Part 2") "Foo Season 2 Part 2"
     = Some "saison1"
  /\ episodeMatch (seasonsToSearchOf [saison1; saison2part2kai] 12) 12
     = Some saison1.
Proof. vm_compute. repeat split; auto. Qed.

End SeasonResolver.

(** ** Rounding to a double *)

Section DoubleLaws.
Import Double.
Local Open Scope Q_scope.























(** The division agrees with the one of binary64 on the quotients of the
    examples, on both sides of the two edges among them. *)
Lemma div_agrees_with_binary64 :
  forallb (fun ab => agreesWithBinary64 (fst ab) (snd ab))
    [ (3, 10); (7, 10); (1, 3); (2, 3); (12, 24); (13, 25); (10, 3);
      (900000000000002, 3000000000000007);
      (900000000000003, 3000000000000007);
      (2100000000000005, 3000000000000007);
      (2100000000000006, 3000000000000007);
      (9007199254740991, 9007199254740992);
      (1, 9007199254740991) ]%Z
  = true.
Proof. vm_compute. reflexivity. Qed.

End DoubleLaws.

(** ** Split-cour detection of the cross mapper *)

Section SplitCour.
Import CrossMapper.
Local Open Scope Z_scope.

Variable descriptionPoints : AniListMedia -> TMDBSeason -> Z.










End SplitCour.



(** ** Resolution without candidates *)

Section HiAnimeNotFound.
Import HiAnime.

Variable stringSimilarity : string -> string -> Q.
Variable catalog : string -> option (list Item).

Lemma tryTitles_empty (animeInfo : AnimeInfo) (titleYears : list string)
    (searchSeasonNum : option N) :
  forall (titles : list string) (st : LoopState),
    (forall t, In t titles -> catalog (duplicated t) = Some []) ->
    Qltb (9 # 10) (score (bestMatch st)) = false ->
    tryTitles stringSimilarity catalog animeInfo titleYears searchSeasonNum
      titles st = inr st.
Proof.
  induction titles as [|t rest IH]; intros st Hempty Hlow.
  - reflexivity.
  - simpl. fold (duplicated t).
    rewrite (Hempty t) by (left; reflexivity). simpl. rewrite Hlow.
    apply IH; [|exact Hlow]. intros u Hu. apply Hempty. right. exact Hu.
Qed.

Lemma searchAnimeAlternative_empty (baseTitle : string) (animeInfo : AnimeInfo)
    (years : list string) (seasonNum : option N)
    (cache : gmap string (list string)) :
  catalog (duplicated baseTitle) = Some [] ->
  searchAnimeAlternative stringSimilarity catalog baseTitle animeInfo years
    seasonNum cache = (None, cache).
Proof.
  intros H. unfold searchAnimeAlternative. fold (duplicated baseTitle).
  rewrite H. reflexivity.
Qed.

Lemma searchAnime_without_candidates (title : string) (animeInfo : AnimeInfo)
    (caches : Caches) :
  searchCache caches !! searchKey title animeInfo = None ->
  (forall q, In q (triedQueries title animeInfo) -> catalog q = Some []) ->
  fst (searchAnime stringSimilarity catalog title animeInfo caches) = notFound.
Proof.
  intros Hmiss Hempty. unfold searchAnime. rewrite Hmiss.
  rewrite tryTitles_empty; [| |reflexivity].
  - cbn [seriesMatches bestMatch wcache applyOverrides sortByScore fold_right].
    replace (Qltb (score notFound) (6 # 10)) with true by reflexivity.
    destruct (negb (baseTitleOf title =? title)%string
              && (3 <? String.length (baseTitleOf title))%nat).
    + rewrite searchAnimeAlternative_empty; [reflexivity|].
      apply Hempty. unfold triedQueries. apply in_or_app. right. left.
      reflexivity.
    + reflexivity.
  - intros t Ht. apply Hempty. unfold triedQueries. apply in_or_app. left.
    apply in_map. exact Ht.
Qed.

Variable getAnimeInfo : Z -> option AnimeInfo.
Variable getEpisodeIds : string -> Z -> Episodes.

Lemma getEpisodesForAnime_throws_not_found (anilistId : Z) (caches : Caches)
    (animeInfo : AnimeInfo) (c : ascii) (rest : string) :
  (0 < anilistId)%Z ->
  getAnimeInfo anilistId = Some animeInfo ->
  orElse (english animeInfo) (romaji animeInfo) = Some (String c rest) ->
  id (fst (searchAnime stringSimilarity catalog (String c rest) animeInfo
             caches)) = None ->
  fst (getEpisodesForAnime stringSimilarity catalog getAnimeInfo getEpisodeIds
         anilistId caches)
  = inl "Could not find anime on Hianime".
Proof.
  intros Hid Hinfo Htitle Hnone. unfold getEpisodesForAnime.
  replace (anilistId <=? 0)%Z with false
    by (symmetry; apply Z.leb_gt; exact Hid).
  rewrite Hinfo, Htitle.
  destruct (searchAnime stringSimilarity catalog (String c rest) animeInfo
              caches) as [searchResult caches'].
  simpl in Hnone. rewrite Hnone. reflexivity.
Qed.

End HiAnimeNotFound.

Section AnimeSamaNotFound.
Import AnimeSama.

Variable stringSimilarity : string -> string -> Q.
Variable searchTitlesOf : string -> AnimeInfo -> list string.
Variable search : string -> option (list Hit).
Variable tryDirectSlugAccess : list string -> option string.

Lemma sama_tryTitles_empty :
  forall (titles : list string)
         (st : SearchResult * gmap string (list string)),
    (forall t, In t titles -> search t = Some []) ->
    tryTitles stringSimilarity search titles st = inr st.
Proof.
  induction titles as [|t rest IH]; intros st Hempty.
  - reflexivity.
  - simpl. rewrite (Hempty t) by (left; reflexivity).
    apply IH. intros u Hu. apply Hempty. right. exact Hu.
Qed.

Lemma sama_searchAnime_without_candidates (baseTitle : string)
    (animeInfo : AnimeInfo) (caches : Caches) :
  searchCache caches !! searchKey baseTitle animeInfo = None ->
  (forall t, In t (searchTitlesOf baseTitle animeInfo) -> search t = Some []) ->
  fst (searchAnime stringSimilarity searchTitlesOf search tryDirectSlugAccess
         baseTitle animeInfo caches)
  = match tryDirectSlugAccess (directTitles baseTitle animeInfo) with
    | Some (String c rest) =>
        {| score := 85 # 100; slug := Some (String c rest);
           method := direct_slug_fallback |}
    | _ => notFound
    end.
Proof.
  intros Hmiss Hempty. unfold searchAnime. rewrite Hmiss.
  rewrite sama_tryTitles_empty.
  - cbn [score slug notFound Qeq_bool]. fold (directTitles baseTitle animeInfo).
    replace (Qeq_bool 0 0) with true by reflexivity. cbn [orb].
    destruct (tryDirectSlugAccess (directTitles baseTitle animeInfo))
      as [[|c rest]|]; cbn [fst].
    + destruct (_ || _); reflexivity.
    + reflexivity.
    + destruct (_ || _); reflexivity.
  - intros t Ht. apply Hempty. apply filter_In in Ht. tauto.
Qed.

Variable cataloguePage : string -> option (list Panel).
Variable getEpisodeCount : string -> string -> string -> Z.
Variable getAnimeInfo : Z -> option AnimeInfo.

Lemma sama_getEpisodesForAnime_throws_not_found (anilistId : Z)
    (caches : Caches) (animeInfo : AnimeInfo) :
  (0 < anilistId)%Z ->
  getAnimeInfo anilistId = Some animeInfo ->
  slug (fst (searchAnime stringSimilarity searchTitlesOf search
               tryDirectSlugAccess (baseTitle animeInfo) animeInfo caches))
  = None ->
  fst (getEpisodesForAnime stringSimilarity searchTitlesOf search
         tryDirectSlugAccess cataloguePage getEpisodeCount getAnimeInfo
         anilistId caches)
  = inl "Could not find anime on AnimeSama".
Proof.
  intros Hid Hinfo Hnone. unfold getEpisodesForAnime.
  replace (anilistId <=? 0)%Z with false
    by (symmetry; apply Z.leb_gt; exact Hid).
  rewrite Hinfo.
  destruct (searchAnime stringSimilarity searchTitlesOf search
              tryDirectSlugAccess (baseTitle animeInfo) animeInfo caches)
    as [searchResult caches'].
  simpl in Hnone. rewrite Hnone. reflexivity.
Qed.

End AnimeSamaNotFound.

(** C7, amended. HiAnime: when the search cache has no entry for the source
    and every query the resolution sends (one per title to try, and the one
    of the alternative search) returns an empty list, the result is score 0,
    method [none] and no identifier.  AnimeSama: the same holds when every
    searched title returns an empty list and the direct access by slug finds
    no page either. *)
Theorem resolution_without_candidates_is_none :
  forall (stringSimilarity : string -> string -> Q),
    (forall (catalog : string -> option (list HiAnime.Item)) (title : string)
            (animeInfo : HiAnime.AnimeInfo) (caches : HiAnime.Caches),
        HiAnime.searchCache caches !! HiAnime.searchKey title animeInfo = None ->
        (forall q, In q (triedQueries title animeInfo) -> catalog q = Some []) ->
        fst (HiAnime.searchAnime stringSimilarity catalog title animeInfo caches)
        = {| HiAnime.score := 0; HiAnime.id := None;
             HiAnime.method := HiAnime.none |})
    /\ (forall (searchTitlesOf : string -> AnimeSama.AnimeInfo -> list string)
               (search : string -> option (list AnimeSama.Hit))
               (tryDirectSlugAccess : list string -> option string)
               (baseTitle : string) (animeInfo : AnimeSama.AnimeInfo)
               (caches : AnimeSama.Caches),
           AnimeSama.searchCache caches
             !! AnimeSama.searchKey baseTitle animeInfo = None ->
           (forall t, In t (searchTitlesOf baseTitle animeInfo) ->
                      search t = Some []) ->
           tryDirectSlugAccess (directTitles baseTitle animeInfo) = None ->
           fst (AnimeSama.searchAnime stringSimilarity searchTitlesOf search
                  tryDirectSlugAccess baseTitle animeInfo caches)
           = {| AnimeSama.score := 0; AnimeSama.slug := None;
                AnimeSama.method := AnimeSama.none |}).
Proof.
  intros stringSimilarity. split.
  - intros catalog title animeInfo caches Hmiss Hempty.
    apply searchAnime_without_candidates; assumption.
  - intros searchTitlesOf search tryDirectSlugAccess baseTitle animeInfo caches
      Hmiss Hempty Hdirect.
    rewrite sama_searchAnime_without_candidates by assumption.
    rewrite Hdirect. reflexivity.
Qed.

Lemma resolution_without_candidates_witness :
  fst (HiAnime.searchAnime Similarity.dice emptyCatalog "Naruto" naruto
         coldCaches)
  = {| HiAnime.score := 0; HiAnime.id := None; HiAnime.method := HiAnime.none |}
  /\ fst (AnimeSama.searchAnime Similarity.dice samaTitles samaEmptySearch
            samaNoPage "Naruto" samaNaruto samaColdCaches)
     = {| AnimeSama.score := 0; AnimeSama.slug := None;
          AnimeSama.method := AnimeSama.none |}.
Proof.
  split.
  - apply (proj1 (resolution_without_candidates_is_none Similarity.dice)).
    + reflexivity.
    + intros q _. reflexivity.
  - apply (proj2 (resolution_without_candidates_is_none Similarity.dice)).
    + reflexivity.
    + intros t _. reflexivity.
    + reflexivity.
Defined.

(** C7 as stated fails for AnimeSama: every searched title returns an empty
    list, yet the direct access by slug finds a page and the resolution
    returns it with score 0.85. *)
Lemma resolution_direct_slug_fallback :
  AnimeSama.searchCache samaColdCaches
    !! AnimeSama.searchKey "Naruto" samaNaruto = None
  /\ (forall t, In t (samaTitles "Naruto" samaNaruto) ->
                samaEmptySearch t = Some [])
  /\ fst (AnimeSama.searchAnime Similarity.dice samaTitles samaEmptySearch
            samaNarutoPage "Naruto" samaNaruto samaColdCaches)
     = {| AnimeSama.score := 85 # 100; AnimeSama.slug := Some "naruto";
          AnimeSama.method := AnimeSama.direct_slug_fallback |}.
Proof.
  split; [reflexivity|]. split; [intros t _; reflexivity|].
  rewrite sama_searchAnime_without_candidates;
    [reflexivity | reflexivity | intros t _; reflexivity].
Qed.

(** C6, amended. When the search of the provider finds no acceptable match
    (its result carries no identifier, as the result with method [none] and
    score 0), the exported entry point [getEpisodesForAnime] does not return
    a result: for a valid AniList id whose titles are known it throws the
    error "Could not find anime on Hianime" (HiAnime) or "Could not find
    anime on AnimeSama" (AnimeSama). *)
Theorem getEpisodesForAnime_not_found_throws :
  forall (stringSimilarity : string -> string -> Q),
    (forall (catalog : string -> option (list HiAnime.Item))
            (getAnimeInfo : Z -> option HiAnime.AnimeInfo)
            (getEpisodeIds : string -> Z -> HiAnime.Episodes)
            (anilistId : Z) (caches : HiAnime.Caches)
            (animeInfo : HiAnime.AnimeInfo) (c : ascii) (rest : string),
        (0 < anilistId)%Z ->
        getAnimeInfo anilistId = Some animeInfo ->
        HiAnime.orElse (HiAnime.english animeInfo) (HiAnime.romaji animeInfo)
        = Some (String c rest) ->
        HiAnime.id
          (fst (HiAnime.searchAnime stringSimilarity catalog (String c rest)
                  animeInfo caches)) = None ->
        fst (HiAnime.getEpisodesForAnime stringSimilarity catalog getAnimeInfo
               getEpisodeIds anilistId caches)
        = inl "Could not find anime on Hianime")
    /\ (forall (searchTitlesOf : string -> AnimeSama.AnimeInfo -> list string)
               (search : string -> option (list AnimeSama.Hit))
               (tryDirectSlugAccess : list string -> option string)
               (cataloguePage : string -> option (list AnimeSama.Panel))
               (getEpisodeCount : string -> string -> string -> Z)
               (getAnimeInfo : Z -> option AnimeSama.AnimeInfo)
               (anilistId : Z) (caches : AnimeSama.Caches)
               (animeInfo : AnimeSama.AnimeInfo),
           (0 < anilistId)%Z ->
           getAnimeInfo anilistId = Some animeInfo ->
           AnimeSama.slug
             (fst (AnimeSama.searchAnime stringSimilarity searchTitlesOf search
                     tryDirectSlugAccess (AnimeSama.baseTitle animeInfo)
                     animeInfo caches)) = None ->
           fst (AnimeSama.getEpisodesForAnime stringSimilarity searchTitlesOf
                  search tryDirectSlugAccess cataloguePage getEpisodeCount
                  getAnimeInfo anilistId caches)
           = inl "Could not find anime on AnimeSama").
Proof.
  intros stringSimilarity. split.
  - intros. eapply getEpisodesForAnime_throws_not_found; eassumption.
  - intros. eapply sama_getEpisodesForAnime_throws_not_found; eassumption.
Qed.

Lemma getEpisodesForAnime_not_found_witness :
  fst (HiAnime.getEpisodesForAnime Similarity.dice emptyCatalog
         (fun _ => Some naruto) noEpisodes 20 coldCaches)
  = inl "Could not find anime on Hianime".
Proof.
  apply (proj1 (getEpisodesForAnime_not_found_throws Similarity.dice)
           emptyCatalog (fun _ => Some naruto) noEpisodes 20%Z coldCaches
           naruto "N"%char "aruto").
  - reflexivity.
  - reflexivity.
  - reflexivity.
  - reflexivity.
Defined.

(** C6 as stated fails: the catalog search completes with no candidate, the
    search result is the one with method [none] and score 0, and the entry
    point throws instead of returning it. *)
Lemma getEpisodesForAnime_throws_on_not_found :
  fst (HiAnime.searchAnime Similarity.dice emptyCatalog "Naruto" naruto
         coldCaches)
  = {| HiAnime.score := 0; HiAnime.id := None; HiAnime.method := HiAnime.none |}
  /\ fst (HiAnime.getEpisodesForAnime Similarity.dice emptyCatalog
            (fun _ => Some naruto) noEpisodes 20 coldCaches)
     = inl "Could not find anime on Hianime".
Proof. split; reflexivity. Qed.

(** ** The override rules of the HiAnime match selector *)

Section Overrides.
Import HiAnime.

Lemma Qltb_true (x y : Q) : Qltb x y = true -> (x < y)%Q.
Proof.
  unfold Qltb. intros H. apply negb_true_iff in H.
  apply Qnot_le_lt. intros Hle. apply Qle_bool_iff in Hle. congruence.
Qed.

Lemma Qltb_false (x y : Q) : Qltb x y = false -> (y <= x)%Q.
Proof.
  unfold Qltb. intros H. apply negb_false_iff in H.
  apply Qle_bool_iff. exact H.
Qed.

Lemma insertByScore_In (m x : SeriesMatch) (l : list SeriesMatch) :
  In x (insertByScore m l) <-> x = m \/ In x l.
Proof.
  induction l as [|y l IH]; simpl.
  - intuition congruence.
  - destruct (Qltb (m_score m) (m_score y)); simpl; rewrite ?IH;
      intuition congruence.
Qed.

Lemma sortByScore_In (x : SeriesMatch) (l : list SeriesMatch) :
  In x (sortByScore l) <-> In x l.
Proof.
  induction l as [|y l IH]; simpl; [tauto|].
  rewrite insertByScore_In, IH. intuition congruence.
Qed.

Lemma insertByScore_headIsTop (m : SeriesMatch) (l : list SeriesMatch) :
  headIsTop l -> headIsTop (insertByScore m l).
Proof.
  destruct l as [|y l]; simpl.
  - intros _ x [].
  - intros Htop. destruct (Qltb (m_score m) (m_score y)) eqn:E; simpl.
    + intros x Hx. apply insertByScore_In in Hx. destruct Hx as [->|Hx].
      * apply Qlt_le_weak. apply Qltb_true. exact E.
      * apply Htop. exact Hx.
    + apply Qltb_false in E. intros x [<-|Hx]; [exact E|].
      eapply Qle_trans; [apply Htop; exact Hx|exact E].
Qed.

Lemma sortByScore_headIsTop (l : list SeriesMatch) : headIsTop (sortByScore l).
Proof.
  induction l as [|y l IH]; simpl; [exact I|].
  apply insertByScore_headIsTop. exact IH.
Qed.

Lemma sortByScore_top (pool : list SeriesMatch) (top : SeriesMatch)
    (rest : list SeriesMatch) (m : SeriesMatch) :
  sortByScore pool = top :: rest -> In m pool ->
  (m_score m <= m_score top)%Q.
Proof.
  intros Hs Hm. apply sortByScore_In in Hm. rewrite Hs in Hm.
  pose proof (sortByScore_headIsTop pool) as Htop. rewrite Hs in Htop.
  destruct Hm as [<-|Hm]; [apply Qle_refl|apply Htop; exact Hm].
Qed.

Variables (title : string) (titlesToTry : list string) (animeInfo : AnimeInfo).
Variables (titleYears : list string) (searchSeasonNum : option N).

(** What the override phase computes, for every pool.  With a non-empty
    pool that holds no exact-title candidate, the rules are consulted in the
    order episode+format, year (only when the source has years), season
    number (only when it has no years), TV priority (only when it has
    neither), each picking the first candidate in descending score order.
    Line 565 then puts the top scorer in the place of a pick that scores
    less, with method [highest_score]: the pick of a rule is returned under
    the method of the rule only when it scores as much as the top of the
    pool, and the score of the result is never below the score of a
    candidate of the pool.  When no rule picks anything the running best
    match is returned as it is. *)
Theorem override_rules_order :
  forall (pool : list SeriesMatch) (bestMatch : MatchResult)
         (top : SeriesMatch) (rest : list SeriesMatch),
    sortByScore pool = top :: rest ->
    List.filter (isExactTitle title titlesToTry) (top :: rest) = [] ->
    let sorted := top :: rest in
    let result :=
      applyOverrides title titlesToTry animeInfo titleYears searchSeasonNum
        pool bestMatch in
    (forall e es,
        List.filter (isExactMatch animeInfo) sorted = e :: es ->
        result = chosenOrTop top e exact_match)
    /\ (List.filter (isExactMatch animeInfo) sorted = [] ->
        (forall y ys,
            titleYears <> [] ->
            List.filter (isYearMatch titleYears) sorted = y :: ys ->
            result = chosenOrTop top y year_match)
        /\ (forall s ss,
               titleYears = [] -> Js.truthyN searchSeasonNum = true ->
               List.filter (isSeasonMatch searchSeasonNum) sorted = s :: ss ->
               result = chosenOrTop top s season_match)
        /\ (forall t ts,
               titleYears = [] -> Js.truthyN searchSeasonNum = false ->
               format animeInfo = "TV" ->
               List.filter isTV sorted = t :: ts ->
               Qltb (m_score top - m_score t) (2 # 10) = true ->
               result = chosenOrTop top t format_priority)
        /\ (contextRules animeInfo titleYears searchSeasonNum sorted bestMatch
            = bestMatch ->
            method bestMatch = title_match ->
            (m_score top <= score bestMatch)%Q ->
            result = bestMatch))
    /\ (forall m, In m pool -> (m_score m <= score result)%Q).
Proof.
  intros pool bestMatch top rest Hsort Hnoexact sorted result.
  assert (Hresult :
            result
            = let chosen :=
                match List.filter (isExactMatch animeInfo) sorted with
                | best :: _ => pick best exact_match
                | [] =>
                    contextRules animeInfo titleYears searchSeasonNum sorted
                      bestMatch
                end in
              if Method_eqb (method chosen) none
                 || Qltb (score chosen) (m_score top)
              then pick top highest_score else chosen).
  { unfold result, applyOverrides. rewrite Hsort. fold sorted.
    unfold sorted at 1. rewrite Hnoexact. reflexivity. }
  split; [|split].
  - intros e es He. rewrite Hresult, He. reflexivity.
  - intros Hnone. rewrite Hnone in Hresult. cbv zeta in Hresult.
    split; [|split; [|split]].
    + intros y ys Hyears Hy. rewrite Hresult. unfold contextRules.
      destruct titleYears as [|y0 yrs]; [contradiction|].
      rewrite Hy. reflexivity.
    + intros s ss Hyears Hseason Hs. rewrite Hresult. unfold contextRules.
      rewrite Hyears, Hseason, Hs. reflexivity.
    + intros t ts Hyears Hseason Hfmt Ht Hclose. rewrite Hresult.
      unfold contextRules. rewrite Hyears, Hseason, Hfmt.
      unfold sorted in Ht |- *. rewrite Ht, Hclose. reflexivity.
    + intros Hctx Hmethod Hscore. rewrite Hresult, Hctx, Hmethod.
      replace (Qltb (score bestMatch) (m_score top)) with false; [reflexivity|].
      symmetry. unfold Qltb. apply negb_false_iff. apply Qle_bool_iff.
      exact Hscore.
  - intros m Hm. apply Qle_trans with (m_score top).
    + eapply sortByScore_top; eassumption.
    + rewrite Hresult. cbv zeta.
      destruct (Method_eqb _ none || Qltb _ (m_score top)) eqn:E.
      * apply Qle_refl.
      * apply orb_false_iff in E. destruct E as [_ E].
        apply Qltb_false. exact E.
Qed.

End Overrides.

Section RunningBest.
Import HiAnime.

Variable stringSimilarity : string -> string -> Q.
Variable catalog : string -> option (list Item).
Variables (animeInfo : AnimeInfo) (titleYears : list string).
Variable searchSeasonNum : option N.

Lemma runningBest_initial (cache : gmap string (list string)) :
  runningBest {| bestMatch := notFound; seriesMatches := []; wcache := cache |}.
Proof. split; [intros m []|right; split; reflexivity]. Qed.

Lemma visitItem_runningBest (searchTitle : string) (st : LoopState)
    (item : Item) :
  runningBest st ->
  runningBest
    (visitItem stringSimilarity searchTitle animeInfo titleYears
       searchSeasonNum st item).
Proof.
  intros [Hmax Hmethod]. unfold visitItem.
  destruct (hianimeId item) as [[|c hid]|]; try (split; assumption).
  destruct (isFalsePositive searchTitle (hianimeTitle item));
    [split; assumption|].
  destruct (calculateTitleScore stringSimilarity searchTitle
              (hianimeTitle item) (wcache st)) as [titleScore cache].
  set (finalScore :=
         adjustScore animeInfo titleYears searchSeasonNum item
           (extractYears (hianimeTitle item) (jname item))
           (extractSeasonNumber (hianimeTitle item))
           (compoundPenalty searchTitle (hianimeTitle item) titleScore)).
  unfold runningBest. cbn [bestMatch seriesMatches].
  destruct (Qltb (score (bestMatch st)) finalScore) eqn:Ebest.
  - apply Qltb_true in Ebest. cbn [score method]. split; [|left; reflexivity].
    intros m Hm. destruct (Qltb (5 # 10) finalScore).
    + apply in_app_or in Hm. destruct Hm as [Hm|[<-|[]]].
      * apply Qle_trans with (score (bestMatch st));
          [apply Hmax; exact Hm|apply Qlt_le_weak; exact Ebest].
      * apply Qle_refl.
    + apply Qle_trans with (score (bestMatch st));
        [apply Hmax; exact Hm|apply Qlt_le_weak; exact Ebest].
  - apply Qltb_false in Ebest.
    destruct (Qltb (5 # 10) finalScore) eqn:Epush.
    + apply Qltb_true in Epush. split.
      * intros m Hm. apply in_app_or in Hm. destruct Hm as [Hm|[<-|[]]];
          [apply Hmax; exact Hm|exact Ebest].
      * left. destruct Hmethod as [H|[H _]]; [exact H|].
        exfalso. rewrite H in Ebest. cbn [score notFound] in Ebest.
        apply (Qlt_not_le _ _ Epush).
        apply Qle_trans with 0%Q; [exact Ebest|discriminate].
    + split; assumption.
Qed.

Lemma visitItems_runningBest (searchTitle : string) (items : list Item) :
  forall st, runningBest st ->
    runningBest
      (fold_left
         (visitItem stringSimilarity searchTitle animeInfo titleYears
            searchSeasonNum) items st).
Proof.
  induction items as [|item rest IH]; intros st H; [exact H|].
  simpl. apply IH. apply visitItem_runningBest. exact H.
Qed.

Lemma tryTitles_runningBest (titles : list string) :
  forall st st', runningBest st ->
    tryTitles stringSimilarity catalog animeInfo titleYears searchSeasonNum
      titles st = inr st' ->
    runningBest st'.
Proof.
  induction titles as [|t rest IH]; intros st st' H; simpl.
  - intros E. inversion E; subst. exact H.
  - destruct (catalog (t ++ " " ++ t)%string) as [items|]; [|discriminate].
    pose proof (visitItems_runningBest t items st H) as H1.
    destruct (Qltb (9 # 10) _).
    + intros E. inversion E; subst. exact H1.
    + apply IH. exact H1.
Qed.

End RunningBest.

Lemma override_rules_order_witness :
  let result :=
    HiAnime.applyOverrides "Attack on Titan Season 3"
      ["Attack on Titan Season 3"] attackOnTitan3 [] (Some 3%N)
      [firstSeasonMatch; partTwoMatch]
      {| HiAnime.score := 141 # 100;
         HiAnime.id := Some "attack-on-titan-season-3-part-2-30";
         HiAnime.method := HiAnime.title_match |} in
  result = chosenOrTop partTwoMatch firstSeasonMatch HiAnime.exact_match
  /\ (HiAnime.m_score firstSeasonMatch <= HiAnime.score result)%Q
  /\ (HiAnime.m_score partTwoMatch <= HiAnime.score result)%Q.
Proof.
  pose proof
    (override_rules_order "Attack on Titan Season 3"
       ["Attack on Titan Season 3"] attackOnTitan3 [] (Some 3%N)
       [firstSeasonMatch; partTwoMatch]
       {| HiAnime.score := 141 # 100;
          HiAnime.id := Some "attack-on-titan-season-3-part-2-30";
          HiAnime.method := HiAnime.title_match |}
       partTwoMatch [firstSeasonMatch] eq_refl eq_refl) as (Hfirst & _ & Hmax).
  split; [|split].
  - apply (Hfirst firstSeasonMatch []). reflexivity.
  - apply Hmax. left. reflexivity.
  - apply Hmax. right. left. reflexivity.
Defined.

(** C1. The code departs from the order of the rules that it implements.
    The search for "Attack on Titan Season 3" (TV, 12 episodes) collects two
    candidates, neither with the title of the source.  "Attack on Titan" is
    the one with the episode count and the format of the source, and the
    episode+format rule picks it (lines 525-529); line 565 then replaces
    it, because it scores less than the top of the pool, and the selector
    returns "Attack on Titan Season 3 Part 2" with method
    [highest_score]. *)
Lemma override_prefers_higher_score :
  List.filter
    (HiAnime.isExactTitle "Attack on Titan Season 3"
       (HiAnime.titlesToTryOf attackOnTitan3))
    [firstSeasonMatch; partTwoMatch] = []
  /\ List.filter (HiAnime.isExactMatch attackOnTitan3)
       (HiAnime.sortByScore [firstSeasonMatch; partTwoMatch])
     = [firstSeasonMatch]
  /\ HiAnime.applyOverrides "Attack on Titan Season 3"
       (HiAnime.titlesToTryOf attackOnTitan3) attackOnTitan3 [] (Some 3%N)
       [firstSeasonMatch; partTwoMatch]
       {| HiAnime.score := 141 # 100;
          HiAnime.id := Some "attack-on-titan-season-3-part-2-30";
          HiAnime.method := HiAnime.title_match |}
     = {| HiAnime.score := 141 # 100;
          HiAnime.id := Some "attack-on-titan-season-3-part-2-30";
          HiAnime.method := HiAnime.highest_score |}
  /\ (let result :=
        fst (HiAnime.searchAnime Similarity.dice attackOnTitanCatalog
               "Attack on Titan Season 3" attackOnTitan3 coldCaches) in
      HiAnime.id result = Some "attack-on-titan-season-3-part-2-30"
      /\ HiAnime.method result = HiAnime.highest_score).
Proof. vm_compute. repeat split; reflexivity. Qed.

(** ** The guards for single-word queries *)

Section SingleWord.
Import HiAnime.

Variable stringSimilarity : string -> string -> Q.


End SingleWord.



(** ** Characters of normalized text *)

Section Characters.
Import Js.

Variable P : ascii -> Prop.

Lemma AllChars_append (a b : string) :
  AllChars P a -> AllChars P b -> AllChars P (a ++ b).
Proof. induction a as [|c a IH]; simpl; tauto. Qed.

Lemma AllChars_replaceAll (p : ascii -> bool) (r s : string) :
  AllChars P r -> AllChars P s -> AllChars P (replaceAll p r s).
Proof.
  intros Hr. induction s as [|c s IH]; simpl; [tauto|].
  intros [Hc Hs]. destruct (p c).
  - apply AllChars_append; auto.
  - simpl. auto.
Qed.

Lemma AllChars_collapseFrom (s : string) :
  P " "%char -> AllChars P s -> forall inRun, AllChars P (collapseFrom inRun s).
Proof.
  intros Hblank. induction s as [|c s IH]; simpl; [tauto|].
  intros [Hc Hs] inRun. destruct (isSpace c), inRun; simpl; auto.
Qed.

Lemma AllChars_trimStart (s : string) :
  AllChars P s -> AllChars P (trimStart s).
Proof.
  induction s as [|c s IH]; simpl; [tauto|].
  intros [Hc Hs]. destruct (isSpace c); simpl; auto.
Qed.

Lemma AllChars_trimEnd (s : string) : AllChars P s -> AllChars P (trimEnd s).
Proof.
  induction s as [|c s IH]; simpl; [tauto|].
  intros [Hc Hs]. specialize (IH Hs).
  destruct (trimEnd s); [destruct (isSpace c)|]; simpl; auto.
Qed.

Lemma AllChars_trim (s : string) : AllChars P s -> AllChars P (trim s).
Proof. intros H. apply AllChars_trimEnd, AllChars_trimStart, H. Qed.

Lemma AllChars_split (sep : ascii) (s : string) :
  AllChars P s -> forall w, In w (split sep s) -> AllChars P w.
Proof.
  induction s as [|c s IH]; simpl.
  - intros _ w [<-|[]]. exact I.
  - intros [Hc Hs] w. specialize (IH Hs).
    destruct (Ascii.eqb c sep).
    + intros [<-|Hw]; [exact I|auto].
    + destruct (split sep s) as [|w0 ws].
      * intros [<-|[]]. simpl. auto.
      * intros [<-|Hw]; [|apply IH; right; exact Hw].
        simpl. split; [exact Hc|]. apply IH. left. reflexivity.
Qed.

Lemma AllChars_removeMatches (matchLen : option ascii -> string -> option nat)
    (s : string) :
  AllChars P s ->
  forall skip prev, AllChars P (Replace.removeMatches matchLen skip prev s).
Proof.
  induction s as [|c s IH]; simpl; [tauto|].
  intros [Hc Hs] skip prev. destruct skip as [|k]; [|auto].
  destruct (matchLen prev (String c s)) as [[|k]|]; simpl; auto.
Qed.

End Characters.

Section Lowercase.
Import Js.

Lemma lowerChar_idempotent (c : ascii) : lowerChar (lowerChar c) = lowerChar c.
Proof.
  destruct c as [b0 b1 b2 b3 b4 b5 b6 b7].
  destruct b0, b1, b2, b3, b4, b5, b6, b7; reflexivity.
Qed.

Lemma toLowerCase_stable (s : string) : AllChars stableChar (toLowerCase s).
Proof.
  induction s as [|c s IH]; simpl; [exact I|].
  split; [apply lowerChar_idempotent|exact IH].
Qed.

Lemma stable_lowercase (s : string) : AllChars stableChar s -> lowercase s.
Proof.
  unfold lowercase. induction s as [|c s IH]; simpl; [reflexivity|].
  intros [Hc Hs]. rewrite Hc, (IH Hs). reflexivity.
Qed.

Lemma normalizeText_stable (text : string) :
  AllChars stableChar (HiAnime.normalizeText text).
Proof.
  unfold HiAnime.normalizeText.
  apply AllChars_trim. apply AllChars_collapseFrom; [reflexivity|].
  repeat (apply AllChars_replaceAll; [repeat split|]).
  apply toLowerCase_stable.
Qed.

(** The words that the scorers hand to [getWordVariations] are lowercase. *)
Lemma normalizeText_words_lowercase (text w : string) :
  In w (split " " (HiAnime.normalizeText text)) -> lowercase w.
Proof.
  intros H. apply stable_lowercase.
  eapply AllChars_split; [apply normalizeText_stable|exact H].
Qed.

Lemma sama_normalizeText_words_lowercase (text w : string) (removeYear : bool) :
  In w (split " " (AnimeSama.normalizeText text removeYear)) -> lowercase w.
Proof.
  intros H. apply stable_lowercase.
  eapply AllChars_split; [|exact H].
  unfold AnimeSama.normalizeText. destruct removeYear.
  - apply AllChars_trim, AllChars_removeMatches, normalizeText_stable.
  - apply normalizeText_stable.
Qed.

End Lowercase.

(** ** Memoization of the word variations *)

Section Memoization.
Import WordVariations.

Variable normalizeText : string -> string.
Variable TITLE_REPLACEMENTS : list (string * list string).
Variable SEQUEL_PATTERNS : list (string * list string).

Local Abbreviation compute :=
  (computeVariations normalizeText TITLE_REPLACEMENTS SEQUEL_PATTERNS).
Local Abbreviation lookupVariations :=
  (getWordVariations normalizeText TITLE_REPLACEMENTS SEQUEL_PATTERNS).
Local Abbreviation sound :=
  (cacheSound normalizeText TITLE_REPLACEMENTS SEQUEL_PATTERNS).
Local Abbreviation after :=
  (afterCalls normalizeText TITLE_REPLACEMENTS SEQUEL_PATTERNS).

Lemma cacheSound_empty : sound ∅.
Proof. intros k v H. rewrite lookup_empty in H. discriminate. Qed.

Lemma getWordVariations_sound (cache : gmap string (list string)) (w : string) :
  sound cache -> lowercase w ->
  fst (lookupVariations w cache) = compute w
  /\ sound (snd (lookupVariations w cache)).
Proof.
  intros Hsound Hlow. unfold getWordVariations. rewrite Hlow.
  destruct (cache !! w) as [cached|] eqn:E; simpl.
  - split; [apply Hsound; exact E|exact Hsound].
  - split; [reflexivity|].
    intros k v Hk. destruct (decide (w = k)) as [->|Hne].
    + rewrite lookup_insert_eq in Hk. congruence.
    + rewrite lookup_insert_ne in Hk by exact Hne. apply Hsound. exact Hk.
Qed.

Lemma afterCalls_sound (words : list string) :
  forall cache, sound cache -> Forall lowercase words ->
                sound (after words cache).
Proof.
  induction words as [|w ws IH]; intros cache Hsound Hall; [exact Hsound|].
  inversion Hall; subst. simpl. apply IH; [|assumption].
  apply getWordVariations_sound; assumption.
Qed.

Lemma mapVariations_sound (words : list string) :
  forall cache, sound cache -> Forall lowercase words ->
    fst (mapVariations normalizeText TITLE_REPLACEMENTS SEQUEL_PATTERNS words
           cache) = map compute words
    /\ sound
         (snd (mapVariations normalizeText TITLE_REPLACEMENTS SEQUEL_PATTERNS
                 words cache)).
Proof.
  induction words as [|w ws IH]; intros cache Hsound Hall; [split; auto|].
  inversion Hall; subst. simpl.
  destruct (getWordVariations_sound cache w Hsound) as [Hv Hc]; [assumption|].
  destruct (lookupVariations w cache) as [v cache1]. simpl in Hv, Hc.
  destruct (IH cache1 Hc) as [Hvs Hcs]; [assumption|].
  destruct (mapVariations _ _ _ ws cache1) as [vs cache2]. simpl in *.
  split; [congruence|exact Hcs].
Qed.

Lemma memoization_transparent_generic (earlier : list string) (w : string) :
  Forall lowercase earlier -> lowercase w ->
  fst (lookupVariations w (after earlier ∅)) = fst (lookupVariations w ∅).
Proof.
  intros Hall Hw.
  destruct (getWordVariations_sound (after earlier ∅) w) as [-> _];
    [apply afterCalls_sound; [apply cacheSound_empty|exact Hall]|exact Hw|].
  destruct (getWordVariations_sound ∅ w) as [-> _];
    [apply cacheSound_empty|exact Hw|reflexivity].
Qed.

End Memoization.

(** C9. The memoization of the word variations is transparent in both
    providers.  For every word that the scorer passes to [getWordVariations]
    and every two histories of earlier calls of the scorer, the call returns
    the same list after the one history as after the other; with no earlier
    call at all for the second history, the list is the one computed on the
    empty cache. *)
Theorem memoization_transparent :
  (forall (earlier other : list string) (w : string),
      Forall hianimeWord earlier -> Forall hianimeWord other ->
      hianimeWord w ->
      fst (HiAnime.getWordVariations w
             (afterCalls HiAnime.normalizeText HiAnime.TITLE_REPLACEMENTS
                HiAnime.SEQUEL_PATTERNS earlier ∅))
      = fst (HiAnime.getWordVariations w
               (afterCalls HiAnime.normalizeText HiAnime.TITLE_REPLACEMENTS
                  HiAnime.SEQUEL_PATTERNS other ∅)))
  /\ (forall (earlier other : list string) (w : string),
         Forall animesamaWord earlier -> Forall animesamaWord other ->
         animesamaWord w ->
         fst (AnimeSama.getWordVariations w
                (afterCalls (fun x => AnimeSama.normalizeText x false)
                   AnimeSama.TITLE_REPLACEMENTS AnimeSama.SEQUEL_PATTERNS
                   earlier ∅))
         = fst (AnimeSama.getWordVariations w
                  (afterCalls (fun x => AnimeSama.normalizeText x false)
                     AnimeSama.TITLE_REPLACEMENTS AnimeSama.SEQUEL_PATTERNS
                     other ∅))).
Proof.
  assert (Hh : forall w, hianimeWord w -> lowercase w).
  { intros w [text Hw]. eapply normalizeText_words_lowercase. exact Hw. }
  assert (Hs : forall w, animesamaWord w -> lowercase w).
  { intros w (text & removeYear & Hw).
    eapply sama_normalizeText_words_lowercase. exact Hw. }
  split; intros earlier other w Hearlier Hother Hw.
  - unfold HiAnime.getWordVariations.
    rewrite (memoization_transparent_generic _ _ _ earlier w),
      (memoization_transparent_generic _ _ _ other w);
      try (eapply List.Forall_impl; [exact Hh|assumption]);
      try (apply Hh; exact Hw).
    reflexivity.
  - unfold AnimeSama.getWordVariations.
    rewrite (memoization_transparent_generic _ _ _ earlier w),
      (memoization_transparent_generic _ _ _ other w);
      try (eapply List.Forall_impl; [exact Hs|assumption]);
      try (apply Hs; exact Hw).
    reflexivity.
Qed.

Lemma memoization_transparent_witness :
  fst (HiAnime.getWordVariations "season"
         (afterCalls HiAnime.normalizeText HiAnime.TITLE_REPLACEMENTS
            HiAnime.SEQUEL_PATTERNS ["season"; "two"; "ii"] ∅))
  = fst (HiAnime.getWordVariations "season"
           (afterCalls HiAnime.normalizeText HiAnime.TITLE_REPLACEMENTS
              HiAnime.SEQUEL_PATTERNS [] ∅)).
Proof.
  assert (Hword : forall w, In w ["season"; "two"; "ii"] -> hianimeWord w).
  { intros w Hw. exists "Season Two II". vm_compute.
    destruct Hw as [<-|[<-|[<-|[]]]]; auto. }
  apply (proj1 memoization_transparent ["season"; "two"; "ii"] [] "season").
  - apply List.Forall_forall. exact Hword.
  - constructor.
  - apply Hword. left. reflexivity.
Defined.

(** Outside those words the list depends on the history: the key of an
    entry is the word in lower case and its list starts with the word as it
    was given, so that a call on "Season" would leave, for a later call on
    "season", a list that holds "Season".  No caller passes a word with a
    capital. *)
Lemma getWordVariations_keeps_the_first_spelling :
  fst (HiAnime.getWordVariations "season" ∅) = ["season"; "s"; "sz"]
  /\ fst (HiAnime.getWordVariations "season"
            (snd (HiAnime.getWordVariations "Season" ∅)))
     = ["Season"; "season"; "s"; "sz"]
  /\ fst (AnimeSama.getWordVariations "season" ∅)
     = ["season"; "saison"; "s"; "sz"]
  /\ fst (AnimeSama.getWordVariations "season"
            (snd (AnimeSama.getWordVariations "Season" ∅)))
     = ["Season"; "season"; "saison"; "s"; "sz"].
Proof. repeat split; reflexivity. Qed.

(** ** The title scorer of HiAnime against its description *)

Section ScorerSpec.
Import Js WordVariations.

Lemma Qmax_cases (x y : Q) :
  (Qmax x y = x /\ (y <= x)%Q) \/ (Qmax x y = y /\ (x < y)%Q).
Proof.
  unfold Qmax, GenericMinMax.gmax.
  destruct (x ?= y)%Q eqn:E.
  - left. split; [reflexivity|]. apply Qeq_alt in E. rewrite E. apply Qle_refl.
  - right. split; [reflexivity|]. apply Qlt_alt. exact E.
  - left. split; [reflexivity|]. apply Qlt_le_weak. apply Qgt_alt. exact E.
Qed.

Lemma good_zero : good 0.
Proof. split; [apply Qle_refl|right; reflexivity]. Qed.

Lemma good_one : good 1.
Proof. split; [discriminate|left; reflexivity]. Qed.

Lemma good_le_one (b : Q) : good b -> (b <= 1)%Q.
Proof.
  intros [_ [->|H]]; [apply Qle_refl|apply Qlt_le_weak; exact H].
Qed.

Lemma Qmax_good (x y : Q) : good x -> good y -> good (Qmax x y).
Proof.
  intros Hx Hy. destruct (Qmax_cases x y) as [[-> _]|[-> _]]; assumption.
Qed.

Lemma Qmax_one_l (y : Q) : good y -> Qmax 1 y = 1%Q.
Proof.
  intros Hy. destruct (Qmax_cases 1 y) as [[H _]|[_ H]]; [exact H|].
  exfalso. apply (Qlt_not_le _ _ H). apply good_le_one. exact Hy.
Qed.

Lemma Qmax_one_r (b : Q) : good b -> Qmax b 1 = 1%Q.
Proof.
  intros Hb. destruct (Qmax_cases b 1) as [[H Hle]|[H _]]; [|exact H].
  rewrite H. destruct Hb as [_ [->|Hlt]]; [reflexivity|].
  exfalso. apply (Qlt_not_le _ _ Hlt). exact Hle.
Qed.

Lemma Qmax_zero_r (b : Q) : (0 <= b)%Q -> Qmax b 0 = b.
Proof.
  intros Hb. destruct (Qmax_cases b 0) as [[H _]|[_ H]]; [exact H|].
  exfalso. apply (Qlt_not_le _ _ H). exact Hb.
Qed.

Lemma good_eq_one (b : Q) : good b -> Qeq_bool b 1 = true -> b = 1%Q.
Proof.
  intros [_ [->|Hlt]] H; [reflexivity|].
  apply Qeq_bool_iff in H. exfalso. apply (Qlt_not_eq _ _ Hlt). exact H.
Qed.

Lemma fold_Qmax_good (l : list Q) :
  forall b, good b -> Forall good l -> good (fold_left Qmax l b).
Proof.
  induction l as [|x l IH]; intros b Hb Hl; [exact Hb|].
  inversion Hl; subst. simpl. apply IH; [apply Qmax_good|]; assumption.
Qed.

Lemma fold_Qmax_one (l : list Q) : Forall good l -> fold_left Qmax l 1%Q = 1%Q.
Proof.
  induction l as [|x l IH]; intros Hl; [reflexivity|].
  inversion Hl; subst. simpl. rewrite Qmax_one_l by assumption. auto.
Qed.

Lemma prefix_length (t s : string) :
  String.prefix t s = true ->
  (String.length t <= String.length s)%nat
  /\ (String.length t = String.length s -> t = s).
Proof.
  revert t. induction s as [|b s IH]; intros [|a t]; simpl.
  - intros _. split; [lia|reflexivity].
  - discriminate.
  - intros _. split; [lia|discriminate].
  - destruct (ascii_dec a b) as [->|]; [|discriminate].
    intros H. destruct (IH t H) as [Hle Heq].
    split; [lia|]. intros Hlen. f_equal. apply Heq. lia.
Qed.

Lemma includes_length (s t : string) :
  includes s t = true ->
  (String.length t <= String.length s)%nat
  /\ (String.length t = String.length s -> t = s).
Proof.
  induction s as [|c s IH]; intros H.
  - change (String.prefix t EmptyString || false = true) in H.
    rewrite orb_false_r in H. apply prefix_length. exact H.
  - change (String.prefix t (String c s) || includes s t = true) in H.
    apply orb_true_iff in H. destruct H as [H|H].
    + apply prefix_length. exact H.
    + destruct (IH H) as [Hle _]. simpl. split; lia.
Qed.

Lemma ratio_good (m n : nat) :
  (m < n)%nat ->
  good (inject_Z (Z.of_nat m) / inject_Z (Z.of_nat n))%Q.
Proof.
  intros Hlt.
  assert (Hn : (0 < inject_Z (Z.of_nat n))%Q)
    by (change 0%Q with (inject_Z 0); rewrite <- Zlt_Qlt; lia).
  split.
  - apply Qle_shift_div_l; [exact Hn|].
    rewrite Qmult_0_l. change 0%Q with (inject_Z 0). rewrite <- Zle_Qle. lia.
  - right. apply Qlt_shift_div_r; [exact Hn|].
    rewrite Qmult_1_l. rewrite <- Zlt_Qlt. lia.
Qed.

Lemma pairScore_good (searchVar titleVar : string) :
  good (pairScore searchVar titleVar).
Proof.
  unfold pairScore.
  destruct (String.eqb searchVar titleVar) eqn:E; [apply good_one|].
  apply String.eqb_neq in E.
  destruct (includes searchVar titleVar || includes titleVar searchVar) eqn:I;
    [|apply good_zero].
  apply ratio_good. apply orb_true_iff in I.
  destruct I as [I|I]; apply includes_length in I; destruct I as [Hle Heq].
  - assert (String.length titleVar <> String.length searchVar)
      by (intros H; apply E; symmetry; apply Heq; exact H).
    lia.
  - assert (String.length searchVar <> String.length titleVar)
      by (intros H; apply E; apply Heq; exact H).
    lia.
Qed.

Lemma pairScores_row_good (searchVar : string) (titleVars : list string) :
  Forall good (map (pairScore searchVar) titleVars).
Proof.
  apply List.Forall_forall. intros x Hx. apply in_map_iff in Hx.
  destruct Hx as (tv & <- & _). apply pairScore_good.
Qed.

Lemma pairScores_word_good (searchVars titleVars : list string) :
  Forall good
    (flat_map (fun searchVar => map (pairScore searchVar) titleVars) searchVars).
Proof.
  apply List.Forall_flat_map. apply List.Forall_forall. intros sv _.
  apply pairScores_row_good.
Qed.

Lemma pairScores_good (searchVars : list string)
    (titleVariations : list (list string)) :
  Forall good (pairScores searchVars titleVariations).
Proof.
  apply List.Forall_flat_map. apply List.Forall_forall. intros tvs _.
  apply pairScores_word_good.
Qed.

(** The three loops compute the maximum of the pair scores: a [break] only
    leaves out numbers that cannot raise a best match of 1. *)
Lemma matchTitleVars_max (searchVar : string) (titleVars : list string) :
  forall b, good b ->
    matchTitleVars searchVar titleVars b
    = fold_left Qmax (map (pairScore searchVar) titleVars) b.
Proof.
  induction titleVars as [|tv rest IH]; intros b Hb; [reflexivity|].
  simpl. unfold pairScore at 2.
  destruct (String.eqb searchVar tv) eqn:E.
  - rewrite Qmax_one_r by exact Hb. symmetry. apply fold_Qmax_one.
    apply pairScores_row_good.
  - destruct (includes searchVar tv || includes tv searchVar) eqn:I.
    + apply IH. apply Qmax_good; [exact Hb|].
      pose proof (pairScore_good searchVar tv) as H.
      unfold pairScore in H. rewrite E, I in H. exact H.
    + rewrite Qmax_zero_r by apply Hb. apply IH. exact Hb.
Qed.

Lemma matchSearchVars_max (titleVars : list string) (searchVars : list string) :
  forall b, good b ->
    matchSearchVars searchVars titleVars b
    = fold_left Qmax
        (flat_map (fun searchVar => map (pairScore searchVar) titleVars)
           searchVars) b.
Proof.
  induction searchVars as [|sv rest IH]; intros b Hb; [reflexivity|].
  simpl. rewrite fold_left_app, matchTitleVars_max by exact Hb.
  assert (Hbest : good (fold_left Qmax (map (pairScore sv) titleVars) b))
    by (apply fold_Qmax_good; [exact Hb|apply pairScores_row_good]).
  destruct (Qeq_bool (fold_left Qmax (map (pairScore sv) titleVars) b) 1) eqn:E.
  - rewrite (good_eq_one _ Hbest E). symmetry. apply fold_Qmax_one.
    apply pairScores_word_good.
  - apply IH. exact Hbest.
Qed.

Lemma matchTitleWords_max (searchVars : list string)
    (titleVariations : list (list string)) :
  forall b, good b ->
    matchTitleWords searchVars titleVariations b
    = fold_left Qmax (pairScores searchVars titleVariations) b.
Proof.
  induction titleVariations as [|tvs rest IH]; intros b Hb; [reflexivity|].
  simpl. unfold pairScores. simpl. rewrite fold_left_app.
  rewrite matchSearchVars_max by exact Hb.
  set (best := fold_left Qmax
                 (flat_map (fun sv => map (pairScore sv) tvs) searchVars) b).
  assert (Hbest : good best)
    by (apply fold_Qmax_good; [exact Hb|apply pairScores_word_good]).
  destruct (Qeq_bool best 1) eqn:E.
  - rewrite (good_eq_one _ Hbest E). symmetry. apply fold_Qmax_one.
    apply pairScores_good.
  - apply IH. exact Hbest.
Qed.

Lemma bestWordMatch_loop (searchVars : list string)
    (titleVariations : list (list string)) :
  matchTitleWords searchVars titleVariations 0
  = bestWordMatchSpec searchVars titleVariations.
Proof. apply matchTitleWords_max. apply good_zero. Qed.

Lemma bestWordMatchSpec_good (searchVars : list string)
    (titleVariations : list (list string)) :
  good (bestWordMatchSpec searchVars titleVariations).
Proof.
  apply fold_Qmax_good; [apply good_zero|apply pairScores_good].
Qed.

(** [maxOver] is the maximum: it bounds the list from above and is one of
    its numbers, or 0. *)
Lemma fold_Qmax_upper (l : list Q) :
  forall b x, (x == b \/ In x l) -> (x <= fold_left Qmax l b)%Q.
Proof.
  induction l as [|y l IH]; intros b x H; simpl.
  - destruct H as [H|[]]. rewrite H. apply Qle_refl.
  - destruct (Qmax_cases b y) as [[Hm Hle]|[Hm Hlt]].
    + destruct H as [H|[<-|H]].
      * apply IH. left. rewrite Hm. exact H.
      * apply Qle_trans with b; [exact Hle|]. apply IH. left. rewrite Hm.
        reflexivity.
      * apply IH. right. exact H.
    + destruct H as [H|[<-|H]].
      * apply Qle_trans with y.
        -- rewrite H. apply Qlt_le_weak. exact Hlt.
        -- apply IH. left. rewrite Hm. reflexivity.
      * apply IH. left. rewrite Hm. reflexivity.
      * apply IH. right. exact H.
Qed.

Lemma fold_Qmax_attained (l : list Q) :
  forall b, fold_left Qmax l b = b \/ In (fold_left Qmax l b) l.
Proof.
  induction l as [|y l IH]; intros b; simpl; [left; reflexivity|].
  destruct (IH (Qmax b y)) as [H|H]; [|right; right; exact H].
  rewrite H. destruct (Qmax_cases b y) as [[-> _]|[-> _]]; auto.
Qed.

Lemma maxOver_is_maximum (l : list Q) :
  (forall x, In x l -> (x <= maxOver l)%Q)
  /\ (maxOver l = 0%Q \/ In (maxOver l) l).
Proof.
  split.
  - intros x Hx. apply fold_Qmax_upper. right. exact Hx.
  - apply fold_Qmax_attained.
Qed.

End ScorerSpec.

Section ScorerRefinement.
Import Js WordVariations.

Variable stringSimilarity : string -> string -> Q.

Lemma countMatches_spec (titleVariations : list (list string)) :
  forall (searchVariations : list (list string)) (matches partialMatches : Q),
    let bests :=
      map (fun searchVars => bestWordMatchSpec searchVars titleVariations)
        searchVariations in
    let counted :=
      countMatches searchVariations titleVariations matches partialMatches in
    fst counted
    == matches
       + inject_Z
           (Z.of_nat (List.length (List.filter (fun b => Qeq_bool b 1) bests)))
    /\ snd counted
       == partialMatches
          + sumQ (List.filter (fun b => negb (Qeq_bool b 1)) bests).
Proof.
  induction searchVariations as [|searchVars rest IH];
    intros matches partialMatches; simpl.
  - split; ring.
  - rewrite bestWordMatch_loop.
    pose proof (bestWordMatchSpec_good searchVars titleVariations) as Hgood.
    destruct (Qeq_bool (bestWordMatchSpec searchVars titleVariations) 1) eqn:E;
      simpl.
    + destruct (IH (matches + 1)%Q partialMatches) as [Hm Hp].
      split; [|exact Hp]. rewrite Hm.
      rewrite Nat2Z.inj_succ, <- Z.add_1_l, inject_Z_plus. simpl (inject_Z 1).
      ring.
    + destruct (Qlt_le_dec 0 (bestWordMatchSpec searchVars titleVariations))
        as [Hpos|Hle].
      * destruct (IH matches
                    (partialMatches
                     + bestWordMatchSpec searchVars titleVariations)%Q)
          as [Hm Hp].
        split; [exact Hm|]. rewrite Hp. ring.
      * destruct (IH matches partialMatches) as [Hm Hp].
        split; [exact Hm|]. rewrite Hp.
        assert (Hzero : bestWordMatchSpec searchVars titleVariations == 0)
          by (apply Qle_antisym; [exact Hle|apply Hgood]).
        rewrite Hzero. ring.
Qed.

Lemma wordMatchScore_spec (searchVariations titleVariations : list (list string)) :
  wordMatchScore searchVariations titleVariations
  == wordScoreSpec searchVariations titleVariations.
Proof.
  unfold wordMatchScore, wordScoreSpec.
  pose proof (countMatches_spec titleVariations searchVariations 0 0) as H.
  cbv zeta in H.
  destruct (countMatches searchVariations titleVariations 0 0)
    as [matches partialMatches].
  simpl in H. destruct H as [Hm Hp]. rewrite Hm, Hp. unfold Qdiv. ring.
Qed.

End ScorerRefinement.

(** C2, amended. The scorer of the HiAnime provider returns exactly: 1 when
    the normalized titles are equal; otherwise 0.95 when their edit distance
    is at most 2 and the normalized source title is longer than 5; otherwise
    [0.7 * wordScore + 0.3 * stringSimilarity], with [wordScore] computed from
    the best pair score of every source word.  The memoization cache only
    has to hold what misses compute, as it does after calls of the scorer. *)
Theorem calculateTitleScore_three_cases :
  forall (stringSimilarity : string -> string -> Q)
         (searchTitle candidateTitle : string)
         (cache : gmap string (list string)),
    cacheSound HiAnime.normalizeText HiAnime.TITLE_REPLACEMENTS
      HiAnime.SEQUEL_PATTERNS cache ->
    fst (HiAnime.calculateTitleScore stringSimilarity searchTitle
           candidateTitle cache)
    == titleScoreSpec stringSimilarity searchTitle candidateTitle
    /\ cacheSound HiAnime.normalizeText HiAnime.TITLE_REPLACEMENTS
         HiAnime.SEQUEL_PATTERNS
         (snd (HiAnime.calculateTitleScore stringSimilarity searchTitle
                 candidateTitle cache)).
Proof.
  intros stringSimilarity searchTitle candidateTitle cache Hsound.
  unfold HiAnime.calculateTitleScore, titleScoreSpec.
  destruct (String.eqb (HiAnime.normalizeText searchTitle)
              (HiAnime.normalizeText candidateTitle));
    [split; [reflexivity|exact Hsound]|].
  destruct ((HiAnime.levenshteinDistance (HiAnime.normalizeText searchTitle)
               (HiAnime.normalizeText candidateTitle) <=? 2)%nat
            && (5 <? String.length (HiAnime.normalizeText searchTitle))%nat);
    [split; [reflexivity|exact Hsound]|].
  unfold HiAnime.mapVariations.
  assert (Hlow : forall text,
             Forall lowercase (Js.split " " (HiAnime.normalizeText text))).
  { intros text. apply List.Forall_forall. intros w Hw.
    eapply normalizeText_words_lowercase. exact Hw. }
  destruct (mapVariations_sound HiAnime.normalizeText HiAnime.TITLE_REPLACEMENTS
              HiAnime.SEQUEL_PATTERNS
              (Js.split " " (HiAnime.normalizeText searchTitle)) cache Hsound
              (Hlow searchTitle)) as [Hs Hc1].
  destruct (WordVariations.mapVariations HiAnime.normalizeText
              HiAnime.TITLE_REPLACEMENTS HiAnime.SEQUEL_PATTERNS
              (Js.split " " (HiAnime.normalizeText searchTitle)) cache)
    as [searchVariations cache1].
  simpl in Hs, Hc1.
  destruct (mapVariations_sound HiAnime.normalizeText HiAnime.TITLE_REPLACEMENTS
              HiAnime.SEQUEL_PATTERNS
              (Js.split " " (HiAnime.normalizeText candidateTitle)) cache1 Hc1
              (Hlow candidateTitle)) as [Ht Hc2].
  destruct (WordVariations.mapVariations HiAnime.normalizeText
              HiAnime.TITLE_REPLACEMENTS HiAnime.SEQUEL_PATTERNS
              (Js.split " " (HiAnime.normalizeText candidateTitle)) cache1)
    as [titleVariations cache2].
  simpl in Ht, Hc2. simpl. split; [|exact Hc2].
  rewrite wordMatchScore_spec. subst searchVariations titleVariations.
  unfold HiAnime.computeVariations. ring.
Qed.

Lemma calculateTitleScore_three_cases_witness :
  fst (HiAnime.calculateTitleScore Similarity.dice "Attack on Titan"
         "Attack on Titans" ∅)
  == titleScoreSpec Similarity.dice "Attack on Titan" "Attack on Titans"
  /\ fst (HiAnime.calculateTitleScore Similarity.dice "Overlord"
            "Overlord Wars" ∅)
     == titleScoreSpec Similarity.dice "Overlord" "Overlord Wars".
Proof.
  split.
  - apply (calculateTitleScore_three_cases Similarity.dice "Attack on Titan"
             "Attack on Titans" ∅).
    apply cacheSound_empty.
  - apply (calculateTitleScore_three_cases Similarity.dice "Overlord"
             "Overlord Wars" ∅).
    apply cacheSound_empty.
Defined.

(** C2 as stated fails for the scorer of the AnimeSama provider, which has
    no edit-distance rule: the normalized titles "attack on titan" and
    "attack on titans" differ, their edit distance is 1 and the source is 15
    long, yet the score is 8911/10440 and not 0.95 (the scorer of HiAnime
    returns 0.95); even with the string similarity taken to be 1 throughout
    the score is 311/360, below 0.95. *)
Lemma sama_scorer_has_no_edit_distance_rule :
  AnimeSama.normalizeText "Attack on Titan" false = "attack on titan"
  /\ AnimeSama.normalizeText "Attack on Titans" false = "attack on titans"
  /\ HiAnime.levenshteinDistance "attack on titan" "attack on titans" = 1%nat
  /\ String.length "attack on titan" = 15%nat
  /\ fst (AnimeSama.calculateTitleScore Similarity.dice "Attack on Titan"
            "Attack on Titans" None ∅) == 8911 # 10440
  /\ Qeq_bool
       (fst (AnimeSama.calculateTitleScore Similarity.dice "Attack on Titan"
               "Attack on Titans" None ∅)) (95 # 100) = false
  /\ fst (HiAnime.calculateTitleScore Similarity.dice "Attack on Titan"
            "Attack on Titans" ∅) == 95 # 100
  /\ fst (AnimeSama.calculateTitleScore (fun _ _ => 1%Q) "Attack on Titan"
            "Attack on Titans" None ∅) == 311 # 360.
Proof. vm_compute. repeat split; reflexivity. Qed.

(** ** The title normalizer *)

Section Normalizer.
Import Js.

Lemma collapseFrom_collapsed (s : string) :
  forall inRun, collapsed inRun (collapseFrom inRun s).
Proof.
  induction s as [|c s IH]; intros inRun; simpl; [exact I|].
  destruct (isSpace c) eqn:E.
  - destruct inRun; [apply IH|]. simpl. auto.
  - simpl. rewrite E. apply IH.
Qed.

Lemma collapsed_fixed (s : string) :
  forall afterBlank, collapsed afterBlank s -> collapseFrom afterBlank s = s.
Proof.
  induction s as [|c s IH]; intros afterBlank; simpl; [reflexivity|].
  destruct (isSpace c).
  - intros (-> & -> & H). rewrite (IH true H). reflexivity.
  - intros H. rewrite (IH false H). reflexivity.
Qed.

Lemma collapsed_weaken (s : string) (afterBlank : bool) :
  collapsed afterBlank s -> collapsed false s.
Proof.
  destruct s as [|c s]; simpl; [auto|].
  destruct (isSpace c); [|auto]. intros (-> & _ & H). auto.
Qed.

Lemma trimStart_collapsed (s : string) :
  forall afterBlank, collapsed afterBlank s -> collapsed false (trimStart s).
Proof.
  induction s as [|c s IH]; intros afterBlank; simpl; [auto|].
  destruct (isSpace c) eqn:E.
  - intros (_ & _ & H). apply (IH true H).
  - intros H. simpl. rewrite E. exact H.
Qed.

Lemma trimEnd_collapsed (s : string) :
  forall afterBlank, collapsed afterBlank s -> collapsed afterBlank (trimEnd s).
Proof.
  induction s as [|c s IH]; intros afterBlank; simpl; [auto|].
  destruct (isSpace c) eqn:E.
  - intros (-> & -> & H). specialize (IH true H).
    destruct (trimEnd s) eqn:T; [exact I|].
    simpl. simpl in IH. auto.
  - intros H. specialize (IH false H).
    destruct (trimEnd s) eqn:T; simpl; rewrite E; auto.
Qed.

Lemma trimStart_fixed (s : string) : trimStart (trimStart s) = trimStart s.
Proof.
  induction s as [|c s IH]; simpl; [reflexivity|].
  destruct (isSpace c) eqn:E; [exact IH|]. simpl. rewrite E. reflexivity.
Qed.

Lemma trimEnd_fixed (s : string) : trimEnd (trimEnd s) = trimEnd s.
Proof.
  induction s as [|c s IH]; simpl; [reflexivity|].
  destruct (trimEnd s) as [|d t] eqn:T.
  - destruct (isSpace c) eqn:E; simpl; [reflexivity|]. rewrite E. reflexivity.
  - change (trimEnd (String c (String d t)) = String c (String d t)).
    simpl. simpl in IH. rewrite IH. reflexivity.
Qed.

Lemma trimStart_headed (s : string) : headed (trimStart s).
Proof.
  induction s as [|c s IH]; simpl; [exact I|].
  destruct (isSpace c) eqn:E; [exact IH|exact E].
Qed.

Lemma headed_trimStart (s : string) : headed s -> trimStart s = s.
Proof. destruct s as [|c s]; simpl; [auto|]. intros ->. reflexivity. Qed.

Lemma trimEnd_headed (s : string) : headed s -> headed (trimEnd s).
Proof.
  destruct s as [|c s]; simpl; [auto|]. intros H.
  destruct (trimEnd s); [rewrite H|]; exact H.
Qed.

Lemma trim_fixed (s : string) : trim (trim s) = trim s.
Proof.
  unfold trim.
  rewrite (headed_trimStart (trimEnd (trimStart s)))
    by (apply trimEnd_headed, trimStart_headed).
  apply trimEnd_fixed.
Qed.

Lemma replaceAll_fixed (p : ascii -> bool) (r s : string) :
  AllChars (fun c => p c = false) s -> replaceAll p r s = s.
Proof.
  induction s as [|c s IH]; simpl; [reflexivity|].
  intros [-> H]. rewrite (IH H). reflexivity.
Qed.

Lemma replaceAll_removes (p : ascii -> bool) (s : string) :
  AllChars (fun c => p c = false) (replaceAll p EmptyString s).
Proof.
  induction s as [|c s IH]; simpl; [exact I|].
  destruct (p c) eqn:E; simpl; auto.
Qed.

Lemma AllChars_impl (P R : ascii -> Prop) (s : string) :
  (forall c, P c -> R c) -> AllChars P s -> AllChars R s.
Proof. intros H. induction s as [|c s IH]; simpl; [auto|]. intuition. Qed.

(** A word character or white space is none of the replaced characters. *)
Lemma wordOrSpace_kept (c : ascii) :
  wordOrSpace c ->
  Ascii.eqb c "&"%char = false
  /\ (code c =? 189)%N = false
  /\ (code c =? 215)%N = false
  /\ Ascii.eqb c "'"%char = false
  /\ negb (isWord c || isSpace c) = false.
Proof.
  unfold wordOrSpace. destruct c as [b0 b1 b2 b3 b4 b5 b6 b7].
  destruct b0, b1, b2, b3, b4, b5, b6, b7; vm_compute; intros H;
    try discriminate H; repeat split; reflexivity.
Qed.

Lemma normalizeText_wordOrSpace (text : string) :
  AllChars wordOrSpace (HiAnime.normalizeText text).
Proof.
  unfold HiAnime.normalizeText.
  apply AllChars_trim. apply AllChars_collapseFrom; [reflexivity|].
  eapply AllChars_impl; [|apply replaceAll_removes].
  intros c H. unfold wordOrSpace. apply negb_false_iff. exact H.
Qed.

Lemma normalizeText_collapsed (text : string) :
  collapsed false (HiAnime.normalizeText text).
Proof.
  unfold HiAnime.normalizeText, trim, collapseSpaces.
  apply trimEnd_collapsed. eapply trimStart_collapsed.
  apply collapseFrom_collapsed.
Qed.

(** The normalizer without the year flag leaves normalized text as it is. *)
Lemma normalizeText_idempotent (text : string) :
  HiAnime.normalizeText (HiAnime.normalizeText text)
  = HiAnime.normalizeText text.
Proof.
  set (y := HiAnime.normalizeText text).
  assert (Hstable : toLowerCase y = y)
    by (apply stable_lowercase, normalizeText_stable).
  pose proof (normalizeText_wordOrSpace text) as Hkept. fold y in Hkept.
  pose proof (normalizeText_collapsed text) as Hcol. fold y in Hcol.
  assert (Htrim : trim y = y).
  { unfold y, HiAnime.normalizeText. apply trim_fixed. }
  assert (Hfixed : forall (p : ascii -> bool) (r : string),
             (forall c, wordOrSpace c -> p c = false) ->
             replaceAll p r y = y).
  { intros p r Hp. apply replaceAll_fixed.
    eapply AllChars_impl; [exact Hp|exact Hkept]. }
  unfold HiAnime.normalizeText at 1. rewrite Hstable.
  rewrite (Hfixed _ "and") by (intros c H; apply (wordOrSpace_kept c H)).
  rewrite (Hfixed _ "0.5") by (intros c H; apply (wordOrSpace_kept c H)).
  rewrite (Hfixed _ "x") by (intros c H; apply (wordOrSpace_kept c H)).
  rewrite (Hfixed _ EmptyString) by (intros c H; apply (wordOrSpace_kept c H)).
  rewrite (Hfixed _ EmptyString) by (intros c H; apply (wordOrSpace_kept c H)).
  unfold collapseSpaces. rewrite (collapsed_fixed y false Hcol). exact Htrim.
Qed.

End Normalizer.

(** C3. Without the year flag the normalizer is idempotent in both
    providers, and it does not see the case of letters.  With the year flag
    it is not idempotent: the blanks around a removed year stay, so
    "a 2020 b" becomes "a  b" with two blanks, which a second pass turns
    into "a b"; the year-stripped titles of "Foo 2020 Bar" and "Foo Bar"
    then differ, and the scorer misses its base-title rule. *)
Theorem normalizeText_idempotent_without_year :
  (forall x : string,
      AnimeSama.normalizeText (AnimeSama.normalizeText x false) false
      = AnimeSama.normalizeText x false)
  /\ (forall x : string,
         HiAnime.normalizeText (HiAnime.normalizeText x)
         = HiAnime.normalizeText x)
  /\ AnimeSama.normalizeText "ATTACK on Titan" false
     = AnimeSama.normalizeText "attack on titan" false
  /\ AnimeSama.normalizeText "a 2020 b" true = "a  b"
  /\ AnimeSama.normalizeText (AnimeSama.normalizeText "a 2020 b" true) true
     = "a b"
  /\ AnimeSama.normalizeText "Foo 2020 Bar" true = "foo  bar"
  /\ AnimeSama.normalizeText "Foo Bar" true = "foo bar"
  /\ fst (AnimeSama.calculateTitleScore Similarity.dice "Foo 2020 Bar"
            "Foo Bar" None ∅) == 29 # 39.
Proof.
  split; [|split].
  - intros x. unfold AnimeSama.normalizeText. apply normalizeText_idempotent.
  - apply normalizeText_idempotent.
  - vm_compute. repeat split; reflexivity.
Qed.

(** * Further properties of the code *)

(** ** The edit distance *)

Section EditDistance.
Import HiAnime.

Lemma cell_nil_r (ra : list ascii) : cell ra [] = List.length ra.
Proof. destruct ra; reflexivity. Qed.

Lemma cell_cons (x y : ascii) (ra rb : list ascii) :
  cell (x :: ra) (y :: rb)
  = Nat.min (Nat.min (cell ra (y :: rb) + 1) (cell (x :: ra) rb + 1))
      (cell ra rb + (if Ascii.eqb x y then 0 else 1)).
Proof. reflexivity. Qed.

Lemma levRow_cells (y : ascii) (a : string) :
  forall (pa rb : list ascii),
    levRow y a (rowFrom pa a rb) (cell pa rb) (cell pa (y :: rb))
    = rowFrom pa a (y :: rb).
Proof.
  induction a as [|x a IH]; intros pa rb; [reflexivity|].
  cbn [rowFrom levRow]. rewrite cell_cons. f_equal.
  rewrite <- cell_cons. apply IH.
Qed.

Lemma rowFrom_first_row (a : string) :
  forall pa, rowFrom pa a [] = List.seq (S (List.length pa)) (String.length a).
Proof.
  induction a as [|x a IH]; intros pa; [reflexivity|].
  cbn [rowFrom String.length List.seq]. rewrite cell_nil_r, IH. reflexivity.
Qed.

Lemma levRows_cells (a : string) (b : string) :
  forall rb,
    levRows b a (List.length rb :: rowFrom [] a rb) (S (List.length rb))
    = List.length (rev_append (list_ascii_of_string b) rb)
      :: rowFrom [] a (rev_append (list_ascii_of_string b) rb).
Proof.
  induction b as [|y b IH]; intros rb; [reflexivity|].
  cbn [levRows list_ascii_of_string rev_append].
  change (List.length rb) with (cell [] rb) at 2.
  change (S (List.length rb)) with (cell [] (y :: rb)) at 2.
  rewrite levRow_cells. apply (IH (y :: rb)).
Qed.

Lemma last_rowFrom (a : string) :
  forall pa rb d,
    List.last (cell pa rb :: rowFrom pa a rb) d
    = cell (rev_append (list_ascii_of_string a) pa) rb.
Proof.
  induction a as [|x a IH]; intros pa rb d; [reflexivity|].
  cbn [rowFrom list_ascii_of_string rev_append].
  rewrite <- (IH (x :: pa) rb d). reflexivity.
Qed.

Lemma levenshteinDistance_cell (a b : string) :
  levenshteinDistance a b
  = cell (rev (list_ascii_of_string a)) (rev (list_ascii_of_string b)).
Proof.
  unfold levenshteinDistance.
  assert (H0 : List.seq 0 (S (String.length a))
               = List.length (@nil ascii) :: rowFrom [] a []).
  { rewrite rowFrom_first_row. reflexivity. }
  rewrite H0.
  change 1%nat with (S (List.length (@nil ascii))).
  rewrite levRows_cells.
  change (List.length (rev_append (list_ascii_of_string b) []))
    with (cell [] (rev_append (list_ascii_of_string b) [])).
  rewrite last_rowFrom, !rev_append_rev, !app_nil_r. reflexivity.
Qed.

(** The recurrence gives the cost of an alignment, and no alignment costs
    less. *)
Lemma cell_alignment (ra : list ascii) :
  forall rb, Alignment ra rb (cell ra rb).
Proof.
  induction ra as [|x ra IHa]; intros rb.
  - induction rb as [|y rb IHb]; [constructor|].
    cbn [cell List.length] in *. now constructor.
  - induction rb as [|y rb IHb].
    + specialize (IHa []). rewrite cell_nil_r in IHa.
      cbn [cell]. now constructor.
    + rewrite cell_cons.
      destruct (Nat.min_spec (Nat.min (cell ra (y :: rb) + 1) (cell (x :: ra) rb + 1))
                  (cell ra rb + (if Ascii.eqb x y then 0 else 1)))
        as [[_ ->]|[_ ->]].
      * destruct (Nat.min_spec (cell ra (y :: rb) + 1) (cell (x :: ra) rb + 1))
          as [[_ ->]|[_ ->]]; rewrite Nat.add_1_r.
        -- apply align_delete, IHa.
        -- apply align_insert, IHb.
      * destruct (Ascii.eqb_spec x y) as [->|_].
        -- rewrite Nat.add_0_r. apply align_keep, IHa.
        -- rewrite Nat.add_1_r. apply align_replace. apply IHa.
Qed.

Lemma alignment_cell (ra rb : list ascii) (n : nat) :
  Alignment ra rb n -> (cell ra rb <= n)%nat.
Proof.
  induction 1 as [|x a b n _ IH|y a b n _ IH|x a b n _ IH|x y a b n _ IH].
  - reflexivity.
  - destruct b as [|y b].
    + rewrite cell_nil_r in *. cbn [List.length]. lia.
    + rewrite cell_cons. lia.
  - destruct a as [|x a].
    + cbn [cell List.length] in *. lia.
    + rewrite cell_cons. lia.
  - rewrite cell_cons, Ascii.eqb_refl. lia.
  - rewrite cell_cons. destruct (Ascii.eqb x y); lia.
Qed.

Lemma alignment_snoc_delete (x : ascii) (a b : list ascii) (n : nat) :
  Alignment a b n -> Alignment (a ++ [x]) b (S n).
Proof.
  induction 1; cbn [app]; try (now constructor).
  repeat constructor.
Qed.

Lemma alignment_snoc_insert (y : ascii) (a b : list ascii) (n : nat) :
  Alignment a b n -> Alignment a (b ++ [y]) (S n).
Proof.
  induction 1; cbn [app]; try (now constructor).
  repeat constructor.
Qed.

Lemma alignment_snoc_keep (x : ascii) (a b : list ascii) (n : nat) :
  Alignment a b n -> Alignment (a ++ [x]) (b ++ [x]) n.
Proof.
  induction 1; cbn [app]; try (now constructor).
  repeat constructor.
Qed.

Lemma alignment_snoc_replace (x y : ascii) (a b : list ascii) (n : nat) :
  Alignment a b n -> Alignment (a ++ [x]) (b ++ [y]) (S n).
Proof.
  induction 1; cbn [app]; try (now constructor).
  apply align_replace. constructor.
Qed.

Lemma alignment_rev (a b : list ascii) (n : nat) :
  Alignment a b n -> Alignment (rev a) (rev b) n.
Proof.
  induction 1; cbn [rev].
  - constructor.
  - now apply alignment_snoc_delete.
  - now apply alignment_snoc_insert.
  - now apply alignment_snoc_keep.
  - now apply alignment_snoc_replace.
Qed.

Lemma alignment_refl (a : list ascii) : Alignment a a 0.
Proof. induction a; now constructor. Qed.

Lemma alignment_sym (a b : list ascii) (n : nat) :
  Alignment a b n -> Alignment b a n.
Proof. induction 1; now constructor. Qed.

Lemma alignment_zero (a b : list ascii) (n : nat) :
  Alignment a b n -> n = 0%nat -> a = b.
Proof. induction 1; intros E; try discriminate; [reflexivity|]. f_equal; auto. Qed.

Lemma alignment_lengths (a b : list ascii) (n : nat) :
  Alignment a b n ->
  (List.length a <= List.length b + n /\ List.length b <= List.length a + n)%nat.
Proof. induction 1; cbn [List.length]; lia. Qed.

Lemma alignment_exists (a : list ascii) :
  forall b, exists n,
    (n <= Nat.max (List.length a) (List.length b))%nat /\ Alignment a b n.
Proof.
  induction a as [|x a IH]; intros b.
  - induction b as [|y b [n [Hn Hb]]].
    + exists 0%nat. split; [reflexivity|constructor].
    + exists (S n). cbn [List.length] in *. split; [lia|now constructor].
  - destruct b as [|y b].
    + destruct (IH []) as [n [Hn Ha]]. exists (S n).
      cbn [List.length] in *. split; [lia|now constructor].
    + destruct (IH b) as [n [Hn Ha]]. exists (S n).
      cbn [List.length]. split; [lia|now apply align_replace].
Qed.

Lemma alignment_trans (a b : list ascii) (n : nat) :
  Alignment a b n ->
  forall c m, Alignment b c m ->
    exists k, (k <= n + m)%nat /\ Alignment a c k.
Proof.
  induction 1 as [|x a b n _ IH|y a b n _ IH|x a b n _ IH|x y a b n _ IH];
    intros c m H2.
  - exists m. split; [lia|assumption].
  - destruct (IH c m H2) as [k [Hk Hc]].
    exists (S k). split; [lia|now constructor].
  - remember (y :: b) as b0 eqn:E. revert E.
    induction H2 as [|y' b1 c m H2 IH2|z b1 c m H2 IH2|y' b1 c m H2 IH2
                    |y' z b1 c m H2 IH2];
      intros E; try discriminate.
    + injection E as -> ->. destruct (IH c m H2) as [k [Hk Hc]].
      exists k. split; [lia|assumption].
    + destruct (IH2 E) as [k [Hk Hc]].
      exists (S k). split; [lia|now constructor].
    + injection E as -> ->. destruct (IH c m H2) as [k [Hk Hc]].
      exists (S k). split; [lia|now constructor].
    + injection E as -> ->. destruct (IH c m H2) as [k [Hk Hc]].
      exists (S k). split; [lia|now constructor].
  - remember (x :: b) as b0 eqn:E. revert E.
    induction H2 as [|y' b1 c m H2 IH2|z b1 c m H2 IH2|y' b1 c m H2 IH2
                    |y' z b1 c m H2 IH2];
      intros E; try discriminate.
    + injection E as -> ->. destruct (IH c m H2) as [k [Hk Hc]].
      exists (S k). split; [lia|now constructor].
    + destruct (IH2 E) as [k [Hk Hc]].
      exists (S k). split; [lia|now constructor].
    + injection E as -> ->. destruct (IH c m H2) as [k [Hk Hc]].
      exists k. split; [lia|now constructor].
    + injection E as -> ->. destruct (IH c m H2) as [k [Hk Hc]].
      exists (S k). split; [lia|now apply align_replace].
  - remember (y :: b) as b0 eqn:E. revert E.
    induction H2 as [|y' b1 c m H2 IH2|z b1 c m H2 IH2|y' b1 c m H2 IH2
                    |y' z b1 c m H2 IH2];
      intros E; try discriminate.
    + injection E as -> ->. destruct (IH c m H2) as [k [Hk Hc]].
      exists (S k). split; [lia|now constructor].
    + destruct (IH2 E) as [k [Hk Hc]].
      exists (S k). split; [lia|now constructor].
    + injection E as -> ->. destruct (IH c m H2) as [k [Hk Hc]].
      exists (S k). split; [lia|now apply align_replace].
    + injection E as -> ->. destruct (IH c m H2) as [k [Hk Hc]].
      exists (S k). split; [lia|now apply align_replace].
Qed.

Lemma list_ascii_of_string_inj (a b : string) :
  list_ascii_of_string a = list_ascii_of_string b -> a = b.
Proof.
  intros E. rewrite <- (string_of_list_ascii_of_string a),
    <- (string_of_list_ascii_of_string b). now rewrite E.
Qed.

Lemma length_list_ascii (a : string) :
  List.length (list_ascii_of_string a) = String.length a.
Proof. induction a; cbn; congruence. Qed.

(** The distance is the cost of an alignment of the two strings, and of a
    cheapest one. *)
Lemma levenshteinDistance_alignment (a b : string) :
  Alignment (list_ascii_of_string a) (list_ascii_of_string b)
    (levenshteinDistance a b).
Proof.
  rewrite levenshteinDistance_cell.
  rewrite <- (rev_involutive (list_ascii_of_string a)) at 1.
  rewrite <- (rev_involutive (list_ascii_of_string b)) at 1.
  apply alignment_rev, cell_alignment.
Qed.

Lemma levenshteinDistance_least (a b : string) (n : nat) :
  Alignment (list_ascii_of_string a) (list_ascii_of_string b) n ->
  (levenshteinDistance a b <= n)%nat.
Proof.
  intros H. rewrite levenshteinDistance_cell.
  apply alignment_cell, alignment_rev, H.
Qed.

Lemma levenshteinDistance_zero_iff (a b : string) :
  levenshteinDistance a b = 0%nat <-> a = b.
Proof.
  split.
  - intros E. apply list_ascii_of_string_inj.
    apply (alignment_zero _ _ _ (levenshteinDistance_alignment a b) E).
  - intros ->. apply Nat.le_0_r, levenshteinDistance_least, alignment_refl.
Qed.

Lemma levenshteinDistance_sym (a b : string) :
  levenshteinDistance a b = levenshteinDistance b a.
Proof.
  apply Nat.le_antisymm; apply levenshteinDistance_least, alignment_sym,
    levenshteinDistance_alignment.
Qed.

Lemma levenshteinDistance_le_max (a b : string) :
  (levenshteinDistance a b <= Nat.max (String.length a) (String.length b))%nat.
Proof.
  destruct (alignment_exists (list_ascii_of_string a) (list_ascii_of_string b))
    as [n [Hn Ha]].
  apply levenshteinDistance_least in Ha. rewrite !length_list_ascii in Hn. lia.
Qed.

End EditDistance.

(** X1. The number that [levenshteinDistance] returns is the cost of an
    alignment of its two strings (deletions, insertions and replacements
    of one character), and no alignment of them costs less: it is the
    edit distance. *)
Theorem levenshteinDistance_least_alignment :
  forall a b : string,
    Alignment (list_ascii_of_string a) (list_ascii_of_string b)
      (HiAnime.levenshteinDistance a b)
    /\ (forall n,
           Alignment (list_ascii_of_string a) (list_ascii_of_string b) n ->
           (HiAnime.levenshteinDistance a b <= n)%nat).
Proof.
  intros a b. split.
  - apply levenshteinDistance_alignment.
  - intros n. apply levenshteinDistance_least.
Qed.

(** X2. [levenshteinDistance] is a metric on strings: it is 0 exactly
    for equal strings, it is symmetric, and it obeys the triangle
    inequality. *)
Theorem levenshteinDistance_metric :
  forall a b c : string,
    (HiAnime.levenshteinDistance a b = 0%nat <-> a = b)
    /\ HiAnime.levenshteinDistance a b = HiAnime.levenshteinDistance b a
    /\ (HiAnime.levenshteinDistance a c
        <= HiAnime.levenshteinDistance a b + HiAnime.levenshteinDistance b c)%nat.
Proof.
  intros a b c. split; [|split].
  - apply levenshteinDistance_zero_iff.
  - apply levenshteinDistance_sym.
  - destruct (alignment_trans _ _ _ (levenshteinDistance_alignment a b) _ _
                (levenshteinDistance_alignment b c)) as [k [Hk Hc]].
    apply levenshteinDistance_least in Hc. lia.
Qed.

(** X3. [levenshteinDistance] is at most the length of the longer
    string, and at least the difference of the two lengths. *)
Theorem levenshteinDistance_bounds :
  forall a b : string,
    (HiAnime.levenshteinDistance a b
     <= Nat.max (String.length a) (String.length b))%nat
    /\ (String.length a <= String.length b + HiAnime.levenshteinDistance a b)%nat
    /\ (String.length b <= String.length a + HiAnime.levenshteinDistance a b)%nat.
Proof.
  intros a b. split.
  - apply levenshteinDistance_le_max.
  - pose proof (alignment_lengths _ _ _ (levenshteinDistance_alignment a b)) as H.
    rewrite !length_list_ascii in H. exact H.
Qed.

(** ** The range of the title scores *)

Section ScoreRange.
Import Js WordVariations.

Lemma good_unit (b : Q) : good b -> inUnit b.
Proof. intros H. split; [apply H|now apply good_le_one]. Qed.

Lemma Qmax_unit (x y : Q) : inUnit x -> inUnit y -> inUnit (Qmax x y).
Proof.
  intros Hx Hy. destruct (Qmax_cases x y) as [[-> _]|[-> _]]; assumption.
Qed.

Lemma ratio_unit (x : Q) (n : nat) :
  (0 <= x)%Q -> (x <= inject_Z (Z.of_nat n))%Q ->
  inUnit (x / inject_Z (Z.of_nat n)).
Proof.
  intros H0 Hn. destruct n as [|n].
  - change (inject_Z (Z.of_nat 0)) with 0%Q in Hn.
    assert (E : x == 0) by lra.
    unfold inUnit. rewrite E. unfold Qdiv. rewrite Qmult_0_l. lra.
  - assert (Hpos : (0 < inject_Z (Z.of_nat (S n)))%Q).
    { change 0%Q with (inject_Z 0). rewrite <- Zlt_Qlt. lia. }
    split.
    + apply Qle_shift_div_l; [assumption|]. lra.
    + apply Qle_shift_div_r; [assumption|]. lra.
Qed.

Lemma weighted_unit (w s : Q) :
  inUnit w -> inUnit s -> inUnit (w * (7 # 10) + s * (3 # 10)).
Proof. unfold inUnit. intros [? ?] [? ?]. split; lra. Qed.

(** The counters of the word loop: none is negative, and together they grow
    by at most one for every search word. *)
Lemma tally_range (bests : list Q) :
  Forall good bests ->
  let matches :=
    inject_Z (Z.of_nat (List.length (List.filter (fun b => Qeq_bool b 1) bests))) in
  let partialMatches :=
    sumQ (List.filter (fun b => negb (Qeq_bool b 1)) bests) in
  (0 <= matches)%Q /\ (0 <= partialMatches)%Q
  /\ (matches + partialMatches <= inject_Z (Z.of_nat (List.length bests)))%Q.
Proof.
  induction 1 as [|b bests Hb _ IH]; cbn zeta.
  - cbn [List.filter List.length sumQ fold_right].
    change (inject_Z (Z.of_nat 0)) with 0%Q. repeat split; lra.
  - cbn zeta in IH. destruct IH as [H1 [H2 H3]].
    cbn [List.filter List.length]. destruct (good_unit b Hb) as [Hb0 Hb1].
    destruct (Qeq_bool b 1) eqn:E; cbn [negb List.length sumQ fold_right];
      fold (sumQ (List.filter (fun b => negb (Qeq_bool b 1)) bests));
      rewrite !Nat2Z.inj_succ; unfold Z.succ; rewrite !inject_Z_plus;
      change (inject_Z 1) with 1%Q;
      set (u := inject_Z (Z.of_nat (List.length (List.filter _ bests)))) in *;
      set (v := sumQ _) in *;
      set (w := inject_Z (Z.of_nat (List.length bests))) in *;
      clearbody u v w; repeat split; lra.
Qed.

Lemma wordScoreSpec_unit (searchVariations titleVariations : list (list string)) :
  inUnit (wordScoreSpec searchVariations titleVariations).
Proof.
  unfold wordScoreSpec.
  set (bests := map (fun searchVars => bestWordMatchSpec searchVars titleVariations)
                  searchVariations).
  assert (Hgood : Forall good bests).
  { apply List.Forall_forall. intros b Hb. apply in_map_iff in Hb.
    destruct Hb as [sv [<- _]]. apply bestWordMatchSpec_good. }
  destruct (tally_range bests Hgood) as [H1 [H2 H3]].
  replace (List.length searchVariations) with (List.length bests)
    by (unfold bests; apply length_map).
  apply ratio_unit; lra.
Qed.

Lemma wordMatchScore_unit (searchVariations titleVariations : list (list string)) :
  inUnit (wordMatchScore searchVariations titleVariations).
Proof.
  destruct (wordScoreSpec_unit searchVariations titleVariations) as [H0 H1].
  pose proof (wordMatchScore_spec searchVariations titleVariations) as E.
  split; rewrite E; assumption.
Qed.

Lemma calculateTitleScore_unit (stringSimilarity : string -> string -> Q)
    (searchTitle hianimeTitle : string) (cache : gmap string (list string)) :
  (forall a b, inUnit (stringSimilarity a b)) ->
  inUnit (fst (HiAnime.calculateTitleScore stringSimilarity searchTitle
               hianimeTitle cache)).
Proof.
  intros Hsim. unfold HiAnime.calculateTitleScore.
  destruct (String.eqb _ _); [split; cbn [fst]; lra|].
  destruct (_ && _); [split; cbn [fst]; lra|].
  destruct (HiAnime.mapVariations _ cache) as [searchVariations cache1].
  destruct (HiAnime.mapVariations _ cache1) as [titleVariations cache2].
  cbn [fst]. apply weighted_unit; [apply wordMatchScore_unit|apply Hsim].
Qed.

(** The word loop of AnimeSama. *)
Lemma matchSearchVars_good (searchVars titleVars : list string) (b : Q) :
  good b -> good (matchSearchVars searchVars titleVars b).
Proof.
  intros Hb. rewrite matchSearchVars_max by assumption.
  apply fold_Qmax_good; [assumption|apply pairScores_word_good].
Qed.

Lemma matchTargetWords_good (searchVariations : list string)
    (targetWords : list string) :
  forall b cache, good b ->
    good (fst (AnimeSama.matchTargetWords searchVariations targetWords b cache)).
Proof.
  induction targetWords as [|w ws IH]; intros b cache Hb; [exact Hb|].
  cbn [AnimeSama.matchTargetWords].
  destruct (AnimeSama.getWordVariations w cache) as [targetVariations cache1].
  pose proof (matchSearchVars_good searchVariations targetVariations b Hb) as Hg.
  destruct (Qeq_bool _ 1); [exact Hg|]. now apply IH.
Qed.

Lemma countWordMatches_range (targetWords : list string) (searchWords : list string) :
  forall (matches partialMatches : Q) (cache : gmap string (list string)),
    (0 <= matches)%Q -> (0 <= partialMatches)%Q ->
    let counted :=
      fst (AnimeSama.countWordMatches searchWords targetWords matches
             partialMatches cache) in
    (0 <= fst counted)%Q /\ (0 <= snd counted)%Q
    /\ (fst counted + snd counted
        <= matches + partialMatches
           + inject_Z (Z.of_nat (List.length searchWords)))%Q.
Proof.
  induction searchWords as [|w ws IH]; intros m p cache Hm Hp; cbn zeta.
  - cbn [AnimeSama.countWordMatches fst snd List.length].
    change (inject_Z (Z.of_nat 0)) with 0%Q. repeat split; lra.
  - cbn [AnimeSama.countWordMatches].
    destruct (AnimeSama.getWordVariations w cache) as [searchVariations cache1].
    pose proof (matchTargetWords_good searchVariations targetWords 0 cache1
                  good_zero) as Hg.
    destruct (AnimeSama.matchTargetWords searchVariations targetWords 0 cache1)
      as [bestMatch cache2].
    cbn [fst] in Hg. destruct (good_unit _ Hg) as [Hb0 Hb1].
    cbn [List.length]. rewrite Nat2Z.inj_succ. unfold Z.succ.
    rewrite inject_Z_plus. change (inject_Z 1) with 1%Q.
    set (len := inject_Z (Z.of_nat (List.length ws))) in *. clearbody len.
    destruct (Qeq_bool bestMatch 1).
    + specialize (IH (m + 1)%Q p cache2). cbn zeta in IH.
      destruct IH as [H1 [H2 H3]]; [lra|lra|]. repeat split; lra.
    + destruct (Qlt_le_dec 0 bestMatch).
      * specialize (IH m (p + bestMatch)%Q cache2). cbn zeta in IH.
        destruct IH as [H1 [H2 H3]]; [lra|lra|]. repeat split; lra.
      * specialize (IH m p cache2). cbn zeta in IH.
        destruct IH as [H1 [H2 H3]]; [lra|lra|]. repeat split; lra.
Qed.

Lemma calculateWordMatchScore_unit (searchWords targetWords : list string)
    (cache : gmap string (list string)) :
  inUnit (fst (AnimeSama.calculateWordMatchScore searchWords targetWords cache)).
Proof.
  unfold AnimeSama.calculateWordMatchScore.
  pose proof (countWordMatches_range targetWords searchWords 0 0 cache) as H.
  cbn zeta in H.
  destruct (AnimeSama.countWordMatches searchWords targetWords 0 0 cache)
    as [[matches partialMatches] cache1].
  cbn [fst snd] in *. destruct H as [H1 [H2 H3]]; [lra|lra|].
  apply ratio_unit; lra.
Qed.

Lemma subtitleScores_unit (searchWords : list string) (subtitleTitles : list string) :
  forall acc : Q * gmap string (list string),
    inUnit (fst acc) ->
    inUnit
      (fst
         (fold_left
            (fun acc subtitleTitle =>
               let '(subtitleScore, cache) :=
                 AnimeSama.calculateWordMatchScore searchWords
                   (split " " subtitleTitle) (snd acc) in
               (Qmax (fst acc) subtitleScore, cache))
            subtitleTitles acc)).
Proof.
  induction subtitleTitles as [|t ts IH]; intros acc Hacc; [exact Hacc|].
  cbn [fold_left]. apply IH.
  pose proof (calculateWordMatchScore_unit searchWords (split " " t) (snd acc)) as H.
  destruct (AnimeSama.calculateWordMatchScore searchWords (split " " t) (snd acc)).
  cbn [fst] in *. now apply Qmax_unit.
Qed.

Lemma subtitleSimilarity_unit (stringSimilarity : string -> string -> Q)
    (baseSearch : string) (subtitleTitles : list string) :
  (forall a b, inUnit (stringSimilarity a b)) ->
  forall acc, inUnit acc ->
    inUnit
      (fold_left
         (fun acc subtitleTitle =>
            Qmax acc (stringSimilarity baseSearch subtitleTitle))
         subtitleTitles acc).
Proof.
  intros Hsim. induction subtitleTitles as [|t ts IH]; intros acc Hacc;
    [exact Hacc|].
  cbn [fold_left]. apply IH. now apply Qmax_unit.
Qed.

Lemma unit_zero : inUnit 0.
Proof. split; lra. Qed.

Lemma sama_calculateTitleScore_unit (stringSimilarity : string -> string -> Q)
    (searchTitle animesamaTitle : string) (animesamaSubtitle : option string)
    (cache : gmap string (list string)) :
  (forall a b, inUnit (stringSimilarity a b)) ->
  inUnit (fst (AnimeSama.calculateTitleScore stringSimilarity searchTitle
               animesamaTitle animesamaSubtitle cache)).
Proof.
  intros Hsim. unfold AnimeSama.calculateTitleScore.
  destruct (String.eqb _ _); [split; cbn [fst]; lra|].
  destruct (existsb _ _); [split; cbn [fst]; lra|].
  destruct (String.eqb _ _); [split; cbn [fst]; lra|].
  destruct (existsb _ _); [split; cbn [fst]; lra|].
  set (subtitleTitles := match animesamaSubtitle with Some _ => _ | None => _ end).
  pose proof (calculateWordMatchScore_unit
                (split " " (AnimeSama.normalizeText searchTitle true))
                (split " " (AnimeSama.normalizeText animesamaTitle true)) cache)
    as Htitle.
  destruct (AnimeSama.calculateWordMatchScore _ _ cache) as [titleScore cache1].
  cbn [fst] in Htitle.
  pose proof (subtitleScores_unit
                (split " " (AnimeSama.normalizeText searchTitle true))
                subtitleTitles (Qmax 0 titleScore, cache1)
                (Qmax_unit _ _ unit_zero Htitle)) as Hbest.
  destruct (fold_left _ subtitleTitles (Qmax 0 titleScore, cache1))
    as [bestScore cache2].
  cbn [fst] in *. apply weighted_unit; [assumption|].
  apply Qmax_unit; [apply Hsim|].
  apply subtitleSimilarity_unit; [assumption|apply unit_zero].
Qed.

End ScoreRange.

Section Dice.
Import Js Similarity.

Lemma takeOne_length (x : ascii * ascii) (pool rest : list (ascii * ascii)) :
  takeOne x pool = Some rest -> List.length pool = S (List.length rest).
Proof.
  revert rest. induction pool as [|y pool IH]; intros rest; cbn [takeOne];
    [discriminate|].
  destruct (bigramEqb x y); [now intros [= <-]|].
  destruct (takeOne x pool) as [rest'|]; [|discriminate].
  intros [= <-]. cbn [List.length]. now rewrite (IH rest').
Qed.

Lemma countShared_le (xs : list (ascii * ascii)) :
  forall pool,
    (countShared xs pool <= List.length xs)%nat
    /\ (countShared xs pool <= List.length pool)%nat.
Proof.
  induction xs as [|x xs IH]; intros pool; cbn [countShared List.length];
    [lia|].
  destruct (takeOne x pool) as [pool'|] eqn:E.
  - apply takeOne_length in E. destruct (IH pool'). lia.
  - destruct (IH pool). lia.
Qed.

Lemma bigrams_length (s : string) :
  List.length (bigrams s) = (String.length s - 1)%nat.
Proof.
  induction s as [|a s IH]; [reflexivity|].
  destruct s as [|b s]; [reflexivity|].
  change (bigrams (String a (String b s))) with ((a, b) :: bigrams (String b s)).
  cbn [List.length]. rewrite IH. cbn [String.length]. lia.
Qed.

Lemma dice_unit (str1 str2 : string) : inUnit (dice str1 str2).
Proof.
  unfold dice.
  set (a := toLowerCase str1). set (b := toLowerCase str2).
  destruct (String.length a <? 2)%nat eqn:Ea; [apply unit_zero|].
  destruct (String.length b <? 2)%nat eqn:Eb; [apply unit_zero|].
  cbn [orb]. apply Nat.ltb_ge in Ea, Eb.
  destruct (countShared_le (bigrams b) (bigrams a)) as [H1 H2].
  rewrite !bigrams_length in *.
  replace (Z.of_nat (countShared (bigrams b) (bigrams a)) * 2)%Z
    with (Z.of_nat (countShared (bigrams b) (bigrams a) * 2)) by lia.
  apply ratio_unit.
  - change 0%Q with (inject_Z 0). rewrite <- Zle_Qle. lia.
  - rewrite <- Zle_Qle. lia.
Qed.

End Dice.

(** X4. When the string similarity of the package answers numbers of
    [0,1], the title score of the HiAnime provider lies in [0,1], for every
    pair of titles and every state of the cache of word variations. *)
Theorem hianime_calculateTitleScore_in_unit_interval :
  forall (stringSimilarity : string -> string -> Q)
         (searchTitle hianimeTitle : string) (cache : gmap string (list string)),
    (forall a b, inUnit (stringSimilarity a b)) ->
    inUnit (fst (HiAnime.calculateTitleScore stringSimilarity searchTitle
                 hianimeTitle cache)).
Proof.
  intros sim searchTitle hianimeTitle cache. apply calculateTitleScore_unit.
Qed.

Lemma hianime_calculateTitleScore_in_unit_interval_witness :
  inUnit (fst (HiAnime.calculateTitleScore Similarity.dice "Attack on Titan"
               "Attack on Titans" ∅)).
Proof.
  apply (hianime_calculateTitleScore_in_unit_interval Similarity.dice
           "Attack on Titan" "Attack on Titans" ∅).
  exact dice_unit.
Defined.

(** X5. When the string similarity of the package answers numbers of
    [0,1], the title score of the AnimeSama provider lies in [0,1], for
    every pair of titles, every subtitle and every state of the cache. *)
Theorem animesama_calculateTitleScore_in_unit_interval :
  forall (stringSimilarity : string -> string -> Q)
         (searchTitle animesamaTitle : string)
         (animesamaSubtitle : option string)
         (cache : gmap string (list string)),
    (forall a b, inUnit (stringSimilarity a b)) ->
    inUnit (fst (AnimeSama.calculateTitleScore stringSimilarity searchTitle
                 animesamaTitle animesamaSubtitle cache)).
Proof.
  intros sim searchTitle animesamaTitle animesamaSubtitle cache.
  apply sama_calculateTitleScore_unit.
Qed.

Lemma animesama_calculateTitleScore_in_unit_interval_witness :
  inUnit (fst (AnimeSama.calculateTitleScore Similarity.dice "Attack on Titan"
               "Shingeki no Kyojin" (Some "Attack on Titan, AoT") ∅)).
Proof.
  apply (animesama_calculateTitleScore_in_unit_interval Similarity.dice
           "Attack on Titan" "Shingeki no Kyojin"
           (Some "Attack on Titan, AoT") ∅).
  exact dice_unit.
Defined.

(** ** Retrying a request *)

Section RetryLoop.
Import Retry.
Context {E A : Type}.
Variable fetchFn : nat -> E + A.
Variable afterLoop : option (E + A).

Lemma backoff_step (i : nat) :
  (backoffBefore i + 2 ^ Z.of_nat i * 1000 = backoffBefore (S i))%Z.
Proof.
  unfold backoffBefore. rewrite Nat2Z.inj_succ, Z.pow_succ_r by lia. lia.
Qed.

Lemma attempts_retried (last : nat) :
  forall remaining i,
    (i + remaining = S last)%nat -> (0 < remaining)%nat ->
    allFailBefore fetchFn i ->
    retried fetchFn (S last) afterLoop
      (attempts fetchFn (S last) afterLoop remaining i (backoffBefore i)).
Proof.
  induction remaining as [|remaining IH]; intros i Hsum Hpos Hfail; [lia|].
  cbn [attempts retried].
  destruct (fetchFn i) as [error|value] eqn:Hi.
  - destruct (Nat.eqb_spec i (S last - 1)) as [Hlast|Hmore].
    + exists i. cbn [calls slept outcome]. rewrite Hi.
      repeat split; try assumption; lia.
    + rewrite backoff_step. apply IH; [lia|lia|].
      intros j Hj. destruct (Nat.eq_dec j i) as [->|Hne].
      * now exists error.
      * apply Hfail. lia.
  - exists i. cbn [calls slept outcome]. rewrite Hi.
    repeat split; try assumption; lia.
Qed.

Lemma attempts_all (maxRetries : nat) :
  retried fetchFn maxRetries afterLoop
    (attempts fetchFn maxRetries afterLoop maxRetries 0 0).
Proof.
  destruct maxRetries as [|last]; [reflexivity|].
  change 0%Z with (backoffBefore 0).
  apply attempts_retried; [lia|lia|]. intros j Hj. lia.
Qed.

End RetryLoop.

(** X6. [fetchWithRetry] of both providers calls [fetchFn] until a
    call succeeds and returns its value; when [maxRetries] calls fail it
    throws the error of the last one.  Before call number k it has slept
    (2^k - 1) seconds in all, so at most 3 seconds with the default of 3
    calls.  With [maxRetries] 0 nothing is called: the HiAnime version
    returns undefined and the AnimeSama version throws
    'Max retries exceeded'. *)
Theorem fetchWithRetry_first_success_or_last_error :
  forall (E A : Type) (fetchFn : nat -> E + A) (fetchFnSama : nat -> string + A)
         (maxRetries : nat),
    retried fetchFn maxRetries None (Retry.fetchWithRetry fetchFn maxRetries)
    /\ retried fetchFnSama maxRetries (Some (inl "Max retries exceeded"))
         (Retry.fetchWithRetrySama fetchFnSama maxRetries)
    /\ (Retry.slept (Retry.fetchWithRetry fetchFn Retry.MAX_RETRIES) <= 3000)%Z.
Proof.
  intros E A fetchFn fetchFnSama maxRetries. split; [|split].
  - apply attempts_all.
  - apply attempts_all.
  - pose proof (attempts_all fetchFn None Retry.MAX_RETRIES) as H.
    cbn [retried Retry.MAX_RETRIES] in H.
    destruct H as [k [_ [Hk [_ [Hs _]]]]].
    unfold Retry.fetchWithRetry. rewrite Hs. unfold backoffBefore.
    assert (Hpow : (2 ^ Z.of_nat k <= 2 ^ 2)%Z)
      by (apply Z.pow_le_mono_r; lia).
    lia.
Qed.

(** ** Slugs of the AnimeSama catalogue *)

Section Slugs.
Import Js SamaSlug.

Lemma AllChars_squeeze (P : ascii -> Prop) (p : ascii -> bool) (r : ascii)
    (s : string) :
  P r -> AllChars P s -> forall inRun, AllChars P (squeeze p r inRun s).
Proof.
  intros Hr. induction s as [|c s IH]; intros Hs inRun; [exact I|].
  destruct Hs as [Hc Hs]. cbn [squeeze].
  destruct (p c); [destruct inRun|]; cbn [AllChars]; auto.
Qed.

Lemma squeeze_removes (p : ascii -> bool) (r : ascii) (s : string) :
  p r = false ->
  forall inRun, AllChars (fun c => p c = false) (squeeze p r inRun s).
Proof.
  intros Hr. induction s as [|c s IH]; intros inRun; [exact I|].
  cbn [squeeze]. destruct (p c) eqn:E; [destruct inRun|]; cbn [AllChars]; auto.
Qed.

Lemma squeeze_apart (p : ascii -> bool) (r : ascii) (s : string) :
  p r = true -> forall inRun, apart p inRun (squeeze p r inRun s).
Proof.
  intros Hr. induction s as [|c s IH]; intros inRun; [exact I|].
  cbn [squeeze]. destruct (p c) eqn:E.
  - destruct inRun; [apply IH|]. cbn [apart]. rewrite Hr. auto.
  - cbn [apart]. rewrite E. apply IH.
Qed.

Lemma squeeze_fixed_outside (p : ascii -> bool) (r : ascii) (s : string) :
  AllChars (fun c => p c = false) s ->
  forall inRun, squeeze p r inRun s = s.
Proof.
  induction s as [|c s IH]; intros Hs inRun; [reflexivity|].
  destruct Hs as [Hc Hs]. cbn [squeeze]. rewrite Hc. f_equal. auto.
Qed.

Lemma squeeze_fixed_apart (p : ascii -> bool) (r : ascii) (s : string) :
  (forall c, p c = true -> c = r) ->
  forall inRun, apart p inRun s -> squeeze p r inRun s = s.
Proof.
  intros Hp. induction s as [|c s IH]; intros inRun Hs; [reflexivity|].
  cbn [squeeze apart] in *. destruct (p c) eqn:E.
  - destruct Hs as [-> Hs]. rewrite (Hp c E). f_equal. auto.
  - f_equal. auto.
Qed.

Lemma apart_weaken (p : ascii -> bool) (s : string) (prev : bool) :
  apart p prev s -> apart p false s.
Proof.
  destruct s as [|c s]; [auto|]. cbn [apart]. destruct (p c); [|auto].
  intros [_ H]. auto.
Qed.

Lemma AllChars_dropWhile (P : ascii -> Prop) (p : ascii -> bool) (s : string) :
  AllChars P s -> AllChars P (dropWhile p s).
Proof.
  induction s as [|c s IH]; intros Hs; [exact I|].
  cbn [dropWhile]. destruct (p c); [apply IH, Hs|exact Hs].
Qed.

Lemma dropWhile_apart (p : ascii -> bool) (s : string) :
  forall prev, apart p prev s -> apart p true (dropWhile p s).
Proof.
  induction s as [|c s IH]; intros prev Hs; [exact I|].
  cbn [dropWhile]. cbn [apart] in Hs. destruct (p c) eqn:E.
  - destruct Hs as [_ Hs]. eapply IH, Hs.
  - cbn [apart]. rewrite E. exact Hs.
Qed.

Lemma dropWhile_fixed (p : ascii -> bool) (s : string) :
  apart p true s -> dropWhile p s = s.
Proof.
  destruct s as [|c s]; [reflexivity|]. cbn [apart dropWhile].
  destruct (p c); [|reflexivity]. intros [H _]. discriminate.
Qed.

Lemma AllChars_dropEndWhile (P : ascii -> Prop) (p : ascii -> bool) (s : string) :
  AllChars P s -> AllChars P (dropEndWhile p s).
Proof.
  induction s as [|c s IH]; intros Hs; [exact I|].
  destruct Hs as [Hc Hs]. cbn [dropEndWhile]. specialize (IH Hs).
  destruct (dropEndWhile p s); [destruct (p c)|]; cbn [AllChars]; auto.
Qed.

Lemma dropEndWhile_apart (p : ascii -> bool) (s : string) :
  forall prev, apart p prev s -> apart p prev (dropEndWhile p s).
Proof.
  induction s as [|c s IH]; intros prev Hs; [exact I|].
  cbn [dropEndWhile]. cbn [apart] in Hs.
  destruct (p c) eqn:E.
  - destruct Hs as [-> Hs]. specialize (IH true Hs).
    destruct (dropEndWhile p s); [exact I|]. cbn [apart] in *. rewrite E. auto.
  - specialize (IH false Hs).
    destruct (dropEndWhile p s); cbn [apart] in *; rewrite E; auto.
Qed.

Lemma dropEndWhile_endsOutside (p : ascii -> bool) (s : string) :
  endsOutside p (dropEndWhile p s).
Proof.
  induction s as [|c s IH]; [exact I|]. cbn [dropEndWhile].
  destruct (dropEndWhile p s) as [|d t] eqn:E.
  - destruct (p c) eqn:Ec; [exact I|exact Ec].
  - exact IH.
Qed.

Lemma dropEndWhile_fixed (p : ascii -> bool) (s : string) :
  endsOutside p s -> dropEndWhile p s = s.
Proof.
  induction s as [|c s IH]; intros Hs; [reflexivity|].
  cbn [dropEndWhile]. destruct s as [|d t].
  - cbn in *. now rewrite Hs.
  - rewrite IH by exact Hs. reflexivity.
Qed.

Lemma trimEnd_fixed_outside (s : string) :
  AllChars (fun c => isSpace c = false) s -> trimEnd s = s.
Proof.
  induction s as [|c s IH]; intros Hs; [reflexivity|].
  destruct Hs as [Hc Hs]. cbn [trimEnd]. rewrite (IH Hs).
  destruct s; [now rewrite Hc|reflexivity].
Qed.

Lemma trim_fixed_outside (s : string) :
  AllChars (fun c => isSpace c = false) s -> trim s = s.
Proof.
  intros Hs. unfold trim.
  assert (E : trimStart s = s).
  { destruct s as [|c s]; [reflexivity|]. cbn. now rewrite (proj1 Hs). }
  rewrite E. now apply trimEnd_fixed_outside.
Qed.

Lemma append_nil_l (t : string) : (EmptyString ++ t)%string = t.
Proof. reflexivity. Qed.

Lemma append_cons (c : ascii) (u t : string) :
  (String c u ++ t)%string = String c (u ++ t)%string.
Proof. reflexivity. Qed.

Lemma append_assoc (u v w : string) :
  ((u ++ v) ++ w)%string = (u ++ (v ++ w))%string.
Proof. induction u as [|c u IH]; [reflexivity|]. rewrite !append_cons. now f_equal. Qed.

Lemma append_last_inj (c d : ascii) (u : string) :
  forall w,
    (u ++ String c EmptyString)%string = (w ++ String d EmptyString)%string ->
    c = d.
Proof.
  induction u as [|a u IH]; intros [|b w]; rewrite ?append_nil_l, ?append_cons;
    intros H.
  - congruence.
  - injection H as _ H. destruct w; discriminate.
  - injection H as _ H. destruct u; discriminate.
  - injection H as _ H. exact (IH w H).
Qed.

(** The three readable facts from the two shapes. *)
Lemma apart_no_head (p : ascii -> bool) (c : ascii) (t : string) :
  p c = true -> ~ apart p true (String c t).
Proof. intros Hc. cbn [apart]. rewrite Hc. intros [H _]. discriminate. Qed.

Lemma apart_no_pair (p : ascii -> bool) (c : ascii) (u v : string) :
  p c = true ->
  forall prev, ~ apart p prev (u ++ String c (String c v))%string.
Proof.
  intros Hc. induction u as [|d u IH]; intros prev H.
  - rewrite append_nil_l in H. cbn [apart] in H. rewrite Hc in H.
    destruct H as [_ [H _]]. discriminate.
  - rewrite append_cons in H. cbn [apart] in H. destruct (p d).
    + destruct H as [_ H]. exact (IH _ H).
    + exact (IH _ H).
Qed.

Lemma endsOutside_no_last (p : ascii -> bool) (c : ascii) (t : string) :
  p c = true -> ~ endsOutside p (t ++ String c EmptyString)%string.
Proof.
  intros Hc. induction t as [|d t IH]; intros H.
  - rewrite append_nil_l in H. cbn [endsOutside] in H. congruence.
  - rewrite append_cons in H. cbn [endsOutside] in H.
    destruct (t ++ String c EmptyString)%string eqn:E.
    + destruct t; discriminate.
    + exact (IH H).
Qed.

Lemma shaped_intro (s : string) :
  AllChars slugChar s -> apart isDash true s -> endsOutside isDash s ->
  slugShaped s.
Proof.
  intros Hc Ha He. split; [exact Hc|]. split; [|split].
  - intros t ->. exact (apart_no_head isDash "-" t eq_refl Ha).
  - intros t ->. exact (endsOutside_no_last isDash "-" t eq_refl He).
  - intros u v ->. exact (apart_no_pair isDash "-" u v eq_refl true Ha).
Qed.

Lemma shaped_elim (s : string) :
  slugShaped s -> apart isDash true s /\ endsOutside isDash s.
Proof.
  intros [_ [Hhead [Hlast Hpair]]]. split.
  - assert (G : forall u t prev, s = (u ++ t)%string ->
                 (prev = true -> u = EmptyString
                  \/ exists w, u = (w ++ "-")%string) ->
                 (prev = false -> forall w, u <> (w ++ "-")%string) ->
                 apart isDash prev t).
    { intros u t. revert u. induction t as [|c t IH]; intros u prev Hs Hp Hn;
        [exact I|].
      cbn [apart]. destruct (isDash c) eqn:Ec.
      - apply Ascii.eqb_eq in Ec. subst c. split.
        + destruct prev; [|reflexivity]. exfalso.
          destruct (Hp eq_refl) as [->|[w ->]].
          * exact (Hhead t Hs).
          * apply (Hpair w t). rewrite Hs, append_assoc. reflexivity.
        + apply (IH (u ++ "-")%string true).
          * rewrite Hs, append_assoc. reflexivity.
          * intros _. right. now exists u.
          * discriminate.
      - apply (IH (u ++ String c EmptyString)%string false).
        + rewrite Hs, append_assoc. reflexivity.
        + discriminate.
        + intros _ w Hw.
          assert (Hc : c = "-"%char) by exact (append_last_inj _ _ u w Hw).
          subst c. discriminate. }
    apply (G EmptyString s true); [reflexivity|now left|discriminate].
  - clear Hhead Hpair. induction s as [|c s IH]; [exact I|].
    cbn [endsOutside]. destruct s as [|d s].
    + destruct (isDash c) eqn:Ec; [|reflexivity].
      apply Ascii.eqb_eq in Ec. subst c. exfalso.
      exact (Hlast EmptyString eq_refl).
    + apply IH. intros t Ht. apply (Hlast (String c t)). cbn. now rewrite Ht.
Qed.

Lemma notUpper_lowerChar (c : ascii) : isUpper (lowerChar c) = false.
Proof.
  destruct c as [[] [] [] [] [] [] [] []]; reflexivity.
Qed.

Lemma toLowerCase_notUpper (s : string) :
  AllChars (fun c => isUpper c = false) (toLowerCase s).
Proof.
  induction s as [|c s IH]; [exact I|]. split; [apply notUpper_lowerChar|exact IH].
Qed.

Lemma kept_slugChar (c : ascii) :
  isUpper c = false -> negb (isWord c || isSpace c || isDash c) = false ->
  isSpace c = true \/ slugChar c.
Proof.
  unfold slugChar, isWord. intros Hu Hk.
  destruct (isSpace c); [now left|right].
  destruct (isDigit c), (isLower c), (code c =? 95)%N, (isDash c);
    rewrite ?Hu in Hk; cbn in *; try reflexivity; discriminate.
Qed.

Lemma space_not_slugChar (c : ascii) : slugChar c -> isSpace c = false.
Proof.
  unfold slugChar. destruct c as [[] [] [] [] [] [] [] []]; cbn;
    intros H; try reflexivity; discriminate.
Qed.

Lemma hyphenate_shaped (s : string) :
  AllChars (fun c => isUpper c = false) s -> slugShaped (hyphenate s).
Proof.
  intros Hup. unfold hyphenate.
  set (kept := replaceAll _ EmptyString s).
  assert (Hkept : AllChars (fun c => isSpace c = true \/ slugChar c) kept).
  { assert (H1 : AllChars (fun c => isUpper c = false) kept)
      by (apply AllChars_replaceAll; [exact I|exact Hup]).
    pose proof (replaceAll_removes
                  (fun c => negb (isWord c || isSpace c || isDash c)) s) as H2.
    fold kept in H2. clearbody kept. clear - H1 H2.
    induction kept as [|c k IH]; [exact I|].
    destruct H1 as [Hc1 H1], H2 as [Hc2 H2].
    split; [now apply kept_slugChar|auto]. }
  set (hy := squeeze isSpace "-" false kept).
  assert (Hhy : AllChars slugChar hy).
  { assert (H1 : AllChars (fun c => isSpace c = true \/ slugChar c) hy)
      by (apply AllChars_squeeze; [now right|exact Hkept]).
    pose proof (squeeze_removes isSpace "-" kept eq_refl false) as H2.
    fold hy in H2. clearbody hy. clear - H1 H2.
    induction hy as [|c k IH]; [exact I|].
    destruct H1 as [[Hc1|Hc1] H1], H2 as [Hc2 H2]; [congruence|].
    split; auto. }
  set (single := squeeze isDash "-" false hy).
  set (core := dropEndWhile isDash (dropWhile isDash single)).
  assert (Hcore : AllChars slugChar core).
  { apply AllChars_dropEndWhile, AllChars_dropWhile, AllChars_squeeze;
      [reflexivity|exact Hhy]. }
  rewrite trim_fixed_outside.
  - apply shaped_intro; [exact Hcore| |].
    + apply dropEndWhile_apart. eapply dropWhile_apart.
      apply (squeeze_apart isDash "-" hy eq_refl false).
    + apply dropEndWhile_endsOutside.
  - eapply AllChars_impl; [|exact Hcore]. apply space_not_slugChar.
Qed.

Lemma generateAnimeSamaSlug_shaped (title : string) :
  slugShaped (generateAnimeSamaSlug title).
Proof.
  unfold generateAnimeSamaSlug. apply hyphenate_shaped.
  repeat (apply AllChars_replaceAll; [cbn; tauto|]).
  apply toLowerCase_notUpper.
Qed.

Lemma slugChar_facts (c : ascii) :
  slugChar c ->
  stableChar c
  /\ Ascii.eqb c "&"%char = false
  /\ Ascii.eqb c "'"%char = false
  /\ (Ascii.eqb c "/"%char || Ascii.eqb c ":"%char) = false
  /\ negb (isWord c || isSpace c || isDash c) = false
  /\ isSpace c = false.
Proof.
  unfold slugChar, stableChar.
  destruct c as [[] [] [] [] [] [] [] []]; cbn; intros H;
    try discriminate; repeat split; reflexivity.
Qed.

Lemma generateAnimeSamaSlug_fixed (s : string) :
  slugShaped s -> generateAnimeSamaSlug s = s.
Proof.
  intros Hs. destruct (shaped_elim s Hs) as [Ha He].
  destruct Hs as [Hc _].
  assert (F : forall (R : ascii -> Prop),
             (forall c, slugChar c -> R c) -> AllChars R s)
    by (intros R HR; eapply AllChars_impl; [exact HR|exact Hc]).
  unfold generateAnimeSamaSlug, hyphenate.
  rewrite (stable_lowercase s) by (apply F; intros c H; apply slugChar_facts, H).
  rewrite (replaceAll_fixed _ "and" s)
    by (apply F; intros c H; apply slugChar_facts, H).
  rewrite (replaceAll_fixed _ EmptyString s)
    by (apply F; intros c H; apply slugChar_facts, H).
  rewrite (replaceAll_fixed _ "-" s)
    by (apply F; intros c H; apply slugChar_facts, H).
  rewrite (replaceAll_fixed _ EmptyString s)
    by (apply F; intros c H; apply slugChar_facts, H).
  rewrite (squeeze_fixed_outside isSpace "-" s)
    by (apply F; intros c H; apply slugChar_facts, H).
  rewrite (squeeze_fixed_apart isDash "-" s)
    by (first [intros c H; now apply Ascii.eqb_eq in H
              |eapply apart_weaken, Ha]).
  rewrite (dropWhile_fixed isDash s Ha).
  rewrite (dropEndWhile_fixed isDash s He).
  apply trim_fixed_outside. apply F. intros c H. apply slugChar_facts, H.
Qed.

Lemma setAdd_In (x y : string) (l : list string) :
  In x (WordVariations.setAdd y l) -> x = y \/ In x l.
Proof.
  unfold WordVariations.setAdd. destruct (existsb _ l); [now right|].
  intros H. apply in_app_or in H. destruct H as [H|[H|[]]]; auto.
Qed.

Lemma generateSlugVariations_shaped (title slug : string) :
  In slug (generateSlugVariations title) -> slugShaped slug.
Proof.
  unfold generateSlugVariations.
  set (compact := hyphenate _).
  assert (Hcompact : slugShaped compact).
  { apply hyphenate_shaped, AllChars_replaceAll; [exact I|].
    apply toLowerCase_notUpper. }
  assert (H1 : forall x,
             In x (WordVariations.setAdd (generateAnimeSamaSlug title) []) ->
             slugShaped x).
  { intros x Hx. apply setAdd_In in Hx. destruct Hx as [->|[]].
    apply generateAnimeSamaSlug_shaped. }
  assert (H2 : forall x,
             In x (if nonEmpty compact
                   then WordVariations.setAdd compact
                          (WordVariations.setAdd (generateAnimeSamaSlug title) [])
                   else WordVariations.setAdd (generateAnimeSamaSlug title) []) ->
             slugShaped x).
  { intros x Hx. destruct (nonEmpty compact); [|auto].
    apply setAdd_In in Hx. destruct Hx as [->|Hx]; auto. }
  destruct (_ || _); [|apply H1].
  destruct (_ && _); [|apply H2].
  destruct (nonEmpty (generateAnimeSamaSlug _)); [|apply H2].
  intros Hx. apply setAdd_In in Hx. destruct Hx as [->|Hx]; [|auto].
  apply generateAnimeSamaSlug_shaped.
Qed.

End Slugs.

(** X7. [generateAnimeSamaSlug] always answers a slug: lowercase
    letters, digits, underscores and hyphens, no hyphen at either end and
    no two hyphens in a row.  The slugs are exactly the strings that it
    leaves as they are, so that it is idempotent. *)
Theorem generateAnimeSamaSlug_is_canonical :
  forall title : string,
    slugShaped (SamaSlug.generateAnimeSamaSlug title)
    /\ (slugShaped title <-> SamaSlug.generateAnimeSamaSlug title = title).
Proof.
  intros title. split; [apply generateAnimeSamaSlug_shaped|]. split.
  - apply generateAnimeSamaSlug_fixed.
  - intros E. rewrite <- E. apply generateAnimeSamaSlug_shaped.
Qed.

Lemma find_first {A : Type} (f : A -> bool) (l : list A) :
  match List.find f l with
  | Some x =>
      exists tried rest,
        l = tried ++ x :: rest
        /\ (forall s, In s tried -> f s = false) /\ f x = true
  | None => forall s, In s l -> f s = false
  end.
Proof.
  induction l as [|y l IH]; cbn [List.find].
  - intros s [].
  - destruct (f y) eqn:Ey.
    + exists [], l. split; [reflexivity|]. split; [intros s []|exact Ey].
    + destruct (List.find f l) as [x|].
      * destruct IH as [tried [rest [-> [Ht Hx]]]].
        exists (y :: tried), rest. split; [reflexivity|]. split; [|exact Hx].
        intros s [<-|Hs]; auto.
      * intros s [<-|Hs]; auto.
Qed.

Lemma tryDirectSlugAccess_found (cataloguePageOf : string -> option (Z * string))
    (titles : list string) (slug : string) :
  SamaSlug.tryDirectSlugAccess cataloguePageOf titles = Some slug ->
  SamaSlug.pageFound cataloguePageOf slug = true
  /\ slugShaped slug
  /\ exists title,
       In title titles /\ In slug (SamaSlug.generateSlugVariations title).
Proof.
  unfold SamaSlug.tryDirectSlugAccess. intros H.
  apply find_some in H. destruct H as [Hin Hfound].
  apply in_flat_map in Hin. destruct Hin as [title [Ht Hin]].
  split; [exact Hfound|]. split; [eapply generateSlugVariations_shaped, Hin|].
  now exists title.
Qed.

(** X8. [tryDirectSlugAccess] answers the first slug, in the order of
    the titles and of the variations of each, whose catalogue page answers
    200 with a body that contains 'panneauAnime'; every slug before it was
    tried and refused, and the answer is shaped as a slug.  It answers
    null only when every variation of every title is refused. *)
Theorem tryDirectSlugAccess_first_page_found :
  forall (cataloguePageOf : string -> option (Z * string))
         (titles : list string),
    match SamaSlug.tryDirectSlugAccess cataloguePageOf titles with
    | Some slug =>
        exists tried rest,
          flat_map SamaSlug.generateSlugVariations titles
          = tried ++ slug :: rest
          /\ (forall s, In s tried -> SamaSlug.pageFound cataloguePageOf s = false)
          /\ SamaSlug.pageFound cataloguePageOf slug = true
          /\ slugShaped slug
    | None =>
        forall title s,
          In title titles -> In s (SamaSlug.generateSlugVariations title) ->
          SamaSlug.pageFound cataloguePageOf s = false
    end.
Proof.
  intros page titles. unfold SamaSlug.tryDirectSlugAccess.
  pose proof (find_first (SamaSlug.pageFound page)
                (flat_map SamaSlug.generateSlugVariations titles)) as H.
  destruct (List.find _ _) as [slug|].
  - destruct H as [tried [rest [E [Ht Hs]]]].
    exists tried, rest.
    split; [exact E|]. split; [exact Ht|]. split; [exact Hs|].
    assert (Hin : In slug (flat_map SamaSlug.generateSlugVariations titles))
      by (rewrite E; apply in_elt).
    apply in_flat_map in Hin. destruct Hin as [t [_ Hin]].
    eapply generateSlugVariations_shaped, Hin.
  - intros title s Ht Hs. apply H. apply in_flat_map. now exists title.
Qed.

(** ** The search of the HiAnime provider *)

Section SearchProvenance.
Import HiAnime.
Variable stringSimilarity : string -> string -> Q.
Variable catalog : string -> option (list Item).
Variable P : string -> Prop.

Lemma visitItem_sourced (searchTitle : string) (animeInfo : AnimeInfo)
    (titleYears : list string) (searchSeasonNum : option N) (st : LoopState)
    (item : Item) :
  (forall hid, hianimeId item = Some hid -> P hid) ->
  sourced P st ->
  sourced P
    (visitItem stringSimilarity searchTitle animeInfo titleYears
       searchSeasonNum st item).
Proof.
  intros Hitem [Hbest Hpool]. unfold visitItem.
  destruct (hianimeId item) as [[|c hid]|]; try (split; assumption).
  destruct (isFalsePositive _ _); [split; assumption|].
  destruct (calculateTitleScore _ _ _ _) as [titleScore cache].
  split; cbn [bestMatch seriesMatches].
  - destruct (Qltb _ _); [|exact Hbest]. unfold named. cbn [id]. now apply Hitem.
  - destruct (Qltb (5 # 10) _); [|exact Hpool].
    apply Forall_app. split; [exact Hpool|].
    constructor; [|constructor]. cbn [m_id]. now apply Hitem.
Qed.

Lemma visitItems_sourced (searchTitle : string) (animeInfo : AnimeInfo)
    (titleYears : list string) (searchSeasonNum : option N) (items : list Item) :
  (forall item hid, In item items -> hianimeId item = Some hid -> P hid) ->
  forall st, sourced P st ->
    sourced P
      (fold_left
         (visitItem stringSimilarity searchTitle animeInfo titleYears
            searchSeasonNum) items st).
Proof.
  induction items as [|item items IH]; intros Hitems st Hst; [exact Hst|].
  cbn [fold_left]. apply IH.
  - intros i hid Hi. apply Hitems. now right.
  - apply visitItem_sourced; [|exact Hst].
    intros hid. apply Hitems. now left.
Qed.

Lemma tryTitles_sourced (animeInfo : AnimeInfo) (titleYears : list string)
    (searchSeasonNum : option N) (titles : list string) :
  (forall t items item hid,
      In t titles -> catalog (duplicated t) = Some items -> In item items ->
      hianimeId item = Some hid -> P hid) ->
  forall st st', sourced P st ->
    tryTitles stringSimilarity catalog animeInfo titleYears searchSeasonNum
      titles st = inr st' ->
    sourced P st'.
Proof.
  induction titles as [|t titles IH]; intros Hpages st st' Hst Hrun.
  - cbn in Hrun. now injection Hrun as <-.
  - cbn [tryTitles] in Hrun.
    change (t ++ " " ++ t)%string with (duplicated t) in Hrun.
    destruct (catalog (duplicated t)) as [items|] eqn:Epage; [|discriminate].
    assert (Hnext :
      sourced P
        (fold_left
           (visitItem stringSimilarity t animeInfo titleYears searchSeasonNum)
           items st)).
    { apply visitItems_sourced; [|exact Hst].
      intros item hid Hi. apply (Hpages t items item hid); auto. now left. }
    destruct (Qltb (9 # 10) _).
    + now injection Hrun as <-.
    + eapply IH; [|exact Hnext|exact Hrun].
      intros t' items' item hid Ht'. apply Hpages. now right.
Qed.

Lemma pick_named (m : SeriesMatch) (how : Method) :
  P (m_id m) -> named P (pick m how).
Proof. intros H. exact H. Qed.

Lemma filter_head_In {A : Type} (f : A -> bool) (l : list A) (x : A)
    (rest : list A) :
  List.filter f l = x :: rest -> In x l.
Proof.
  intros E. assert (H : In x (List.filter f l)) by (rewrite E; now left).
  apply filter_In in H. tauto.
Qed.

Lemma contextRules_named (animeInfo : AnimeInfo) (titleYears : list string)
    (searchSeasonNum : option N) (sorted : list SeriesMatch)
    (best : MatchResult) :
  Forall (fun m => P (m_id m)) sorted -> named P best ->
  named P (contextRules animeInfo titleYears searchSeasonNum sorted best).
Proof.
  intros Hpool Hbest. rewrite List.Forall_forall in Hpool.
  unfold contextRules. destruct titleYears as [|y ys].
  - destruct (Js.truthyN searchSeasonNum).
    + destruct (List.filter _ sorted) as [|m ms] eqn:E; [exact Hbest|].
      apply pick_named, Hpool. eapply filter_head_In, E.
    + destruct (String.eqb _ _); [|exact Hbest].
      destruct sorted as [|top rest]; [exact Hbest|].
      destruct (List.filter isTV (top :: rest)) as [|m ms] eqn:E; [exact Hbest|].
      destruct (Qltb _ _); [|exact Hbest].
      apply pick_named, Hpool. eapply filter_head_In, E.
  - destruct (List.filter _ sorted) as [|m ms] eqn:E; [exact Hbest|].
    apply pick_named, Hpool. eapply filter_head_In, E.
Qed.

Lemma applyOverrides_named (title : string) (titlesToTry : list string)
    (animeInfo : AnimeInfo) (titleYears : list string)
    (searchSeasonNum : option N) (pool : list SeriesMatch)
    (best : MatchResult) :
  Forall (fun m => P (m_id m)) pool -> named P best ->
  named P
    (applyOverrides title titlesToTry animeInfo titleYears searchSeasonNum
       pool best).
Proof.
  intros Hpool Hbest. unfold applyOverrides.
  assert (Hsorted : Forall (fun m => P (m_id m)) (sortByScore pool)).
  { rewrite List.Forall_forall in *. intros m Hm. apply Hpool.
    now apply sortByScore_In. }
  destruct (sortByScore pool) as [|top rest]; [exact Hbest|].
  pose proof Hsorted as Hall. rewrite List.Forall_forall in Hall.
  destruct (List.filter (isExactTitle _ _) _) as [|m ms] eqn:E1.
  - match goal with |- named P (if ?c then _ else _) => destruct c end.
    + apply pick_named, Hall. now left.
    + destruct (List.filter (isExactMatch _) _) as [|m ms] eqn:E2.
      * now apply contextRules_named.
      * apply pick_named, Hall. eapply filter_head_In, E2.
  - apply pick_named, Hall. eapply filter_head_In, E1.
Qed.

Lemma visitAlternative_named (baseTitle : string) (animeInfo : AnimeInfo)
    (originalYears : list string) (originalSeasonNum : option N)
    (st : MatchResult * gmap string (list string)) (item : Item) :
  (forall hid, hianimeId item = Some hid -> P hid) ->
  named P (fst st) ->
  named P
    (fst (visitAlternative stringSimilarity baseTitle animeInfo originalYears
            originalSeasonNum st item)).
Proof.
  intros Hitem Hst. unfold visitAlternative.
  destruct (hianimeId item) as [[|c hid]|]; try exact Hst.
  destruct (calculateTitleScore _ _ _ _) as [altScore cache].
  destruct (Qltb _ _); [|exact Hst]. cbn [fst]. unfold named. cbn [id].
  now apply Hitem.
Qed.

Lemma searchAnimeAlternative_named (baseTitle : string) (animeInfo : AnimeInfo)
    (originalYears : list string) (originalSeasonNum : option N)
    (cache : gmap string (list string)) (alt : MatchResult) :
  (forall items item hid,
      catalog (duplicated baseTitle) = Some items -> In item items ->
      hianimeId item = Some hid -> P hid) ->
  fst (searchAnimeAlternative stringSimilarity catalog baseTitle animeInfo
         originalYears originalSeasonNum cache) = Some alt ->
  named P alt.
Proof.
  intros Hpage. unfold searchAnimeAlternative.
  change (baseTitle ++ " " ++ baseTitle)%string with (duplicated baseTitle).
  revert Hpage.
  destruct (catalog (duplicated baseTitle)) as [items|] eqn:Epage;
    [|discriminate].
  intros Hpage.
  assert (H : forall st,
             named P (fst st) ->
             named P
               (fst (fold_left
                       (visitAlternative stringSimilarity baseTitle animeInfo
                          originalYears originalSeasonNum) items st))).
  { assert (Hitems : forall item hid,
               In item items -> hianimeId item = Some hid -> P hid)
      by (intros item hid; apply (Hpage items item hid eq_refl)).
    clear Hpage Epage.
    induction items as [|item items IH]; intros st Hst; [exact Hst|].
    cbn [fold_left]. apply IH.
    - intros i hid Hi. apply Hitems. now right.
    - apply visitAlternative_named; [|exact Hst].
      intros hid. apply Hitems. now left. }
  specialize (H ({| score := 0; id := None; method := alternative |}, cache)
                eq_refl).
  destruct (fold_left _ items _) as [best cache'].
  cbn [fst] in *. destruct (Qltb _ _); [|discriminate].
  now intros [= <-].
Qed.

End SearchProvenance.

Section SearchResult.
Import HiAnime.

Lemma named_found (P : string -> Prop) (r : MatchResult) :
  named P r -> Qltb (4 # 10) (score r) = true ->
  exists hid, id r = Some hid /\ P hid.
Proof.
  unfold named. intros H Hs. destruct (id r) as [hid|]; [now exists hid|].
  rewrite H in Hs. discriminate.
Qed.

Lemma searchAnime_outcome (stringSimilarity : string -> string -> Q)
    (catalog : string -> option (list Item)) (title : string)
    (animeInfo : AnimeInfo) (caches : Caches) :
  searchCache caches !! searchKey title animeInfo = None ->
  let result :=
    fst (searchAnime stringSimilarity catalog title animeInfo caches) in
  result = notFound \/ result = errorResult
  \/ (exists hid,
         id result = Some hid
         /\ listed catalog title animeInfo hid
         /\ (4 # 10 < score result)%Q).
Proof.
  intros Hmiss. cbn zeta. unfold searchAnime. rewrite Hmiss.
  set (P := listed catalog title animeInfo).
  destruct (tryTitles _ _ _ _ _ _ _) as [cache|st] eqn:Erun.
  - right. left. reflexivity.
  - assert (Hst : sourced P st).
    { eapply tryTitles_sourced; [| |exact Erun].
      - intros t items item hid Ht Epage Hitem Hid.
        exists (duplicated t), items, item. repeat split; try assumption.
        unfold triedQueries. apply in_or_app. left. now apply in_map.
      - split; [reflexivity|constructor]. }
    destruct Hst as [Hbest Hpool].
    pose proof (applyOverrides_named P title (titlesToTryOf animeInfo) animeInfo
                  (titleYearsOf title animeInfo) (extractSeasonNumber title)
                  (seriesMatches st) (bestMatch st) Hpool Hbest) as Hover.
    set (best := applyOverrides _ _ _ _ _ _ _) in *.
    assert (Hfinal : forall final cache,
               named P final ->
               let result := if Qltb (4 # 10) (score final) then final else notFound in
               fst (result,
                    {| wordVariationsCache := cache;
                       searchCache :=
                         <[searchKey title animeInfo := result]>
                           (searchCache caches) |}) = notFound
               \/ fst (result,
                       {| wordVariationsCache := cache;
                          searchCache :=
                            <[searchKey title animeInfo := result]>
                              (searchCache caches) |}) = errorResult
               \/ (exists hid,
                      id result = Some hid /\ P hid /\ (4 # 10 < score result)%Q)).
    { intros final cache Hnamed. cbn zeta. cbn [fst].
      destruct (Qltb (4 # 10) (score final)) eqn:E; [|now left].
      right. right. destruct (named_found P final Hnamed E) as [hid [Hid Hp]].
      exists hid. repeat split; try assumption. now apply Qltb_true. }
    destruct (Qltb (score best) (6 # 10)).
    + destruct (negb _ && _).
      * pose proof (searchAnimeAlternative_named stringSimilarity catalog P
                      (baseTitleOf title) animeInfo (titleYearsOf title animeInfo)
                      (extractSeasonNumber title) (wcache st)) as Halt.
        destruct (searchAnimeAlternative _ _ _ _ _ _ _) as [[altResult|] cache].
        -- cbn [fst] in Halt. apply Hfinal.
           destruct (Qltb _ _); [|exact Hover].
           apply (Halt altResult); [|reflexivity].
           intros items item hid Epage Hitem Hid.
           exists (duplicated (baseTitleOf title)), items, item.
           repeat split; try assumption.
           unfold triedQueries. apply in_or_app. right. now left.
        -- now apply Hfinal.
      * now apply Hfinal.
    + now apply Hfinal.
Qed.

End SearchResult.

Section SearchMemo.
Import HiAnime.
Variable stringSimilarity : string -> string -> Q.
Variable catalog : string -> option (list Item).

Lemma visitItems_method (searchTitle : string) (animeInfo : AnimeInfo)
    (titleYears : list string) (searchSeasonNum : option N) (items : list Item) :
  forall st, method (bestMatch st) <> error ->
    method
      (bestMatch
         (fold_left
            (visitItem stringSimilarity searchTitle animeInfo titleYears
               searchSeasonNum) items st)) <> error.
Proof.
  induction items as [|item items IH]; intros st Hst; [exact Hst|].
  cbn [fold_left]. apply IH. unfold visitItem.
  destruct (hianimeId item) as [[|c hid]|]; try exact Hst.
  destruct (isFalsePositive _ _); [exact Hst|].
  destruct (calculateTitleScore _ _ _ _) as [titleScore cache].
  cbn [bestMatch]. destruct (Qltb _ _); [discriminate|exact Hst].
Qed.

Lemma tryTitles_method (animeInfo : AnimeInfo) (titleYears : list string)
    (searchSeasonNum : option N) (titles : list string) :
  forall st st', method (bestMatch st) <> error ->
    tryTitles stringSimilarity catalog animeInfo titleYears searchSeasonNum
      titles st = inr st' ->
    method (bestMatch st') <> error.
Proof.
  induction titles as [|t titles IH]; intros st st' Hst Hrun.
  - cbn in Hrun. now injection Hrun as <-.
  - cbn [tryTitles] in Hrun.
    destruct (catalog _) as [items|]; [|discriminate].
    pose proof (visitItems_method t animeInfo titleYears searchSeasonNum items
                  st Hst) as Hnext.
    destruct (Qltb (9 # 10) _).
    + now injection Hrun as <-.
    + eapply IH; [exact Hnext|exact Hrun].
Qed.

Lemma contextRules_method (animeInfo : AnimeInfo) (titleYears : list string)
    (searchSeasonNum : option N) (sorted : list SeriesMatch)
    (best : MatchResult) :
  method best <> error ->
  method (contextRules animeInfo titleYears searchSeasonNum sorted best) <> error.
Proof.
  intros Hbest. unfold contextRules.
  repeat match goal with
         | |- method (match ?x with _ => _ end) <> error => destruct x
         | |- method (if ?x then _ else _) <> error => destruct x
         end; first [exact Hbest|discriminate].
Qed.

Lemma applyOverrides_method (title : string) (titlesToTry : list string)
    (animeInfo : AnimeInfo) (titleYears : list string)
    (searchSeasonNum : option N) (pool : list SeriesMatch)
    (best : MatchResult) :
  method best <> error ->
  method
    (applyOverrides title titlesToTry animeInfo titleYears searchSeasonNum
       pool best) <> error.
Proof.
  intros Hbest. unfold applyOverrides.
  destruct (sortByScore pool) as [|top rest]; [exact Hbest|].
  destruct (List.filter (isExactTitle _ _) _); [|discriminate].
  match goal with |- method (if ?c then _ else _) <> error => destruct c end;
    [discriminate|].
  destruct (List.filter (isExactMatch _) _); [|discriminate].
  now apply contextRules_method.
Qed.

Lemma searchAnimeAlternative_method (baseTitle : string) (animeInfo : AnimeInfo)
    (originalYears : list string) (originalSeasonNum : option N)
    (cache : gmap string (list string)) (alt : MatchResult) :
  fst (searchAnimeAlternative stringSimilarity catalog baseTitle animeInfo
         originalYears originalSeasonNum cache) = Some alt ->
  method alt <> error.
Proof.
  unfold searchAnimeAlternative.
  destruct (catalog _) as [items|]; [|discriminate].
  assert (H : forall st,
             method (fst st) <> error ->
             method
               (fst (fold_left
                       (visitAlternative stringSimilarity baseTitle animeInfo
                          originalYears originalSeasonNum) items st)) <> error).
  { induction items as [|item items IH]; intros st Hst; [exact Hst|].
    cbn [fold_left]. apply IH. unfold visitAlternative.
    destruct (hianimeId item) as [[|c hid]|]; try exact Hst.
    destruct (calculateTitleScore _ _ _ _) as [altScore cache'].
    destruct (Qltb _ _); [discriminate|exact Hst]. }
  specialize (H ({| score := 0; id := None; method := alternative |}, cache)).
  destruct (fold_left _ items _) as [best cache'].
  cbn [fst] in *. destruct (Qltb _ _); [|discriminate].
  intros [= <-]. apply H. discriminate.
Qed.

(** On a miss that ends without a failed request the result is stored
    under the key, and it is not the error result. *)
Lemma searchAnime_stores (title : string) (animeInfo : AnimeInfo)
    (caches : Caches) :
  searchCache caches !! searchKey title animeInfo = None ->
  let run := searchAnime stringSimilarity catalog title animeInfo caches in
  (fst run = errorResult /\ searchCache (snd run) = searchCache caches)
  \/ (method (fst run) <> error
      /\ searchCache (snd run)
         = <[searchKey title animeInfo := fst run]> (searchCache caches)).
Proof.
  intros Hmiss. cbn zeta. unfold searchAnime. rewrite Hmiss.
  destruct (tryTitles _ _ _ _ _ _ _) as [cache|st] eqn:Erun.
  - left. split; reflexivity.
  - right.
    assert (Hst : method (bestMatch st) <> error).
    { eapply tryTitles_method; [|exact Erun]. discriminate. }
    pose proof (applyOverrides_method title (titlesToTryOf animeInfo) animeInfo
                  (titleYearsOf title animeInfo) (extractSeasonNumber title)
                  (seriesMatches st) (bestMatch st) Hst) as Hover.
    set (best := applyOverrides _ _ _ _ _ _ _) in *.
    assert (Hfinal : forall final,
               method final <> error ->
               method (if Qltb (4 # 10) (score final) then final else notFound)
               <> error).
    { intros final Hf. destruct (Qltb _ _); [exact Hf|discriminate]. }
    destruct (Qltb (score best) (6 # 10)).
    + destruct (negb _ && _).
      * pose proof (searchAnimeAlternative_method (baseTitleOf title) animeInfo
                      (titleYearsOf title animeInfo) (extractSeasonNumber title)
                      (wcache st)) as Halt.
        destruct (searchAnimeAlternative _ _ _ _ _ _ _) as [[altResult|] cache].
        -- cbn [fst snd searchCache]. split; [|reflexivity]. apply Hfinal.
           destruct (Qltb _ _); [|exact Hover]. now apply Halt.
        -- cbn [fst snd searchCache]. split; [|reflexivity]. now apply Hfinal.
      * cbn [fst snd searchCache]. split; [|reflexivity]. now apply Hfinal.
    + cbn [fst snd searchCache]. split; [|reflexivity]. now apply Hfinal.
Qed.

End SearchMemo.

(** X9. When the search cache has no entry for the title,
    [searchAnime] of the HiAnime provider answers the not-found result,
    the error result, or a result whose id is the id of an item that the
    site listed for one of the queries of the search, with a score above
    0.4: it never invents an id. *)
Theorem searchAnime_names_a_listed_id :
  forall (stringSimilarity : string -> string -> Q)
         (catalog : string -> option (list HiAnime.Item)) (title : string)
         (animeInfo : HiAnime.AnimeInfo) (caches : HiAnime.Caches),
    HiAnime.searchCache caches !! HiAnime.searchKey title animeInfo = None ->
    let result :=
      fst (HiAnime.searchAnime stringSimilarity catalog title animeInfo caches) in
    result = HiAnime.notFound \/ result = errorResult
    \/ (exists hid,
           HiAnime.id result = Some hid
           /\ listed catalog title animeInfo hid
           /\ (4 # 10 < HiAnime.score result)%Q).
Proof.
  exact searchAnime_outcome.
Qed.

Lemma searchAnime_names_a_listed_id_witness :
  let result :=
    fst (HiAnime.searchAnime Similarity.dice (fun _ => Some [overlordWars])
           "Overlord" overlord coldCaches) in
  result = HiAnime.notFound \/ result = errorResult
  \/ (exists hid,
         HiAnime.id result = Some hid
         /\ listed (fun _ => Some [overlordWars]) "Overlord" overlord hid
         /\ (4 # 10 < HiAnime.score result)%Q).
Proof.
  apply (searchAnime_names_a_listed_id Similarity.dice
           (fun _ => Some [overlordWars]) "Overlord" overlord coldCaches).
  reflexivity.
Defined.

(** X10. [searchAnime] of the HiAnime provider leaves the search cache
    as it was when it answers the error result; after any other answer
    the same search answers the same result from the cache, whatever the
    site or the similarity function would answer then. *)
Theorem searchAnime_answers_again_from_cache :
  forall (stringSimilarity : string -> string -> Q)
         (catalog : string -> option (list HiAnime.Item)) (title : string)
         (animeInfo : HiAnime.AnimeInfo) (caches : HiAnime.Caches),
    let run := HiAnime.searchAnime stringSimilarity catalog title animeInfo caches in
    (HiAnime.method (fst run) = HiAnime.error ->
     HiAnime.searchCache (snd run) = HiAnime.searchCache caches)
    /\ (HiAnime.method (fst run) <> HiAnime.error ->
        forall stringSimilarity' catalog',
          HiAnime.searchAnime stringSimilarity' catalog' title animeInfo (snd run)
          = run).
Proof.
  intros sim catalog title animeInfo caches. cbn zeta.
  destruct (HiAnime.searchCache caches !! HiAnime.searchKey title animeInfo)
    as [cached|] eqn:Ehit.
  - assert (Erun : forall sim' catalog',
               HiAnime.searchAnime sim' catalog' title animeInfo caches
               = (cached, caches))
      by (intros sim' catalog'; unfold HiAnime.searchAnime; now rewrite Ehit).
    rewrite (Erun sim catalog). cbn [fst snd].
    split; [reflexivity|]. intros _ sim' catalog'. apply Erun.
  - destruct (searchAnime_stores sim catalog title animeInfo caches Ehit)
      as [[Herr Hsame]|[Hok Hstored]].
    + split; [intros _; exact Hsame|]. rewrite Herr. intros H. now destruct H.
    + split; [intros H; destruct (Hok H)|]. intros _ sim' catalog'.
      destruct (HiAnime.searchAnime sim catalog title animeInfo caches)
        as [result caches'].
      cbn [fst snd] in *. unfold HiAnime.searchAnime.
      rewrite Hstored, lookup_insert_eq. reflexivity.
Qed.

(** ** The search of the AnimeSama provider *)

Section SamaSearch.
Import AnimeSama.
Variable stringSimilarity : string -> string -> Q.
Variable searchTitlesOf : string -> AnimeInfo -> list string.
Variable search : string -> option (list Hit).
Variable P : string -> Prop.

Lemma visitHits_named (searchTitle : string) (hits : list Hit) :
  (forall hit, In hit hits -> P (hitSlug hit)) ->
  forall st, samaNamed P (fst st) ->
    samaNamed P (fst (fold_left (visitHit stringSimilarity searchTitle) hits st)).
Proof.
  induction hits as [|hit hits IH]; intros Hhits st Hst; [exact Hst|].
  cbn [fold_left]. apply IH; [intros h Hh; apply Hhits; now right|].
  unfold visitHit.
  destruct (calculateTitleScore _ _ _ _ _) as [hitScore cache].
  destruct (HiAnime.Qltb _ _); [|exact Hst].
  right. split; [reflexivity|]. exists (hitSlug hit).
  split; [reflexivity|]. apply Hhits. now left.
Qed.

Lemma sama_tryTitles_named (titles : list string) :
  (forall t hits hit, In t titles -> search t = Some hits -> In hit hits ->
                      P (hitSlug hit)) ->
  forall st st', samaNamed P (fst st) ->
    tryTitles stringSimilarity search titles st = inr st' ->
    samaNamed P (fst st').
Proof.
  induction titles as [|t titles IH]; intros Hpages st st' Hst Hrun.
  - cbn in Hrun. now injection Hrun as <-.
  - cbn [tryTitles] in Hrun.
    assert (Hrest : forall t' hits hit, In t' titles -> search t' = Some hits ->
                                        In hit hits -> P (hitSlug hit))
      by (intros t' hits hit Ht'; apply Hpages; now right).
    destruct (search t) as [[|hit hits]|] eqn:Epage; [| |discriminate].
    + eapply IH; eassumption.
    + assert (Hnext :
        samaNamed P
          (fst (fold_left (visitHit stringSimilarity t) (hit :: hits) st))).
      { apply visitHits_named; [|exact Hst].
        intros h Hh. apply (Hpages t (hit :: hits) h); auto. now left. }
      destruct (HiAnime.Qltb (85 # 100) _).
      * now injection Hrun as <-.
      * eapply IH; [exact Hrest|exact Hnext|exact Hrun].
Qed.

End SamaSearch.

Section SamaOutcome.
Import AnimeSama.
Variable stringSimilarity : string -> string -> Q.
Variable searchTitlesOf : string -> AnimeInfo -> list string.
Variable search : string -> option (list Hit).
Variable tryDirectSlugAccess : list string -> option string.

Lemma sama_searchAnime_outcome (baseTitle : string) (animeInfo : AnimeInfo)
    (caches : Caches) :
  searchCache caches !! searchKey baseTitle animeInfo = None ->
  let result :=
    fst (searchAnime stringSimilarity searchTitlesOf search tryDirectSlugAccess
           baseTitle animeInfo caches) in
  result = notFound \/ result = samaErrorResult
  \/ (exists c s,
         result = {| score := 85 # 100; slug := Some (String c s);
                     method := direct_slug_fallback |}
         /\ tryDirectSlugAccess (directTitles baseTitle animeInfo)
            = Some (String c s))
  \/ (exists s,
         slug result = Some s
         /\ method result = base_title_match
         /\ foundBySearch searchTitlesOf search baseTitle animeInfo s
         /\ (thresholdOf animeInfo < score result)%Q).
Proof.
  intros Hmiss. cbn zeta. unfold searchAnime. rewrite Hmiss.
  destruct (tryTitles _ _ _ _) as [cache|[bestMatch cache]] eqn:Erun.
  - right. left. reflexivity.
  - assert (Hbest : samaNamed
                      (foundBySearch searchTitlesOf search baseTitle animeInfo)
                      bestMatch).
    { change bestMatch with (fst (bestMatch, cache)).
      eapply sama_tryTitles_named; [| |exact Erun].
      - intros t hits hit Ht Epage Hhit.
        apply filter_In in Ht. destruct Ht as [Ht Hne].
        exists t, hits, hit. repeat split; try assumption.
        intros ->. discriminate.
      - now left. }
    cbn [fst].
    change (List.filter Js.nonEmpty
              (fullTitle animeInfo :: baseTitle
               :: firstn 30 (synonyms animeInfo)))
      with (directTitles baseTitle animeInfo).
    fold (thresholdOf animeInfo).
    assert (Hplain :
      let result :=
        if HiAnime.Qltb (thresholdOf animeInfo) (score bestMatch)
        then bestMatch else notFound in
      result = notFound \/ result = samaErrorResult
      \/ (exists c s,
             result = {| score := 85 # 100; slug := Some (String c s);
                         method := direct_slug_fallback |}
             /\ tryDirectSlugAccess (directTitles baseTitle animeInfo)
                = Some (String c s))
      \/ (exists s,
             slug result = Some s
             /\ method result = base_title_match
             /\ foundBySearch searchTitlesOf search baseTitle animeInfo s
             /\ (thresholdOf animeInfo < score result)%Q)).
    { cbn zeta. destruct (HiAnime.Qltb _ _) eqn:E; [|now left].
      destruct Hbest as [->|[Hm [s [Hs Hp]]]]; [now left|].
      right. right. right. exists s. repeat split; try assumption.
      now apply Qltb_true. }
    destruct (Qeq_bool (score bestMatch) 0 || _).
    + destruct (tryDirectSlugAccess _) as [[|c s]|] eqn:Edirect;
        try exact Hplain.
      right. right. left. exists c, s. split; reflexivity.
    + exact Hplain.
Qed.

End SamaOutcome.

(** X11. When the search cache has no entry for the title,
    [searchAnime] of the AnimeSama provider answers the not-found result,
    the error result, a slug found by direct access (score 0.85, a shaped
    slug of one of the titles whose page exists), or the slug of an anchor
    of the answer to one of its queries, scored above the threshold (0.2
    for OVA and SPECIAL, 0.3 otherwise). *)
Theorem sama_searchAnime_names_a_found_slug :
  forall (stringSimilarity : string -> string -> Q)
         (searchTitlesOf : string -> AnimeSama.AnimeInfo -> list string)
         (search : string -> option (list AnimeSama.Hit))
         (cataloguePageOf : string -> option (Z * string))
         (baseTitle : string) (animeInfo : AnimeSama.AnimeInfo)
         (caches : AnimeSama.Caches),
    AnimeSama.searchCache caches !! AnimeSama.searchKey baseTitle animeInfo
    = None ->
    let result :=
      fst (AnimeSama.searchAnime stringSimilarity searchTitlesOf search
             (SamaSlug.tryDirectSlugAccess cataloguePageOf)
             baseTitle animeInfo caches) in
    result = AnimeSama.notFound \/ result = samaErrorResult
    \/ (exists s,
           result = {| AnimeSama.score := 85 # 100;
                       AnimeSama.slug := Some s;
                       AnimeSama.method := AnimeSama.direct_slug_fallback |}
           /\ s <> EmptyString
           /\ slugShaped s
           /\ SamaSlug.pageFound cataloguePageOf s = true
           /\ exists title,
                In title (directTitles baseTitle animeInfo)
                /\ In s (SamaSlug.generateSlugVariations title))
    \/ (exists s,
           AnimeSama.slug result = Some s
           /\ AnimeSama.method result = AnimeSama.base_title_match
           /\ foundBySearch searchTitlesOf search baseTitle animeInfo s
           /\ (thresholdOf animeInfo < AnimeSama.score result)%Q).
Proof.
  intros sim searchTitlesOf search page baseTitle animeInfo caches Hmiss.
  destruct (sama_searchAnime_outcome sim searchTitlesOf search
              (SamaSlug.tryDirectSlugAccess page) baseTitle animeInfo caches
              Hmiss) as [H|[H|[[c [s [H Hdirect]]]|H]]]; cbn zeta.
  - now left.
  - right. now left.
  - right. right. left. exists (String c s). split; [exact H|].
    split; [discriminate|].
    pose proof (tryDirectSlugAccess_found page (directTitles baseTitle animeInfo)
                  (String c s) Hdirect) as [Hfound [Hshape Hin]].
    split; [exact Hshape|]. split; [exact Hfound|exact Hin].
  - right. right. now right.
Qed.

Lemma sama_searchAnime_names_a_found_slug_witness :
  let result :=
    fst (AnimeSama.searchAnime Similarity.dice samaTitles samaEmptySearch
           (SamaSlug.tryDirectSlugAccess (fun _ => Some (200%Z, "panneauAnime")))
           "Naruto" samaNaruto samaColdCaches) in
  result = AnimeSama.notFound \/ result = samaErrorResult
  \/ (exists s,
         result = {| AnimeSama.score := 85 # 100;
                     AnimeSama.slug := Some s;
                     AnimeSama.method := AnimeSama.direct_slug_fallback |}
         /\ s <> EmptyString
         /\ slugShaped s
         /\ SamaSlug.pageFound (fun _ => Some (200%Z, "panneauAnime")) s = true
         /\ exists title,
              In title (directTitles "Naruto" samaNaruto)
              /\ In s (SamaSlug.generateSlugVariations title))
  \/ (exists s,
         AnimeSama.slug result = Some s
         /\ AnimeSama.method result = AnimeSama.base_title_match
         /\ foundBySearch samaTitles samaEmptySearch "Naruto" samaNaruto s
         /\ (thresholdOf samaNaruto < AnimeSama.score result)%Q).
Proof.
  apply (sama_searchAnime_names_a_found_slug Similarity.dice samaTitles
           samaEmptySearch (fun _ => Some (200%Z, "panneauAnime"))
           "Naruto" samaNaruto samaColdCaches).
  reflexivity.
Defined.

(** ** The similarity of two descriptions *)

Section Dedupe.
Import WordVariations.

Lemma inList_In (x : string) (l : list string) :
  HiAnime.inList x l = true <-> In x l.
Proof.
  unfold HiAnime.inList. rewrite existsb_exists. split.
  - intros [y [Hy E]]. apply String.eqb_eq in E. now subst.
  - intros H. exists x. split; [exact H|apply String.eqb_refl].
Qed.

Lemma setAdd_spec (x : string) (set : list string) :
  NoDup set ->
  NoDup (setAdd x set) /\ (forall y, In y (setAdd x set) <-> y = x \/ In y set).
Proof.
  intros Hset. unfold setAdd.
  destruct (existsb (String.eqb x) set) eqn:E.
  - split; [exact Hset|]. intros y. split; [now right|].
    intros [->|H]; [|exact H]. now apply inList_In.
  - split.
    + apply NoDup_app. split; [exact Hset|]. split.
      * intros y Hy Hx. apply list_elem_of_singleton in Hx. subst y.
        apply list_elem_of_In, inList_In in Hy.
        unfold HiAnime.inList in Hy. congruence.
      * apply NoDup_singleton.
    + intros y. rewrite in_app_iff. cbn. intuition.
Qed.

Lemma dedupe_from (l : list string) :
  forall acc, NoDup acc ->
    NoDup (fold_left (fun acc t => setAdd t acc) l acc)
    /\ (forall y, In y (fold_left (fun acc t => setAdd t acc) l acc)
                  <-> In y acc \/ In y l).
Proof.
  induction l as [|x l IH]; intros acc Hacc; cbn [fold_left].
  - split; [exact Hacc|]. intros y. cbn. tauto.
  - destruct (setAdd_spec x acc Hacc) as [Hnd Hin].
    destruct (IH _ Hnd) as [Hnd' Hin']. split; [exact Hnd'|].
    intros y. rewrite Hin', Hin. cbn. intuition.
Qed.

Lemma dedupe_NoDup (l : list string) : NoDup (HiAnime.dedupe l).
Proof. apply (dedupe_from l []). constructor. Qed.

Lemma dedupe_In (l : list string) (y : string) :
  In y (HiAnime.dedupe l) <-> In y l.
Proof.
  unfold HiAnime.dedupe. rewrite (proj2 (dedupe_from l [] (NoDup_nil_2))).
  cbn. tauto.
Qed.

Lemma dedupe_set (l : list string) :
  (list_to_set (HiAnime.dedupe l) : gset string) = list_to_set l.
Proof.
  apply set_eq. intros x. rewrite !elem_of_list_to_set, !list_elem_of_In.
  apply dedupe_In.
Qed.

Lemma filter_set (A B : list string) :
  (list_to_set (List.filter (fun w => HiAnime.inList w B) A) : gset string)
  = list_to_set A ∩ list_to_set B.
Proof.
  apply set_eq. intros x.
  rewrite elem_of_intersection, !elem_of_list_to_set, !list_elem_of_In.
  rewrite filter_In, inList_In. tauto.
Qed.

Lemma NoDup_filter_list {A : Type} (f : A -> bool) (l : list A) :
  NoDup l -> NoDup (List.filter f l).
Proof.
  intros H. apply NoDup_ListNoDup. apply List.NoDup_filter.
  now apply NoDup_ListNoDup.
Qed.

End Dedupe.

Section Descriptions.
Import Js Mapper.

Lemma similarity_jaccard (desc1 desc2 : string) :
  calculateDescriptionSimilarity desc1 desc2
  = if negb (nonEmpty desc1) || negb (nonEmpty desc2) then 0%Q
    else match significantWordsOf desc1, significantWordsOf desc2 with
         | [], _ | _, [] => 0%Q
         | _, _ => jaccard (wordSet desc1) (wordSet desc2)
         end.
Proof.
  unfold calculateDescriptionSimilarity.
  destruct (negb (nonEmpty desc1) || negb (nonEmpty desc2)); [reflexivity|].
  assert (E : (inject_Z
                 (Z.of_nat
                    (List.length
                       (List.filter
                          (fun word =>
                             HiAnime.inList word
                               (HiAnime.dedupe (significantWordsOf desc2)))
                          (HiAnime.dedupe (significantWordsOf desc1)))))
               / inject_Z
                   (Z.of_nat
                      (List.length
                         (HiAnime.dedupe
                            (HiAnime.dedupe (significantWordsOf desc1)
                             ++ HiAnime.dedupe (significantWordsOf desc2))))))%Q
              = jaccard (wordSet desc1) (wordSet desc2)).
  { unfold jaccard, wordSet.
    rewrite <- (size_list_to_set (C := gset string))
      by apply NoDup_filter_list, dedupe_NoDup.
    rewrite <- (size_list_to_set (C := gset string)
                  (HiAnime.dedupe (_ ++ _))) by apply dedupe_NoDup.
    rewrite filter_set, !dedupe_set, list_to_set_app_L, !dedupe_set.
    reflexivity. }
  destruct (significantWordsOf desc1) as [|w1 ws1]; [reflexivity|].
  destruct (significantWordsOf desc2) as [|w2 ws2]; [reflexivity|].
  exact E.
Qed.

Lemma jaccard_sym (A B : gset string) : jaccard A B = jaccard B A.
Proof.
  unfold jaccard.
  now rewrite (comm_L (∩) A B), (comm_L (∪) A B).
Qed.

Lemma jaccard_unit (A B : gset string) :
  (0 <= jaccard A B)%Q /\ (jaccard A B <= 1)%Q.
Proof.
  unfold jaccard.
  assert (Hle : (size (A ∩ B) <= size (A ∪ B))%nat)
    by (apply subseteq_size; intros x Hx; apply elem_of_intersection in Hx;
        apply elem_of_union; tauto).
  set (m := size (A ∩ B)) in *. set (n := size (A ∪ B)) in *. clearbody m n.
  destruct n as [|n].
  - assert (m = 0)%nat by lia. subst m.
    change (inject_Z (Z.of_nat 0)) with 0%Q. unfold Qdiv.
    rewrite Qmult_0_l. split; lra.
  - assert (Hpos : (0 < inject_Z (Z.of_nat (S n)))%Q).
    { change 0%Q with (inject_Z 0). rewrite <- Zlt_Qlt. lia. }
    split.
    + apply Qle_shift_div_l; [assumption|]. rewrite Qmult_0_l.
      change 0%Q with (inject_Z 0). rewrite <- Zle_Qle. lia.
    + apply Qle_shift_div_r; [assumption|]. rewrite Qmult_1_l.
      rewrite <- Zle_Qle. lia.
Qed.

End Descriptions.

Section DescriptionPoints.
Import Js Mapper.

Lemma similarity_unit (desc1 desc2 : string) :
  (0 <= calculateDescriptionSimilarity desc1 desc2)%Q
  /\ (calculateDescriptionSimilarity desc1 desc2 <= 1)%Q.
Proof.
  rewrite similarity_jaccard.
  destruct (_ || _); [split; lra|].
  destruct (significantWordsOf desc1); [split; lra|].
  destruct (significantWordsOf desc2); [split; lra|].
  apply jaccard_unit.
Qed.

Lemma similarity_sym (desc1 desc2 : string) :
  calculateDescriptionSimilarity desc1 desc2
  = calculateDescriptionSimilarity desc2 desc1.
Proof.
  rewrite !similarity_jaccard, (jaccard_sym (wordSet desc1)).
  destruct (nonEmpty desc1), (nonEmpty desc2); cbn [negb orb]; try reflexivity.
  destruct (significantWordsOf desc1), (significantWordsOf desc2); reflexivity.
Qed.

Lemma descriptionPoints_range (animeInfo : CrossMapper.AniListMedia)
    (season : CrossMapper.TMDBSeason) :
  descriptionPoints animeInfo season = 0%Z
  \/ (6 <= descriptionPoints animeInfo season <= 20)%Z.
Proof.
  unfold descriptionPoints. destruct (_ && _); [|now left].
  set (sim := calculateDescriptionSimilarity _ _).
  destruct (HiAnime.Qltb (3 # 10) sim) eqn:E; [|now left]. right.
  apply Qltb_true in E.
  destruct (similarity_unit
              (normalizeDescription (CrossMapper.description animeInfo))
              (normalizeDescription (CrossMapper.overview season))) as [_ H1].
  fold sim in H1. split.
  - rewrite <- (Qfloor_Z 6). apply Qfloor_resp_le.
    change (inject_Z 6) with 6%Q. lra.
  - transitivity (Qfloor (inject_Z 20)); [|rewrite Qfloor_Z; lia].
    apply Qfloor_resp_le. change (inject_Z 20) with 20%Q. lra.
Qed.

Lemma descriptionPoints_nonneg (animeInfo : CrossMapper.AniListMedia)
    (season : CrossMapper.TMDBSeason) :
  (0 <= descriptionPoints animeInfo season)%Z.
Proof. destruct (descriptionPoints_range animeInfo season); lia. Qed.

End DescriptionPoints.

(** X12. [calculateDescriptionSimilarity] is the Jaccard index of the
    sets of the words of more than four letters of the two descriptions
    (0 when one has none): it is symmetric and lies in [0,1].  The points
    that [detectTMDBSeason] gives for it are 0 or between 6 and 20. *)
Theorem calculateDescriptionSimilarity_is_jaccard :
  (forall desc1 desc2 : string,
      let similarity := Mapper.calculateDescriptionSimilarity desc1 desc2 in
      similarity
      = (if negb (Js.nonEmpty desc1) || negb (Js.nonEmpty desc2) then 0%Q
         else match Mapper.significantWordsOf desc1,
                    Mapper.significantWordsOf desc2 with
              | [], _ | _, [] => 0%Q
              | _, _ => jaccard (wordSet desc1) (wordSet desc2)
              end)
      /\ similarity = Mapper.calculateDescriptionSimilarity desc2 desc1
      /\ (0 <= similarity)%Q /\ (similarity <= 1)%Q)
  /\ (forall animeInfo season,
         Mapper.descriptionPoints animeInfo season = 0%Z
         \/ (6 <= Mapper.descriptionPoints animeInfo season <= 20)%Z).
Proof.
  split.
  - intros desc1 desc2. cbn zeta.
    split; [apply similarity_jaccard|]. split; [apply similarity_sym|].
    split; apply similarity_unit.
  - apply descriptionPoints_range.
Qed.

(** ** The season of a show *)

Section Detect.
Import CrossMapper.
Local Open Scope Z_scope.
Variable descriptionPoints : AniListMedia -> TMDBSeason -> Z.
Hypothesis descriptionPoints_nonneg :
  forall animeInfo season, 0 <= descriptionPoints animeInfo season.

Lemma datePoints_window (monthsDiff points : Z) :
  datePoints monthsDiff = Some points ->
  Z.abs monthsDiff <= 6 /\ 50 <= points.
Proof.
  unfold datePoints.
  destruct (monthsDiff =? 0) eqn:E0; [apply Z.eqb_eq in E0; intros [= <-]; lia|].
  destruct (Z.abs monthsDiff =? 1) eqn:E1;
    [apply Z.eqb_eq in E1; intros [= <-]; lia|].
  destruct (Z.abs monthsDiff <=? 3) eqn:E3;
    [apply Z.leb_le in E3; intros [= <-]; lia|].
  destruct (Z.abs monthsDiff <=? 6) eqn:E6;
    [apply Z.leb_le in E6; intros [= <-]; lia|discriminate].
Qed.

Lemma datePoints_near (monthsDiff : Z) :
  Z.abs monthsDiff <= 6 -> exists points, datePoints monthsDiff = Some points.
Proof.
  intros H. unfold datePoints.
  destruct (monthsDiff =? 0); [eauto|].
  destruct (Z.abs monthsDiff =? 1); [eauto|].
  destruct (Z.abs monthsDiff <=? 3); [eauto|].
  destruct (Z.abs monthsDiff <=? 6) eqn:E6; [eauto|].
  apply Z.leb_gt in E6. lia.
Qed.

Lemma episodePoints_nonneg (episodeDiff : Z) : 0 <= episodePoints episodeDiff.
Proof.
  unfold episodePoints.
  destruct (episodeDiff =? 0); [lia|].
  destruct (episodeDiff <=? 2); [lia|].
  destruct (episodeDiff <=? 5); lia.
Qed.

Lemma scoreByDate_window (animeInfo : AniListMedia) (start : Z * Z)
    (season : TMDBSeason) (score : Z) (split : bool) :
  scoreByDate descriptionPoints animeInfo start season = Some (score, split) ->
  airedNear start season /\ 50 <= score.
Proof.
  unfold scoreByDate, airedNear.
  destruct (air_date season) as [seasonDate|]; [|discriminate].
  destruct (datePoints _) as [points|] eqn:Ep; [|discriminate].
  apply datePoints_window in Ep. destruct Ep as [Hnear Hpoints].
  pose proof (descriptionPoints_nonneg animeInfo season) as Hd.
  destruct (truthy (episodes animeInfo)) as [a|].
  - destruct (truthy (Some (episode_count season))) as [b|].
    + pose proof (episodePoints_nonneg (Z.abs (b - a))) as He.
      destruct (splitCourDetected _ _ _); intros [= <- <-];
        (split; [now exists seasonDate|lia]).
    + intros [= <- <-]. split; [now exists seasonDate|lia].
  - intros [= <- <-]. split; [now exists seasonDate|lia].
Qed.

Lemma scoreByDate_near (animeInfo : AniListMedia) (start : Z * Z)
    (season : TMDBSeason) :
  airedNear start season ->
  exists score split,
    scoreByDate descriptionPoints animeInfo start season = Some (score, split).
Proof.
  intros [seasonDate [Hd Hnear]]. unfold scoreByDate. rewrite Hd.
  destruct (datePoints_near _ Hnear) as [points ->].
  destruct (truthy (episodes animeInfo)) as [a|].
  - destruct (truthy (Some (episode_count season))) as [b|].
    + destruct (splitCourDetected _ _ _); eauto.
    + eauto.
  - eauto.
Qed.

Lemma dateLoop_best (animeInfo : AniListMedia) (start : Z * Z)
    (seasons : list TMDBSeason) :
  forall seen bestMatch bestScore flag,
    dateBest descriptionPoints animeInfo start seen bestMatch bestScore flag ->
    let '(bestMatch', bestScore', flag') :=
      dateLoop descriptionPoints animeInfo start seasons bestMatch bestScore
        flag in
    dateBest descriptionPoints animeInfo start (seen ++ seasons) bestMatch' bestScore' flag'.
Proof.
  induction seasons as [|season rest IH]; intros seen best bestScore flag Hinv.
  - cbn [dateLoop]. now rewrite app_nil_r.
  - cbn [dateLoop].
    replace (seen ++ season :: rest) with ((seen ++ [season]) ++ rest)
      by (rewrite <- app_assoc; reflexivity).
    destruct (scoreByDate descriptionPoints animeInfo start season)
      as [[score split]|] eqn:E.
    + destruct (scoreByDate_window _ _ _ _ _ E) as [_ H50].
      destruct (bestScore <? score) eqn:Elt.
      * apply Z.ltb_lt in Elt. apply IH. cbn [dateBest]. split; [|exact E].
        exists seen, []. split; [reflexivity|]. split; [now rewrite E|].
        split; [|intros s sc []].
        intros s sc Hs Hsc. destruct best as [b|].
        -- destruct Hinv as [[before [after [-> [Hb [Hlt Hle]]]]] _].
           apply in_app_or in Hs. destruct Hs as [Hs|[<-|Hs]].
           ++ specialize (Hlt s sc Hs Hsc). lia.
           ++ rewrite Hb in Hsc. injection Hsc as <-. lia.
           ++ specialize (Hle s sc Hs Hsc). lia.
        -- destruct Hinv as [_ Hnone]. rewrite (Hnone s Hs) in Hsc. discriminate.
      * apply Z.ltb_ge in Elt. apply IH. destruct best as [b|].
        -- destruct Hinv as [[before [after [-> [Hb [Hlt Hle]]]]] Hflag].
           split; [|exact Hflag].
           exists before, (after ++ [season]).
           split; [now rewrite <- app_assoc|]. split; [exact Hb|].
           split; [exact Hlt|].
           intros s sc Hs Hsc. apply in_app_or in Hs. destruct Hs as [Hs|[<-|[]]].
           ++ exact (Hle s sc Hs Hsc).
           ++ rewrite E in Hsc. injection Hsc as <-. exact Elt.
        -- destruct Hinv as [-> _]. lia.
    + apply IH. destruct best as [b|].
      * destruct Hinv as [[before [after [-> [Hb [Hlt Hle]]]]] Hflag].
        split; [|exact Hflag].
        exists before, (after ++ [season]).
        split; [now rewrite <- app_assoc|]. split; [exact Hb|].
        split; [exact Hlt|].
        intros s sc Hs Hsc. apply in_app_or in Hs. destruct Hs as [Hs|[<-|[]]].
        -- exact (Hle s sc Hs Hsc).
        -- rewrite E in Hsc. discriminate.
      * destruct Hinv as [-> Hnone]. split; [reflexivity|].
        intros s Hs. apply in_app_or in Hs. destruct Hs as [Hs|[<-|[]]]; auto.
Qed.

Lemma detectByDate_best (animeInfo : AniListMedia) (seasons : list TMDBSeason)
    (start : Z * Z) :
  startOf animeInfo = Some start ->
  match detectByDate descriptionPoints animeInfo seasons with
  | Some detected =>
      exists season score split,
        firstBest
          (fun s => option_map fst (scoreByDate descriptionPoints animeInfo start s))
          seasons season score
        /\ scoreByDate descriptionPoints animeInfo start season
           = Some (score, split)
        /\ detected
           = {| seasonNumber := season_number season;
                seasonName := name season;
                splitCourPart := Some (if split then 2 else 1) |}
  | None => forall s, In s seasons -> ~ airedNear start s
  end.
Proof.
  unfold startOf, detectByDate.
  destruct (startDate animeInfo) as [d|]; [|discriminate].
  destruct (truthy (year d)) as [y|]; [|discriminate].
  destruct (truthy (month d)) as [m|]; [|discriminate].
  intros [= <-].
  pose proof (dateLoop_best animeInfo (y, m) seasons [] None 0 false) as H.
  destruct (dateLoop _ _ _ seasons None 0 false) as [[best bestScore] flag].
  cbn [app] in H. specialize (H (conj eq_refl (fun s (F : In s []) => match F with end))).
  destruct best as [season|].
  - destruct H as [Hfirst Hscore].
    destruct (scoreByDate_window _ _ _ _ _ Hscore) as [_ H50].
    apply Z.leb_le in H50. rewrite H50.
    exists season, bestScore, flag. repeat split; assumption.
  - destruct H as [_ Hnone]. intros s Hs Hnear.
    destruct (scoreByDate_near animeInfo (y, m) s Hnear) as [sc [sp E]].
    rewrite (Hnone s Hs) in E. discriminate.
Qed.

Lemma scoreByYear_around (animeInfo : AniListMedia) (animeYear animeEpisodes : Z)
    (season : TMDBSeason) (score : Z) :
  scoreByYear descriptionPoints animeInfo animeYear animeEpisodes season
  = Some score ->
  airedAround animeYear season.
Proof.
  unfold scoreByYear, airedAround.
  destruct (seasonYearOf season) as [seasonYear|]; [|discriminate].
  destruct (Z.abs (seasonYear - animeYear) =? 0) eqn:E0.
  - apply Z.eqb_eq in E0. intros _. exists seasonYear. split; [reflexivity|lia].
  - destruct (Z.abs (seasonYear - animeYear) =? 1) eqn:E1; [|discriminate].
    apply Z.eqb_eq in E1. intros _. exists seasonYear. split; [reflexivity|lia].
Qed.

Lemma yearLoop_in (animeInfo : AniListMedia) (animeYear animeEpisodes : Z)
    (seasons : list TMDBSeason) :
  forall bestMatch bestScore season score,
    yearLoop descriptionPoints animeInfo animeYear animeEpisodes seasons
      bestMatch bestScore = (Some season, score) ->
    bestMatch = Some season
    \/ (In season seasons /\ airedAround animeYear season).
Proof.
  induction seasons as [|s rest IH]; intros best bestScore season score H.
  - cbn in H. injection H as -> _. now left.
  - cbn [yearLoop] in H.
    destruct (scoreByYear descriptionPoints animeInfo animeYear animeEpisodes s)
      as [sc|] eqn:E.
    + destruct (bestScore <? sc).
      * destruct (IH _ _ _ _ H) as [[= <-]|[Hin Hnear]].
        -- right. split; [now left|]. eapply scoreByYear_around, E.
        -- right. split; [now right|exact Hnear].
      * destruct (IH _ _ _ _ H) as [Hb|[Hin Hnear]]; [now left|].
        right. split; [now right|exact Hnear].
    + destruct (IH _ _ _ _ H) as [Hb|[Hin Hnear]]; [now left|].
      right. split; [now right|exact Hnear].
Qed.

Lemma detectByYear_around (animeInfo : AniListMedia) (animeYear : option Z)
    (seasons : list TMDBSeason) (detected : Detected) :
  detectByYear descriptionPoints animeInfo animeYear seasons = Some detected ->
  splitCourPart detected = None
  /\ exists season ay,
       In season seasons
       /\ seasonNumber detected = season_number season
       /\ seasonName detected = name season
       /\ truthy animeYear = Some ay
       /\ airedAround ay season.
Proof.
  unfold detectByYear.
  destruct (truthy animeYear) as [ay|]; [|discriminate].
  destruct (truthy (episodes animeInfo)) as [ae|].
  - destruct (yearLoop _ _ _ _ seasons None 0) as [[season|] bestScore] eqn:E;
      [|discriminate].
    destruct (50 <=? bestScore); [|discriminate]. intros [= <-].
    split; [reflexivity|].
    destruct (yearLoop_in _ _ _ _ _ _ _ _ E) as [Hb|[Hin Hnear]]; [discriminate|].
    exists season, ay. repeat split; assumption.
  - destruct (List.find _ seasons) as [season|] eqn:E; [|discriminate].
    intros [= <-]. split; [reflexivity|].
    apply find_some in E. destruct E as [Hin Hyear].
    exists season, ay. repeat split; try assumption.
    unfold airedAround. destruct (seasonYearOf season) as [sy|]; [|discriminate].
    apply Z.eqb_eq in Hyear. exists sy. split; [reflexivity|lia].
Qed.

Lemma detectTMDBSeason_cases (getTMDBSeasons : Z -> option (list TMDBSeason))
    (tmdbId : Z) (animeInfo : AniListMedia) (animeYear : option Z) :
  match getTMDBSeasons tmdbId with
  | Some seasons =>
      detectTMDBSeason getTMDBSeasons descriptionPoints tmdbId animeInfo animeYear
      = match detectByDate descriptionPoints animeInfo seasons with
        | Some detected => Some detected
        | None => detectByYear descriptionPoints animeInfo animeYear seasons
        end
  | None =>
      detectTMDBSeason getTMDBSeasons descriptionPoints tmdbId animeInfo animeYear
      = None
  end.
Proof.
  unfold detectTMDBSeason. destruct (getTMDBSeasons tmdbId) as [[|s rest]|];
    try reflexivity.
  unfold detectByDate, detectByYear.
  destruct (startDate animeInfo) as [d|].
  - destruct (truthy (year d)), (truthy (month d)); cbn [dateLoop];
      destruct (truthy animeYear), (truthy (episodes animeInfo)); reflexivity.
  - destruct (truthy animeYear), (truthy (episodes animeInfo)); reflexivity.
Qed.

End Detect.

Section DetectResult.
Import CrossMapper.
Local Open Scope Z_scope.

Lemma detectByDate_start (descriptionPoints : AniListMedia -> TMDBSeason -> Z)
    (animeInfo : AniListMedia) (seasons : list TMDBSeason) :
  startOf animeInfo = None ->
  detectByDate descriptionPoints animeInfo seasons = None.
Proof.
  unfold startOf, detectByDate.
  destruct (startDate animeInfo) as [d|]; [|reflexivity].
  destruct (truthy (year d)), (truthy (month d)); try reflexivity. discriminate.
Qed.

End DetectResult.

(** Every answer names a season of the list, aired near the start of the
    source or around its year. *)
Lemma detectTMDBSeason_near :
  forall (getTMDBSeasons : Z -> option (list CrossMapper.TMDBSeason))
         (tmdbId : Z) (animeInfo : CrossMapper.AniListMedia)
         (animeYear : option Z),
    match
      CrossMapper.detectTMDBSeason getTMDBSeasons Mapper.descriptionPoints
        tmdbId animeInfo animeYear
    with
    | Some detected =>
        exists seasons season,
          getTMDBSeasons tmdbId = Some seasons
          /\ In season seasons
          /\ detected = detectedAs season (CrossMapper.splitCourPart detected)
          /\ match CrossMapper.splitCourPart detected with
             | Some part =>
                 (part = 1 \/ part = 2)%Z
                 /\ exists start,
                      startOf animeInfo = Some start /\ airedNear start season
             | None =>
                 exists year,
                   CrossMapper.truthy animeYear = Some year
                   /\ airedAround year season
             end
    | None => True
    end.
Proof.
  intros gs tmdbId animeInfo animeYear.
  pose proof (detectTMDBSeason_cases Mapper.descriptionPoints gs tmdbId
                animeInfo animeYear) as Hcases.
  destruct (gs tmdbId) as [seasons|]; [|now rewrite Hcases].
  rewrite Hcases. clear Hcases.
  destruct (startOf animeInfo) as [start|] eqn:Estart.
  - pose proof (detectByDate_best Mapper.descriptionPoints
                  descriptionPoints_nonneg animeInfo seasons start Estart) as H.
    destruct (CrossMapper.detectByDate _ animeInfo seasons) as [detected|].
    + destruct H as [season [score [split [Hfirst [Hscore ->]]]]].
      exists seasons, season. split; [reflexivity|].
      destruct Hfirst as [before [after [-> _]]].
      split; [apply in_elt|]. split; [reflexivity|].
      cbn [CrossMapper.splitCourPart]. split; [destruct split; auto|].
      exists start. split; [reflexivity|].
      eapply scoreByDate_window; [apply descriptionPoints_nonneg|exact Hscore].
    + clear H.
      destruct (CrossMapper.detectByYear _ animeInfo animeYear seasons)
        as [detected|] eqn:Eyear; [|exact I].
      apply detectByYear_around in Eyear.
      destruct Eyear as [Hp [season [ay [Hin [Hn [Hname [Hy Hnear]]]]]]].
      exists seasons, season. split; [reflexivity|]. split; [exact Hin|].
      destruct detected as [n nm p]. cbn in Hp, Hn, Hname. subst.
      split; [reflexivity|]. now exists ay.
  - rewrite (detectByDate_start _ _ _ Estart).
    destruct (CrossMapper.detectByYear _ animeInfo animeYear seasons)
      as [detected|] eqn:Eyear; [|exact I].
    apply detectByYear_around in Eyear.
    destruct Eyear as [Hp [season [ay [Hin [Hn [Hname [Hy Hnear]]]]]]].
    exists seasons, season. split; [reflexivity|]. split; [exact Hin|].
    destruct detected as [n nm p]. cbn in Hp, Hn, Hname. subst.
    split; [reflexivity|]. now exists ay.
Qed.

(** X13. Whatever [detectTMDBSeason] answers is a season of the list
    of the show, with its number and name.  When it tells the part of a
    split cour (1 or 2), the season aired within six months of the start
    of the source; when it tells none, the season aired in the year of
    the source or in the year before or after it. *)
Theorem detectTMDBSeason_answers_a_near_season :
  forall (getTMDBSeasons : Z -> option (list CrossMapper.TMDBSeason))
         (tmdbId : Z) (animeInfo : CrossMapper.AniListMedia)
         (animeYear : option Z),
    match
      CrossMapper.detectTMDBSeason getTMDBSeasons Mapper.descriptionPoints
        tmdbId animeInfo animeYear
    with
    | Some detected =>
        exists seasons season,
          getTMDBSeasons tmdbId = Some seasons
          /\ In season seasons
          /\ detected = detectedAs season (CrossMapper.splitCourPart detected)
          /\ match CrossMapper.splitCourPart detected with
             | Some part =>
                 (part = 1 \/ part = 2)%Z
                 /\ exists start,
                      startOf animeInfo = Some start /\ airedNear start season
             | None =>
                 exists year,
                   CrossMapper.truthy animeYear = Some year
                   /\ airedAround year season
             end
    | None => True
    end.
Proof.
  exact detectTMDBSeason_near.
Qed.

(** X14. When the source has the year and the month of its start and
    a season of the show aired within six months of it,
    [detectTMDBSeason] answers by date: the first season of the greatest
    score, as part 2 when the split cour was detected for it and as
    part 1 otherwise. *)
Theorem detectTMDBSeason_by_date_takes_first_best :
  forall (getTMDBSeasons : Z -> option (list CrossMapper.TMDBSeason))
         (tmdbId : Z) (animeInfo : CrossMapper.AniListMedia)
         (animeYear : option Z) (seasons : list CrossMapper.TMDBSeason)
         (start : Z * Z) (near : CrossMapper.TMDBSeason),
    getTMDBSeasons tmdbId = Some seasons ->
    startOf animeInfo = Some start ->
    In near seasons -> airedNear start near ->
    exists season score split,
      firstBest (dateScore animeInfo start) seasons season score
      /\ CrossMapper.scoreByDate Mapper.descriptionPoints animeInfo start season
         = Some (score, split)
      /\ CrossMapper.detectTMDBSeason getTMDBSeasons Mapper.descriptionPoints
           tmdbId animeInfo animeYear
         = Some (detectedAs season (Some (if split then 2 else 1)%Z)).
Proof.
  intros gs tmdbId animeInfo animeYear seasons start near Hgs Hstart Hin Hnear.
  pose proof (detectTMDBSeason_cases Mapper.descriptionPoints gs tmdbId
                animeInfo animeYear) as Hcases.
  rewrite Hgs in Hcases. rewrite Hcases. clear Hcases.
  pose proof (detectByDate_best Mapper.descriptionPoints
                descriptionPoints_nonneg animeInfo seasons start Hstart) as H.
  destruct (CrossMapper.detectByDate _ animeInfo seasons) as [detected|].
  - destruct H as [season [score [split [Hfirst [Hscore ->]]]]].
    exists season, score, split. repeat split; assumption.
  - destruct (H near Hin Hnear).
Qed.

Lemma detectTMDBSeason_by_date_witness :
  exists season score split,
    firstBest (dateScore sampleMedia (2021, 1)%Z) sampleSeasons season score
    /\ CrossMapper.scoreByDate Mapper.descriptionPoints sampleMedia (2021, 1)%Z
         season = Some (score, split)
    /\ CrossMapper.detectTMDBSeason (fun _ => Some sampleSeasons)
         Mapper.descriptionPoints 1%Z sampleMedia None
       = Some (detectedAs season (Some (if split then 2 else 1)%Z)).
Proof.
  apply (detectTMDBSeason_by_date_takes_first_best (fun _ => Some sampleSeasons)
           1%Z sampleMedia None sampleSeasons (2021, 1)%Z
           sampleSeason2).
  - reflexivity.
  - reflexivity.
  - right. left. reflexivity.
  - exists (2021, 1)%Z. split; [reflexivity|]. vm_compute. discriminate.
Defined.

(** ** The cache of the cross mapper *)

Section CacheLaws.
Import MapperCache.
Local Open Scope Z_scope.
Context {T : Type}.

Lemma getFromCache_fresh (key : string) (value : T) (now later : Z)
    (cache : gmap string (CacheItem T)) :
  later <= now + cacheExpiry ->
  getFromCache key later (setCache key value now cache)
  = (Some value, setCache key value now cache).
Proof.
  intros H. unfold getFromCache, setCache. rewrite lookup_insert_eq.
  cbn [expiry data]. destruct (now + cacheExpiry <? later) eqn:E; [|reflexivity].
  apply Z.ltb_lt in E. lia.
Qed.

Lemma getFromCache_expired (key : string) (value : T) (now later : Z)
    (cache : gmap string (CacheItem T)) :
  now + cacheExpiry < later ->
  getFromCache key later (setCache key value now cache)
  = (None, delete key cache).
Proof.
  intros H. unfold getFromCache, setCache. rewrite lookup_insert_eq.
  cbn [expiry data]. destruct (now + cacheExpiry <? later) eqn:E.
  - now rewrite delete_insert_eq.
  - apply Z.ltb_ge in E. lia.
Qed.

Lemma getFromCache_other (key other : string) (value : T) (now later : Z)
    (cache : gmap string (CacheItem T)) :
  other <> key ->
  fst (getFromCache other later (setCache key value now cache))
  = fst (getFromCache other later cache).
Proof.
  intros H. unfold getFromCache, setCache.
  rewrite lookup_insert_ne by congruence.
  destruct (cache !! other) as [item|]; [|reflexivity].
  destruct (expiry item <? later); reflexivity.
Qed.

Lemma getFromCache_missing (key : string) (now : Z) :
  getFromCache key now (∅ : gmap string (CacheItem T)) = (None, ∅).
Proof.
  unfold getFromCache. rewrite lookup_empty. now rewrite delete_empty.
Qed.

End CacheLaws.

(** X15. What [setCache] stores under a key, [getFromCache] answers
    until 30 minutes later and no longer: after that it answers null and
    deletes the entry.  Storing under a key changes the answer for no
    other key, and the empty cache answers null. *)
Theorem cache_entry_lives_thirty_minutes :
  forall (T : Type) (key : string) (value : T) (now later : Z)
         (cache : gmap string (MapperCache.CacheItem T)),
    let stored := MapperCache.setCache key value now cache in
    MapperCache.getFromCache key later stored
    = (if (later <=? now + 1800000)%Z then (Some value, stored)
       else (None, delete key cache))
    /\ (forall other,
           other <> key ->
           fst (MapperCache.getFromCache other later stored)
           = fst (MapperCache.getFromCache other later cache))
    /\ MapperCache.getFromCache key now (∅ : gmap string (MapperCache.CacheItem T))
       = (None, ∅).
Proof.
  intros T key value now later cache. cbn zeta. split; [|split].
  - destruct (later <=? now + 1800000)%Z eqn:E.
    + apply Z.leb_le in E. now apply getFromCache_fresh.
    + apply Z.leb_gt in E. now apply getFromCache_expired.
  - intros other. apply getFromCache_other.
  - apply getFromCache_missing.
Qed.

(** ** The result processors of the cross mapper *)

Section BestLoopLaws.
Import Mapper.
Local Open Scope Q_scope.
Context {R M : Type}.
Variable skip : R -> bool.
Variable scoreOf : R -> Q.
Variable threshold : Q.
Variable build : R -> Q -> M.
Hypothesis threshold_nonneg : 0 <= threshold.

Lemma visitResult_best (seen : list R) (st : option M * Q) (result : R) :
  bestSoFar skip scoreOf threshold build seen st ->
  bestSoFar skip scoreOf threshold build (seen ++ [result])
    (visitResult skip scoreOf threshold build st result).
Proof.
  intros Hinv. unfold visitResult.
  destruct (skip result) eqn:Eskip.
  - (* skipped *)
    unfold bestSoFar in *. destruct (fst st) as [m|].
    + destruct Hinv as [best [[before [after [-> [Hs [Ht [Hb Ha]]]]]] [Hm Hsc]]].
      exists best. split; [|now split].
      exists before, (after ++ [result]). rewrite <- app_assoc. cbn.
      split; [reflexivity|]. split; [exact Hs|]. split; [exact Ht|].
      split; [exact Hb|].
      intros r Hr Hk. apply in_app_iff in Hr. destruct Hr as [Hr|[<-|[]]].
      * now apply Ha.
      * congruence.
    + destruct Hinv as [H0 Hall]. split; [exact H0|].
      intros r Hr Hk. apply in_app_iff in Hr. destruct Hr as [Hr|[<-|[]]].
      * now apply Hall.
      * congruence.
  - destruct (HiAnime.Qltb (snd st) (scoreOf result)) eqn:Ebest; cbn [andb].
    + apply Qltb_true in Ebest.
      destruct (HiAnime.Qltb threshold (scoreOf result)) eqn:Ethr.
      * (* a new best match *)
        apply Qltb_true in Ethr. unfold bestSoFar. cbn [fst snd].
        exists result. split; [|now split].
        exists seen, []. split; [reflexivity|]. split; [exact Eskip|].
        split; [exact Ethr|]. split; [|intros r []].
        intros r Hr Hk. unfold bestSoFar in Hinv.
        destruct (fst st) as [m|].
        -- destruct Hinv as [best [[before [after [-> [Hs [Ht [Hb Ha]]]]]] [Hm Hsc]]].
           rewrite Hsc in Ebest.
           apply in_app_iff in Hr. destruct Hr as [Hr|[<-|Hr]].
           ++ specialize (Hb r Hr Hk). lra.
           ++ exact Ebest.
           ++ specialize (Ha r Hr Hk). lra.
        -- destruct Hinv as [_ Hall]. specialize (Hall r Hr Hk). lra.
      * (* not above the threshold *)
        apply Qltb_false in Ethr. unfold bestSoFar in *.
        destruct (fst st) as [m|].
        -- destruct Hinv as [best [[before [after [-> [Hs [Ht [Hb Ha]]]]]] [Hm Hsc]]].
           rewrite Hsc in Ebest. lra.
        -- destruct Hinv as [H0 Hall]. split; [exact H0|].
           intros r Hr Hk. apply in_app_iff in Hr. destruct Hr as [Hr|[<-|[]]].
           ++ now apply Hall.
           ++ exact Ethr.
    + (* not above the best score *)
      apply Qltb_false in Ebest. unfold bestSoFar in *.
      destruct (fst st) as [m|].
      * destruct Hinv as [best [[before [after [-> [Hs [Ht [Hb Ha]]]]]] [Hm Hsc]]].
        exists best. split; [|now split].
        exists before, (after ++ [result]). rewrite <- app_assoc. cbn.
        split; [reflexivity|]. split; [exact Hs|]. split; [exact Ht|].
        split; [exact Hb|].
        intros r Hr Hk. apply in_app_iff in Hr. destruct Hr as [Hr|[<-|[]]].
        -- now apply Ha.
        -- rewrite <- Hsc. exact Ebest.
      * destruct Hinv as [H0 Hall]. split; [exact H0|].
        intros r Hr Hk. apply in_app_iff in Hr. destruct Hr as [Hr|[<-|[]]].
        -- now apply Hall.
        -- rewrite H0 in Ebest. lra.
Qed.

Lemma fold_visitResult_best (results : list R) :
  forall seen st,
    bestSoFar skip scoreOf threshold build seen st ->
    bestSoFar skip scoreOf threshold build (seen ++ results)
      (fold_left (visitResult skip scoreOf threshold build) results st).
Proof.
  induction results as [|r results IH]; intros seen st Hinv; cbn [fold_left].
  - now rewrite app_nil_r.
  - replace (seen ++ r :: results) with ((seen ++ [r]) ++ results)
      by now rewrite <- app_assoc.
    apply IH, visitResult_best, Hinv.
Qed.

(** The match of a result processor is built from the first result of
    the greatest score, which is above the threshold; there is none when
    no result is above it. *)
Lemma bestOf_first_best (results : list R) :
  match bestOf skip scoreOf threshold build results with
  | Some m =>
      exists result,
        firstBestAbove skip scoreOf threshold results result
        /\ m = build result (scoreOf result)
  | None =>
      forall r, In r results -> skip r = false -> scoreOf r <= threshold
  end.
Proof.
  pose proof (fold_visitResult_best results [] (None, 0)) as H.
  cbn [app] in H. unfold bestOf.
  assert (H0 : bestSoFar skip scoreOf threshold build [] (None, 0)).
  { split; [reflexivity|]. intros r []. }
  specialize (H H0). unfold bestSoFar in H.
  destruct (fst (fold_left _ results (None, 0))) as [m|].
  - destruct H as [result [Hf [Hm _]]]. now exists result.
  - apply H.
Qed.

Lemma bestOf_chosen (results : list R) (found : M) :
  bestOf skip scoreOf threshold build results = Some found ->
  exists result,
    In result results /\ skip result = false
    /\ found = build result (scoreOf result)
    /\ threshold < scoreOf result.
Proof.
  intros E. pose proof (bestOf_first_best results) as H. rewrite E in H.
  destruct H as [result [[before [after [-> [Hskip [Hthr _]]]]] Hfound]].
  exists result. split; [apply in_elt|]. now repeat split.
Qed.

Lemma bestOf_answers (results : list R) (result : R) :
  In result results -> skip result = false -> threshold < scoreOf result ->
  bestOf skip scoreOf threshold build results <> None.
Proof.
  intros Hin Hskip Hthr E. pose proof (bestOf_first_best results) as H.
  rewrite E in H. specialize (H result Hin Hskip). lra.
Qed.

End BestLoopLaws.

Section TitleSimilarity.
Import Js Mapper.
Local Open Scope Q_scope.

Lemma inject_nat_nonneg (n : nat) : 0 <= inject_Z (Z.of_nat n).
Proof. change 0 with (inject_Z 0). rewrite <- Zle_Qle. lia. Qed.

Lemma inject_nat_pos (n : nat) : (0 < n)%nat -> 0 < inject_Z (Z.of_nat n).
Proof. intros H. change 0 with (inject_Z 0). rewrite <- Zlt_Qlt. lia. Qed.

Lemma getLevenshteinSimilarity_unit (str1 str2 : string) (sim : Q) :
  getLevenshteinSimilarity str1 str2 = Some sim -> inUnit sim.
Proof.
  unfold getLevenshteinSimilarity.
  pose proof (levenshteinDistance_le_max str1 str2) as Hd.
  destruct (Nat.max (String.length str1) (String.length str2) =? 0)%nat eqn:E;
    [discriminate|].
  apply Nat.eqb_neq in E. intros [= <-].
  set (longest := Nat.max (String.length str1) (String.length str2)) in *.
  set (distance := HiAnime.levenshteinDistance str1 str2) in *.
  assert (Hu : inUnit (inject_Z (Z.of_nat distance) / inject_Z (Z.of_nat longest))).
  { apply ratio_unit; [apply inject_nat_nonneg|]. rewrite <- Zle_Qle. lia. }
  destruct Hu as [H0 H1]. split; lra.
Qed.

Lemma partialMatch_nonneg (w1 w2 : string) : 0 <= partialMatch w1 w2.
Proof.
  unfold partialMatch.
  destruct ((3 <? String.length w1)%nat && (3 <? String.length w2)%nat);
    [|lra].
  destruct (getLevenshteinSimilarity w1 w2) as [sim|] eqn:E; [|lra].
  apply getLevenshteinSimilarity_unit in E. destruct E as [H0 H1].
  destruct (HiAnime.Qltb (7 # 10) sim); lra.
Qed.

Lemma partialMatch_pos (w1 w2 : string) :
  0 < partialMatch w1 w2 <->
  ((3 < String.length w1)%nat /\ (3 < String.length w2)%nat
   /\ exists sim, getLevenshteinSimilarity w1 w2 = Some sim /\ 7 # 10 < sim).
Proof.
  unfold partialMatch. split.
  - destruct (3 <? String.length w1)%nat eqn:E1; [|cbn [andb]; lra].
    destruct (3 <? String.length w2)%nat eqn:E2; [|cbn [andb]; lra].
    cbn [andb]. apply Nat.ltb_lt in E1, E2.
    destruct (getLevenshteinSimilarity w1 w2) as [sim|]; [|lra].
    destruct (HiAnime.Qltb (7 # 10) sim) eqn:E; [|lra].
    apply Qltb_true in E. intros _. split; [exact E1|]. split; [exact E2|].
    now exists sim.
  - intros [H1 [H2 [sim [-> Hs]]]].
    apply Nat.ltb_lt in H1, H2. rewrite H1, H2. cbn [andb].
    destruct (HiAnime.Qltb (7 # 10) sim) eqn:E.
    + lra.
    + apply Qltb_false in E. lra.
Qed.

Section Sums.
Context {A : Type}.
Variable f : A -> Q.
Hypothesis f_nonneg : forall x, 0 <= f x.

Lemma sum_loop_ge (l : list A) :
  forall acc, acc <= fold_left (fun acc x => acc + f x) l acc.
Proof.
  induction l as [|x l IH]; intros acc; cbn [fold_left]; [lra|].
  specialize (IH (acc + f x)). specialize (f_nonneg x). lra.
Qed.

Lemma sum_loop_gt (l : list A) :
  forall acc,
    acc < fold_left (fun acc x => acc + f x) l acc <->
    exists x, In x l /\ 0 < f x.
Proof.
  induction l as [|x l IH]; intros acc; cbn [fold_left].
  - split; [lra|]. intros [x [[] _]].
  - split.
    + intros H. destruct (Qlt_le_dec 0 (f x)) as [Hx|Hx].
      * exists x. split; [now left|exact Hx].
      * assert (Hacc : acc + f x < fold_left (fun acc x => acc + f x) l (acc + f x)).
        { specialize (f_nonneg x). lra. }
        apply IH in Hacc. destruct Hacc as [y [Hy Hf]].
        exists y. split; [now right|exact Hf].
    + intros [y [[<-|Hy] Hf]].
      * pose proof (sum_loop_ge l (acc + f x)). lra.
      * assert (Hacc : acc + f x < fold_left (fun acc x => acc + f x) l (acc + f x)).
        { apply IH. now exists y. }
        specialize (f_nonneg x). lra.
Qed.

End Sums.

Lemma partial_loop_ge (words1 words2 : list string) :
  forall acc,
    acc <= fold_left
             (fun acc w1 =>
                fold_left (fun acc w2 => acc + partialMatch w1 w2) words2 acc)
             words1 acc.
Proof.
  induction words1 as [|w1 words1 IH]; intros acc; cbn [fold_left]; [lra|].
  pose proof (sum_loop_ge (partialMatch w1) (partialMatch_nonneg w1) words2 acc).
  specialize (IH (fold_left (fun acc w2 => acc + partialMatch w1 w2) words2 acc)).
  lra.
Qed.

Lemma partial_loop_gt (words1 words2 : list string) :
  forall acc,
    acc < fold_left
            (fun acc w1 =>
               fold_left (fun acc w2 => acc + partialMatch w1 w2) words2 acc)
            words1 acc
    <-> exists w1 w2, In w1 words1 /\ In w2 words2 /\ 0 < partialMatch w1 w2.
Proof.
  induction words1 as [|w1 words1 IH]; intros acc; cbn [fold_left].
  - split; [lra|]. intros [w1 [w2 [[] _]]].
  - set (inner := fold_left (fun acc w2 => acc + partialMatch w1 w2) words2 acc).
    pose proof (sum_loop_ge (partialMatch w1) (partialMatch_nonneg w1) words2 acc)
      as Hge.
    pose proof (sum_loop_gt (partialMatch w1) (partialMatch_nonneg w1) words2 acc)
      as Hgt.
    fold inner in Hge, Hgt. split.
    + intros H. destruct (Qlt_le_dec acc inner) as [Hi|Hi].
      * apply Hgt in Hi. destruct Hi as [w2 [H2 Hp]].
        exists w1, w2. split; [now left|]. now split.
      * assert (Hrest : inner < fold_left
            (fun acc w1 =>
               fold_left (fun acc w2 => acc + partialMatch w1 w2) words2 acc)
            words1 inner) by lra.
        apply IH in Hrest. destruct Hrest as [v1 [v2 [H1 [H2 Hp]]]].
        exists v1, v2. split; [now right|]. now split.
    + intros [v1 [v2 [[<-|H1] [H2 Hp]]]].
      * assert (Hi : acc < inner) by (apply Hgt; now exists v2).
        pose proof (partial_loop_ge words1 words2 inner). lra.
      * assert (Hrest : inner < fold_left
            (fun acc w1 =>
               fold_left (fun acc w2 => acc + partialMatch w1 w2) words2 acc)
            words1 inner) by (apply IH; now exists v1, v2).
        lra.
Qed.

Lemma nonEmpty_eq (s : string) : nonEmpty s = true -> s <> EmptyString.
Proof. intros H ->. discriminate. Qed.

Lemma calculateTitleSimilarity_unit (title1 title2 : string) :
  inUnit (calculateTitleSimilarity title1 title2).
Proof.
  unfold calculateTitleSimilarity.
  destruct (negb (nonEmpty title1) || negb (nonEmpty title2));
    [apply unit_zero|].
  destruct (String.eqb title1 title2); [split; lra|].
  destruct (wordsOf title1) as [|w1 words1] eqn:E1; [apply unit_zero|].
  destruct (wordsOf title2) as [|w2 words2] eqn:E2; [apply unit_zero|].
  set (exactMatches := List.length _).
  set (partialMatches := fold_left _ _ _).
  set (longest := Nat.max _ _).
  assert (Hp : 0 <= partialMatches) by apply partial_loop_ge.
  assert (He : 0 <= inject_Z (Z.of_nat exactMatches)) by apply inject_nat_nonneg.
  assert (Hl : 0 < inject_Z (Z.of_nat longest)).
  { apply inject_nat_pos. unfold longest. cbn [List.length]. lia. }
  assert (Hr : 0 <= (inject_Z (Z.of_nat exactMatches) + partialMatches)
                    / inject_Z (Z.of_nat longest)).
  { apply Qle_shift_div_l; [exact Hl|]. lra. }
  split.
  - apply Q.min_glb; [exact Hr|lra].
  - apply Q.le_min_r.
Qed.

Lemma calculateTitleSimilarity_pos (title1 title2 : string) :
  0 < calculateTitleSimilarity title1 title2 <-> titlesResemble title1 title2.
Proof.
  unfold calculateTitleSimilarity, titlesResemble.
  destruct (nonEmpty title1) eqn:N1; cbn [negb orb];
    [|split; [lra|intros [? _]; discriminate]].
  destruct (nonEmpty title2) eqn:N2; cbn [negb orb];
    [|split; [lra|intros [_ [? _]]; discriminate]].
  destruct (String.eqb title1 title2) eqn:Eq.
  { apply String.eqb_eq in Eq. split; [|lra]. intros _. repeat split. now left. }
  apply String.eqb_neq in Eq.
  destruct (wordsOf title1) as [|x1 words1] eqn:E1.
  { split; [lra|]. intros [_ [_ [H|[w1 [w2 [[] _]]]]]]. congruence. }
  destruct (wordsOf title2) as [|x2 words2] eqn:E2.
  { split; [lra|]. intros [_ [_ [H|[w1 [w2 [_ [[] _]]]]]]]. congruence. }
  rewrite <- E1, <- E2.
  set (exactMatches := List.length _).
  set (partialMatches := fold_left _ _ _).
  set (longest := Nat.max _ _).
  assert (Hp : 0 <= partialMatches) by apply partial_loop_ge.
  assert (He : 0 <= inject_Z (Z.of_nat exactMatches)) by apply inject_nat_nonneg.
  assert (Hl : 0 < inject_Z (Z.of_nat longest)).
  { apply inject_nat_pos. unfold longest. rewrite E1. cbn [List.length]. lia. }
  split.
  - intros H. split; [reflexivity|]. split; [reflexivity|]. right.
    assert (Hnum : 0 < inject_Z (Z.of_nat exactMatches) + partialMatches).
    { destruct (Qlt_le_dec 0 (inject_Z (Z.of_nat exactMatches) + partialMatches))
        as [Hn|Hn]; [exact Hn|].
      assert (Hr : (inject_Z (Z.of_nat exactMatches) + partialMatches)
                   / inject_Z (Z.of_nat longest) <= 0).
      { apply Qle_shift_div_r; [exact Hl|]. lra. }
      pose proof (Q.le_min_l
                    ((inject_Z (Z.of_nat exactMatches) + partialMatches)
                     / inject_Z (Z.of_nat longest)) 1).
      lra. }
    destruct (Qlt_le_dec 0 partialMatches) as [Hpos|Hzero].
    + apply partial_loop_gt in Hpos.
      destruct Hpos as [w1 [w2 [H1 [H2 Hm]]]].
      exists w1, w2. split; [exact H1|]. split; [exact H2|].
      right. now apply partialMatch_pos.
    + assert (Hex : (0 < exactMatches)%nat).
      { destruct exactMatches; [|lia].
        change (inject_Z (Z.of_nat 0)) with 0 in Hnum. lra. }
      unfold exactMatches in Hex.
      destruct (List.filter (fun w => HiAnime.inList w (wordsOf title2))
                  (wordsOf title1)) as [|w ws] eqn:Ef;
        [cbn in Hex; lia|].
      assert (Hw : In w (List.filter (fun w => HiAnime.inList w (wordsOf title2))
                           (wordsOf title1))) by (rewrite Ef; now left).
      apply filter_In in Hw. destruct Hw as [H1 H2]. apply inList_In in H2.
      exists w, w. split; [exact H1|]. split; [exact H2|]. now left.
  - intros [_ [_ [H|[w1 [w2 [H1 [H2 Hm]]]]]]]; [congruence|].
    assert (Hnum : 0 < inject_Z (Z.of_nat exactMatches) + partialMatches).
    { destruct Hm as [<-|Hm].
      - assert (Hex : (0 < exactMatches)%nat).
        { unfold exactMatches.
          assert (Hw : In w1 (List.filter
                                (fun w => HiAnime.inList w (wordsOf title2))
                                (wordsOf title1))).
          { apply filter_In. split; [exact H1|]. now apply inList_In. }
          destruct (List.filter _ _); [destruct Hw|cbn; lia]. }
        pose proof (inject_nat_pos _ Hex). lra.
      - assert (0 < partialMatches).
        { apply partial_loop_gt. exists w1, w2. split; [exact H1|].
          split; [exact H2|]. now apply partialMatch_pos. }
        lra. }
    assert (Hr : 0 < (inject_Z (Z.of_nat exactMatches) + partialMatches)
                     / inject_Z (Z.of_nat longest)).
    { apply Qlt_shift_div_l; [exact Hl|]. lra. }
    destruct (Q.min_dec
                ((inject_Z (Z.of_nat exactMatches) + partialMatches)
                 / inject_Z (Z.of_nat longest)) 1) as [->| ->]; [exact Hr|lra].
Qed.

End TitleSimilarity.

Section MatchScores.
Import Js Mapper.
Local Open Scope Q_scope.

Lemma max_loop_pos {A : Type} (g : A -> Q) (l : list A) :
  forall acc,
    0 < fold_left (fun acc x => Qmax acc (g x)) l acc ->
    0 < acc \/ exists x, In x l /\ 0 < g x.
Proof.
  induction l as [|x l IH]; intros acc H; cbn [fold_left] in H; [now left|].
  apply IH in H. destruct H as [H|[y [Hy Hg]]].
  - destruct (Q.max_dec acc (g x)) as [E|E]; rewrite E in H.
    + now left.
    + right. exists x. split; [now left|exact H].
  - right. exists y. split; [now right|exact Hg].
Qed.

Lemma max_loop_unit {A : Type} (g : A -> Q) (l : list A) :
  (forall x, inUnit (g x)) ->
  forall acc, inUnit acc -> inUnit (fold_left (fun acc x => Qmax acc (g x)) l acc).
Proof.
  intros Hg. induction l as [|x l IH]; intros acc H; cbn [fold_left];
    [exact H|].
  apply IH, Qmax_unit; [exact H|apply Hg].
Qed.

Lemma bestTitleSimilarity_from (titles1 titles2 : list string) :
  forall acc,
    0 < fold_left
          (fun acc t1 =>
             fold_left
               (fun acc t2 =>
                  Qmax acc
                    (calculateTitleSimilarity (normalizeTitle t1)
                       (normalizeTitle t2)))
               titles2 acc)
          titles1 acc ->
    0 < acc \/ someTitlesResemble titles1 titles2.
Proof.
  induction titles1 as [|t1 titles1 IH]; intros acc H; cbn [fold_left] in H;
    [now left|].
  apply IH in H. destruct H as [H|[v1 [v2 [H1 [H2 Hr]]]]].
  - apply (max_loop_pos
             (fun t2 => calculateTitleSimilarity (normalizeTitle t1)
                          (normalizeTitle t2))) in H.
    destruct H as [H|[t2 [H2 Hs]]]; [now left|].
    right. exists t1, t2. split; [now left|]. split; [exact H2|].
    now apply calculateTitleSimilarity_pos.
  - right. exists v1, v2. split; [now right|]. now split.
Qed.

Lemma bestTitleSimilarity_pos (titles1 titles2 : list string) :
  0 < bestTitleSimilarity titles1 titles2 ->
  someTitlesResemble titles1 titles2.
Proof.
  intros H. apply bestTitleSimilarity_from in H. destruct H as [H|H]; [lra|].
  exact H.
Qed.

Lemma yearPoints_range (a b : option Z) :
  0 <= yearPoints a b /\ yearPoints a b <= 2 # 10.
Proof.
  unfold yearPoints.
  destruct (CrossMapper.truthy a) as [x|], (CrossMapper.truthy b) as [y|];
    try (split; lra).
  destruct (x =? y)%Z; [split; lra|].
  destruct (Z.abs (x - y) =? 1)%Z; split; lra.
Qed.

Lemma episodesPoints_range (a b : option Z) :
  0 <= episodesPoints a b /\ episodesPoints a b <= 1 # 10.
Proof.
  unfold episodesPoints.
  destruct (CrossMapper.truthy a) as [x|], (CrossMapper.truthy b) as [y|];
    try (split; lra).
  destruct (x =? y)%Z; [split; lra|].
  destruct (Z.abs (x - y) <=? 2)%Z; split; lra.
Qed.

Lemma above_range (limit : Q) (v : option Q) (points : Q) :
  0 <= points -> 0 <= above limit v points /\ above limit v points <= points.
Proof.
  intros H. unfold above. destruct v as [x|]; [|split; lra].
  destruct (HiAnime.Qltb limit x); split; lra.
Qed.

Lemma malFormatPoints_range (media_type : option string) (mediaType : string) :
  0 <= malFormatPoints media_type mediaType
  /\ malFormatPoints media_type mediaType <= 1 # 10.
Proof.
  unfold malFormatPoints. destruct media_type as [t|]; [|split; lra].
  destruct (nonEmpty t && _); split; lra.
Qed.

Lemma anilistFormatPoints_range (format : string) (mediaType : string) :
  0 <= anilistFormatPoints format mediaType
  /\ anilistFormatPoints format mediaType <= 1 # 10.
Proof.
  unfold anilistFormatPoints. destruct (_ || _); split; lra.
Qed.

(** The points of everything but the titles stay below each threshold. *)
Lemma calculateMALMatchScore_bound (animeInfo : AniList.Media)
    (malResult : MAL.Media) (animeTitles : list string) (animeYear : option Z) :
  calculateMALMatchScore animeInfo malResult animeTitles animeYear
  <= bestTitleSimilarity animeTitles (extractMALTitles malResult) * (6 # 10)
     + (35 # 100).
Proof.
  unfold calculateMALMatchScore.
  set (title := bestTitleSimilarity _ _).
  pose proof (yearPoints_range animeYear
                (extractYear (MAL.start_date malResult))) as [Hy0 Hy].
  pose proof (episodesPoints_range
                (CrossMapper.episodes (AniList.core animeInfo))
                (MAL.num_episodes malResult)) as [He0 He].
  pose proof (above_range 7 (MAL.mean malResult) (5 # 100)) as [Ha0 Ha]; [lra|].
  set (yp := yearPoints _ _) in *. set (ep := episodesPoints _ _) in *.
  set (ab := above _ _ _) in *. clearbody title yp ep ab.
  destruct (CrossMapper.truthy animeYear);
    [destruct (CrossMapper.truthy (extractYear (MAL.start_date malResult)))|];
    lra.
Qed.

Lemma calculateAniListMatchScoreFromMAL_bound (malInfo : MAL.Media)
    (anilistResult : AniList.Media) (malTitles : list string)
    (malYear : option Z) :
  calculateAniListMatchScoreFromMAL malInfo anilistResult malTitles malYear
  <= bestTitleSimilarity malTitles (extractTitles anilistResult) * (6 # 10)
     + (35 # 100).
Proof.
  unfold calculateAniListMatchScoreFromMAL.
  set (title := bestTitleSimilarity _ _).
  pose proof (yearPoints_range malYear (yearOf anilistResult)) as [Hy0 Hy].
  pose proof (episodesPoints_range (MAL.num_episodes malInfo)
                (CrossMapper.episodes (AniList.core anilistResult)))
    as [He0 He].
  pose proof (above_range 70 (AniList.averageScore anilistResult) (5 # 100))
    as [Ha0 Ha]; [lra|].
  set (yp := yearPoints _ _) in *. set (ep := episodesPoints _ _) in *.
  set (ab := above _ _ _) in *. clearbody title yp ep ab. lra.
Qed.

Lemma calculateTMDBMatchScoreFromMAL_bound (malInfo : MAL.Media)
    (tmdbResult : TMDB.Media) (malTitles : list string) (malYear : option Z)
    (mediaType : string) :
  calculateTMDBMatchScoreFromMAL malInfo tmdbResult malTitles malYear mediaType
  <= fold_left
       (fun acc malTitle =>
          Qmax acc
            (calculateTitleSimilarity (normalizeTitle malTitle)
               (normalizeTitle (tmdbTitleOf tmdbResult))))
       malTitles 0 * (6 # 10)
     + (35 # 100).
Proof.
  unfold calculateTMDBMatchScoreFromMAL.
  set (title := fold_left _ _ _).
  pose proof (yearPoints_range malYear (extractYear (tmdbDateOf tmdbResult)))
    as [Hy0 Hy].
  pose proof (malFormatPoints_range (MAL.media_type malInfo) mediaType)
    as [Hf0 Hf].
  pose proof (above_range 7 (TMDB.vote_average tmdbResult) (5 # 100))
    as [Ha0 Ha]; [lra|].
  set (yp := yearPoints _ _) in *. set (fp := malFormatPoints _ _) in *.
  set (ab := above _ _ _) in *. clearbody title yp fp ab. lra.
Qed.

Lemma calculateMALMatchScoreFromTMDB_bound (tmdbInfo : TMDB.Media)
    (malResult : MAL.Media) (tmdbTitle : string) (tmdbYear : option Z)
    (mediaType : string) :
  calculateMALMatchScoreFromTMDB tmdbInfo malResult tmdbTitle tmdbYear mediaType
  <= fold_left
       (fun acc malTitle =>
          Qmax acc
            (calculateTitleSimilarity (normalizeTitle tmdbTitle)
               (normalizeTitle malTitle)))
       (extractMALTitles malResult) 0 * (6 # 10)
     + (4 # 10).
Proof.
  unfold calculateMALMatchScoreFromTMDB.
  set (title := fold_left _ _ _).
  pose proof (yearPoints_range tmdbYear (extractYear (MAL.start_date malResult)))
    as [Hy0 Hy].
  pose proof (malFormatPoints_range (MAL.media_type malResult) mediaType)
    as [Hf0 Hf].
  pose proof (above_range 7 (MAL.mean malResult) (1 # 10)) as [Ha0 Ha]; [lra|].
  set (yp := yearPoints _ _) in *. set (fp := malFormatPoints _ _) in *.
  set (ab := above _ _ _) in *. clearbody title yp fp ab. lra.
Qed.

Lemma calculateAniListMatchScore_bound (tmdbInfo : TMDB.Media)
    (anilistResult : AniList.Media) (tmdbTitle : string) (tmdbYear : option Z)
    (mediaType : string) :
  calculateAniListMatchScore tmdbInfo anilistResult tmdbTitle tmdbYear mediaType
  <= fold_left
       (fun acc title =>
          Qmax acc
            (calculateTitleSimilarity (normalizeTitle tmdbTitle)
               (normalizeTitle title)))
       (extractTitles anilistResult) 0 * (6 # 10)
     + (4 # 10).
Proof.
  unfold calculateAniListMatchScore.
  set (title := fold_left _ _ _).
  pose proof (yearPoints_range tmdbYear (yearOf anilistResult)) as [Hy0 Hy].
  pose proof (anilistFormatPoints_range (AniList.format anilistResult) mediaType)
    as [Hf0 Hf].
  pose proof (above_range 70 (AniList.averageScore anilistResult) (1 # 10))
    as [Ha0 Ha]; [lra|].
  set (yp := yearPoints _ _) in *. set (fp := anilistFormatPoints _ _) in *.
  set (ab := above _ _ _) in *. clearbody title yp fp ab. lra.
Qed.

Lemma max_loop_acc {A : Type} (g : A -> Q) (l : list A) :
  forall acc, acc <= fold_left (fun acc x => Qmax acc (g x)) l acc.
Proof.
  induction l as [|x l IH]; intros acc; cbn [fold_left]; [apply Qle_refl|].
  eapply Qle_trans; [apply Q.le_max_l|apply IH].
Qed.

Lemma max_loop_ge {A : Type} (g : A -> Q) (l : list A) (x : A) :
  In x l -> forall acc, g x <= fold_left (fun acc x => Qmax acc (g x)) l acc.
Proof.
  induction l as [|y l IH]; intros Hin acc; [destruct Hin|].
  cbn [fold_left]. destruct Hin as [->|Hin].
  - eapply Qle_trans; [apply Q.le_max_r|apply max_loop_acc].
  - now apply IH.
Qed.

Lemma title_loops_acc (titles1 titles2 : list string) :
  forall acc,
    acc <= fold_left
             (fun acc t1 =>
                fold_left
                  (fun acc t2 =>
                     Qmax acc
                       (calculateTitleSimilarity (normalizeTitle t1)
                          (normalizeTitle t2)))
                  titles2 acc)
             titles1 acc.
Proof.
  induction titles1 as [|t1 titles1 IH]; intros acc; cbn [fold_left];
    [apply Qle_refl|].
  eapply Qle_trans; [|apply IH].
  apply (max_loop_acc
           (fun t2 => calculateTitleSimilarity (normalizeTitle t1)
                        (normalizeTitle t2))).
Qed.

Lemma bestTitleSimilarity_ge (titles1 titles2 : list string) (t1 t2 : string) :
  In t1 titles1 -> In t2 titles2 ->
  calculateTitleSimilarity (normalizeTitle t1) (normalizeTitle t2)
  <= bestTitleSimilarity titles1 titles2.
Proof.
  intros H1 H2. unfold bestTitleSimilarity. generalize 0.
  induction titles1 as [|u titles1 IH]; intros acc; [destruct H1|].
  cbn [fold_left]. destruct H1 as [->|H1].
  - eapply Qle_trans; [|apply title_loops_acc].
    apply (max_loop_ge
             (fun t2 => calculateTitleSimilarity (normalizeTitle t1)
                          (normalizeTitle t2))).
    exact H2.
  - now apply IH.
Qed.

Lemma calculateTitleSimilarity_same (title : string) :
  nonEmpty title = true -> calculateTitleSimilarity title title = 1.
Proof.
  intros H. unfold calculateTitleSimilarity. rewrite H. cbn [negb orb].
  now rewrite String.eqb_refl.
Qed.

Lemma bestTitleSimilarity_same (titles1 titles2 : list string) :
  sameTitle titles1 titles2 -> 1 <= bestTitleSimilarity titles1 titles2.
Proof.
  intros (t1 & t2 & H1 & H2 & Hne & Heq).
  pose proof (bestTitleSimilarity_ge titles1 titles2 t1 t2 H1 H2) as H.
  assert (Hs : calculateTitleSimilarity (normalizeTitle t1) (normalizeTitle t2)
               = 1)
    by (rewrite <- Heq; apply calculateTitleSimilarity_same; exact Hne).
  rewrite Hs in H. exact H.
Qed.

Lemma title_loop_same (titles : list string) (other : string) :
  sameTitle titles [other] ->
  1 <= fold_left
         (fun acc title =>
            Qmax acc
              (calculateTitleSimilarity (normalizeTitle title)
                 (normalizeTitle other)))
         titles 0.
Proof.
  intros (t1 & t2 & H1 & [<-|[]] & Hne & Heq).
  pose proof (max_loop_ge
                (fun title =>
                   calculateTitleSimilarity (normalizeTitle title)
                     (normalizeTitle other)) titles t1 H1 0) as H.
  cbv beta in H.
  assert (Hs : calculateTitleSimilarity (normalizeTitle t1)
                 (normalizeTitle other) = 1)
    by (rewrite <- Heq; apply calculateTitleSimilarity_same; exact Hne).
  rewrite Hs in H. exact H.
Qed.

Lemma title_loop_same_r (titles : list string) (other : string) :
  sameTitle [other] titles ->
  1 <= fold_left
         (fun acc title =>
            Qmax acc
              (calculateTitleSimilarity (normalizeTitle other)
                 (normalizeTitle title)))
         titles 0.
Proof.
  intros (t1 & t2 & [<-|[]] & H2 & Hne & Heq).
  pose proof (max_loop_ge
                (fun title =>
                   calculateTitleSimilarity (normalizeTitle other)
                     (normalizeTitle title)) titles t2 H2 0) as H.
  cbv beta in H.
  assert (Hs : calculateTitleSimilarity (normalizeTitle other)
                 (normalizeTitle t2) = 1)
    by (rewrite <- Heq; apply calculateTitleSimilarity_same; exact Hne).
  rewrite Hs in H. exact H.
Qed.

Lemma yearPoints_same (a b : option Z) :
  sameYear a b -> yearPoints a b = 2 # 10.
Proof.
  intros (y & Ha & Hb). unfold yearPoints. rewrite Ha, Hb.
  now rewrite Z.eqb_refl.
Qed.

(** With an equal title and an equal year a score is at least 0.8. *)
Lemma calculateMALMatchScore_same (animeInfo : AniList.Media)
    (malResult : MAL.Media) (animeTitles : list string) (animeYear : option Z) :
  sameTitle animeTitles (extractMALTitles malResult) ->
  sameYear animeYear (extractYear (MAL.start_date malResult)) ->
  8 # 10 <= calculateMALMatchScore animeInfo malResult animeTitles animeYear.
Proof.
  intros Ht Hy. unfold calculateMALMatchScore.
  pose proof (bestTitleSimilarity_same _ _ Ht) as Htitle.
  pose proof (yearPoints_same _ _ Hy) as Hyear.
  destruct Hy as (y & -> & ->).
  pose proof (episodesPoints_range
                (CrossMapper.episodes (AniList.core animeInfo))
                (MAL.num_episodes malResult)) as [He0 _].
  pose proof (above_range 7 (MAL.mean malResult) (5 # 100)) as [Ha0 _]; [lra|].
  rewrite Hyear.
  set (title := bestTitleSimilarity _ _) in *. set (ep := episodesPoints _ _) in *.
  set (ab := above _ _ _) in *. clearbody title ep ab. lra.
Qed.

Lemma calculateAniListMatchScoreFromMAL_same (malInfo : MAL.Media)
    (anilistResult : AniList.Media) (malTitles : list string)
    (malYear : option Z) :
  sameTitle malTitles (extractTitles anilistResult) ->
  sameYear malYear (yearOf anilistResult) ->
  8 # 10
  <= calculateAniListMatchScoreFromMAL malInfo anilistResult malTitles malYear.
Proof.
  intros Ht Hy. unfold calculateAniListMatchScoreFromMAL.
  pose proof (bestTitleSimilarity_same _ _ Ht) as Htitle.
  rewrite (yearPoints_same _ _ Hy).
  pose proof (episodesPoints_range (MAL.num_episodes malInfo)
                (CrossMapper.episodes (AniList.core anilistResult)))
    as [He0 _].
  pose proof (above_range 70 (AniList.averageScore anilistResult) (5 # 100))
    as [Ha0 _]; [lra|].
  set (title := bestTitleSimilarity _ _) in *. set (ep := episodesPoints _ _) in *.
  set (ab := above _ _ _) in *. clearbody title ep ab. lra.
Qed.

Lemma calculateTMDBMatchScoreFromMAL_same (malInfo : MAL.Media)
    (tmdbResult : TMDB.Media) (malTitles : list string) (malYear : option Z)
    (mediaType : string) :
  sameTitle malTitles [tmdbTitleOf tmdbResult] ->
  sameYear malYear (extractYear (tmdbDateOf tmdbResult)) ->
  8 # 10
  <= calculateTMDBMatchScoreFromMAL malInfo tmdbResult malTitles malYear
       mediaType.
Proof.
  intros Ht Hy. unfold calculateTMDBMatchScoreFromMAL.
  pose proof (title_loop_same _ _ Ht) as Htitle.
  rewrite (yearPoints_same _ _ Hy).
  pose proof (malFormatPoints_range (MAL.media_type malInfo) mediaType)
    as [Hf0 _].
  pose proof (above_range 7 (TMDB.vote_average tmdbResult) (5 # 100))
    as [Ha0 _]; [lra|].
  set (title := fold_left _ _ _) in *. set (fp := malFormatPoints _ _) in *.
  set (ab := above _ _ _) in *. clearbody title fp ab. lra.
Qed.

Lemma calculateMALMatchScoreFromTMDB_same (tmdbInfo : TMDB.Media)
    (malResult : MAL.Media) (tmdbTitle : string) (tmdbYear : option Z)
    (mediaType : string) :
  sameTitle [tmdbTitle] (extractMALTitles malResult) ->
  sameYear tmdbYear (extractYear (MAL.start_date malResult)) ->
  8 # 10
  <= calculateMALMatchScoreFromTMDB tmdbInfo malResult tmdbTitle tmdbYear
       mediaType.
Proof.
  intros Ht Hy. unfold calculateMALMatchScoreFromTMDB.
  pose proof (title_loop_same_r _ _ Ht) as Htitle.
  rewrite (yearPoints_same _ _ Hy).
  pose proof (malFormatPoints_range (MAL.media_type malResult) mediaType)
    as [Hf0 _].
  pose proof (above_range 7 (MAL.mean malResult) (1 # 10)) as [Ha0 _]; [lra|].
  set (title := fold_left _ _ _) in *. set (fp := malFormatPoints _ _) in *.
  set (ab := above _ _ _) in *. clearbody title fp ab. lra.
Qed.

Lemma calculateAniListMatchScore_same (tmdbInfo : TMDB.Media)
    (anilistResult : AniList.Media) (tmdbTitle : string) (tmdbYear : option Z)
    (mediaType : string) :
  sameTitle [tmdbTitle] (extractTitles anilistResult) ->
  sameYear tmdbYear (yearOf anilistResult) ->
  8 # 10
  <= calculateAniListMatchScore tmdbInfo anilistResult tmdbTitle tmdbYear
       mediaType.
Proof.
  intros Ht Hy. unfold calculateAniListMatchScore.
  pose proof (title_loop_same_r _ _ Ht) as Htitle.
  rewrite (yearPoints_same _ _ Hy).
  pose proof (anilistFormatPoints_range (AniList.format anilistResult) mediaType)
    as [Hf0 _].
  pose proof (above_range 70 (AniList.averageScore anilistResult) (1 # 10))
    as [Ha0 _]; [lra|].
  set (title := fold_left _ _ _) in *. set (fp := anilistFormatPoints _ _) in *.
  set (ab := above _ _ _) in *. clearbody title fp ab. lra.
Qed.

Lemma title_loop_pos (titles : list string) (other : string) :
  0 < fold_left
        (fun acc title =>
           Qmax acc (calculateTitleSimilarity (normalizeTitle title) other))
        titles 0 ->
  exists title, In title titles /\ titlesResemble (normalizeTitle title) other.
Proof.
  intros H.
  apply (max_loop_pos
           (fun title => calculateTitleSimilarity (normalizeTitle title) other))
    in H.
  destruct H as [H|[t [Ht Hs]]]; [lra|].
  exists t. split; [exact Ht|]. now apply calculateTitleSimilarity_pos.
Qed.

Lemma title_loop_pos_r (titles : list string) (other : string) :
  0 < fold_left
        (fun acc title =>
           Qmax acc (calculateTitleSimilarity other (normalizeTitle title)))
        titles 0 ->
  exists title, In title titles /\ titlesResemble other (normalizeTitle title).
Proof.
  intros H.
  apply (max_loop_pos
           (fun title => calculateTitleSimilarity other (normalizeTitle title)))
    in H.
  destruct H as [H|[t [Ht Hs]]]; [lra|].
  exists t. split; [exact Ht|]. now apply calculateTitleSimilarity_pos.
Qed.

End MatchScores.

(** X16. The loop that the five result processors share, for whatever
    score the results are given: the answer is built from the first of the
    results of the greatest score among those that are not skipped,
    provided that score is above the threshold, and there is no answer
    exactly when no such result scores above the threshold.  The
    thresholds of the code, 0.5 and 0.6, are not negative. *)
Theorem result_processors_take_first_best :
  forall (R M : Type) (skip : R -> bool) (scoreOf : R -> Q) (threshold : Q)
         (build : R -> Q -> M) (results : list R),
    (0 <= threshold)%Q ->
    match Mapper.bestOf skip scoreOf threshold build results with
    | Some found =>
        exists result,
          firstBestAbove skip scoreOf threshold results result
          /\ found = build result (scoreOf result)
    | None =>
        forall result,
          In result results -> skip result = false ->
          (scoreOf result <= threshold)%Q
    end.
Proof.
  intros R M skip scoreOf threshold build results Hthreshold.
  apply bestOf_first_best. exact Hthreshold.
Qed.

Lemma result_processors_take_first_best_witness :
  exists result,
    firstBestAbove (fun _ : Z * Q => false) snd (6 # 10)
      [(11, 7 # 10); (12, 8 # 10); (13, 8 # 10); (14, 5 # 10)]%Z result
    /\ 12%Z = fst result.
Proof.
  pose proof (result_processors_take_first_best (Z * Q) Z (fun _ => false)
                snd (6 # 10) (fun result _ => fst result)
                [(11, 7 # 10); (12, 8 # 10); (13, 8 # 10); (14, 5 # 10)]%Z)
    as H.
  change (Mapper.bestOf _ _ _ _ _) with (Some 12%Z) in H.
  apply H. discriminate.
Defined.

(** X17. [findBestTMDBMatchFromMALResults] never answers an adult
    result.  Its answer, when there is one, is built from a listed result
    that is not adult, with the media type of the search and no season, a
    score above 0.6 and a title that resembles a title of the source; and
    there is an answer whenever a listed result that is not adult has a
    title of the source, once normalised, and its year. *)
Theorem findBestTMDBMatchFromMALResults_never_adult :
  forall (malInfo : Mapper.MAL.Media) (results : list Mapper.TMDB.Media)
         (mediaType : string),
    matchComesFrom (tmdbMatchOfMAL mediaType) (6 # 10)
      (fun result =>
         Mapper.TMDB.adult result = false
         /\ exists title,
              In title (Mapper.extractMALTitles malInfo)
              /\ titlesResemble (Mapper.normalizeTitle title)
                   (Mapper.normalizeTitle (Mapper.tmdbTitleOf result)))
      results
      (Mapper.findBestTMDBMatchFromMALResults malInfo results mediaType)
    /\ matchFoundFor
         (fun result =>
            Mapper.TMDB.adult result = false
            /\ sameTitle (Mapper.extractMALTitles malInfo)
                 [Mapper.tmdbTitleOf result]
            /\ sameYear (Mapper.extractYear (Mapper.MAL.start_date malInfo))
                 (Mapper.extractYear (Mapper.tmdbDateOf result)))
         results
         (Mapper.findBestTMDBMatchFromMALResults malInfo results mediaType).
Proof.
  intros malInfo results mediaType.
  unfold Mapper.findBestTMDBMatchFromMALResults.
  change (Mapper.bestOf Mapper.TMDB.adult _ (6 # 10) _ results)
    with (Mapper.bestOf Mapper.TMDB.adult (tmdbScoreOfMAL malInfo mediaType)
            (6 # 10) (tmdbMatchOfMAL mediaType) results).
  split.
  - intros found E. apply bestOf_chosen in E; [|lra].
    destruct E as (result & Hin & Hadult & Hfound & Hthr).
    exists result, (tmdbScoreOfMAL malInfo mediaType result).
    repeat split; try assumption.
    apply title_loop_pos.
    pose proof (calculateTMDBMatchScoreFromMAL_bound malInfo result
                  (Mapper.extractMALTitles malInfo)
                  (Mapper.extractYear (Mapper.MAL.start_date malInfo))
                  mediaType).
    unfold tmdbScoreOfMAL in Hthr. lra.
  - intros result Hin (Hadult & Htitle & Hyear).
    apply bestOf_answers with (result := result);
      [lra|exact Hin|exact Hadult|].
    pose proof (calculateTMDBMatchScoreFromMAL_same malInfo result _ _
                  mediaType Htitle Hyear).
    unfold tmdbScoreOfMAL. lra.
Qed.

Lemma findBestTMDBMatchFromMALResults_never_adult_witness :
  exists found,
    Mapper.findBestTMDBMatchFromMALResults bebopMAL [bebopAdult; bebopTMDB]
      "tv" = Some found
    /\ Mapper.TMDBMatch.id found = 30991%Z.
Proof.
  destruct (findBestTMDBMatchFromMALResults_never_adult bebopMAL
              [bebopAdult; bebopTMDB] "tv") as [Hfrom Hfound].
  destruct (Mapper.findBestTMDBMatchFromMALResults bebopMAL
              [bebopAdult; bebopTMDB] "tv") as [found|].
  - exists found. split; [reflexivity|].
    destruct (Hfrom found eq_refl)
      as (result & score & Hin & -> & _ & Hadult & _).
    destruct Hin as [<-|[<-|[]]]; [discriminate Hadult|reflexivity].
  - exfalso. apply (Hfound bebopTMDB); [right; left; reflexivity| |reflexivity].
    split; [reflexivity|]. split.
    + exists "Cowboy Bebop", "Cowboy Bebop".
      repeat split; left; reflexivity.
    + exists 1998%Z. split; reflexivity.
Defined.

(** X18. The four other result processors:
    [findBestMALMatchFromResults] with the threshold 0.5, and
    [findBestAniListMatchFromMALResults],
    [findBestMALMatchFromTMDBResults] and
    [findBestAniListMatchFromResults] with the threshold 0.6.  The answer
    of each, when there is one, is built from a listed result with a score
    above the threshold and a title that resembles a title of the source:
    the points of the year, the episodes, the format and the rating never
    reach a threshold alone.  And each has an answer whenever a listed
    result has a title of the source, once normalised, and its year. *)
Theorem result_processors_answer_a_resembling_result :
  forall (animeInfo : Mapper.AniList.Media) (malInfo : Mapper.MAL.Media)
         (tmdbInfo : Mapper.TMDB.Media) (mediaType : string)
         (anilistResults : list Mapper.AniList.Media)
         (malResults : list Mapper.MAL.Media),
    (matchComesFrom malMatchOf (5 # 10)
       (fun result =>
          someTitlesResemble (Mapper.extractTitles animeInfo)
            (Mapper.extractMALTitles result))
       malResults (Mapper.findBestMALMatchFromResults animeInfo malResults)
     /\ matchFoundFor
          (fun result =>
             sameTitle (Mapper.extractTitles animeInfo)
               (Mapper.extractMALTitles result)
             /\ sameYear (Mapper.yearOf animeInfo)
                  (Mapper.extractYear (Mapper.MAL.start_date result)))
          malResults (Mapper.findBestMALMatchFromResults animeInfo malResults))
    /\ (matchComesFrom Mapper.anilistMatchOf (6 # 10)
          (fun result =>
             someTitlesResemble (Mapper.extractMALTitles malInfo)
               (Mapper.extractTitles result))
          anilistResults
          (Mapper.findBestAniListMatchFromMALResults malInfo anilistResults)
        /\ matchFoundFor
             (fun result =>
                sameTitle (Mapper.extractMALTitles malInfo)
                  (Mapper.extractTitles result)
                /\ sameYear
                     (Mapper.extractYear (Mapper.MAL.start_date malInfo))
                     (Mapper.yearOf result))
             anilistResults
             (Mapper.findBestAniListMatchFromMALResults malInfo anilistResults))
    /\ (matchComesFrom malMatchOf (6 # 10)
          (fun result =>
             exists title,
               In title (Mapper.extractMALTitles result)
               /\ titlesResemble
                    (Mapper.normalizeTitle (Mapper.tmdbTitleOf tmdbInfo))
                    (Mapper.normalizeTitle title))
          malResults
          (Mapper.findBestMALMatchFromTMDBResults tmdbInfo malResults mediaType)
        /\ matchFoundFor
             (fun result =>
                sameTitle [Mapper.tmdbTitleOf tmdbInfo]
                  (Mapper.extractMALTitles result)
                /\ sameYear (Mapper.extractYear (Mapper.tmdbDateOf tmdbInfo))
                     (Mapper.extractYear (Mapper.MAL.start_date result)))
             malResults
             (Mapper.findBestMALMatchFromTMDBResults tmdbInfo malResults
                mediaType))
    /\ (matchComesFrom Mapper.anilistMatchOf (6 # 10)
          (fun result =>
             exists title,
               In title (Mapper.extractTitles result)
               /\ titlesResemble
                    (Mapper.normalizeTitle (Mapper.tmdbTitleOf tmdbInfo))
                    (Mapper.normalizeTitle title))
          anilistResults
          (Mapper.findBestAniListMatchFromResults tmdbInfo anilistResults
             mediaType)
        /\ matchFoundFor
             (fun result =>
                sameTitle [Mapper.tmdbTitleOf tmdbInfo]
                  (Mapper.extractTitles result)
                /\ sameYear (Mapper.extractYear (Mapper.tmdbDateOf tmdbInfo))
                     (Mapper.yearOf result))
             anilistResults
             (Mapper.findBestAniListMatchFromResults tmdbInfo anilistResults
                mediaType)).
Proof.
  intros animeInfo malInfo tmdbInfo mediaType anilistResults malResults.
  split; [|split; [|split]].
  - unfold Mapper.findBestMALMatchFromResults.
    change (Mapper.bestOf _ _ (5 # 10) _ malResults)
      with (Mapper.bestOf (fun _ : Mapper.MAL.Media => false)
              (malScoreOf animeInfo) (5 # 10) malMatchOf malResults).
    split.
    + intros found E. apply bestOf_chosen in E; [|lra].
      destruct E as (result & Hin & _ & Hfound & Hthr).
      exists result, (malScoreOf animeInfo result).
      repeat split; try assumption.
      apply bestTitleSimilarity_pos.
      pose proof (calculateMALMatchScore_bound animeInfo result
                    (Mapper.extractTitles animeInfo) (Mapper.yearOf animeInfo)).
      unfold malScoreOf in Hthr. lra.
    + intros result Hin (Htitle & Hyear).
      apply bestOf_answers with (result := result);
        [lra|exact Hin|reflexivity|].
      pose proof (calculateMALMatchScore_same animeInfo result _ _ Htitle Hyear).
      unfold malScoreOf. lra.
  - unfold Mapper.findBestAniListMatchFromMALResults.
    change (Mapper.bestOf _ _ (6 # 10) _ anilistResults)
      with (Mapper.bestOf (fun _ : Mapper.AniList.Media => false)
              (anilistScoreOfMAL malInfo) (6 # 10) Mapper.anilistMatchOf
              anilistResults).
    split.
    + intros found E. apply bestOf_chosen in E; [|lra].
      destruct E as (result & Hin & _ & Hfound & Hthr).
      exists result, (anilistScoreOfMAL malInfo result).
      repeat split; try assumption.
      apply bestTitleSimilarity_pos.
      pose proof (calculateAniListMatchScoreFromMAL_bound malInfo result
                    (Mapper.extractMALTitles malInfo)
                    (Mapper.extractYear (Mapper.MAL.start_date malInfo))).
      unfold anilistScoreOfMAL in Hthr. lra.
    + intros result Hin (Htitle & Hyear).
      apply bestOf_answers with (result := result);
        [lra|exact Hin|reflexivity|].
      pose proof (calculateAniListMatchScoreFromMAL_same malInfo result _ _
                    Htitle Hyear).
      unfold anilistScoreOfMAL. lra.
  - unfold Mapper.findBestMALMatchFromTMDBResults.
    change (Mapper.bestOf _ _ (6 # 10) _ malResults)
      with (Mapper.bestOf (fun _ : Mapper.MAL.Media => false)
              (malScoreOfTMDB tmdbInfo mediaType) (6 # 10) malMatchOf
              malResults).
    split.
    + intros found E. apply bestOf_chosen in E; [|lra].
      destruct E as (result & Hin & _ & Hfound & Hthr).
      exists result, (malScoreOfTMDB tmdbInfo mediaType result).
      repeat split; try assumption.
      apply title_loop_pos_r.
      pose proof (calculateMALMatchScoreFromTMDB_bound tmdbInfo result
                    (Mapper.tmdbTitleOf tmdbInfo)
                    (Mapper.extractYear (Mapper.tmdbDateOf tmdbInfo))
                    mediaType).
      unfold malScoreOfTMDB in Hthr. lra.
    + intros result Hin (Htitle & Hyear).
      apply bestOf_answers with (result := result);
        [lra|exact Hin|reflexivity|].
      pose proof (calculateMALMatchScoreFromTMDB_same tmdbInfo result _ _
                    mediaType Htitle Hyear).
      unfold malScoreOfTMDB. lra.
  - unfold Mapper.findBestAniListMatchFromResults.
    change (Mapper.bestOf _ _ (6 # 10) _ anilistResults)
      with (Mapper.bestOf (fun _ : Mapper.AniList.Media => false)
              (anilistScoreOfTMDB tmdbInfo mediaType) (6 # 10)
              Mapper.anilistMatchOf anilistResults).
    split.
    + intros found E. apply bestOf_chosen in E; [|lra].
      destruct E as (result & Hin & _ & Hfound & Hthr).
      exists result, (anilistScoreOfTMDB tmdbInfo mediaType result).
      repeat split; try assumption.
      apply title_loop_pos_r.
      pose proof (calculateAniListMatchScore_bound tmdbInfo result
                    (Mapper.tmdbTitleOf tmdbInfo)
                    (Mapper.extractYear (Mapper.tmdbDateOf tmdbInfo))
                    mediaType).
      unfold anilistScoreOfTMDB in Hthr. lra.
    + intros result Hin (Htitle & Hyear).
      apply bestOf_answers with (result := result);
        [lra|exact Hin|reflexivity|].
      pose proof (calculateAniListMatchScore_same tmdbInfo result _ _
                    mediaType Htitle Hyear).
      unfold anilistScoreOfTMDB. lra.
Qed.

Lemma result_processors_answer_a_resembling_result_witness :
  (exists found,
      Mapper.findBestMALMatchFromResults bebopAniList [bebopMAL] = Some found
      /\ Mapper.MALMatch.id found = 1%Z)
  /\ (exists found,
         Mapper.findBestAniListMatchFromResults bebopTMDB [bebopAniList] "tv"
         = Some found
         /\ Mapper.AniListMatch.id found = 1%Z).
Proof.
  destruct (result_processors_answer_a_resembling_result bebopAniList bebopMAL
              bebopTMDB "tv" [bebopAniList] [bebopMAL])
    as ((Hfrom1 & Hfound1) & _ & _ & (Hfrom4 & Hfound4)).
  split.
  - destruct (Mapper.findBestMALMatchFromResults bebopAniList [bebopMAL])
      as [found|].
    + exists found. split; [reflexivity|].
      destruct (Hfrom1 found eq_refl) as (result & score & Hin & -> & _).
      destruct Hin as [<-|[]]. reflexivity.
    + exfalso. apply (Hfound1 bebopMAL); [left; reflexivity| |reflexivity].
      split.
      * exists "Cowboy Bebop", "Cowboy Bebop".
        repeat split; left; reflexivity.
      * exists 1998%Z. split; reflexivity.
  - destruct (Mapper.findBestAniListMatchFromResults bebopTMDB [bebopAniList]
                "tv") as [found|].
    + exists found. split; [reflexivity|].
      destruct (Hfrom4 found eq_refl) as (result & score & Hin & -> & _).
      destruct Hin as [<-|[]]. reflexivity.
    + exfalso. apply (Hfound4 bebopAniList); [left; reflexivity| |reflexivity].
      split.
      * exists "Cowboy Bebop", "Cowboy Bebop".
        repeat split; left; reflexivity.
      * exists 1998%Z. split; reflexivity.
Defined.

Section Titles.
Import Js Mapper.

Lemma dedupe_head_from (l : list string) :
  forall x acc,
    hd_error (fold_left (fun acc t => WordVariations.setAdd t acc) l (x :: acc))
    = Some x.
Proof.
  induction l as [|y l IH]; intros x acc; cbn [fold_left]; [reflexivity|].
  unfold WordVariations.setAdd at 2.
  destruct (existsb (String.eqb y) (x :: acc)); [apply IH|].
  cbn [app]. apply IH.
Qed.

Lemma dedupe_head (x : string) (l : list string) :
  hd_error (HiAnime.dedupe (x :: l)) = Some x.
Proof. unfold HiAnime.dedupe. cbn [fold_left]. apply dedupe_head_from. Qed.

Lemma distinctTitles_spec (titles : list string) :
  List.NoDup (distinctTitles titles)
  /\ forall t,
       In t (distinctTitles titles) <-> nonEmpty (trim t) = true /\ In t titles.
Proof.
  unfold distinctTitles. split.
  - apply NoDup_ListNoDup, NoDup_filter_list, dedupe_NoDup.
  - intros t. rewrite filter_In, dedupe_In. tauto.
Qed.

Lemma distinctTitles_head (x : string) (titles : list string) :
  nonEmpty (trim x) = true ->
  hd_error (distinctTitles (x :: titles)) = Some x.
Proof.
  intros Hx. unfold distinctTitles.
  pose proof (dedupe_head x titles) as H.
  destruct (HiAnime.dedupe (x :: titles)) as [|y rest]; [discriminate|].
  injection H as ->. cbn [List.filter]. now rewrite Hx.
Qed.

Lemma pushTitle_In (t : option string) (titles : list string) (x : string) :
  In x (pushTitle t titles) <-> In x titles \/ (t = Some x /\ nonEmpty x = true).
Proof.
  unfold pushTitle. destruct t as [s|].
  - destruct (nonEmpty s) eqn:E.
    + rewrite in_app_iff. cbn. split.
      * intros [H|[<-|[]]]; [now left|now right].
      * intros [H|[[= ->] _]]; [now left|right; now left].
    + split; [now left|]. intros [H|[[= ->] H]]; [exact H|congruence].
  - split; [now left|]. now intros [H|[[=] _]].
Qed.

Lemma not_blank_nonEmpty (t : string) :
  nonEmpty (trim t) = true -> nonEmpty t = true.
Proof. destruct t; [discriminate|reflexivity]. Qed.

End Titles.

(** X19. [extractTitles] and [extractMALTitles] answer titles that
    are pairwise distinct and not blank: exactly the non-blank titles of
    the entry (for AniList the English, romaji, preferred and native
    titles and the synonyms; for MAL the title, the English and Japanese
    titles and the synonyms).  The English title of AniList and the title
    of MAL come first when they are not blank. *)
Theorem extractTitles_distinct_and_not_blank :
  forall (animeInfo : Mapper.AniList.Media) (malInfo : Mapper.MAL.Media),
    (List.NoDup (Mapper.extractTitles animeInfo)
     /\ (forall t,
            In t (Mapper.extractTitles animeInfo) <->
            Js.nonEmpty (Js.trim t) = true
            /\ (Mapper.AniList.english (Mapper.AniList.title animeInfo) = Some t
                \/ Mapper.AniList.romaji (Mapper.AniList.title animeInfo) = Some t
                \/ Mapper.AniList.userPreferred (Mapper.AniList.title animeInfo)
                   = Some t
                \/ Mapper.AniList.native (Mapper.AniList.title animeInfo) = Some t
                \/ In t (Mapper.AniList.synonyms animeInfo)))
     /\ (forall t,
            Mapper.AniList.english (Mapper.AniList.title animeInfo) = Some t ->
            Js.nonEmpty (Js.trim t) = true ->
            hd_error (Mapper.extractTitles animeInfo) = Some t))
    /\ (List.NoDup (Mapper.extractMALTitles malInfo)
        /\ (forall t,
               In t (Mapper.extractMALTitles malInfo) <->
               Js.nonEmpty (Js.trim t) = true
               /\ (t = Mapper.MAL.title malInfo
                   \/ exists alt,
                        Mapper.MAL.alternative_titles malInfo = Some alt
                        /\ (Mapper.MAL.english alt = Some t
                            \/ Mapper.MAL.japanese alt = Some t
                            \/ exists synonyms,
                                 Mapper.MAL.synonyms alt = Some synonyms
                                 /\ In t synonyms)))
        /\ (Js.nonEmpty (Js.trim (Mapper.MAL.title malInfo)) = true ->
            hd_error (Mapper.extractMALTitles malInfo)
            = Some (Mapper.MAL.title malInfo))).
Proof.
  intros animeInfo malInfo. split.
  - unfold Mapper.extractTitles.
    set (t0 := Mapper.AniList.title animeInfo).
    split; [apply distinctTitles_spec|]. split.
    + intros t. rewrite (proj2 (distinctTitles_spec _)).
      rewrite in_app_iff, !pushTitle_In. cbn [In]. split.
      * intros [Hb [[[[[[]|[H _]]|[H _]]|[H _]]|[H _]]|H]]; split; auto 10.
      * intros [Hb H]. split; [exact Hb|].
        pose proof (not_blank_nonEmpty t Hb) as Hn.
        destruct H as [H|[H|[H|[H|H]]]]; auto 10.
    + intros t He Hb. rewrite He. unfold Mapper.pushTitle at 4.
      rewrite (not_blank_nonEmpty t Hb). cbn [app].
      set (rest := Mapper.pushTitle _ (Mapper.pushTitle _ (Mapper.pushTitle _ [t]))).
      assert (Hrest : exists more, rest = t :: more).
      { unfold rest, Mapper.pushTitle.
        destruct (Mapper.AniList.romaji t0) as [r|];
          [destruct (Js.nonEmpty r)|];
          (destruct (Mapper.AniList.userPreferred t0) as [u|];
           [destruct (Js.nonEmpty u)|]);
          (destruct (Mapper.AniList.native t0) as [n|];
           [destruct (Js.nonEmpty n)|]); cbn [app]; eauto. }
      destruct Hrest as [more ->]. cbn [app].
      now apply distinctTitles_head.
  - unfold Mapper.extractMALTitles.
    split; [apply distinctTitles_spec|]. split.
    + intros t. rewrite (proj2 (distinctTitles_spec _)).
      destruct (Mapper.MAL.alternative_titles malInfo) as [alt|].
      * destruct (Mapper.MAL.synonyms alt) as [synonyms|] eqn:Es.
        -- rewrite in_app_iff, !pushTitle_In. cbn [In]. split.
           ++ intros [Hb [[[[<-|[]]|[H _]]|[H _]]|H]]; split; auto.
              ** right. exists alt. auto.
              ** right. exists alt. auto.
              ** right. exists alt. split; [reflexivity|]. right. right.
                 now exists synonyms.
           ++ intros [Hb H]. split; [exact Hb|].
              pose proof (not_blank_nonEmpty t Hb) as Hn.
              destruct H as [->|[alt' [[= <-] [H|[H|[syn [Hs H]]]]]]]; auto 10.
              rewrite Es in Hs. injection Hs as <-. now right.
        -- rewrite !pushTitle_In. cbn [In]. split.
           ++ intros [Hb [[[<-|[]]|[H _]]|[H _]]]; split; auto.
              ** right. exists alt. auto.
              ** right. exists alt. auto.
           ++ intros [Hb H]. split; [exact Hb|].
              pose proof (not_blank_nonEmpty t Hb) as Hn.
              destruct H as [->|[alt' [[= <-] [H|[H|[syn [Hs H]]]]]]]; auto 10.
              congruence.
      * cbn [In]. split.
        -- intros [Hb [<-|[]]]. split; auto.
        -- intros [Hb [->|[alt [[=] _]]]]. split; auto.
    + intros Hb.
      assert (Hrest : exists more,
                 match Mapper.MAL.alternative_titles malInfo with
                 | Some alt =>
                     match Mapper.MAL.synonyms alt with
                     | Some synonyms =>
                         Mapper.pushTitle (Mapper.MAL.japanese alt)
                           (Mapper.pushTitle (Mapper.MAL.english alt)
                              [Mapper.MAL.title malInfo]) ++ synonyms
                     | None =>
                         Mapper.pushTitle (Mapper.MAL.japanese alt)
                           (Mapper.pushTitle (Mapper.MAL.english alt)
                              [Mapper.MAL.title malInfo])
                     end
                 | None => [Mapper.MAL.title malInfo]
                 end = Mapper.MAL.title malInfo :: more).
      { destruct (Mapper.MAL.alternative_titles malInfo) as [alt|]; [|eauto].
        unfold Mapper.pushTitle.
        destruct (Mapper.MAL.english alt) as [e|]; [destruct (Js.nonEmpty e)|];
          (destruct (Mapper.MAL.japanese alt) as [j|];
           [destruct (Js.nonEmpty j)|]);
          destruct (Mapper.MAL.synonyms alt); cbn [app]; eauto. }
      destruct Hrest as [more ->]. now apply distinctTitles_head.
Qed.

Section LevenshteinSimilarity.
Import Js Mapper.
Local Open Scope Q_scope.

Lemma getLevenshteinSimilarity_sym (str1 str2 : string) :
  getLevenshteinSimilarity str2 str1 = getLevenshteinSimilarity str1 str2.
Proof.
  unfold getLevenshteinSimilarity.
  now rewrite (levenshteinDistance_sym str2 str1), Nat.max_comm.
Qed.

Lemma length_zero (s : string) : String.length s = 0%nat -> s = EmptyString.
Proof. destruct s; [reflexivity|discriminate]. Qed.

Lemma getLevenshteinSimilarity_one (str1 str2 : string) (sim : Q) :
  getLevenshteinSimilarity str1 str2 = Some sim ->
  (sim == 1 <-> str1 = str2).
Proof.
  unfold getLevenshteinSimilarity.
  destruct (Nat.max (String.length str1) (String.length str2) =? 0)%nat eqn:E;
    [discriminate|].
  apply Nat.eqb_neq in E. intros [= <-].
  set (longest := Nat.max (String.length str1) (String.length str2)) in *.
  assert (Hl : 0 < inject_Z (Z.of_nat longest)) by (apply inject_nat_pos; lia).
  rewrite <- levenshteinDistance_zero_iff.
  set (distance := HiAnime.levenshteinDistance str1 str2).
  split.
  - intros H.
    assert (Hd : inject_Z (Z.of_nat distance) / inject_Z (Z.of_nat longest) == 0)
      by lra.
    assert (Hn : ~ inject_Z (Z.of_nat longest) == 0).
    { intros Hc. rewrite Hc in Hl. apply (Qlt_irrefl 0 Hl). }
    assert (Hz : inject_Z (Z.of_nat distance) == 0).
    { rewrite <- (Qmult_div_r (inject_Z (Z.of_nat distance))
                    (inject_Z (Z.of_nat longest)) Hn).
      rewrite Hd. lra. }
    unfold Qeq in Hz. cbn in Hz. lia.
  - intros ->. change (inject_Z (Z.of_nat 0)) with 0.
    unfold Qdiv. rewrite Qmult_0_l. lra.
Qed.

End LevenshteinSimilarity.

(** X20. [getLevenshteinSimilarity] is symmetric; it is NaN only for
    two empty strings, and otherwise a number of [0,1] that is 1 exactly
    for equal strings. *)
Theorem getLevenshteinSimilarity_is_a_similarity :
  forall str1 str2 : string,
    Mapper.getLevenshteinSimilarity str2 str1
    = Mapper.getLevenshteinSimilarity str1 str2
    /\ match Mapper.getLevenshteinSimilarity str1 str2 with
       | Some sim => inUnit sim /\ (sim == 1 <-> str1 = str2)%Q
       | None => str1 = EmptyString /\ str2 = EmptyString
       end.
Proof.
  intros str1 str2. split; [apply getLevenshteinSimilarity_sym|].
  destruct (Mapper.getLevenshteinSimilarity str1 str2) as [sim|] eqn:E.
  - split; [now apply getLevenshteinSimilarity_unit in E|].
    now apply getLevenshteinSimilarity_one.
  - unfold Mapper.getLevenshteinSimilarity in E.
    destruct (Nat.max (String.length str1) (String.length str2) =? 0)%nat eqn:El;
      [|discriminate].
    apply Nat.eqb_eq in El. split; apply length_zero; lia.
Qed.

(** X21. [calculateTitleSimilarity] lies in [0,1], and it is positive
    exactly when both titles are not empty and either they are equal, or
    a word of more than two letters of the one equals one of the other,
    or two of their words of more than three letters have a Levenshtein
    similarity above 0.7. *)
Theorem calculateTitleSimilarity_positive_iff_resemble :
  forall title1 title2 : string,
    inUnit (Mapper.calculateTitleSimilarity title1 title2)
    /\ ((0 < Mapper.calculateTitleSimilarity title1 title2)%Q
        <-> titlesResemble title1 title2).
Proof.
  intros title1 title2. split.
  - apply calculateTitleSimilarity_unit.
  - apply calculateTitleSimilarity_pos.
Qed.

(** ** The seasons in the cache, and the flows of the cross mapper *)

Section SeasonsCache.
Import MapperCache.
Local Open Scope Z_scope.
Variable requestTV : Z -> option (option (list Season)).

Lemma seasonsNumbered_delete (key : string)
    (cache : gmap string (CacheItem (list Season))) :
  seasonsNumbered cache -> seasonsNumbered (delete key cache).
Proof.
  intros H k item Hk. apply lookup_delete_Some in Hk. now apply (H k).
Qed.

Lemma seasonsNumbered_set (key : string) (seasons : list Season) (now : Z)
    (cache : gmap string (CacheItem (list Season))) :
  Forall (fun s => 0 < season_number s) seasons ->
  seasonsNumbered cache -> seasonsNumbered (setCache key seasons now cache).
Proof.
  intros Hs H k item Hk. unfold setCache in Hk.
  apply lookup_insert_Some in Hk. destruct Hk as [[_ <-]|[_ Hk]].
  - exact Hs.
  - now apply (H k).
Qed.

Lemma getFromCache_numbered (key : string) (now : Z)
    (cache : gmap string (CacheItem (list Season))) :
  seasonsNumbered cache ->
  seasonsNumbered (snd (getFromCache key now cache))
  /\ forall seasons,
       fst (getFromCache key now cache) = Some seasons ->
       Forall (fun s => 0 < season_number s) seasons.
Proof.
  intros H. unfold getFromCache.
  destruct (cache !! key) as [item|] eqn:E.
  - destruct (expiry item <? now); cbn [fst snd].
    + split; [now apply seasonsNumbered_delete|discriminate].
    + split; [exact H|]. intros seasons [= <-]. now apply (H key).
  - cbn [fst snd]. split; [now apply seasonsNumbered_delete|discriminate].
Qed.

Lemma filter_numbered (l : list Season) :
  Forall (fun s => 0 < season_number s)
    (List.filter (fun s => 0 <? season_number s) l).
Proof.
  apply List.Forall_forall. intros s Hs. apply filter_In in Hs.
  now apply Z.ltb_lt.
Qed.

Lemma getTMDBSeasons_numbered (tvId now later : Z)
    (cache : gmap string (CacheItem (list Season))) :
  seasonsNumbered cache ->
  seasonsNumbered (snd (getTMDBSeasons requestTV tvId now later cache))
  /\ forall seasons,
       fst (getTMDBSeasons requestTV tvId now later cache) = Some seasons ->
       Forall (fun s => 0 < season_number s) seasons.
Proof.
  intros H. unfold getTMDBSeasons.
  destruct (getFromCache_numbered ("tmdb_seasons_" ++ Js.showZ tvId) now cache H)
    as [Hc Hs].
  destruct (getFromCache _ now cache) as [[cached|] cache1]; cbn [fst snd] in *.
  - split; [exact Hc|]. intros seasons [= <-]. now apply Hs.
  - destruct (requestTV tvId) as [response|]; cbn [fst snd].
    + assert (Hf : Forall (fun s => 0 < season_number s)
                     match response with
                     | Some l => List.filter (fun s => 0 <? season_number s) l
                     | None => []
                     end).
      { destruct response; [apply filter_numbered|constructor]. }
      split; [now apply seasonsNumbered_set|]. now intros seasons [= <-].
    + split; [exact Hc|discriminate].
Qed.

Lemma detectTMDBSeason_numbered (tmdbId : Z)
    (animeInfo : CrossMapper.AniListMedia) (animeYear : option Z)
    (now later : Z) (cache : gmap string (CacheItem (list Season))) :
  seasonsNumbered cache ->
  seasonsNumbered
    (snd (detectTMDBSeason requestTV tmdbId animeInfo animeYear now later cache))
  /\ match
       fst (detectTMDBSeason requestTV tmdbId animeInfo animeYear now later
              cache)
     with
     | Some detected => 0 < CrossMapper.seasonNumber detected
     | None => True
     end.
Proof.
  intros H. unfold detectTMDBSeason.
  destruct (getTMDBSeasons_numbered tmdbId now later cache H) as [Hc Hs].
  destruct (getTMDBSeasons requestTV tmdbId now later cache)
    as [seasons cache1]; cbn [fst snd] in *.
  split; [exact Hc|].
  pose proof (detectTMDBSeason_near
                (fun _ => option_map (map readSeason) seasons)
                tmdbId animeInfo animeYear) as Hnear.
  destruct (CrossMapper.detectTMDBSeason _ _ tmdbId animeInfo animeYear)
    as [detected|]; [|exact I].
  destruct Hnear as [list [season [Hl [Hin [Hd _]]]]].
  destruct seasons as [seasons|]; [|discriminate].
  cbn [option_map] in Hl. injection Hl as <-.
  apply in_map_iff in Hin. destruct Hin as [s [<- Hin]].
  rewrite Hd. cbn [detectedAs CrossMapper.seasonNumber readSeason
                     CrossMapper.season_number].
  specialize (Hs seasons eq_refl).
  rewrite List.Forall_forall in Hs. now apply Hs.
Qed.

Lemma getTMDBSeasons_stored (tvId now later : Z)
    (cache : gmap string (CacheItem (list Season)))
    (seasons : list Season) (cache' : gmap string (CacheItem (list Season))) :
  fst (getFromCache (seasonsKey tvId) now cache) = None ->
  getTMDBSeasons requestTV tvId now later cache = (Some seasons, cache') ->
  cache' = setCache (seasonsKey tvId) seasons later
             (delete (seasonsKey tvId) cache).
Proof.
  unfold getTMDBSeasons, seasonsKey, getFromCache.
  destruct (cache !! _) as [item|].
  - destruct (expiry item <? now); cbn [fst]; [|discriminate].
    intros _. destruct (requestTV tvId); [|discriminate].
    now intros [= <- <-].
  - intros _. destruct (requestTV tvId); [|discriminate].
    now intros [= <- <-].
Qed.

End SeasonsCache.

(** X22. With the seasons that [getTMDBSeasons] answers,
    [detectTMDBSeason] never answers season 0 (the specials) or a
    negative number, and the cache goes on holding numbered seasons only,
    provided that it held only such seasons before, as the empty cache
    does. *)
Theorem detectTMDBSeason_never_answers_the_specials :
  forall (requestTV : Z -> option (option (list MapperCache.Season)))
         (tmdbId : Z) (animeInfo : CrossMapper.AniListMedia)
         (animeYear : option Z) (now later : Z)
         (cache : gmap string (MapperCache.CacheItem (list MapperCache.Season))),
    seasonsNumbered cache ->
    seasonsNumbered
      (snd (MapperCache.detectTMDBSeason requestTV tmdbId animeInfo animeYear
              now later cache))
    /\ match
         fst (MapperCache.detectTMDBSeason requestTV tmdbId animeInfo animeYear
                now later cache)
       with
       | Some detected => (0 < CrossMapper.seasonNumber detected)%Z
       | None => True
       end.
Proof.
  intros requestTV tmdbId animeInfo animeYear now later cache.
  apply detectTMDBSeason_numbered.
Qed.

Lemma detectTMDBSeason_never_answers_the_specials_witness :
  seasonsNumbered
    (snd (MapperCache.detectTMDBSeason sampleShow 1%Z sampleMedia None
            0%Z 5%Z ∅))
  /\ match
       fst (MapperCache.detectTMDBSeason sampleShow 1%Z sampleMedia None
              0%Z 5%Z ∅)
     with
     | Some detected => (0 < CrossMapper.seasonNumber detected)%Z
     | None => True
     end.
Proof.
  apply (detectTMDBSeason_never_answers_the_specials sampleShow 1%Z sampleMedia
           None 0%Z 5%Z ∅).
  intros key item H. rewrite lookup_empty in H. discriminate.
Defined.

(** X23. Once [getTMDBSeasons] has fetched the seasons of a show, it
    answers the same seasons from the cache for the next 30 minutes,
    without a change of the cache and whatever the request would answer
    then. *)
Theorem getTMDBSeasons_answers_from_cache :
  forall (requestTV requestAgain : Z -> option (option (list MapperCache.Season)))
         (tvId now later again stored : Z)
         (cache cache' : gmap string (MapperCache.CacheItem (list MapperCache.Season)))
         (seasons : list MapperCache.Season),
    fst (MapperCache.getFromCache (seasonsKey tvId) now cache) = None ->
    MapperCache.getTMDBSeasons requestTV tvId now later cache
    = (Some seasons, cache') ->
    (again <= later + 1800000)%Z ->
    MapperCache.getTMDBSeasons requestAgain tvId again stored cache'
    = (Some seasons, cache').
Proof.
  intros requestTV requestAgain tvId now later again stored cache cache' seasons
    Hmiss Hrun Hagain.
  rewrite (getTMDBSeasons_stored requestTV tvId now later cache seasons cache'
             Hmiss Hrun).
  unfold MapperCache.getTMDBSeasons. fold (seasonsKey tvId).
  now rewrite getFromCache_fresh.
Qed.

Lemma getTMDBSeasons_answers_from_cache_witness :
  MapperCache.getTMDBSeasons (fun _ => None) 1%Z 1000%Z 1001%Z
    (snd (MapperCache.getTMDBSeasons sampleShow 1%Z 0%Z 5%Z ∅))
  = (Some [sampleFirst; sampleSecond],
     snd (MapperCache.getTMDBSeasons sampleShow 1%Z 0%Z 5%Z ∅)).
Proof.
  apply (getTMDBSeasons_answers_from_cache sampleShow (fun _ => None) 1%Z 0%Z
           5%Z 1000%Z 1001%Z ∅).
  - reflexivity.
  - reflexivity.
  - lia.
Defined.

Section FirstMatch.
Import MapperFlow.
Context {A B : Type}.

Lemma firstMatch_first (f : A -> option B) (l : list A) :
  match firstMatch f l with
  | Some found => exists x, firstAnswer f l x found
  | None => forall x, In x l -> f x = None
  end.
Proof.
  induction l as [|x l IH]; cbn [firstMatch]; [intros x []|].
  destruct (f x) as [found|] eqn:E.
  - exists x, [], l. split; [reflexivity|]. split; [exact E|]. intros y [].
  - destruct (firstMatch f l) as [found|].
    + destruct IH as [y [before [after [-> [Hy Hb]]]]].
      exists y, (x :: before), after. split; [reflexivity|].
      split; [exact Hy|]. intros z [<-|Hz]; [exact E|now apply Hb].
    + intros y [<-|Hy]; [exact E|now apply IH].
Qed.

Lemma firstMatch_app (f : A -> option B) (l1 l2 : list A) :
  firstMatch f (l1 ++ l2)
  = match firstMatch f l1 with
    | Some found => Some found
    | None => firstMatch f l2
    end.
Proof.
  induction l1 as [|x l1 IH]; cbn [app firstMatch]; [reflexivity|].
  destruct (f x); [reflexivity|exact IH].
Qed.

End FirstMatch.

Section FirstMatchPairs.
Import MapperFlow.
Context {A C B : Type}.

Lemma firstMatch_map (g : A -> C -> option B) (x : A) (ys : list C) :
  firstMatch (fun p => g (fst p) (snd p)) (map (pair x) ys)
  = firstMatch (g x) ys.
Proof.
  induction ys as [|y ys IH]; cbn [map firstMatch fst snd]; [reflexivity|].
  destruct (g x y); [reflexivity|exact IH].
Qed.

Lemma firstMatch_pairs (g : A -> C -> option B) (xs : list A) (ys : list C) :
  firstMatch (fun x => firstMatch (g x) ys) xs
  = firstMatch (fun p => g (fst p) (snd p))
      (flat_map (fun x => map (pair x) ys) xs).
Proof.
  induction xs as [|x xs IH]; cbn [flat_map firstMatch]; [reflexivity|].
  rewrite firstMatch_app, firstMatch_map, IH. reflexivity.
Qed.

End FirstMatchPairs.

(** X24. [mapFromMAL] throws 'MAL ID ... not found' exactly when no
    client id is configured or the lookup answers nothing.  Otherwise its
    MAL part is the entry looked up, its AniList part is the match of the
    first title of the entry whose search gives one, and its TMDB part is
    the match of the first search that gives one, title by title, tv
    before movie; a part is missing only when no search gives a match. *)
Theorem mapFromMAL_takes_first_answering_search :
  forall (malClientId : string)
         (requestAniListSearch : string -> list Mapper.AniList.Media)
         (requestTMDBSearch : string -> string -> list Mapper.TMDB.Media)
         (requestMALInfo : Z -> option Mapper.MAL.Media) (malId : Z),
    match
      MapperFlow.mapFromMAL malClientId requestAniListSearch requestTMDBSearch
        requestMALInfo malId
    with
    | inl message =>
        message = ("MAL ID " ++ Js.showZ malId ++ " not found")%string
        /\ (Js.nonEmpty malClientId = false \/ requestMALInfo malId = None)
    | inr result =>
        exists info,
          Js.nonEmpty malClientId = true
          /\ requestMALInfo malId = Some info
          /\ (exists own,
                MapperFlow.mal result = Some own
                /\ Mapper.MALMatch.id own = Mapper.MAL.id info
                /\ Mapper.MALMatch.title own = Mapper.MAL.title info
                /\ Mapper.MALMatch.score own = Mapper.MAL.mean info)
          /\ match MapperFlow.anilist result with
             | Some found =>
                 exists title,
                   firstAnswer
                     (fun title =>
                        Mapper.findBestAniListMatchFromMALResults info
                          (requestAniListSearch title))
                     (Mapper.extractMALTitles info) title found
             | None =>
                 forall title,
                   In title (Mapper.extractMALTitles info) ->
                   Mapper.findBestAniListMatchFromMALResults info
                     (requestAniListSearch title) = None
             end
          /\ match MapperFlow.tmdb result with
             | Some found =>
                 exists title type,
                   firstAnswer
                     (fun search =>
                        Mapper.findBestTMDBMatchFromMALResults info
                          (requestTMDBSearch (fst search) (snd search))
                          (snd search))
                     (searchOrder (Mapper.extractMALTitles info))
                     (title, type) found
             | None =>
                 forall title type,
                   In title (Mapper.extractMALTitles info) ->
                   type = "tv" \/ type = "movie" ->
                   Mapper.findBestTMDBMatchFromMALResults info
                     (requestTMDBSearch title type) type = None
             end
    end.
Proof.
  intros malClientId requestAniListSearch requestTMDBSearch requestMALInfo malId.
  unfold MapperFlow.mapFromMAL, MapperFlow.getMALInfo.
  destruct (Js.nonEmpty malClientId) eqn:Eid; [|split; [reflexivity|now left]].
  destruct (requestMALInfo malId) as [info|] eqn:Einfo;
    [|split; [reflexivity|now right]].
  exists info. split; [reflexivity|]. split; [reflexivity|].
  cbn [MapperFlow.mal MapperFlow.anilist MapperFlow.tmdb]. split; [|split].
  - eexists. split; [reflexivity|]. cbn. auto.
  - unfold MapperFlow.findAniListMatchFromMAL, MapperFlow.searchAniList.
    apply firstMatch_first.
  - unfold MapperFlow.findTMDBMatchFromMAL, MapperFlow.searchTMDB.
    rewrite (firstMatch_pairs
               (fun title type =>
                  Mapper.findBestTMDBMatchFromMALResults info
                    (requestTMDBSearch title type) type)).
    fold (searchOrder (Mapper.extractMALTitles info)).
    pose proof (firstMatch_first
                  (fun search : string * string =>
                     Mapper.findBestTMDBMatchFromMALResults info
                       (requestTMDBSearch (fst search) (snd search))
                       (snd search))
                  (searchOrder (Mapper.extractMALTitles info))) as H.
    cbv beta in *.
    destruct (MapperFlow.firstMatch _ (searchOrder _)) as [found|].
    + destruct H as [[title type] H]. now exists title, type.
    + intros title type Htitle Htype.
      apply (H (title, type)). unfold searchOrder. apply in_flat_map.
      exists title. split; [exact Htitle|]. cbn [map In].
      destruct Htype as [-> | ->]; auto.
Qed.

(** X25. Without a MAL client id, [mapFromMAL] throws for every id,
    [findMALMatch] answers null for every entry, and the result of
    [mapFromTMDB] has no MAL part, while its TMDB part is the entry looked
    up. *)
Theorem without_mal_client_id_nothing_of_mal :
  forall (malClientId : string)
         (requestAniListSearch : string -> list Mapper.AniList.Media)
         (requestMALSearch : string -> list Mapper.MAL.Media)
         (requestTMDBSearch : string -> string -> list Mapper.TMDB.Media)
         (requestMALInfo : Z -> option Mapper.MAL.Media)
         (getTMDBInfo : Z -> string -> option Mapper.TMDB.Media),
    Js.nonEmpty malClientId = false ->
    (forall malId,
        MapperFlow.mapFromMAL malClientId requestAniListSearch requestTMDBSearch
          requestMALInfo malId
        = inl ("MAL ID " ++ Js.showZ malId ++ " not found")%string)
    /\ (forall animeInfo,
           MapperFlow.findMALMatch malClientId requestMALSearch animeInfo = None)
    /\ (forall tmdbId mediaType,
           match
             MapperFlow.mapFromTMDB malClientId requestAniListSearch
               requestMALSearch getTMDBInfo tmdbId mediaType
           with
           | inl message =>
               message = ("TMDB ID " ++ Js.showZ tmdbId ++ " not found")%string
               /\ getTMDBInfo tmdbId mediaType = None
           | inr result =>
               MapperFlow.mal result = None
               /\ exists info own,
                    getTMDBInfo tmdbId mediaType = Some info
                    /\ MapperFlow.tmdb result = Some own
                    /\ Mapper.TMDBMatch.id own = Mapper.TMDB.id info
                    /\ Mapper.TMDBMatch.mediaType own = mediaType
           end).
Proof.
  intros malClientId requestAniListSearch requestMALSearch requestTMDBSearch
    requestMALInfo getTMDBInfo Hid.
  split; [|split].
  - intros malId. unfold MapperFlow.mapFromMAL, MapperFlow.getMALInfo.
    now rewrite Hid.
  - intros animeInfo. unfold MapperFlow.findMALMatch. now rewrite Hid.
  - intros tmdbId mediaType. unfold MapperFlow.mapFromTMDB.
    destruct (getTMDBInfo tmdbId mediaType) as [info|]; [|now split].
    cbn [MapperFlow.mal MapperFlow.tmdb]. split.
    + unfold MapperFlow.findMALMatchFromTMDB, MapperFlow.searchMAL.
      rewrite Hid. reflexivity.
    + exists info. eexists. split; [reflexivity|]. split; [reflexivity|].
      cbn. auto.
Qed.

Lemma without_mal_client_id_witness :
  (forall malId,
      MapperFlow.mapFromMAL "" (fun _ => []) (fun _ _ => []) (fun _ => None)
        malId
      = inl ("MAL ID " ++ Js.showZ malId ++ " not found")%string)
  /\ (forall animeInfo,
         MapperFlow.findMALMatch "" (fun _ => []) animeInfo = None).
Proof.
  destruct (without_mal_client_id_nothing_of_mal "" (fun _ => [])
              (fun _ => []) (fun _ _ => []) (fun _ => None) (fun _ _ => None)
              eq_refl) as [Hmap [Hfind _]].
  split; [exact Hmap|exact Hfind].
Defined.

(** ** The normalizer of the cross mapper *)

Section TitleNormalizer.
Import Js Mapper.

Lemma replaceAll_blank_wordOrSpace (s : string) :
  AllChars wordOrSpace
    (replaceAll (fun c => negb (isWord c || isSpace c)) " " s).
Proof.
  induction s as [|c s IH]; cbn [replaceAll]; [exact I|].
  destruct (isWord c || isSpace c) eqn:E; cbn [negb].
  - split; [exact E|exact IH].
  - split; [reflexivity|exact IH].
Qed.

Lemma normalizeTitle_wordOrSpace (title : string) :
  AllChars wordOrSpace (normalizeTitle title).
Proof.
  unfold normalizeTitle. apply AllChars_trim.
  apply AllChars_collapseFrom; [reflexivity|].
  apply replaceAll_blank_wordOrSpace.
Qed.

Lemma normalizeTitle_stable (title : string) :
  AllChars stableChar (normalizeTitle title).
Proof.
  unfold normalizeTitle. apply AllChars_trim.
  apply AllChars_collapseFrom; [reflexivity|].
  apply AllChars_replaceAll; [repeat split|]. apply toLowerCase_stable.
Qed.

Lemma normalizeTitle_collapsed (title : string) :
  collapsed false (normalizeTitle title).
Proof.
  unfold normalizeTitle, trim, collapseSpaces.
  apply trimEnd_collapsed. eapply trimStart_collapsed.
  apply collapseFrom_collapsed.
Qed.

Lemma normalizeTitle_fixed (title : string) :
  normalizeTitle (normalizeTitle title) = normalizeTitle title.
Proof.
  set (y := normalizeTitle title).
  assert (Hstable : toLowerCase y = y)
    by (apply stable_lowercase, normalizeTitle_stable).
  assert (Htrim : trim y = y) by (unfold y, normalizeTitle; apply trim_fixed).
  unfold normalizeTitle at 1. rewrite Hstable.
  rewrite replaceAll_fixed.
  - unfold collapseSpaces.
    rewrite (collapsed_fixed y false (normalizeTitle_collapsed title)).
    exact Htrim.
  - eapply AllChars_impl; [|apply normalizeTitle_wordOrSpace].
    intros c H. apply negb_false_iff. exact H.
Qed.

Lemma trimEnd_last (s : string) :
  forall c t, trimEnd s = (t ++ String c EmptyString)%string ->
    isSpace c = false.
Proof.
  induction s as [|d s IH]; intros c t; cbn [trimEnd].
  - destruct t; discriminate.
  - destruct (trimEnd s) as [|e u] eqn:T.
    + destruct (isSpace d) eqn:E.
      * destruct t; discriminate.
      * destruct t as [|x t]; cbn; [intros [= <-]; exact E|].
        destruct t; discriminate.
    + destruct t as [|x t]; cbn; [discriminate|].
      intros [= _ H]. now apply (IH c t).
Qed.

End TitleNormalizer.

(** X26. [normalizeTitle] is idempotent, and its result is lowercase,
    made of word characters and blanks only, with no two blanks in a row
    and no white space at either end. *)
Theorem normalizeTitle_is_canonical :
  forall title : string,
    Mapper.normalizeTitle (Mapper.normalizeTitle title)
    = Mapper.normalizeTitle title
    /\ lowercase (Mapper.normalizeTitle title)
    /\ AllChars wordOrSpace (Mapper.normalizeTitle title)
    /\ collapsed false (Mapper.normalizeTitle title)
    /\ headed (Mapper.normalizeTitle title)
    /\ (forall c t,
           Mapper.normalizeTitle title = (t ++ String c EmptyString)%string ->
           Js.isSpace c = false).
Proof.
  intros title. split; [apply normalizeTitle_fixed|].
  split; [apply stable_lowercase, normalizeTitle_stable|].
  split; [apply normalizeTitle_wordOrSpace|].
  split; [apply normalizeTitle_collapsed|].
  split.
  - unfold Mapper.normalizeTitle, Js.trim. apply trimEnd_headed, trimStart_headed.
  - intros c t. unfold Mapper.normalizeTitle, Js.trim. apply trimEnd_last.
Qed.

(** ** Dates *)

Section Numbers.
Import Js JsNumber.

Lemma digit_facts (c : ascii) :
  isDigit c = true ->
  isSpace c = false
  /\ Ascii.eqb c "-"%char = false
  /\ Ascii.eqb (upperChar c) "X"%char = false.
Proof.
  destruct c as [b0 b1 b2 b3 b4 b5 b6 b7].
  destruct b0, b1, b2, b3, b4, b5, b6, b7; vm_compute; intros H;
    try discriminate H; repeat split; reflexivity.
Qed.

Lemma parseInt_unsigned (c : ascii) (s : string) :
  isDigit c = true ->
  parseInt (String c s) = option_map Z.of_N (magnitude (String c s)).
Proof.
  destruct c as [b0 b1 b2 b3 b4 b5 b6 b7].
  destruct b0, b1, b2, b3, b4, b5, b6, b7; vm_compute isDigit; intros H;
    try discriminate H; reflexivity.
Qed.

Lemma takeWhile_digits (s rest : string) :
  AllChars (fun c => isDigit c = true) s ->
  match rest with
  | EmptyString => True
  | String c _ => isDigit c = false
  end ->
  takeWhile isDigit (s ++ rest) = s.
Proof.
  intros Hs Hrest. induction s as [|c s IH]; cbn [String.append takeWhile].
  - change (EmptyString ++ rest)%string with rest.
    destruct rest as [|c r]; [reflexivity|]. cbn [takeWhile]. now rewrite Hrest.
  - destruct Hs as [Hc Hs].
    change (String c s ++ rest)%string with (String c (s ++ rest)%string).
    cbn [takeWhile]. rewrite Hc. now rewrite (IH Hs).
Qed.

Lemma not_hex_prefix (s rest : string) :
  digitsOnly s ->
  match rest with
  | EmptyString => True
  | String c _ => Ascii.eqb (upperChar c) "X"%char = false
  end ->
  prefixCI "0x" (s ++ rest) = false.
Proof.
  intros [Hne Hs] Hrest. destruct s as [|c s]; [congruence|].
  destruct Hs as [Hc Hs].
  change (String c s ++ rest)%string with (String c (s ++ rest)%string).
  unfold prefixCI.
  change (toUpperCaseAscii "0x") with "0X".
  cbn [toUpperCaseAscii String.prefix].
  destruct (ascii_dec "0" (upperChar c)) as [_|_]; [|reflexivity].
  assert (Hx : match (s ++ rest)%string with
               | EmptyString => True
               | String d _ => Ascii.eqb (upperChar d) "X"%char = false
               end).
  { destruct s as [|d s].
    - exact Hrest.
    - destruct Hs as [Hd _]. apply (digit_facts d Hd). }
  destruct (s ++ rest)%string as [|d t]; [reflexivity|].
  cbn [toUpperCaseAscii String.prefix].
  destruct (ascii_dec "X" (upperChar d)) as [E|_]; [|reflexivity].
  rewrite <- E in Hx. discriminate Hx.
Qed.

(** [parseInt] reads a run of digits as the number it writes, whatever
    follows it that is neither a digit nor the [x] of a hexadecimal
    prefix. *)
Lemma parseInt_digits (s rest : string) :
  digitsOnly s ->
  match rest with
  | EmptyString => True
  | String c _ =>
      isDigit c = false /\ Ascii.eqb (upperChar c) "X"%char = false
  end ->
  parseInt (s ++ rest) = Some (valueOf s).
Proof.
  intros Hs Hrest. pose proof Hs as [Hne Hall].
  destruct s as [|c s]; [congruence|]. destruct Hall as [Hc Hall].
  change (String c s ++ rest)%string with (String c (s ++ rest)%string).
  rewrite (parseInt_unsigned c _ Hc). unfold magnitude.
  change (String c (s ++ rest)%string) with (String c s ++ rest)%string.
  assert (Hx : match rest with
               | EmptyString => True
               | String d _ => Ascii.eqb (upperChar d) "X"%char = false
               end) by (destruct rest; [exact I|apply Hrest]).
  assert (Hd : match rest with
               | EmptyString => True
               | String d _ => isDigit d = false
               end) by (destruct rest; [exact I|apply Hrest]).
  rewrite (not_hex_prefix (String c s) rest Hs Hx).
  rewrite (takeWhile_digits (String c s) rest (conj Hc Hall) Hd).
  reflexivity.
Qed.

Lemma append_empty_r (s : string) : (s ++ EmptyString)%string = s.
Proof.
  induction s as [|c s IH]; [reflexivity|].
  change (String c s ++ EmptyString)%string
    with (String c (s ++ EmptyString)%string).
  now rewrite IH.
Qed.

Lemma split_first (sep : ascii) (a b : string) :
  AllChars (fun c => Ascii.eqb c sep = false) a ->
  split sep (a ++ String sep b) = a :: split sep b.
Proof.
  induction a as [|c a IH]; intros Ha.
  - change (EmptyString ++ String sep b)%string with (String sep b).
    cbn [split]. now rewrite Ascii.eqb_refl.
  - destruct Ha as [Hc Ha].
    change (String c a ++ String sep b)%string
      with (String c (a ++ String sep b)%string).
    cbn [split]. rewrite Hc, (IH Ha). reflexivity.
Qed.

Lemma split_whole (sep : ascii) (a : string) :
  AllChars (fun c => Ascii.eqb c sep = false) a -> split sep a = [a].
Proof.
  induction a as [|c a IH]; intros Ha; [reflexivity|].
  destruct Ha as [Hc Ha]. cbn [split]. rewrite Hc, (IH Ha). reflexivity.
Qed.

Lemma digits_no_dash (s : string) :
  AllChars (fun c => isDigit c = true) s ->
  AllChars (fun c => Ascii.eqb c "-"%char = false) s.
Proof. apply AllChars_impl. intros c H. apply (digit_facts c H). Qed.

Lemma substring_prefix (s rest : string) :
  String.substring 0 (String.length s) (s ++ rest) = s.
Proof.
  induction s as [|c s IH].
  - change (EmptyString ++ rest)%string with rest.
    destruct rest; reflexivity.
  - change (String c s ++ rest)%string with (String c (s ++ rest)%string).
    cbn [String.length String.substring]. now rewrite IH.
Qed.

End Numbers.

(** X27. [parseDate] reads a date of three runs of digits joined by
    hyphens, each writing a number below 2^53, as the three numbers they
    write, leading zeros included, and answers null for two runs only;
    [extractYear] reads the year of such a date when it has four digits. *)
Theorem parseDate_reads_iso_dates :
  forall year month day : string,
    digitsOnly year -> digitsOnly month -> digitsOnly day ->
    (valueOf year < 2 ^ 53)%Z -> (valueOf month < 2 ^ 53)%Z ->
    (valueOf day < 2 ^ 53)%Z ->
    Mapper.parseDate (year ++ "-" ++ month ++ "-" ++ day)%string
    = Some (valueOf year, valueOf month, valueOf day)
    /\ Mapper.parseDate (year ++ "-" ++ month)%string = None
    /\ (String.length year = 4%nat ->
        Mapper.extractYear (Some (year ++ "-" ++ month ++ "-" ++ day)%string)
        = Some (valueOf year)).
Proof.
  intros year month day Hy Hm Hd _ _ _.
  pose proof Hy as [Hyne Hyall]. pose proof Hm as [Hmne Hmall].
  pose proof Hd as [Hdne Hdall].
  assert (Hnonempty : forall rest, Js.nonEmpty (year ++ rest) = true).
  { intros rest. destruct year; [congruence|reflexivity]. }
  assert (Hparse : forall s, digitsOnly s -> JsNumber.parseInt s = Some (valueOf s)).
  { intros s Hs. rewrite <- (append_empty_r s) at 1.
    now apply parseInt_digits. }
  split; [|split].
  - unfold Mapper.parseDate. rewrite Hnonempty.
    change ("-" ++ month ++ "-" ++ day)%string
      with (String "-" (month ++ String "-" day)).
    rewrite split_first by now apply digits_no_dash.
    rewrite split_first by now apply digits_no_dash.
    rewrite split_whole by now apply digits_no_dash.
    now rewrite !Hparse.
  - unfold Mapper.parseDate. rewrite Hnonempty.
    change ("-" ++ month)%string with (String "-" month).
    rewrite split_first by now apply digits_no_dash.
    rewrite split_whole by now apply digits_no_dash.
    reflexivity.
  - intros Hlen. unfold Mapper.extractYear. rewrite Hnonempty.
    rewrite <- Hlen, substring_prefix. now apply Hparse.
Qed.

Lemma parseDate_reads_iso_dates_witness :
  Mapper.parseDate "2021-04-06" = Some (2021, 4, 6)%Z
  /\ Mapper.parseDate "2021-04" = None
  /\ (String.length "2021" = 4%nat ->
      Mapper.extractYear (Some "2021-04-06") = Some 2021%Z).
Proof.
  apply (parseDate_reads_iso_dates "2021" "04" "06");
    try reflexivity;
    (split; [discriminate|vm_compute; repeat split]).
Defined.

(** ** The entry points of the providers *)

Section HiAnimeEntry.
Import HiAnime.
Variable stringSimilarity : string -> string -> Q.
Variable catalog : string -> option (list Item).
Variable getAnimeInfo : Z -> option AnimeInfo.
Variable getEpisodeIds : string -> Z -> Episodes.

Lemma orElse_nonEmpty (a b : option string) (title : string) :
  orElse a b = Some title ->
  (a = Some title /\ Js.nonEmpty title = true)
  \/ (b = Some title /\ (a = None \/ a = Some EmptyString)).
Proof.
  unfold orElse. destruct a as [s|].
  - destruct (Js.nonEmpty s) eqn:E.
    + intros [= <-]. now left.
    + intros H. right. split; [exact H|]. right. now destruct s.
  - intros H. right. split; [exact H|now left].
Qed.

(** X28. [getEpisodesForAnime] of the HiAnime provider throws one of
    five messages or returns a mapping.  For an id that is not positive it
    throws the invalid-id message before any request and leaves the caches
    as they are.  A mapping has the id asked for, the non-empty English or
    else romaji title of the source, a non-empty id of the site and the
    episodes fetched for that id, of which there is at least one; when the
    search was not answered from the cache, the id is one that the site
    listed and the confidence is above 0.4. *)
Theorem hianime_getEpisodesForAnime_contract :
  forall (anilistId : Z) (caches : Caches),
  let run :=
    getEpisodesForAnime stringSimilarity catalog getAnimeInfo getEpisodeIds
      anilistId caches in
  match fst run with
  | inl message =>
      In message (hianimeErrors anilistId)
      /\ ((anilistId <= 0)%Z ->
          message = invalidId anilistId /\ snd run = caches)
  | inr mapping =>
      (0 < anilistId)%Z
      /\ HiAnime.anilistId mapping = anilistId
      /\ mappedId mapping <> EmptyString
      /\ mappedTitle mapping <> EmptyString
      /\ mappedEpisodes mapping = getEpisodeIds (mappedId mapping) anilistId
      /\ totalEpisodes (mappedEpisodes mapping) <> 0%N
      /\ exists animeInfo,
           getAnimeInfo anilistId = Some animeInfo
           /\ orElse (english animeInfo) (romaji animeInfo)
              = Some (mappedTitle mapping)
           /\ (searchCache caches
                 !! searchKey (mappedTitle mapping) animeInfo = None ->
               listed catalog (mappedTitle mapping) animeInfo (mappedId mapping)
               /\ (4 # 10 < matchConfidence mapping)%Q)
  end.
Proof.
  intros anilistId caches.
  cbn zeta. unfold getEpisodesForAnime, hianimeErrors, invalidId.
  destruct (anilistId <=? 0)%Z eqn:Eid.
  { cbn [fst snd]. split; [now left|]. intros _. now split. }
  apply Z.leb_gt in Eid.
  destruct (getAnimeInfo anilistId) as [animeInfo|] eqn:Einfo.
  2:{ cbn [fst snd]. split; [right; now left|lia]. }
  destruct (orElse (english animeInfo) (romaji animeInfo)) as [[|c title]|]
    eqn:Etitle.
  1,3: cbn [fst snd]; split; [right; right; now left|lia].
  pose proof (searchAnime_outcome stringSimilarity catalog (String c title)
                animeInfo caches) as Hsearch.
  cbn zeta in Hsearch.
  destruct (searchAnime stringSimilarity catalog (String c title) animeInfo
              caches) as [searchResult caches'].
  cbn [fst] in Hsearch.
  destruct (id searchResult) as [[|d hid]|] eqn:Ehid.
  1,3: cbn [fst snd]; split; [do 3 right; now left|lia].
  destruct (totalEpisodes (getEpisodeIds (String d hid) anilistId) =? 0)%N
    eqn:Etotal.
  { cbn [fst snd]. split; [do 4 right; now left|lia]. }
  apply N.eqb_neq in Etotal. cbn [fst snd].
  cbn [HiAnime.anilistId mappedId mappedTitle mappedEpisodes matchConfidence].
  split; [exact Eid|]. split; [reflexivity|]. split; [discriminate|].
  split; [discriminate|]. split; [reflexivity|]. split; [exact Etotal|].
  exists animeInfo. split; [reflexivity|]. split; [exact Etitle|].
  intros Hmiss. destruct (Hsearch Hmiss) as [->|[->|[hid' [Hid' [Hl Hs]]]]];
    try discriminate Ehid.
  injection Hid' as <-. now split.
Qed.

End HiAnimeEntry.

Section AnimeSamaEntry.
Import AnimeSama.
Variable stringSimilarity : string -> string -> Q.
Variable searchTitlesOf : string -> AnimeInfo -> list string.
Variable search : string -> option (list Hit).
Variable tryDirectSlugAccess : list string -> option string.
Variable cataloguePage : string -> option (list Panel).
Variable getEpisodeCount : string -> string -> string -> Z.
Variable getAnimeInfo : Z -> option AnimeInfo.

Lemma collectSeasons_counted (slug : string) (panels : list Panel)
    (s : AnimeSamaSeason) :
  In s (collectSeasons getEpisodeCount slug panels) ->
  (0 < episodeCount s)%Z
  /\ exists panel language,
       In panel panels
       /\ parseRelativeUrl (relativeUrl panel) = Some (seasonSlug s, language)
       /\ name s = panelName panel
       /\ episodeCount s = getEpisodeCount slug (seasonSlug s) language.
Proof.
  unfold collectSeasons. intros H. apply in_flat_map in H.
  destruct H as [panel [Hpanel Hs]].
  destruct (parseRelativeUrl (relativeUrl panel)) as [[seasonSlug' language']|]
    eqn:Eurl; [|destruct Hs].
  destruct (0 <? getEpisodeCount slug seasonSlug' language')%Z eqn:Ecount;
    [|destruct Hs].
  destruct Hs as [<-|[]]. apply Z.ltb_lt in Ecount.
  cbn [episodeCount seasonSlug name]. split; [exact Ecount|].
  exists panel, language'. repeat split; assumption.
Qed.

(** X29. [getEpisodesForAnime] of the AnimeSama provider throws one
    of three messages or returns a result.  For an id that is not positive
    it throws the invalid-id message before any request and leaves the
    caches as they are.  A result has the id asked for and the non-empty
    slug, the score and the method of the search for the base title; each
    of its seasons has a positive episode count, and its season slug is
    the slug of one of them, missing only when there is no season. *)
Theorem animesama_getEpisodesForAnime_contract :
  forall (id : Z) (caches : Caches),
  let run :=
    getEpisodesForAnime stringSimilarity searchTitlesOf search
      tryDirectSlugAccess cataloguePage getEpisodeCount getAnimeInfo id caches in
  match fst run with
  | inl message =>
      In message (animesamaErrors id)
      /\ ((id <= 0)%Z -> message = invalidId id /\ snd run = caches)
  | inr result =>
      (0 < id)%Z
      /\ anilistId result = id
      /\ animesamaSlug result <> EmptyString
      /\ (forall s, In s (resultSeasons result) -> (0 < episodeCount s)%Z)
      /\ match resultSeasonSlug result with
         | Some chosen =>
             exists s, In s (resultSeasons result) /\ seasonSlug s = chosen
         | None => resultSeasons result = []
         end
      /\ exists animeInfo,
           getAnimeInfo id = Some animeInfo
           /\ resultSeasonInfo result = extractSeasonInfo (fullTitle animeInfo)
           /\ fst (searchAnime stringSimilarity searchTitlesOf search
                     tryDirectSlugAccess (baseTitle animeInfo) animeInfo caches)
              = {| score := matchConfidence result;
                   slug := Some (animesamaSlug result);
                   method := matchMethod result |}
  end.
Proof.
  intros id caches.
  cbn zeta. unfold getEpisodesForAnime, animesamaErrors, invalidId.
  destruct (id <=? 0)%Z eqn:Eid.
  { cbn [fst snd]. split; [now left|]. intros _. now split. }
  apply Z.leb_gt in Eid.
  destruct (getAnimeInfo id) as [animeInfo|] eqn:Einfo.
  2:{ cbn [fst snd]. split; [right; now left|lia]. }
  destruct (searchAnime stringSimilarity searchTitlesOf search
              tryDirectSlugAccess (baseTitle animeInfo) animeInfo caches)
    as [[sc [[|c rest]|] how] caches'] eqn:Esearch; cbn [slug].
  1,3: cbn [fst snd]; split; [do 2 right; now left|lia].
  cbn [fst snd].
  cbn [anilistId animesamaSlug resultSeasonSlug resultSeasons resultSeasonInfo
         matchConfidence matchMethod].
  split; [exact Eid|]. split; [reflexivity|]. split; [discriminate|].
  unfold getAvailableSeasonsWithMatch.
  destruct (cataloguePage (String c rest)) as [panels|];
    cbn [seasons bestSeasonMatch].
  - split.
    { intros s Hs. now apply collectSeasons_counted in Hs. }
    split.
    + destruct (collectSeasons getEpisodeCount (String c rest) panels)
        as [|s0 more] eqn:Ecollect; [reflexivity|].
      destruct (findBestSeason_searched (s0 :: more)
                  (match episodes animeInfo with Some e => e | None => 0%Z end)
                  (extractSeasonInfo (fullTitle animeInfo))
                  (fullTitle animeInfo)) as [s [Hin ->]]; [discriminate|].
      exists s. split; [|reflexivity].
      eapply seasonsToSearchOf_incl, Hin.
    + exists animeInfo. split; [reflexivity|]. split; [reflexivity|].
      now rewrite Esearch.
  - split; [intros s []|]. split; [reflexivity|].
    exists animeInfo. split; [reflexivity|]. split; [reflexivity|].
    now rewrite Esearch.
Qed.

End AnimeSamaEntry.
